(** * Verification of the mazegen library (maze.c, mazegen.c)

    A shallow embedding of the maze generator, the path solver and the
    grid primitives of [maze.c], with the theorems that settle the
    properties stated about them.

    Conventions of the embedding.
    - [rowcol_t] is C's [unsigned int]: an integer in [Z] reduced modulo
      [2^32] wherever the C code computes.
    - An array is a list read and written through [rd] and [wr]; an access
      outside the block is undefined behaviour in C and is the outcome
      [Crash] here, as is a failed [assert].
    - A loop whose trip count is not known in advance takes fuel; running
      out of fuel is the outcome [Timeout] and stands for a computation
      that has not returned yet.
    - The random source [rand_f] is a stream of rationals together with the
      number of calls made so far.  In [reshuffle] and [scan_cell] the
      product of the random value with a count is taken exactly, where the
      machine rounds it to a double; [reshuffle_rounded] is the reshuffle
      with the rounded product, and [rounded_index_is_exact_index] shows
      that every index the machine takes from a double of [0, 1) is the
      index the exact product gives at some rational of [0, 1), so that
      what is proved for every source of the unit interval covers the
      runs with rounding. *)

From Stdlib Require Import ZArith QArith Qround List Lia Bool Arith Permutation.
Import ListNotations.
Open Scope Z_scope.

(** ** Machine integers *)

Abbreviation rowcol_t := Z (only parsing).

Definition wB : Z := 2 ^ 32.

Definition wrap (z : Z) : rowcol_t := z mod wB.

(** ** Outcomes of a C computation *)

Inductive outcome (A : Type) : Type :=
| Ret (a : A)
| Crash
| Timeout.

Arguments Ret {A} a.
Arguments Crash {A}.
Arguments Timeout {A}.

Definition bind {A B : Type} (m : outcome A) (f : A -> outcome B) : outcome B :=
  match m with
  | Ret a => f a
  | Crash => Crash
  | Timeout => Timeout
  end.

Notation "x <- m ;; k" := (bind m (fun x => k))
  (at level 61, m at next level, right associativity).
Notation "' p <- m ;; k" := (bind m (fun p => k))
  (at level 61, p pattern, m at next level, right associativity).

Definition assert (b : bool) : outcome unit := if b then Ret tt else Crash.

(** ** Arrays *)

Definition rd {A : Type} (l : list A) (i : Z) : outcome A :=
  if (0 <=? i) && (i <? Z.of_nat (length l)) then
    match nth_error l (Z.to_nat i) with
    | Some a => Ret a
    | None => Crash
    end
  else Crash.

Fixpoint upd {A : Type} (l : list A) (n : nat) (a : A) : list A :=
  match l, n with
  | [], _ => []
  | _ :: t, O => a :: t
  | h :: t, S n' => h :: upd t n' a
  end.

Definition wr {A : Type} (l : list A) (i : Z) (a : A) : outcome (list A) :=
  if (0 <=? i) && (i <? Z.of_nat (length l)) then Ret (upd l (Z.to_nat i) a)
  else Crash.

(** [malloc heap n]: [heap = None] is the failing allocation; otherwise the
    block has [n] elements whose initial contents [init] are arbitrary. *)
Definition malloc {A : Type} (heap : option (nat -> A)) (n : Z) : option (list A) :=
  match heap with
  | None => None
  | Some init => Some (map init (seq 0 (Z.to_nat n)))
  end.

(** [for (i = lo; ...; ++i)] run for [n] iterations. *)
Fixpoint for_up {S : Type} (n : nat) (i : Z) (body : Z -> S -> outcome S) (s : S)
  : outcome S :=
  match n with
  | O => Ret s
  | Datatypes.S n' => s' <- body i s ;; for_up n' (i + 1) body s'
  end.

(** ** The random source *)

Definition rand_f : Type := nat -> Q.

(** The C cast [(rowcol_t)(double)]: truncation toward zero. *)
Definition to_rowcol (q : Q) : rowcol_t := wrap (Z.quot (Qnum q) (Z.pos (Qden q))).

(** Ordinary rounding to the nearest integer, used only to state the
    wording of the specification about the shuffle. *)
Definition round_nearest (q : Q) : Z := Qfloor (q + (1 # 2))%Q.

(** ** Data model of maze.h

    Modelled from the spec: the header maze.h is not among the sources. The
    directions follow the rotation Up, Right, Down, Left that
    [maze_find_path] steps through with [(c_dir + 1) % 4]; a cell has the
    four fields the code reads and writes; the grid is a dense row-major
    array, so [OFFSET] is [r * n_cols + c] in [unsigned int] arithmetic and
    [CELLV] is the array element at that offset. *)

Definition DIR_U : Z := 0.
Definition DIR_R : Z := 1.
Definition DIR_D : Z := 2.
Definition DIR_L : Z := 3.

Record maze_node : Type := mk_node {
  r_wall : bool;
  b_wall : bool;
  marker : Z;
  visit : bool
}.

(** A null pointer is the empty block: every access to it crashes. *)
Record maze_t : Type := mk_maze {
  n_rows : rowcol_t;
  n_cols : rowcol_t;
  cells : list maze_node;
  sets : list rowcol_t;
  exit_1 : rowcol_t;
  exit_2 : rowcol_t
}.

Definition with_cells (mp : maze_t) (cs : list maze_node) : maze_t :=
  mk_maze (n_rows mp) (n_cols mp) cs (sets mp) (exit_1 mp) (exit_2 mp).

Definition with_sets (mp : maze_t) (ss : list rowcol_t) : maze_t :=
  mk_maze (n_rows mp) (n_cols mp) (cells mp) ss (exit_1 mp) (exit_2 mp).

Definition OFFSET (mp : maze_t) (r c : rowcol_t) : rowcol_t :=
  wrap (r * n_cols mp + c).

Definition set_r_wall (n : maze_node) (b : bool) : maze_node :=
  mk_node b (b_wall n) (marker n) (visit n).
Definition set_b_wall (n : maze_node) (b : bool) : maze_node :=
  mk_node (r_wall n) b (marker n) (visit n).
Definition set_marker (n : maze_node) (d : Z) : maze_node :=
  mk_node (r_wall n) (b_wall n) d (visit n).
Definition set_visit (n : maze_node) (b : bool) : maze_node :=
  mk_node (r_wall n) (b_wall n) (marker n) b.

(** [CELLV(mp, r, c).field = v] *)
Definition cell_update (mp : maze_t) (off : rowcol_t) (f : maze_node -> maze_node)
  : outcome maze_t :=
  n <- rd (cells mp) off ;;
  cs <- wr (cells mp) off (f n) ;;
  Ret (with_cells mp cs).

(** Population count for adjacent cell values. *)
Definition adj_pop : list rowcol_t :=
  [0; 1; 1; 2; 1; 2; 2; 3; 1; 2; 2; 3; 2; 3; 3; 4].

(** ** s_can_move *)

Definition s_can_move (mp : maze_t) (r c : rowcol_t) (dir : Z) : outcome bool :=
  _ <- assert ((0 <=? dir) && (dir <? 4)) ;;
  if dir =? DIR_U then
    if 0 <? r then
      n <- rd (cells mp) (OFFSET mp (wrap (r - 1)) c) ;; Ret (negb (b_wall n))
    else Ret false
  else if dir =? DIR_R then
    if c <? n_cols mp then
      n <- rd (cells mp) (OFFSET mp r c) ;; Ret (negb (r_wall n))
    else Ret false
  else if dir =? DIR_D then
    if r <? wrap (n_rows mp - 1) then
      n <- rd (cells mp) (OFFSET mp r c) ;; Ret (negb (b_wall n))
    else Ret false
  else
    if 0 <? c then
      n <- rd (cells mp) (OFFSET mp r (wrap (c - 1))) ;; Ret (negb (r_wall n))
    else Ret false.

(** ** s_findset, s_union, s_adj

    [pos / n_cols] with [n_cols = 0] is undefined behaviour in C: the
    [assert] before the division in [s_adj] stands for it. *)

Fixpoint s_findset (fuel : nat) (mp : maze_t) (pos : rowcol_t)
  : outcome (maze_t * rowcol_t) :=
  match fuel with
  | O => Timeout
  | S fuel' =>
    p <- rd (sets mp) pos ;;
    if negb (p =? pos) then
      ' (mp1, real) <- s_findset fuel' mp p ;;
      ss <- wr (sets mp1) pos real ;;
      v <- rd ss pos ;;
      Ret (with_sets mp1 ss, v)
    else
      Ret (mp, p)
  end.

Definition s_union (fuel : nat) (mp : maze_t) (pos1 pos2 : rowcol_t)
  : outcome maze_t :=
  ' (mp1, set1) <- s_findset fuel mp pos1 ;;
  ' (mp2, set2) <- s_findset fuel mp1 pos2 ;;
  ss <- wr (sets mp2) set1 set2 ;;
  Ret (with_sets mp2 ss).

(** One test [if (guard && s_findset(mp, off) != set) out |= (1 << dir)]. *)
Definition adj_probe (fuel : nat) (guard : bool) (off : rowcol_t) (set : rowcol_t)
  (dir : Z) (st : maze_t * rowcol_t) : outcome (maze_t * rowcol_t) :=
  let '(mp, out) := st in
  if guard then
    ' (mp1, s) <- s_findset fuel mp off ;;
    if negb (s =? set) then Ret (mp1, Z.lor out (Z.shiftl 1 dir))
    else Ret (mp1, out)
  else Ret (mp, out).

Definition s_adj (fuel : nat) (mp : maze_t) (pos : rowcol_t)
  : outcome (maze_t * rowcol_t) :=
  ' (mp0, set) <- s_findset fuel mp pos ;;
  _ <- assert (negb (n_cols mp0 =? 0)) ;;
  let r := pos / n_cols mp0 in
  let c := pos mod n_cols mp0 in
  st1 <- adj_probe fuel (0 <? r) (OFFSET mp0 (wrap (r - 1)) c) set DIR_U (mp0, 0) ;;
  st2 <- adj_probe fuel (r <? wrap (n_rows mp0 - 1))
           (OFFSET mp0 (wrap (r + 1)) c) set DIR_D st1 ;;
  st3 <- adj_probe fuel (0 <? c) (OFFSET mp0 r (wrap (c - 1))) set DIR_L st2 ;;
  adj_probe fuel (c <? wrap (n_cols mp0 - 1))
    (OFFSET mp0 r (wrap (c + 1))) set DIR_R st3.

(** ** maze_reset, maze_unmark, maze_init *)

Definition def_node : maze_node := mk_node true true DIR_U false.

Definition maze_reset (mp : maze_t) : outcome maze_t :=
  cs <- for_up (Z.to_nat (n_rows mp)) 0
          (fun r cs =>
             for_up (Z.to_nat (n_cols mp)) 0
               (fun c cs => wr cs (OFFSET mp r c) def_node) cs)
          (cells mp) ;;
  Ret (with_cells mp cs).

Definition maze_unmark (mp : maze_t) : outcome maze_t :=
  let n_cells := wrap (n_rows mp * n_cols mp) in
  cs <- for_up (Z.to_nat n_cells) 0
          (fun pos cs =>
             n <- rd cs pos ;;
             cs1 <- wr cs pos (set_visit n false) ;;
             n1 <- rd cs1 pos ;;
             wr cs1 pos (set_marker n1 DIR_U))
          (cells mp) ;;
  Ret (with_cells mp cs).

(** [EXIT] comes from maze.h, which is not among the sources, and stays a
    parameter: [maze_init] only stores what it returns. *)
Definition maze_init (EXIT : rowcol_t -> Z -> rowcol_t)
  (heap : option (nat -> maze_node)) (mp : maze_t) (nr nc : rowcol_t)
  : outcome (Z * maze_t) :=
  let n_cells := wrap (nr * nc) in
  _ <- assert (0 <? n_cells) ;;
  match malloc heap n_cells with
  | None => Ret (0, with_cells mp [])
  | Some block =>
    let mp1 := mk_maze nr nc block [] (EXIT 0 DIR_L) (EXIT (wrap (nr - 1)) DIR_R) in
    mp2 <- maze_reset mp1 ;;
    Ret (1, mp2)
  end.

(** ** maze_generate *)

(** The state of the generation loops: the maze (cells and path sets), the
    working queue, the counter [count] and the number of calls made to the
    random source. *)
Record gen_state : Type := mk_gen {
  g_mp : maze_t;
  g_queue : list rowcol_t;
  g_count : rowcol_t;
  g_calls : nat
}.

(** [for (pos = n_cells - 1; pos > 0; --pos)]: reshuffle the queue. *)
Fixpoint reshuffle (random : rand_f) (pos : nat) (st : list rowcol_t * nat)
  : outcome (list rowcol_t * nat) :=
  match pos with
  | O => Ret st
  | S pos' =>
    let '(queue, k) := st in
    let v := random k in
    let exch := to_rowcol (v * inject_Z (wrap (Z.of_nat pos + 1)))%Q in
    t <- rd queue (Z.of_nat pos) ;;
    e <- rd queue exch ;;
    q1 <- wr queue (Z.of_nat pos) e ;;
    q2 <- wr q1 exch t ;;
    reshuffle random pos' (q2, S k)
  end.

(** [for (wall = 0; wall < 4; ++wall)]: the direction of the wall to kick
    down; 4 when the loop runs to its end. *)
Fixpoint wall_loop (n : nat) (wall skip adj : rowcol_t) : rowcol_t :=
  match n with
  | O => wall
  | S n' =>
    if negb (Z.land (Z.shiftr adj wall) 1 =? 0) then
      if skip =? 0 then wall
      else wall_loop n' (wall + 1) (wrap (skip - 1)) adj
    else wall_loop n' (wall + 1) skip adj
  end.

(** [switch (wall)]: remove the wall and step to the neighbour. *)
Definition kick_down (mp : maze_t) (wall r c : rowcol_t)
  : outcome (maze_t * rowcol_t * rowcol_t) :=
  if wall =? DIR_U then
    let r1 := wrap (r - 1) in
    mp1 <- cell_update mp (OFFSET mp r1 c) (fun n => set_b_wall n false) ;;
    Ret (mp1, r1, c)
  else if wall =? DIR_R then
    mp1 <- cell_update mp (OFFSET mp r c) (fun n => set_r_wall n false) ;;
    Ret (mp1, r, wrap (c + 1))
  else if wall =? DIR_D then
    mp1 <- cell_update mp (OFFSET mp r c) (fun n => set_b_wall n false) ;;
    Ret (mp1, wrap (r + 1), c)
  else if wall =? DIR_L then
    let c1 := wrap (c - 1) in
    mp1 <- cell_update mp (OFFSET mp r c1) (fun n => set_r_wall n false) ;;
    Ret (mp1, r, c1)
  else Crash.

(** The body of the scan loop for queue index [pos].  The [assert] on
    [n_cols] stands for the division by zero, the [Crash] of [kick_down]
    for the [assert(0)] of the default case. *)
Definition scan_cell (fuel : nat) (random : rand_f) (pos : rowcol_t) (st : gen_state)
  : outcome gen_state :=
  cur <- rd (g_queue st) pos ;;
  ' (mp1, adj) <- s_adj fuel (g_mp st) cur ;;
  apop <- rd adj_pop adj ;;
  if apop =? 0 then
    Ret (mk_gen mp1 (g_queue st) (wrap (g_count st + 1)) (g_calls st))
  else
    let '(skip, k) :=
      if 1 <? apop
      then (to_rowcol (random (g_calls st) * inject_Z apop)%Q, S (g_calls st))
      else (0, g_calls st) in
    let wall := wall_loop 4 0 skip adj in
    _ <- assert (negb (n_cols mp1 =? 0)) ;;
    let r := cur / n_cols mp1 in
    let c := cur mod n_cols mp1 in
    ' (mp2, r1, c1) <- kick_down mp1 wall r c ;;
    mp3 <- s_union fuel mp2 (OFFSET mp2 r1 c1) cur ;;
    Ret (mk_gen mp3 (g_queue st) (g_count st) k).

(** [while (count < n_cells)]: one reshuffle and one scan per round. *)
Fixpoint gen_rounds (rounds fuel : nat) (random : rand_f) (n_cells : rowcol_t)
  (st : gen_state) : outcome gen_state :=
  match rounds with
  | O => Timeout
  | S rounds' =>
    if g_count st <? n_cells then
      ' (q, k) <- reshuffle random (Z.to_nat (wrap (n_cells - 1)))
                    (g_queue st, g_calls st) ;;
      st1 <- for_up (Z.to_nat n_cells) 0 (scan_cell fuel random)
               (mk_gen (g_mp st) q (g_count st) k) ;;
      gen_rounds rounds' fuel random n_cells st1
    else Ret st
  end.

(** Initially all cells belong to their own set and the queue is in scan
    order. *)
Definition gen_init (pos : rowcol_t) (st : list rowcol_t * maze_t)
  : outcome (list rowcol_t * maze_t) :=
  let '(queue, mp) := st in
  q1 <- wr queue pos pos ;;
  ss <- wr (sets mp) pos pos ;;
  Ret (q1, with_sets mp ss).

Definition maze_generate (fuel : nat) (heap_sets heap_queue : option (nat -> rowcol_t))
  (random : rand_f) (mp : maze_t) : outcome (Z * maze_t) :=
  let n_cells := wrap (n_rows mp * n_cols mp) in
  mp0 <- maze_reset mp ;;
  match malloc heap_sets n_cells with
  | None => Ret (0, with_sets mp0 [])
  | Some ss =>
    match malloc heap_queue n_cells with
    | None => Ret (0, with_sets mp0 [])
    | Some queue =>
      ' (queue1, mp1) <- for_up (Z.to_nat n_cells) 0 gen_init (queue, with_sets mp0 ss) ;;
      st <- gen_rounds fuel fuel random n_cells (mk_gen mp1 queue1 0 0) ;;
      Ret (1, with_sets (g_mp st) [])
    end
  end.

(** ** maze_find_path *)

(** [for (num_walls = 0; num_walls < 4; ++num_walls)]: find a direction to
    go which is a clear path, and mark it. *)
Fixpoint probe_dirs (n : nat) (mp : maze_t) (c_row c_col : rowcol_t) (c_dir : Z)
  : outcome (maze_t * Z) :=
  match n with
  | O => Ret (mp, c_dir)
  | S n' =>
    let c_dir1 := wrap (c_dir + 1) mod 4 in
    ok <- s_can_move mp c_row c_col c_dir1 ;;
    if ok then
      mp1 <- cell_update mp (OFFSET mp c_row c_col) (fun n => set_marker n c_dir1) ;;
      Ret (mp1, c_dir1)
    else probe_dirs n' mp c_row c_col c_dir1
  end.

(** [switch (dir)]: one step of a position in direction [dir]. *)
Definition step_dir (dir : Z) (c_row c_col : rowcol_t) : outcome (rowcol_t * rowcol_t) :=
  if dir =? DIR_U then Ret (wrap (c_row - 1), c_col)
  else if dir =? DIR_R then Ret (c_row, wrap (c_col + 1))
  else if dir =? DIR_D then Ret (wrap (c_row + 1), c_col)
  else if dir =? DIR_L then Ret (c_row, wrap (c_col - 1))
  else Crash.

(** The marker that points the way back after a move in direction [dir]. *)
Definition back_dir (dir : Z) : Z :=
  if dir =? DIR_U then DIR_D
  else if dir =? DIR_R then DIR_L
  else if dir =? DIR_D then DIR_U
  else DIR_R.

(** [for (;;)]: the search.  The check [assert(num_walls < 4 || "...")] of
    the source can never fail, a string literal being non-null, so it has no
    counterpart here. *)
Fixpoint search (fuel : nat) (mp : maze_t) (c_row c_col end_row end_col : rowcol_t)
  : outcome maze_t :=
  match fuel with
  | O => Timeout
  | S fuel' =>
    if (c_row =? end_row) && (c_col =? end_col) then Ret mp
    else
      n <- rd (cells mp) (OFFSET mp c_row c_col) ;;
      ' (mp1, c_dir) <- probe_dirs 4 mp c_row c_col (marker n) ;;
      ' (r, c) <- step_dir c_dir c_row c_col ;;
      mp2 <- cell_update mp1 (OFFSET mp1 r c) (fun n => set_marker n (back_dir c_dir)) ;;
      search fuel' mp2 r c end_row end_col
  end.

(** [do { ... } while (c_row != end_row || c_col != end_col)]: set the
    visited flags along the markers. *)
Fixpoint mark_route (fuel : nat) (mp : maze_t) (c_row c_col end_row end_col : rowcol_t)
  : outcome (maze_t * rowcol_t * rowcol_t) :=
  match fuel with
  | O => Timeout
  | S fuel' =>
    mp1 <- cell_update mp (OFFSET mp c_row c_col) (fun n => set_visit n true) ;;
    n <- rd (cells mp1) (OFFSET mp1 c_row c_col) ;;
    ' (r, c) <- step_dir (marker n) c_row c_col ;;
    if negb (r =? end_row) || negb (c =? end_col)
    then mark_route fuel' mp1 r c end_row end_col
    else Ret (mp1, r, c)
  end.

Definition maze_find_path (fuel : nat) (mp : maze_t)
  (start_row start_col end_row end_col : rowcol_t) : outcome maze_t :=
  mp0 <- maze_unmark mp ;;
  mp1 <- search fuel mp0 start_row start_col end_row end_col ;;
  ' (mp2, r, c) <- mark_route fuel mp1 start_row start_col end_row end_col ;;
  cell_update mp2 (OFFSET mp2 r c) (fun n => set_visit n true).

(** ** The default solution endpoints of mazegen.c

    [EPOS] and [EDIR] come from maze.h and stay parameters; [dflt] stands
    for the uninitialised value [main] keeps when no case applies. *)
Definition exit_cell (EPOS EDIR : rowcol_t -> Z) (mp : maze_t) (e : rowcol_t)
  (dflt : rowcol_t * rowcol_t) : rowcol_t * rowcol_t :=
  let pos := EPOS e in
  let dir := EDIR e in
  if dir =? DIR_U then (0, pos)
  else if dir =? DIR_D then (wrap (n_rows mp - 1), pos)
  else if dir =? DIR_L then (pos, 0)
  else if dir =? DIR_R then (pos, wrap (n_cols mp - 1))
  else dflt.

(** ** Vocabulary of the statements *)

(** A grid as [maze_init] builds it: at least one row and one column, a
    cell count that fits [rowcol_t], and a block of that many cells. *)
Definition grid_ok (mp : maze_t) : Prop :=
  1 <= n_rows mp /\ 1 <= n_cols mp /\ n_rows mp * n_cols mp < wB /\
  Z.of_nat (length (cells mp)) = n_rows mp * n_cols mp.

(** The wall bits of a cell, and the cell with its solver fields cleared. *)
Definition walls (n : maze_node) : bool * bool := (r_wall n, b_wall n).

Definition unmarked (n : maze_node) : maze_node :=
  mk_node (r_wall n) (b_wall n) DIR_U false.

(** The solver fields of a cell. *)
Definition marks (n : maze_node) : Z * bool := (marker n, visit n).

(** A grid of [r] by [c] cells, all equal to [n]. *)
Definition uniform_grid (r c : Z) (n : maze_node) : maze_t :=
  mk_maze r c (repeat n (Z.to_nat (r * c))) [] 0 0.

(** The exit encoding used to exercise [maze_init]: side in the two low
    bits, offset above them. *)
Definition EXIT_bits (p : rowcol_t) (d : Z) : rowcol_t := wrap (Z.lor (Z.shiftl p 2) d).
Definition EPOS_bits (e : rowcol_t) : rowcol_t := Z.shiftr e 2.
Definition EDIR_bits (e : rowcol_t) : Z := Z.land e 3.

(** A perfect maze of 2 by 2 cells: the open walls join (0,0)-(0,1),
    (0,0)-(1,0) and (0,1)-(1,1). *)
Definition perfect_2x2 : maze_t :=
  mk_maze 2 2
    [ mk_node false false DIR_U false; mk_node true false DIR_U false;
      mk_node true true DIR_U false;   mk_node true true DIR_U false ]
    [] 0 0.

(** A single cell whose right wall bit is clear, as [maze_load] can build
    it and as the renderers leave it after opening a Right exit. *)
Definition open_right_1x1 : maze_t :=
  mk_maze 1 1 [ mk_node false true DIR_U false ] [] 0 0.

(** A single cell left marked by an earlier solve. *)
Definition marked_1x1 : maze_t :=
  mk_maze 1 1 [ mk_node true true DIR_R true ] [] 0 0.

(** The wording of the specification for the shuffle: for [i] from the last
    index down to 1, swap element [i] with the element at index
    [index (random () * (i + 1))]. *)
Definition swapped (l : list rowcol_t) (i j : nat) : list rowcol_t :=
  upd (upd l i (nth j l 0)) j (nth i l 0).

Fixpoint shuffle_pass (index : Q -> Z) (random : rand_f) (k : nat) (i : nat)
  (l : list rowcol_t) : option (list rowcol_t) :=
  match i with
  | O => Some l
  | S i' =>
    let j := index (random k * inject_Z (Z.of_nat i + 1))%Q in
    if (0 <=? j) && (j <? Z.of_nat (length l))
    then shuffle_pass index random (S k) i' (swapped l i (Z.to_nat j))
    else None
  end.

(** A random source that stays in the half-open interval [0, 1). *)
Definition unit_source (random : rand_f) : Prop :=
  forall k, (0 <= random k)%Q /\ (random k < 1)%Q.

(** [frame_walls mp mp']: [mp'] is [mp] with other cell contents that carry
    the same wall bits. *)
Definition frame_walls (mp mp' : maze_t) : Prop :=
  mp' = with_cells mp (cells mp') /\ map walls (cells mp') = map walls (cells mp).

(** [frame_marks mp mp']: the cells of [mp'] carry the same solver fields
    as those of [mp]. *)
Definition frame_marks (mp mp' : maze_t) : Prop :=
  n_rows mp' = n_rows mp /\ n_cols mp' = n_cols mp /\
  map marks (cells mp') = map marks (cells mp).

(** ** The path sets as a forest *)

(** [root_of ss i r d]: from index [i] the parent links of [ss] lead in
    [d] steps to [r], which is its own parent. *)
Inductive root_of (ss : list rowcol_t) : rowcol_t -> rowcol_t -> nat -> Prop :=
| root_self (i : rowcol_t) :
    rd ss i = Ret i -> root_of ss i i 0
| root_step (i p r : rowcol_t) (d : nat) :
    rd ss i = Ret p -> p <> i -> root_of ss p r d -> root_of ss i r (S d).

(** [on_path ss i j]: [j] is one of the nodes [s_findset] visits from [i]. *)
Inductive on_path (ss : list rowcol_t) : rowcol_t -> rowcol_t -> Prop :=
| on_here (i : rowcol_t) : on_path ss i i
| on_next (i p j : rowcol_t) :
    rd ss i = Ret p -> p <> i -> on_path ss p j -> on_path ss i j.

(** Every index has a root: the parent links have no cycle but the
    self-loops at the roots. *)
Definition forest (ss : list rowcol_t) : Prop :=
  forall i, 0 <= i < Z.of_nat (length ss) -> exists r d, root_of ss i r d.

(** Two indices are in the same path set. *)
Definition same_set (ss : list rowcol_t) (i j : rowcol_t) : Prop :=
  exists r di dj, root_of ss i r di /\ root_of ss j r dj.

(** The initial path sets: every index its own parent. *)
Definition singletons (n : nat) : list rowcol_t := map Z.of_nat (seq 0 n).

(** The states of the path sets that calls of [s_findset] and [s_union]
    reach from the singletons. *)
Inductive dsf_reach : maze_t -> Prop :=
| reach_init (mp : maze_t) :
    sets mp = singletons (length (sets mp)) -> dsf_reach mp
| reach_find (fuel : nat) (mp mp' : maze_t) (pos r : rowcol_t) :
    dsf_reach mp -> s_findset fuel mp pos = Ret (mp', r) -> dsf_reach mp'
| reach_union (fuel : nat) (mp mp' : maze_t) (pos1 pos2 : rowcol_t) :
    dsf_reach mp -> s_union fuel mp pos1 pos2 = Ret mp' -> dsf_reach mp'.

(** [compressed ss ss']: [ss'] is [ss] where some parent links have been
    redirected to the root of their node. *)
Definition compressed (ss ss' : list rowcol_t) : Prop :=
  length ss' = length ss /\
  forall i, rd ss' i = rd ss i \/ exists r d, root_of ss i r d /\ rd ss' i = Ret r.

(** Three singletons, and the state after [s_union (0, 1)]. *)
Definition dsf_example : maze_t :=
  mk_maze 1 3 (repeat def_node 3) (singletons 3) 0 0.

Definition dsf_linked : maze_t :=
  mk_maze 1 3 (repeat def_node 3) [1; 1; 2] 0 0.

(** ** The grid as a graph *)

(** A cell is a pair (row, column); [off] is its index in the cell array. *)
Definition cell : Type := (Z * Z)%type.

Definition in_grid (nr nc : Z) (x : cell) : Prop :=
  0 <= fst x < nr /\ 0 <= snd x < nc.

Definition off (nc : Z) (x : cell) : Z := fst x * nc + snd x.

(** Cardinal neighbours. *)
Definition nb (x y : cell) : Prop :=
  (fst y = fst x /\ (snd y = snd x + 1 \/ snd y = snd x - 1)) \/
  (snd y = snd x /\ (fst y = fst x + 1 \/ fst y = fst x - 1)).

Definition cell_at (mp : maze_t) (x : cell) : maze_node :=
  nth (Z.to_nat (off (n_cols mp) x)) (cells mp) def_node.

(** [passage mp x y]: [x] and [y] are neighbours inside the grid and the
    wall between them is absent. *)
Inductive passage (mp : maze_t) : cell -> cell -> Prop :=
| pass_right (r c : Z) :
    in_grid (n_rows mp) (n_cols mp) (r, c) -> c + 1 < n_cols mp ->
    r_wall (cell_at mp (r, c)) = false -> passage mp (r, c) (r, c + 1)
| pass_left (r c : Z) :
    in_grid (n_rows mp) (n_cols mp) (r, c) -> c + 1 < n_cols mp ->
    r_wall (cell_at mp (r, c)) = false -> passage mp (r, c + 1) (r, c)
| pass_down (r c : Z) :
    in_grid (n_rows mp) (n_cols mp) (r, c) -> r + 1 < n_rows mp ->
    b_wall (cell_at mp (r, c)) = false -> passage mp (r, c) (r + 1, c)
| pass_up (r c : Z) :
    in_grid (n_rows mp) (n_cols mp) (r, c) -> r + 1 < n_rows mp ->
    b_wall (cell_at mp (r, c)) = false -> passage mp (r + 1, c) (r, c).

(** Reachability through wall-free adjacencies. *)
Inductive connected (mp : maze_t) : cell -> cell -> Prop :=
| conn_refl (x : cell) : connected mp x x
| conn_step (x y z : cell) : passage mp x y -> connected mp y z -> connected mp x z.

(** Reachability that does not cross the wall between [u] and [v]. *)
Inductive connected_but (mp : maze_t) (u v : cell) : cell -> cell -> Prop :=
| connb_refl (x : cell) : connected_but mp u v x x
| connb_step (x y z : cell) :
    passage mp x y -> ~ (x = u /\ y = v) -> ~ (x = v /\ y = u) ->
    connected_but mp u v y z -> connected_but mp u v x z.

(** The number of absent internal walls: right walls of cells outside the
    last column and bottom walls of cells outside the last row. *)
Definition wall_score (nr nc : Z) (p : Z) (n : maze_node) : Z :=
  (if (p mod nc <? nc - 1) && negb (r_wall n) then 1 else 0) +
  (if (p / nc <? nr - 1) && negb (b_wall n) then 1 else 0).

Fixpoint score_from (nr nc : Z) (p : Z) (l : list maze_node) : Z :=
  match l with
  | [] => 0
  | n :: t => wall_score nr nc p n + score_from nr nc (p + 1) t
  end.

Definition absent_walls (mp : maze_t) : Z :=
  score_from (n_rows mp) (n_cols mp) 0 (cells mp).

(** The grid is a spanning tree of the grid graph: [rows * cols - 1]
    internal walls are absent, every cell reaches every other, and no
    passage lies on a cycle (without it, its two cells are apart). *)
Definition spanning_tree (mp : maze_t) : Prop :=
  absent_walls mp = n_rows mp * n_cols mp - 1 /\
  (forall x y, in_grid (n_rows mp) (n_cols mp) x -> in_grid (n_rows mp) (n_cols mp) y ->
               connected mp x y) /\
  (forall x y, passage mp x y -> ~ connected_but mp x y x y).

(** [walk mp x p y]: a walk from [x] to [y] through wall-free
    adjacencies; [p] lists the cells it enters, in order, so the walk is
    simple when [x :: p] has no repetition. *)
Inductive walk (mp : maze_t) : cell -> list cell -> cell -> Prop :=
| walk_nil (x : cell) : walk mp x [] x
| walk_cons (x y z : cell) (p : list cell) :
    passage mp x y -> walk mp y p z -> walk mp x (y :: p) z.

(** Exactly one simple path between any two cells. *)
Definition one_simple_path (mp : maze_t) : Prop :=
  forall x y, in_grid (n_rows mp) (n_cols mp) x -> in_grid (n_rows mp) (n_cols mp) y ->
    exists p, walk mp x p y /\ NoDup (x :: p) /\
              forall p', walk mp x p' y -> NoDup (x :: p') -> p' = p.

(** No cycles: across a passage, the only simple way back is the passage
    itself. *)
Definition no_cycle (mp : maze_t) : Prop :=
  forall x y p, passage mp x y -> walk mp y p x -> NoDup (y :: p) -> p = [x].

(** The number of roots of the path sets. *)
Fixpoint roots_from (p : Z) (l : list rowcol_t) : Z :=
  match l with
  | [] => 0
  | v :: t => (if v =? p then 1 else 0) + roots_from (p + 1) t
  end.

Definition count_roots (ss : list rowcol_t) : Z := roots_from 0 ss.

(** The neighbour of a cell in a direction, and the test the generator
    makes before it looks that way. *)
Definition neighbour (dir : Z) (x : cell) : cell :=
  if dir =? DIR_U then (fst x - 1, snd x)
  else if dir =? DIR_R then (fst x, snd x + 1)
  else if dir =? DIR_D then (fst x + 1, snd x)
  else (fst x, snd x - 1).

Definition dir_open (nr nc : Z) (dir : Z) (x : cell) : bool :=
  if dir =? DIR_U then 0 <? fst x
  else if dir =? DIR_R then snd x <? nc - 1
  else if dir =? DIR_D then fst x <? nr - 1
  else 0 <? snd x.

(** The bit vector [s_adj] builds from its four tests, in the order in
    which it makes them. *)
Definition adj_mask (bU bD bL bR : bool) : rowcol_t :=
  Z.lor (Z.lor (Z.lor (Z.lor 0 (if bU then Z.shiftl 1 DIR_U else 0))
                      (if bD then Z.shiftl 1 DIR_D else 0))
               (if bL then Z.shiftl 1 DIR_L else 0))
        (if bR then Z.shiftl 1 DIR_R else 0).

(** ** The invariant of the generation loops

    The proof keeps a record of what the scans did: [digs] lists the walls
    kicked down, each as the pair of the scanned cell and the neighbour it
    was joined to, the latest first; [settled] lists the cells that were
    found with no neighbour in another set. *)

Definition cell_eqb (x y : cell) : bool := (fst x =? fst y) && (snd x =? snd y).

Definition digs_by (x : cell) (digs : list (cell * cell)) : nat :=
  length (filter (fun e => cell_eqb (fst e) x) digs).

(** No wall is listed twice, in either orientation. *)
Inductive fresh_edges : list (cell * cell) -> Prop :=
| fresh_nil : fresh_edges []
| fresh_cons (x y : cell) (l : list (cell * cell)) :
    ~ In (x, y) l -> ~ In (y, x) l -> fresh_edges l -> fresh_edges ((x, y) :: l).

Record gen_inv (mp : maze_t) (digs : list (cell * cell)) (settled : list cell)
  : Prop := mk_gen_inv {
  gi_grid : grid_ok mp;
  gi_sets_len : Z.of_nat (length (sets mp)) = n_rows mp * n_cols mp;
  gi_forest : forest (sets mp);
  gi_digs : forall x y, In (x, y) digs ->
      in_grid (n_rows mp) (n_cols mp) x /\ in_grid (n_rows mp) (n_cols mp) y /\
      nb x y /\ same_set (sets mp) (off (n_cols mp) x) (off (n_cols mp) y);
  gi_fresh : fresh_edges digs;
  gi_settled : forall x y, In x settled ->
      in_grid (n_rows mp) (n_cols mp) x -> in_grid (n_rows mp) (n_cols mp) y ->
      nb x y -> same_set (sets mp) (off (n_cols mp) x) (off (n_cols mp) y);
  gi_pass_same : forall x y, passage mp x y ->
      same_set (sets mp) (off (n_cols mp) x) (off (n_cols mp) y);
  gi_same_conn : forall x y,
      in_grid (n_rows mp) (n_cols mp) x -> in_grid (n_rows mp) (n_cols mp) y ->
      same_set (sets mp) (off (n_cols mp) x) (off (n_cols mp) y) -> connected mp x y;
  gi_bridge : forall x y, passage mp x y -> ~ connected_but mp x y x y;
  gi_roots : count_roots (sets mp) + Z.of_nat (length digs) = n_rows mp * n_cols mp;
  gi_walls : absent_walls mp = Z.of_nat (length digs)
}.

(** Two mazes with the same dimensions and cells. *)
Definition same_grid (mp mp' : maze_t) : Prop :=
  n_rows mp' = n_rows mp /\ n_cols mp' = n_cols mp /\ cells mp' = cells mp.

(** Every cell has been found settled once, or has dug at least [k] times. *)
Definition round_prog (nr nc : Z) (k : nat) (digs : list (cell * cell))
  (settled : list cell) : Prop :=
  forall x, in_grid nr nc x -> In x settled \/ (k <= digs_by x digs)%nat.

(** The classes of cells the two-round argument works with: cells of the
    grid in one path set, and for definiteness all cells off the grid. *)
Definition same_cell (nr nc : Z) (ss : list rowcol_t) (x y : cell) : Prop :=
  (in_grid nr nc x /\ in_grid nr nc y /\ same_set ss (off nc x) (off nc y)) \/
  (~ in_grid nr nc x /\ ~ in_grid nr nc y).

(** ** Further notions used to state what the code does *)

(** The number of set bits of [adj] among the [n] positions from [lo] on. *)
Fixpoint bits_in (adj : Z) (lo : Z) (n : nat) : Z :=
  match n with
  | O => 0
  | S n' => Z.b2z (Z.testbit adj lo) + bits_in adj (lo + 1) n'
  end.

(** The outer boundary is walled: right walls in the last column, bottom
    walls in the last row. *)
Definition boundary_closed (mp : maze_t) : Prop :=
  forall x, in_grid (n_rows mp) (n_cols mp) x ->
    (snd x = n_cols mp - 1 -> r_wall (cell_at mp x) = true) /\
    (fst x = n_rows mp - 1 -> b_wall (cell_at mp x) = true).

(** An exit on the Down or the Right side lies on that side. *)
Definition exit_in_range (mp : maze_t) (p dir : rowcol_t) : Prop :=
  (dir = DIR_D -> 0 <= p < n_cols mp) /\ (dir = DIR_R -> 0 <= p < n_rows mp).

(** The cell whose wall an exit on the Down or the Right side opens. *)
Definition exit_cell_of (mp : maze_t) (p dir : rowcol_t) : cell :=
  if dir =? DIR_D then (n_rows mp - 1, p) else (p, n_cols mp - 1).

Definition open_wall (dir : rowcol_t) (n : maze_node) : maze_node :=
  if dir =? DIR_D then set_b_wall n false else set_r_wall n false.

(** The two exit fields are those of the first maze. *)
Definition same_exits (mp mp' : maze_t) : Prop :=
  exit_1 mp' = exit_1 mp /\ exit_2 mp' = exit_2 mp.

(** A corridor of two cells, open between them. *)
Definition corridor_1x2 : maze_t :=
  mk_maze 1 2 [ mk_node false true DIR_U false; mk_node true true DIR_U false ] [] 0 0.

(** The index of the cell whose wall bit the writers clear for an exit on
    the Down or the Right side: the operand of the first store of
    [maze_write_text], [maze_write_png] and [maze_write_eps]. *)
Definition exit_store (mp : maze_t) (p dir : rowcol_t) : option rowcol_t :=
  if dir =? DIR_D then Some (OFFSET mp (wrap (n_rows mp - 1)) p)
  else if dir =? DIR_R then Some (OFFSET mp p (wrap (n_cols mp - 1)))
  else None.

(** ** Notions for the path solver *)

(** One turn of the [for (;;)] loop of [maze_find_path] away from the
    goal: choose a direction, mark it, move, mark the way back. *)
Definition search_body (mp : maze_t) (c_row c_col : rowcol_t)
  : outcome (maze_t * rowcol_t * rowcol_t) :=
  n <- rd (cells mp) (OFFSET mp c_row c_col) ;;
  ' (mp1, c_dir) <- probe_dirs 4 mp c_row c_col (marker n) ;;
  ' (r, c) <- step_dir c_dir c_row c_col ;;
  mp2 <- cell_update mp1 (OFFSET mp1 r c) (fun n => set_marker n (back_dir c_dir)) ;;
  Ret (mp2, r, c).

(** [steps g n m x m' x']: [n] turns of the search loop lead from cell [x]
    in maze [m] to cell [x'] in maze [m'], none of them starting at the
    goal [g]. *)
Inductive steps (g : cell) : nat -> maze_t -> cell -> maze_t -> cell -> Prop :=
| steps_O (m : maze_t) (x : cell) : steps g O m x m x
| steps_S (n : nat) (m m1 m2 : maze_t) (x x1 x2 : cell) :
    x <> g ->
    search_body m (fst x) (snd x) = Ret (m1, fst x1, snd x1) ->
    steps g n m1 x1 m2 x2 -> steps g (S n) m x m2 x2.

(** The maze with the marker of cell [x] set to [d]. *)
Definition set_marker_at (m : maze_t) (x : cell) (d : Z) : maze_t :=
  with_cells m (upd (cells m) (Z.to_nat (off (n_cols m) x)) (set_marker (cell_at m x) d)).

Definition set_visit_at (m : maze_t) (x : cell) : maze_t :=
  with_cells m (upd (cells m) (Z.to_nat (off (n_cols m) x)) (set_visit (cell_at m x) true)).

(** [m] has the dimensions and the walls of [m0]. *)
Definition same_walls (m0 m : maze_t) : Prop :=
  n_rows m = n_rows m0 /\ n_cols m = n_cols m0 /\
  length (cells m) = length (cells m0) /\
  forall x, in_grid (n_rows m0) (n_cols m0) x -> walls (cell_at m x) = walls (cell_at m0 x).

(** What the search keeps true of the maze [m] it works in: the walls of
    the maze [m0] it started from, markers that are directions, and no
    visited bit. *)
Record solver_inv (m0 m : maze_t) : Prop := mk_solver_inv {
  si_walls : same_walls m0 m;
  si_marks : forall x, in_grid (n_rows m0) (n_cols m0) x -> 0 <= marker (cell_at m x) < 4;
  si_visit : forall x, in_grid (n_rows m0) (n_cols m0) x -> visit (cell_at m x) = false
}.

(** [dead mp g t y]: seen from its neighbour [t], the branch behind [y] is
    finite and does not hold the goal [g]. *)
Inductive dead (mp : maze_t) (g : cell) : cell -> cell -> Prop :=
| dead_intro (t y : cell) :
    y <> g -> (forall z, passage mp y z -> z <> t -> dead mp g y z) -> dead mp g t y.

(** [rwalk m0 m s x l]: the search has come from [s] to [x]; [l] lists the
    cells before [x] on the way, the latest first.  Each cell is joined to
    the next by a passage of [m0], and its marker in [m] points at the
    next. *)
Inductive rwalk (m0 m : maze_t) (s : cell) : cell -> list cell -> Prop :=
| rwalk_start : rwalk m0 m s s []
| rwalk_step (x b : cell) (l : list cell) :
    rwalk m0 m s b l -> passage m0 b x ->
    neighbour (marker (cell_at m b)) b = x -> rwalk m0 m s x (b :: l).

(** The markers along a walk point forward. *)
Fixpoint pointed (m : maze_t) (x : cell) (p : list cell) : Prop :=
  match p with
  | [] => True
  | y :: p' => neighbour (marker (cell_at m x)) x = y /\ pointed m y p'
  end.

(** ** Streams, and the C library the I/O code calls

    A stream is the list of the bytes still to be read, or of the bytes
    written so far; a byte is its code in [Z], as the code computes with
    characters.  [fgetc] at the end of the input returns [EOF].  The
    classification functions are those of the "C" locale, which the
    program never changes. *)

Definition EOF : Z := -1.

Definition fgetc (ifp : list Z) : Z * list Z :=
  match ifp with
  | [] => (EOF, [])
  | c :: t => (c, t)
  end.

Definition fputc (c : Z) (ofp : list Z) : list Z := ofp ++ [c mod 256].

Definition isspace (c : Z) : bool := (c =? 32) || ((9 <=? c) && (c <=? 13)).
Definition isupper (c : Z) : bool := (65 <=? c) && (c <=? 90).
Definition isdigit (c : Z) : bool := (48 <=? c) && (c <=? 57).

(** The conversion [%u] of [fprintf]: the decimal digits of an
    [unsigned int]. *)
Fixpoint digits (fuel : nat) (n : Z) : list Z :=
  match fuel with
  | O => []
  | S fuel' => (if n <? 10 then [] else digits fuel' (n / 10)) ++ [48 + n mod 10]
  end.

Definition print_u (n : Z) : list Z := digits 10 n.

(** [while (isspace (ch)) ch = fgetc (ifp)] *)
Fixpoint skip_space (ifp : list Z) (ch : Z) : Z * list Z :=
  if isspace ch then
    match ifp with
    | [] => (EOF, [])
    | c :: t => skip_space t c
    end
  else (ch, ifp).

(** A white-space directive of [fscanf]. *)
Fixpoint skip_ws (ifp : list Z) : list Z :=
  match ifp with
  | [] => []
  | c :: t => if isspace c then skip_ws t else ifp
  end.

Fixpoint scan_digits (ifp : list Z) (acc : Z) : Z * list Z :=
  match ifp with
  | [] => (acc, [])
  | c :: t => if isdigit c then scan_digits t (acc * 10 + (c - 48)) else (acc, ifp)
  end.

(** The conversion [%u] of [fscanf]: white space, an optional sign, decimal
    digits.  [None] is a matching or input failure; a value that does not
    fit the [unsigned int] it is stored in is undefined behaviour. *)
Definition scan_u (ifp : list Z) : outcome (option (Z * list Z)) :=
  let s1 := skip_ws ifp in
  let '(neg, s2) :=
    match s1 with
    | c :: t => if c =? 45 then (true, t) else if c =? 43 then (false, t) else (false, s1)
    | [] => (false, [])
    end in
  match s2 with
  | [] => Ret None
  | c :: _ =>
    if isdigit c then
      let '(v, s3) := scan_digits s2 0 in
      if v <? wB then Ret (Some (if neg then wrap (- v) else v, s3)) else Crash
    else Ret None
  end.

(** [fscanf (ifp, "%u %u %u %u\n", ...)]: [None] when fewer than four
    items were assigned. *)
Definition scan_header (ifp : list Z) : outcome (option (Z * Z * Z * Z * list Z)) :=
  a <- scan_u ifp ;;
  match a with
  | None => Ret None
  | Some (rows, s1) =>
    b <- scan_u s1 ;;
    match b with
    | None => Ret None
    | Some (cols, s2) =>
      c <- scan_u s2 ;;
      match c with
      | None => Ret None
      | Some (e1, s3) =>
        d <- scan_u s3 ;;
        match d with
        | None => Ret None
        | Some (e2, s4) => Ret (Some (rows, cols, e1, e2, skip_ws s4))
        end
      end
    end
  end.

(** A [for] loop whose body can return from the function. *)
Fixpoint for_up_ret {S R : Type} (n : nat) (i : Z) (body : Z -> S -> outcome (S + R))
  (s : S) : outcome (S + R) :=
  match n with
  | O => Ret (inl s)
  | Datatypes.S n' =>
    x <- body i s ;;
    match x with
    | inl s' => for_up_ret n' (i + 1) body s'
    | inr r => Ret (inr r)
    end
  end.

(** ** maze_store *)

Definition LINE_WIDTH : Z := 80.

(** The character written for a cell. *)
Definition store_cell (cell : maze_node) : Z :=
  let v1 := wrap (Z.lor 0 (Z.shiftl (marker cell) 2)) in
  let v2 := wrap (Z.lor v1 (Z.shiftl (Z.b2z (b_wall cell)) 1)) in
  let v3 := wrap (Z.lor v2 (Z.b2z (r_wall cell))) in
  if visit cell then 65 + v3 else 97 + v3.

Definition store_col (mp : maze_t) (r c : rowcol_t) (st : list Z * rowcol_t)
  : outcome (list Z * rowcol_t) :=
  let '(ofp, pos) := st in
  cell <- rd (cells mp) (OFFSET mp r c) ;;
  let ofp1 := fputc (store_cell cell) ofp in
  let pos1 := wrap (pos + 1) mod LINE_WIDTH in
  if pos1 =? 0 then Ret (fputc 10 ofp1, pos1) else Ret (ofp1, pos1).

Definition store_header (mp : maze_t) : list Z :=
  print_u (n_rows mp) ++ [32] ++ print_u (n_cols mp) ++ [32] ++
  print_u (exit_1 mp) ++ [32] ++ print_u (exit_2 mp) ++ [10].

Definition maze_store (mp : maze_t) (ofp : list Z) : outcome (list Z) :=
  ' (ofp1, pos) <- for_up (Z.to_nat (n_rows mp)) 0
                     (fun r st => for_up (Z.to_nat (n_cols mp)) 0 (store_col mp r) st)
                     (ofp ++ store_header mp, 0) ;;
  if negb (pos =? 0) then Ret (fputc 10 ofp1) else Ret ofp1.

(** What [maze_store] writes after the header for the cells [cs], from
    column [pos] of the line on. *)
Fixpoint store_body (cs : list maze_node) (pos : Z) : list Z :=
  match cs with
  | [] => if pos =? 0 then [] else [10]
  | n :: t =>
    let pos1 := (pos + 1) mod LINE_WIDTH in
    [store_cell n mod 256] ++ (if pos1 =? 0 then [10] else []) ++ store_body t pos1
  end.

(** The next character that is not white space, and the input after it. *)
Definition next_char (ifp : list Z) : Z * list Z :=
  match ifp with
  | [] => (EOF, [])
  | c :: t => skip_space t c
  end.

(** ** maze_load *)

(** The cell read from a character. *)
Definition load_cell (ch : Z) : maze_node :=
  let vis := isupper ch in
  let v := wrap (if vis then ch - 65 else ch - 97) in
  mk_node (negb (Z.land v 1 =? 0)) (negb (Z.land (Z.shiftr v 1) 1 =? 0))
          (Z.land (Z.shiftr v 2) 3) vis.

Definition with_exits (mp : maze_t) (e1 e2 : rowcol_t) : maze_t :=
  mk_maze (n_rows mp) (n_cols mp) (cells mp) (sets mp) e1 e2.

(** The state of the loading loops: the maze, the character [ch] and the
    rest of the input; a loop returns [inr] when the function returns. *)
Definition load_col (r c : rowcol_t) (st : maze_t * Z * list Z)
  : outcome (maze_t * Z * list Z + Z * maze_t) :=
  let '(mp, ch, ifp) := st in
  if ch =? EOF then Ret (inr (0, mp))
  else
    cs <- wr (cells mp) (OFFSET mp r c) (load_cell ch) ;;
    let '(c1, ifp1) := fgetc ifp in
    let '(ch1, ifp2) := skip_space ifp1 c1 in
    Ret (inl (with_cells mp cs, ch1, ifp2)).

Definition load_row (cols : rowcol_t) (r : rowcol_t) (st : maze_t * Z * list Z)
  : outcome (maze_t * Z * list Z + Z * maze_t) :=
  let '(mp, ch, ifp) := st in
  let '(ch1, ifp1) := skip_space ifp ch in
  for_up_ret (Z.to_nat cols) 0 (load_col r) (mp, ch1, ifp1).

Definition maze_load (EXIT : rowcol_t -> Z -> rowcol_t)
  (heap : option (nat -> maze_node)) (mp : maze_t) (ifp : list Z)
  : outcome (Z * maze_t) :=
  h <- scan_header ifp ;;
  match h with
  | None => Ret (0, mp)
  | Some (rows, cols, e1, e2, ifp1) =>
    ' (ok, mp1) <- maze_init EXIT heap mp rows cols ;;
    if ok =? 0 then Ret (0, mp1)
    else
      let mp2 := with_exits mp1 e1 e2 in
      let '(ch, ifp2) := fgetc ifp1 in
      x <- for_up_ret (Z.to_nat rows) 0 (load_row cols) (mp2, ch, ifp2) ;;
      match x with
      | inl (mp3, _, _) => Ret (1, mp3)
      | inr res => Ret res
      end
  end.

(** ** maze_write_text *)

(** Down-facing and right-facing exits are modelled by kicking out the
    wall of the cell.  [EPOS] and [EDIR] come from maze.h and stay
    parameters. *)
Definition open_exit (mp : maze_t) (p dir : rowcol_t) : outcome maze_t :=
  if dir =? DIR_D then
    cell_update mp (OFFSET mp (wrap (n_rows mp - 1)) p) (fun n => set_b_wall n false)
  else if dir =? DIR_R then
    cell_update mp (OFFSET mp p (wrap (n_cols mp - 1))) (fun n => set_r_wall n false)
  else Ret mp.

(** The same step as [maze_write_png] and [maze_write_eps] write it, with
    the two tests in the other order. *)
Definition open_exit_rd (mp : maze_t) (p dir : rowcol_t) : outcome maze_t :=
  if dir =? DIR_R then
    cell_update mp (OFFSET mp p (wrap (n_cols mp - 1))) (fun n => set_r_wall n false)
  else if dir =? DIR_D then
    cell_update mp (OFFSET mp (wrap (n_rows mp - 1)) p) (fun n => set_b_wall n false)
  else Ret mp.

Definition is_exit (p1 dir1 p2 dir2 : rowcol_t) (side : Z) (i : rowcol_t) : bool :=
  ((dir1 =? side) && (p1 =? i)) || ((dir2 =? side) && (p2 =? i)).

(** The characters of the literals the function prints. *)
Definition str_open_top : list Z := [43; 32; 32; 32].
Definition str_wall_top : list Z := [43; 45; 45; 45].
Definition str_mark : list Z := [32; 64; 32].
Definition str_blank : list Z := [32; 32; 32].
Definition str_wall_bottom : list Z := [45; 45; 45; 43].
Definition str_open_bottom : list Z := [32; 32; 32; 43].

Definition text_top (p1 dir1 p2 dir2 : rowcol_t) (r : rowcol_t) (ofp : list Z)
  : outcome (list Z) :=
  if is_exit p1 dir1 p2 dir2 DIR_U r then Ret (ofp ++ str_open_top)
  else Ret (ofp ++ str_wall_top).

Definition text_cell (mp : maze_t) (r c : rowcol_t) (ofp : list Z) : outcome (list Z) :=
  n <- rd (cells mp) (OFFSET mp r c) ;;
  let ofp1 := if visit n then ofp ++ str_mark else ofp ++ str_blank in
  n1 <- rd (cells mp) (OFFSET mp r c) ;;
  Ret (fputc (if r_wall n1 then 124 else 32) ofp1).

Definition text_floor (mp : maze_t) (r c : rowcol_t) (ofp : list Z) : outcome (list Z) :=
  n <- rd (cells mp) (OFFSET mp r c) ;;
  Ret (ofp ++ (if b_wall n then str_wall_bottom else str_open_bottom)).

Definition text_row (mp : maze_t) (p1 dir1 p2 dir2 : rowcol_t) (r : rowcol_t)
  (ofp : list Z) : outcome (list Z) :=
  let ofp1 := if is_exit p1 dir1 p2 dir2 DIR_L r then fputc 32 ofp else fputc 124 ofp in
  ofp2 <- for_up (Z.to_nat (n_cols mp)) 0 (text_cell mp r) ofp1 ;;
  let ofp3 := fputc 43 (fputc 10 ofp2) in
  ofp4 <- for_up (Z.to_nat (n_cols mp)) 0 (text_floor mp r) ofp3 ;;
  Ret (fputc 10 ofp4).

Definition maze_write_text (EPOS EDIR : rowcol_t -> rowcol_t) (mp : maze_t)
  (ofp : list Z) : outcome (maze_t * list Z) :=
  let p1 := EPOS (exit_1 mp) in
  let dir1 := EDIR (exit_1 mp) in
  mp1 <- open_exit mp p1 dir1 ;;
  let p2 := EPOS (exit_2 mp1) in
  let dir2 := EDIR (exit_2 mp1) in
  mp2 <- open_exit mp1 p2 dir2 ;;
  ofp1 <- for_up (Z.to_nat (n_cols mp2)) 0 (text_top p1 dir1 p2 dir2) ofp ;;
  let ofp2 := fputc 10 (fputc 43 ofp1) in
  ofp3 <- for_up (Z.to_nat (n_rows mp2)) 0 (text_row mp2 p1 dir1 p2 dir2) ofp2 ;;
  Ret (mp2, ofp3).

(** ** mazegen.c: the random source and the making of the maze *)

(** [randomizer]: the value of [random ()] over [INT_MAX + 1].  [random]
    is the stream of the values the library function returns, by call. *)
Definition randomizer (INT_MAX : Z) (random : nat -> Z) : rand_f :=
  fun k => (inject_Z (random k) / inject_Z (INT_MAX + 1))%Q.

Definition maze_clear (mp : maze_t) : maze_t :=
  mk_maze 0 0 [] (sets mp) (exit_1 mp) (exit_2 mp).

Definition with_exit_1 (mp : maze_t) (e : rowcol_t) : maze_t :=
  mk_maze (n_rows mp) (n_cols mp) (cells mp) (sets mp) e (exit_2 mp).

Definition with_exit_2 (mp : maze_t) (e : rowcol_t) : maze_t :=
  mk_maze (n_rows mp) (n_cols mp) (cells mp) (sets mp) (exit_1 mp) e.

(** The part of [main] that makes a fresh maze: the check of the
    dimensions, [maze_init], the exits chosen on the command line and
    [maze_generate].  The first component of the result is 1 where [main]
    returns 1, and 0 where it goes on with the maze. *)
Definition main_make (EXIT : rowcol_t -> Z -> rowcol_t)
  (heap_cells : option (nat -> maze_node))
  (heap_sets heap_queue : option (nat -> rowcol_t))
  (INT_MAX : Z) (random : nat -> Z) (fuel : nat) (the_maze : maze_t)
  (cells_x cells_y : rowcol_t) (set_exit_1 set_exit_2 : bool) (e_in e_out : rowcol_t)
  : outcome (Z * maze_t) :=
  if (cells_x =? 0) || (cells_y =? 0) then Ret (1, the_maze)
  else
    ' (ok, m) <- maze_init EXIT heap_cells the_maze cells_x cells_y ;;
    if negb (ok =? 0) then
      let m1 := if set_exit_1 then with_exit_1 m e_in else m in
      let m2 := if set_exit_2 then with_exit_2 m1 e_out else m1 in
      ' (ok2, m3) <- maze_generate fuel heap_sets heap_queue
                       (randomizer INT_MAX random) m2 ;;
      if ok2 =? 0 then Ret (1, maze_clear m3) else Ret (0, m3)
    else Ret (1, m).

Definition SOLN_NONE : Z := 0.
Definition SOLN_DEFAULT : Z := 1.
Definition SOLN_CHOSEN : Z := 2.

(** The part of [main] that solves the maze: the endpoints of the default
    solution, the range checks and [maze_find_path].  [src] and [dst] are
    the pairs (x, y) that [main] holds when it gets there.  The first
    component of the result is 1 where [main] returns 1, and 0 where it
    goes on with the maze. *)
Definition main_solve (EPOS EDIR : rowcol_t -> Z) (fuel : nat) (the_maze : maze_t)
  (solution : Z) (src dst : rowcol_t * rowcol_t) : outcome (Z * maze_t) :=
  let src1 := if solution =? SOLN_DEFAULT
              then exit_cell EPOS EDIR the_maze (exit_1 the_maze) src else src in
  let dst1 := if solution =? SOLN_DEFAULT
              then exit_cell EPOS EDIR the_maze (exit_2 the_maze) dst else dst in
  if negb (solution =? SOLN_NONE) then
    if (n_rows the_maze <=? fst src1) || (n_cols the_maze <=? snd src1)
    then Ret (1, the_maze)
    else if (n_rows the_maze <=? fst dst1) || (n_cols the_maze <=? snd dst1)
    then Ret (1, the_maze)
    else
      m <- maze_find_path fuel the_maze (fst src1) (snd src1) (fst dst1) (snd dst1) ;;
      Ret (0, m)
  else Ret (0, the_maze).

(** ** The lines of the text rendering *)

(** The characters a loop over the columns appends, column by column. *)
Definition over_cols (n : Z) (f : Z -> list Z) : list Z :=
  concat (map (fun k => f (Z.of_nat k)) (seq 0 (Z.to_nat n))).

Definition top_chars (p1 dir1 p2 dir2 : rowcol_t) (c : Z) : list Z :=
  if is_exit p1 dir1 p2 dir2 DIR_U c then str_open_top else str_wall_top.

Definition cell_chars (mp : maze_t) (r c : Z) : list Z :=
  (if visit (cell_at mp (r, c)) then str_mark else str_blank) ++
  [if r_wall (cell_at mp (r, c)) then 124 else 32].

Definition floor_chars (mp : maze_t) (r c : Z) : list Z :=
  if b_wall (cell_at mp (r, c)) then str_wall_bottom else str_open_bottom.

Definition top_line (mp : maze_t) (p1 dir1 p2 dir2 : rowcol_t) : list Z :=
  over_cols (n_cols mp) (top_chars p1 dir1 p2 dir2) ++ [43].

Definition cell_line (mp : maze_t) (p1 dir1 p2 dir2 : rowcol_t) (r : Z) : list Z :=
  (if is_exit p1 dir1 p2 dir2 DIR_L r then 32 else 124) ::
  over_cols (n_cols mp) (cell_chars mp r).

Definition floor_line (mp : maze_t) (r : Z) : list Z :=
  43 :: over_cols (n_cols mp) (floor_chars mp r).

Definition text_lines (mp : maze_t) (p1 dir1 p2 dir2 : rowcol_t) : list (list Z) :=
  top_line mp p1 dir1 p2 dir2 ::
  concat (map (fun k => [cell_line mp p1 dir1 p2 dir2 (Z.of_nat k);
                         floor_line mp (Z.of_nat k)])
              (seq 0 (Z.to_nat (n_rows mp)))).

(** The character in column [j] of line [i] of a list of lines. *)
Definition char_at (lines : list (list Z)) (i j : Z) : Z :=
  nth (Z.to_nat j) (nth (Z.to_nat i) lines []) 0.

(** ** The characters of an input that are not white space *)

Definition non_space (ifp : list Z) : list Z :=
  filter (fun c => negb (isspace c)) ifp.

(** The bytes of a stream are character codes. *)
Definition bytes (ifp : list Z) : Prop := Forall (fun c => 0 <= c < 256) ifp.

(** ** The multiplication of doubles

    [double] is IEEE 754 binary64 and an expression of type [double] is
    evaluated in that format, rounding to nearest, ties to even.  A value
    of the format is a rational [m * 2^e] with [|m| < 2^53] and
    [-1074 <= e <= 971].  The products formed below stay under [2^32], so
    a result beyond the largest finite value does not occur and is not
    given a meaning. *)

Definition two_pow (e : Z) : Q :=
  if 0 <=? e then inject_Z (2 ^ e) else 1 # Z.to_pos (2 ^ (- e)).

Definition binary64 (x : Q) : Prop :=
  exists m e : Z,
    Z.abs m < 2 ^ 53 /\ -1074 <= e <= 971 /\ (x == inject_Z m * two_pow e)%Q.

(** The exponent of the leading bit of [a / b], for positive [a] and [b]:
    the [e] with [2^e <= a / b < 2^(e+1)]. *)
Definition ilog2 (a b : Z) : Z :=
  let e0 := Z.log2 a - Z.log2 b in
  if a * 2 ^ Z.max 0 (- e0) <? b * 2 ^ Z.max 0 e0 then e0 - 1 else e0.

(** The integer nearest to [num / den], the even one of two that are
    equally near; [num >= 0] and [den > 0]. *)
Definition rne (num den : Z) : Z :=
  let f := num / den in
  let r := num mod den in
  if 2 * r <? den then f
  else if den <? 2 * r then f + 1
  else if Z.even f then f else f + 1.

(** The value of the format nearest to the positive rational [a / b]: 53
    significant bits from the leading bit on, or the multiple of
    [2^-1074] where that is coarser. *)
Definition fl64_pos (a : Z) (b : positive) : Q :=
  let e := ilog2 a (Z.pos b) in
  let q := Z.max (e - 52) (-1074) in
  if q <? 0 then rne (a * 2 ^ (- q)) (Z.pos b) # Z.to_pos (2 ^ (- q))
  else inject_Z (rne a (Z.pos b * 2 ^ q) * 2 ^ q).

Definition fl64 (x : Q) : Q :=
  match Qnum x with
  | Z0 => 0
  | Z.pos _ => fl64_pos (Qnum x) (Qden x)
  | Z.neg _ => - fl64_pos (- Qnum x) (Qden x)
  end.

(** A random source as [maze_generate] is given one: a function that
    returns a [double], here one in the half-open interval [0, 1). *)
Definition double_source (random : rand_f) : Prop :=
  forall k, binary64 (random k) /\ (0 <= random k)%Q /\ (random k < 1)%Q.

(** [(rowcol_t)(v * (pos + 1))]: the index the reshuffle computes.  The
    operand [pos + 1] is converted to [double], which is exact; the
    product is rounded to the format; the cast truncates. *)
Definition exch_index (v : Q) (pos1 : rowcol_t) : rowcol_t :=
  to_rowcol (fl64 (v * inject_Z pos1)).

(** [for (pos = n_cells - 1; pos > 0; --pos)]: the reshuffle of the queue,
    with the product rounded as the machine rounds it. *)
Fixpoint reshuffle_rounded (random : rand_f) (pos : nat) (st : list rowcol_t * nat)
  : outcome (list rowcol_t * nat) :=
  match pos with
  | O => Ret st
  | S pos' =>
    let '(queue, k) := st in
    let v := random k in
    let exch := exch_index v (wrap (Z.of_nat pos + 1)) in
    t <- rd queue (Z.of_nat pos) ;;
    e <- rd queue exch ;;
    q1 <- wr queue (Z.of_nat pos) e ;;
    q2 <- wr q1 exch t ;;
    reshuffle_rounded random pos' (q2, S k)
  end.

(** The index function of the amended wording: the double nearest to the
    product, truncated toward zero. *)
Definition trunc_double (x : Q) : Z :=
  Z.quot (Qnum (fl64 x)) (Z.pos (Qden (fl64 x))).

(** The doubles nearest to 1/3 and to 0.4. *)
Definition double_third : Q := 6004799503160661 # 18014398509481984.
Definition double_0_4 : Q := 3602879701896397 # 9007199254740992.

(** * Basic facts about outcomes, arrays and loops *)

Lemma bind_ret {A B : Type} (m : outcome A) (f : A -> outcome B) (b : B) :
  bind m f = Ret b -> exists a, m = Ret a /\ f a = Ret b.
Proof. destruct m; simpl; intros H; try discriminate. eauto. Qed.

Lemma assert_ret (b : bool) (u : unit) : assert b = Ret u -> b = true.
Proof. destruct b; simpl; congruence. Qed.

Ltac inv_bind_fresh H :=
  let a := fresh "a" in
  let Ha := fresh "Ha" in
  apply bind_ret in H; destruct H as [a [Ha H]].

Tactic Notation "inv_bind" hyp(H) := inv_bind_fresh H.

Tactic Notation "inv_bind" hyp(H) "as" simple_intropattern(a) ident(Ha) :=
  apply bind_ret in H; destruct H as [a [Ha H]].

Lemma length_upd {A : Type} (l : list A) (n : nat) (a : A) :
  length (upd l n a) = length l.
Proof.
  revert n; induction l as [|h t IH]; intros [|n]; simpl; auto.
Qed.

Lemma nth_error_upd_same {A : Type} (l : list A) (n : nat) (a : A) :
  (n < length l)%nat -> nth_error (upd l n a) n = Some a.
Proof.
  revert n; induction l as [|h t IH]; intros [|n] Hn; simpl in *; try lia; auto.
  apply IH; lia.
Qed.

Lemma nth_error_upd_other {A : Type} (l : list A) (n m : nat) (a : A) :
  n <> m -> nth_error (upd l n a) m = nth_error l m.
Proof.
  revert n m; induction l as [|h t IH]; intros [|n] [|m] Hn; simpl; auto; try congruence.
Qed.

Lemma map_upd {A B : Type} (f : A -> B) (l : list A) (n : nat) (a : A) :
  map f (upd l n a) = upd (map f l) n (f a).
Proof.
  revert n; induction l as [|h t IH]; intros [|n]; simpl; auto. now rewrite IH.
Qed.

Lemma upd_same_value {A : Type} (l : list A) (n : nat) (a : A) :
  nth_error l n = Some a -> upd l n a = l.
Proof.
  revert n; induction l as [|h t IH]; intros [|n] H; simpl in *; auto; try congruence.
  now rewrite IH.
Qed.

Lemma rd_ret {A : Type} (l : list A) (i : Z) (a : A) :
  rd l i = Ret a <->
  0 <= i < Z.of_nat (length l) /\ nth_error l (Z.to_nat i) = Some a.
Proof.
  unfold rd. split.
  - destruct (0 <=? i) eqn:E1, (i <? Z.of_nat (length l)) eqn:E2; simpl; try discriminate.
    destruct (nth_error l (Z.to_nat i)) eqn:E; try discriminate.
    intros H; inversion H; subst. split; [lia|reflexivity].
  - intros [Hr Hn].
    replace (0 <=? i) with true by (symmetry; apply Z.leb_le; lia).
    replace (i <? Z.of_nat (length l)) with true by (symmetry; apply Z.ltb_lt; lia).
    simpl. now rewrite Hn.
Qed.

Lemma rd_total {A : Type} (l : list A) (i : Z) :
  0 <= i < Z.of_nat (length l) -> exists a, rd l i = Ret a.
Proof.
  intros Hr. destruct (nth_error l (Z.to_nat i)) eqn:E.
  - exists a. apply rd_ret; auto.
  - apply nth_error_None in E. lia.
Qed.

Lemma wr_ret {A : Type} (l l' : list A) (i : Z) (a : A) :
  wr l i a = Ret l' <->
  0 <= i < Z.of_nat (length l) /\ l' = upd l (Z.to_nat i) a.
Proof.
  unfold wr. split.
  - destruct (0 <=? i) eqn:E1, (i <? Z.of_nat (length l)) eqn:E2; simpl; try discriminate.
    intros H; inversion H; subst. split; [lia|reflexivity].
  - intros [Hr ->].
    replace (0 <=? i) with true by (symmetry; apply Z.leb_le; lia).
    replace (i <? Z.of_nat (length l)) with true by (symmetry; apply Z.ltb_lt; lia).
    reflexivity.
Qed.

Lemma wr_total {A : Type} (l : list A) (i : Z) (a : A) :
  0 <= i < Z.of_nat (length l) -> wr l i a = Ret (upd l (Z.to_nat i) a).
Proof. intros H. apply wr_ret. auto. Qed.

(** Loop invariants for [for_up]: partial and total form. *)
Lemma for_up_inv {S : Type} (Inv : Z -> S -> Prop) (body : Z -> S -> outcome S) :
  forall (n : nat) (lo : Z) (s s' : S),
    (forall i t t', lo <= i < lo + Z.of_nat n -> Inv i t -> body i t = Ret t' ->
                    Inv (i + 1) t') ->
    Inv lo s -> for_up n lo body s = Ret s' -> Inv (lo + Z.of_nat n) s'.
Proof.
  induction n as [|n IH]; intros lo s s' Hstep H0 Hrun; cbn [for_up] in Hrun.
  - inversion Hrun; subst. now replace (lo + Z.of_nat 0) with lo by lia.
  - inv_bind Hrun.
    replace (lo + Z.of_nat (Datatypes.S n)) with ((lo + 1) + Z.of_nat n) by lia.
    apply IH with (s := a); auto.
    + intros i t t' Hi. apply Hstep. lia.
    + apply Hstep with (i := lo) (t := s); auto. lia.
Qed.

Lemma for_up_total {S : Type} (Inv : Z -> S -> Prop) (body : Z -> S -> outcome S) :
  forall (n : nat) (lo : Z) (s : S),
    (forall i t, lo <= i < lo + Z.of_nat n -> Inv i t ->
                 exists t', body i t = Ret t' /\ Inv (i + 1) t') ->
    Inv lo s ->
    exists s', for_up n lo body s = Ret s' /\ Inv (lo + Z.of_nat n) s'.
Proof.
  induction n as [|n IH]; intros lo s Hstep H0; cbn [for_up].
  - exists s. split; auto. now replace (lo + Z.of_nat 0) with lo by lia.
  - destruct (Hstep lo s) as [t [Hb Ht]]; auto; [lia|].
    rewrite Hb. cbn [bind].
    replace (lo + Z.of_nat (Datatypes.S n)) with ((lo + 1) + Z.of_nat n) by lia.
    apply IH; auto.
    intros i u Hi. apply Hstep. lia.
Qed.

Lemma wrap_small (z : Z) : 0 <= z < wB -> wrap z = z.
Proof. intros H. unfold wrap. now apply Z.mod_small. Qed.

Lemma wrap_range (z : Z) : 0 <= wrap z < wB.
Proof. unfold wrap. apply Z.mod_pos_bound. now vm_compute. Qed.

Lemma wB_val : wB = 4294967296.
Proof. reflexivity. Qed.

Lemma nth_error_ext {A : Type} (l1 l2 : list A) :
  (forall n, nth_error l1 n = nth_error l2 n) -> l1 = l2.
Proof.
  revert l2; induction l1 as [|h t IH]; intros [|h2 t2] H; auto.
  - specialize (H O); discriminate.
  - specialize (H O); discriminate.
  - f_equal.
    + specialize (H O); simpl in H; congruence.
    + apply IH. intros n. apply (H (Datatypes.S n)).
Qed.

(** * Grid primitives: maze_reset, maze_unmark, maze_init *)

Lemma all_eq_repeat {A : Type} (l : list A) (a : A) :
  (forall p, (p < length l)%nat -> nth_error l p = Some a) ->
  l = repeat a (length l).
Proof.
  induction l as [|h t IH]; intros H; simpl; auto.
  f_equal.
  - specialize (H O). simpl in H. assert (Some h = Some a) by (apply H; lia). congruence.
  - apply IH. intros p Hp. apply (H (Datatypes.S p)). simpl. lia.
Qed.

Lemma OFFSET_small (mp : maze_t) (r c : Z) :
  grid_ok mp -> 0 <= r < n_rows mp -> 0 <= c < n_cols mp ->
  OFFSET mp r c = r * n_cols mp + c /\
  0 <= r * n_cols mp + c < n_rows mp * n_cols mp.
Proof.
  intros (Hr & Hc & Hn & Hl) Hr0 Hc0.
  assert (0 <= r * n_cols mp + c < n_rows mp * n_cols mp) by nia.
  split; auto. unfold OFFSET. apply wrap_small. lia.
Qed.

Lemma OFFSET_with_cells (mp : maze_t) (cs : list maze_node) (r c : Z) :
  OFFSET (with_cells mp cs) r c = OFFSET mp r c.
Proof. reflexivity. Qed.

Lemma OFFSET_with_sets (mp : maze_t) (ss : list rowcol_t) (r c : Z) :
  OFFSET (with_sets mp ss) r c = OFFSET mp r c.
Proof. reflexivity. Qed.

(** [maze_reset] returns, with every cell equal to [def_node]. *)
Lemma maze_reset_spec (mp : maze_t) :
  grid_ok mp ->
  maze_reset mp = Ret (with_cells mp (repeat def_node (length (cells mp)))).
Proof.
  intros Hok. pose proof Hok as (Hr & Hc & Hn & Hl).
  unfold maze_reset.
  set (Inv := fun (k : Z) (cs : list maze_node) =>
                length cs = length (cells mp) /\
                forall p, Z.of_nat p < k -> (p < length cs)%nat ->
                          nth_error cs p = Some def_node).
  destruct (for_up_total (fun r cs => Inv (r * n_cols mp) cs)
              (fun r cs =>
                 for_up (Z.to_nat (n_cols mp)) 0
                   (fun c cs0 => wr cs0 (OFFSET mp r c) def_node) cs)
              (Z.to_nat (n_rows mp)) 0 (cells mp)) as [cs [Hrun [Hlen Hall]]].
  - intros r t Hr0 [Hlt Ht].
    destruct (for_up_total (fun c cs => Inv (r * n_cols mp + c) cs)
                (fun c cs0 => wr cs0 (OFFSET mp r c) def_node)
                (Z.to_nat (n_cols mp)) 0 t) as [t' [Hrun' Hinv']].
    + intros c u Hc0 [Hlu Hu].
      destruct (OFFSET_small mp r c Hok) as [Ho Hrange]; try lia.
      rewrite Ho. rewrite wr_total by lia.
      eexists; split; [reflexivity|]. split.
      * now rewrite length_upd.
      * intros p Hp Hpl. rewrite length_upd in Hpl.
        destruct (Nat.eq_dec (Z.to_nat (r * n_cols mp + c)) p) as [->|Hne].
        -- apply nth_error_upd_same. lia.
        -- rewrite nth_error_upd_other by auto. apply Hu; lia.
    + split; auto. intros p Hp. apply Ht. lia.
    + exists t'. split; auto.
      replace ((r + 1) * n_cols mp) with (r * n_cols mp + (0 + Z.of_nat (Z.to_nat (n_cols mp))))
        by lia.
      exact Hinv'.
  - split; auto. intros p Hp. lia.
  - rewrite Hrun. cbn [bind]. do 2 f_equal.
    rewrite <- Hlen. apply all_eq_repeat.
    intros p Hp. apply Hall; auto. lia.
Qed.

Lemma nth_error_upd {A : Type} (l : list A) (n m : nat) (a : A) :
  (n < length l)%nat ->
  nth_error (upd l n a) m = if Nat.eqb n m then Some a else nth_error l m.
Proof.
  intros Hn. destruct (Nat.eqb_spec n m) as [->|Hne].
  - now apply nth_error_upd_same.
  - now apply nth_error_upd_other.
Qed.

(** [maze_unmark] returns, with every cell's marker Up and visited bit
    off, and the wall bits as they were. *)
Lemma maze_unmark_spec (mp : maze_t) :
  grid_ok mp ->
  maze_unmark mp = Ret (with_cells mp (map unmarked (cells mp))).
Proof.
  intros Hok. pose proof Hok as (Hr & Hc & Hn & Hl).
  unfold maze_unmark. rewrite wrap_small by nia.
  set (Inv := fun (k : Z) (cs : list maze_node) =>
                length cs = length (cells mp) /\
                forall p, nth_error cs p =
                          if Z.of_nat p <? k
                          then option_map unmarked (nth_error (cells mp) p)
                          else nth_error (cells mp) p).
  destruct (for_up_total Inv
              (fun pos cs =>
                 n <- rd cs pos ;;
                 cs1 <- wr cs pos (set_visit n false) ;;
                 n1 <- rd cs1 pos ;;
                 wr cs1 pos (set_marker n1 DIR_U))
              (Z.to_nat (n_rows mp * n_cols mp)) 0 (cells mp)) as [cs [Hrun [Hlen Hall]]].
  - intros i t Hi [Hlt Ht].
    destruct (rd_total t i) as [n Hn']; [lia|].
    rewrite Hn'. cbn [bind]. rewrite wr_total by lia. cbn [bind].
    apply rd_ret in Hn'. destruct Hn' as [_ Hn'].
    assert (Hrd : rd (upd t (Z.to_nat i) (set_visit n false)) i = Ret (set_visit n false)).
    { apply rd_ret. rewrite length_upd. split; [lia|]. apply nth_error_upd_same. lia. }
    rewrite Hrd. cbn [bind]. rewrite wr_total by (rewrite length_upd; lia).
    eexists; split; [reflexivity|]. split.
    + now rewrite !length_upd.
    + intros p. rewrite nth_error_upd by (rewrite length_upd; lia).
      destruct (Nat.eqb_spec (Z.to_nat i) p) as [<-|Hne].
      * replace (Z.of_nat (Z.to_nat i) <? i + 1) with true by (symmetry; apply Z.ltb_lt; lia).
        specialize (Ht (Z.to_nat i)).
        replace (Z.of_nat (Z.to_nat i) <? i) with false in Ht by (symmetry; apply Z.ltb_ge; lia).
        rewrite <- Ht, Hn'. reflexivity.
      * rewrite nth_error_upd_other by auto. rewrite Ht.
        destruct (Z.of_nat p <? i) eqn:E1, (Z.of_nat p <? i + 1) eqn:E2; auto.
        -- apply Z.ltb_lt in E1. apply Z.ltb_ge in E2. lia.
        -- apply Z.ltb_ge in E1. apply Z.ltb_lt in E2. lia.
  - split; auto. intros p.
    replace (Z.of_nat p <? 0) with false by (symmetry; apply Z.ltb_ge; lia). reflexivity.
  - rewrite Hrun. cbn [bind]. do 2 f_equal.
    apply nth_error_ext. intros p. rewrite Hall, nth_error_map.
    destruct (Z.of_nat p <? 0 + Z.of_nat (Z.to_nat (n_rows mp * n_cols mp))) eqn:E; auto.
    apply Z.ltb_ge in E.
    assert (nth_error (cells mp) p = None) as -> by (apply nth_error_None; lia).
    reflexivity.
Qed.

(** * The default exits of maze_init *)

Lemma maze_init_succeeds (EXIT : rowcol_t -> Z -> rowcol_t) (junk : nat -> maze_node)
  (mp : maze_t) (nr nc : rowcol_t) :
  1 <= nr -> 1 <= nc -> nr * nc < wB ->
  maze_init EXIT (Some junk) mp nr nc =
  Ret (1, mk_maze nr nc (repeat def_node (Z.to_nat (nr * nc))) []
            (EXIT 0 DIR_L) (EXIT (wrap (nr - 1)) DIR_R)).
Proof.
  intros Hr Hc Hn. unfold maze_init.
  rewrite wrap_small by nia.
  replace (0 <? nr * nc) with true by (symmetry; apply Z.ltb_lt; nia).
  cbn [assert bind malloc].
  rewrite maze_reset_spec.
  - cbn [bind]. unfold with_cells. cbn [n_rows n_cols cells sets exit_1 exit_2].
    now rewrite length_map, length_seq.
  - unfold grid_ok. cbn [n_rows n_cols cells].
    rewrite length_map, length_seq. repeat split; auto. lia.
Qed.

(** C10. A successful [maze_init (mp, nr, nc)] stores as [exit_1] the
    descriptor of the Left side at offset 0 and as [exit_2] the descriptor
    of the Right side at offset [nr - 1]; when the exit encoding of maze.h
    decodes these two descriptors, the default solution of mazegen.c runs
    from cell (0, 0) to cell (nr - 1, nc - 1). *)
Theorem maze_init_default_exits :
  forall (EXIT : rowcol_t -> Z -> rowcol_t) (EPOS EDIR : rowcol_t -> Z)
         (heap : option (nat -> maze_node)) (mp mp' : maze_t) (nr nc : rowcol_t)
         (dflt : rowcol_t * rowcol_t),
    1 <= nr < wB -> 1 <= nc < wB ->
    maze_init EXIT heap mp nr nc = Ret (1, mp') ->
    EPOS (EXIT 0 DIR_L) = 0 -> EDIR (EXIT 0 DIR_L) = DIR_L ->
    EPOS (EXIT (nr - 1) DIR_R) = nr - 1 -> EDIR (EXIT (nr - 1) DIR_R) = DIR_R ->
    exit_1 mp' = EXIT 0 DIR_L /\
    exit_2 mp' = EXIT (nr - 1) DIR_R /\
    exit_cell EPOS EDIR mp' (exit_1 mp') dflt = (0, 0) /\
    exit_cell EPOS EDIR mp' (exit_2 mp') dflt = (nr - 1, nc - 1).
Proof.
  intros EXIT EPOS EDIR heap mp mp' nr nc dflt Hr Hc Hinit P1 D1 P2 D2.
  unfold maze_init in Hinit.
  inv_bind Hinit.
  destruct (malloc heap (wrap (nr * nc))) as [block|]; [|inversion Hinit].
  inv_bind Hinit. inversion Hinit; subst mp'; clear Hinit.
  unfold maze_reset in Ha0. inv_bind Ha0. inversion Ha0; subst a0; clear Ha0.
  rewrite wrap_small in * by lia.
  unfold with_cells, exit_cell. cbn [n_rows n_cols cells sets exit_1 exit_2].
  rewrite P1, D1, P2, D2. cbn.
  rewrite !wrap_small by lia. auto.
Qed.

Lemma maze_init_default_exits_witness :
  exists mp',
    maze_init EXIT_bits (Some (fun _ => def_node)) (uniform_grid 0 0 def_node) 3 4
    = Ret (1, mp') /\
    exit_1 mp' = EXIT_bits 0 DIR_L /\
    exit_2 mp' = EXIT_bits (3 - 1) DIR_R /\
    exit_cell EPOS_bits EDIR_bits mp' (exit_1 mp') (7, 7) = (0, 0) /\
    exit_cell EPOS_bits EDIR_bits mp' (exit_2 mp') (7, 7) = (3 - 1, 4 - 1).
Proof.
  eexists. split; [vm_compute; reflexivity|].
  apply (maze_init_default_exits EXIT_bits EPOS_bits EDIR_bits
           (Some (fun _ => def_node)) (uniform_grid 0 0 def_node) _ 3 4 (7, 7));
    try reflexivity; split; try reflexivity; discriminate.
Defined.

(** * Allocation failure in maze_generate *)

(** C3. When the allocation of the path sets or of the working queue
    fails, [maze_generate] returns 0 and leaves every cell in the all-walls
    state [def_node], with no path-set block attached; and whenever it
    returns 0 the grid is in that state. *)
Theorem maze_generate_alloc_failure :
  forall (fuel : nat) (heap_sets heap_queue : option (nat -> rowcol_t))
         (random : rand_f) (mp : maze_t),
    grid_ok mp ->
    (heap_sets = None \/ heap_queue = None ->
     maze_generate fuel heap_sets heap_queue random mp =
     Ret (0, with_sets (with_cells mp (repeat def_node (length (cells mp)))) [])) /\
    (forall mp', maze_generate fuel heap_sets heap_queue random mp = Ret (0, mp') ->
                 cells mp' = repeat def_node (length (cells mp)) /\
                 n_rows mp' = n_rows mp /\ n_cols mp' = n_cols mp).
Proof.
  intros fuel hs hq random mp Hok. unfold maze_generate.
  rewrite maze_reset_spec by auto. cbn [bind]. split.
  - intros [-> | ->]; cbn [malloc]; auto.
    destruct hs; reflexivity.
  - intros mp' H.
    destruct (malloc hs _) as [ss|].
    + destruct (malloc hq _) as [q|].
      * inv_bind H. destruct a as [q1 m1]. inv_bind H. inversion H.
      * inversion H; subst. auto.
    + inversion H; subst. auto.
Qed.

Lemma maze_generate_alloc_failure_witness :
  maze_generate 5 None (Some (fun _ => 0)) (fun _ => 0%Q) perfect_2x2 =
  Ret (0, with_sets (with_cells perfect_2x2
                       (repeat def_node (length (cells perfect_2x2)))) []).
Proof.
  apply (maze_generate_alloc_failure 5 None (Some (fun _ => 0)) (fun _ => 0%Q) perfect_2x2).
  - unfold grid_ok. cbn. lia.
  - left. reflexivity.
Defined.

(** * The boundary test of s_can_move *)

Lemma s_can_move_up_closed (mp : maze_t) (c : rowcol_t) :
  s_can_move mp 0 c DIR_U = Ret false.
Proof. reflexivity. Qed.

Lemma s_can_move_left_closed (mp : maze_t) (r : rowcol_t) :
  s_can_move mp r 0 DIR_L = Ret false.
Proof. reflexivity. Qed.

Lemma s_can_move_down_closed (mp : maze_t) (c : rowcol_t) :
  1 <= n_rows mp < wB ->
  s_can_move mp (n_rows mp - 1) c DIR_D = Ret false.
Proof.
  intros H. unfold s_can_move. cbn.
  rewrite wrap_small by lia. now rewrite Z.ltb_irrefl.
Qed.

(** In the last column the Right test reads the cell's own wall bit: the
    guard is [c < n_cols] where the other directions stop one short. *)
Lemma s_can_move_right_last_column (mp : maze_t) (r : rowcol_t) (n : maze_node) :
  1 <= n_cols mp ->
  rd (cells mp) (OFFSET mp r (n_cols mp - 1)) = Ret n ->
  s_can_move mp r (n_cols mp - 1) DIR_R = Ret (negb (r_wall n)).
Proof.
  intros H Hrd. unfold s_can_move. cbn.
  replace (n_cols mp - 1 <? n_cols mp) with true by (symmetry; apply Z.ltb_lt; lia).
  now rewrite Hrd.
Qed.

(** C7. On the one-cell grid whose right wall bit is clear, [s_can_move]
    refuses Up, Down and Left but allows Right, although the destination
    lies outside the grid. *)
Theorem s_can_move_right_escapes :
  s_can_move open_right_1x1 0 0 DIR_U = Ret false /\
  s_can_move open_right_1x1 0 0 DIR_D = Ret false /\
  s_can_move open_right_1x1 0 0 DIR_L = Ret false /\
  s_can_move open_right_1x1 0 0 DIR_R = Ret true.
Proof. repeat split; vm_compute; reflexivity. Qed.

(** * maze_find_path with equal endpoints *)

(** C4. On the one-cell grid, [maze_find_path] from (0, 0) to (0, 0) does
    not return: after marking the cell, the marking loop steps Up before
    it tests for the goal and writes outside the grid. *)
Theorem find_path_same_cell_1x1 :
  forall fuel : nat,
    maze_find_path (2 + fuel) (uniform_grid 1 1 def_node) 0 0 0 0 = Crash.
Proof. intros fuel. vm_compute. reflexivity. Qed.

(** With less fuel the run has not finished yet; it never returns. *)
Lemma find_path_same_cell_1x1_never_returns (fuel : nat) (mp' : maze_t) :
  maze_find_path fuel (uniform_grid 1 1 def_node) 0 0 0 0 <> Ret mp'.
Proof.
  destruct fuel as [|[|fuel]]; vm_compute; discriminate.
Qed.

(** C2. On a perfect maze of 2 by 2 cells, [maze_find_path] from (1, 1)
    to (1, 1) does not mark the one-cell path: it marks (1, 1), steps Up,
    marks (0, 1) too, steps Up again and writes outside the grid. *)
Theorem find_path_perfect_2x2_same_cell :
  forall fuel : nat,
    maze_find_path (3 + fuel) perfect_2x2 1 1 1 1 = Crash.
Proof. intros fuel. vm_compute. reflexivity. Qed.

(** The first two rounds of the marking loop on that input: both (1, 1)
    and (0, 1) carry the visited flag when the loop leaves the grid. *)
Lemma mark_route_perfect_2x2_same_cell :
  (mp0 <- maze_unmark perfect_2x2 ;;
   mp1 <- cell_update mp0 (OFFSET mp0 1 1) (fun n => set_visit n true) ;;
   mp2 <- cell_update mp1 (OFFSET mp1 0 1) (fun n => set_visit n true) ;;
   Ret (map visit (cells mp2), step_dir DIR_U 0 1))
  = Ret ([false; true; false; true], Ret (wB - 1, 1)).
Proof. vm_compute. reflexivity. Qed.

(** With distinct endpoints the same maze is solved: from (1, 0) to (1, 1)
    the visited cells are the four cells of the tree path. *)
Lemma find_path_perfect_2x2_distinct :
  exists mp', maze_find_path 10 perfect_2x2 1 0 1 1 = Ret mp' /\
              map visit (cells mp') = [true; true; true; true].
Proof. eexists. split; [vm_compute; reflexivity | reflexivity]. Qed.

(** * The solver writes markers and visited bits only *)

Lemma frame_walls_refl (mp : maze_t) : frame_walls mp mp.
Proof. split; auto. now destruct mp. Qed.

Lemma frame_walls_trans (m1 m2 m3 : maze_t) :
  frame_walls m1 m2 -> frame_walls m2 m3 -> frame_walls m1 m3.
Proof.
  intros [E1 W1] [E2 W2]. split.
  - rewrite E2 at 1. rewrite E1 at 1. reflexivity.
  - congruence.
Qed.

Lemma cell_update_frame_walls (mp mp' : maze_t) (off : rowcol_t)
  (f : maze_node -> maze_node) :
  (forall n, walls (f n) = walls n) ->
  cell_update mp off f = Ret mp' -> frame_walls mp mp'.
Proof.
  intros Hf H. unfold cell_update in H.
  inv_bind H. inv_bind H. inversion H; subst mp'; clear H.
  apply rd_ret in Ha. destruct Ha as [Hr Hn].
  apply wr_ret in Ha0. destruct Ha0 as [_ ->].
  split; [reflexivity|]. cbn [cells with_cells].
  rewrite map_upd, Hf. apply upd_same_value.
  now rewrite nth_error_map, Hn.
Qed.

Lemma probe_dirs_frame_walls (n : nat) :
  forall (mp mp' : maze_t) (c_row c_col : rowcol_t) (c_dir d : Z),
    probe_dirs n mp c_row c_col c_dir = Ret (mp', d) -> frame_walls mp mp'.
Proof.
  induction n as [|n IH]; intros mp mp' c_row c_col c_dir d H; cbn [probe_dirs] in H.
  - inversion H; subst. apply frame_walls_refl.
  - inv_bind H. destruct a.
    + inv_bind H. inversion H; subst.
      eapply cell_update_frame_walls; [|exact Ha0]. reflexivity.
    + eapply IH; eauto.
Qed.

Lemma search_frame_walls (fuel : nat) :
  forall (mp mp' : maze_t) (c_row c_col end_row end_col : rowcol_t),
    search fuel mp c_row c_col end_row end_col = Ret mp' -> frame_walls mp mp'.
Proof.
  induction fuel as [|fuel IH]; intros mp mp' c_row c_col end_row end_col H;
    cbn [search] in H; [discriminate|].
  destruct ((c_row =? end_row) && (c_col =? end_col)).
  - inversion H; subst. apply frame_walls_refl.
  - inv_bind H. inv_bind H. destruct a0 as [mp1 c_dir].
    inv_bind H. destruct a0 as [r c]. inv_bind H.
    eapply frame_walls_trans; [eapply probe_dirs_frame_walls; eauto|].
    eapply frame_walls_trans; [|eapply IH; eauto].
    eapply cell_update_frame_walls; [|eauto]. reflexivity.
Qed.

Lemma mark_route_frame_walls (fuel : nat) :
  forall (mp mp' : maze_t) (c_row c_col end_row end_col r c : rowcol_t),
    mark_route fuel mp c_row c_col end_row end_col = Ret (mp', r, c) ->
    frame_walls mp mp'.
Proof.
  induction fuel as [|fuel IH]; intros mp mp' c_row c_col end_row end_col r c H;
    cbn [mark_route] in H; [discriminate|].
  inv_bind H. inv_bind H. inv_bind H. destruct a1 as [r1 c1].
  assert (F1 : frame_walls mp a) by (eapply cell_update_frame_walls; [|eauto]; reflexivity).
  destruct (negb (r1 =? end_row) || negb (c1 =? end_col)).
  - eapply frame_walls_trans; [exact F1|]. eapply IH; eauto.
  - inversion H; subst. exact F1.
Qed.

Lemma map_unmarked_walls (l1 l2 : list maze_node) :
  map walls l1 = map walls l2 -> map unmarked l1 = map unmarked l2.
Proof.
  intros H.
  assert (E : forall l, map unmarked l =
                        map (fun w => mk_node (fst w) (snd w) DIR_U false) (map walls l)).
  { intros l. rewrite map_map. apply map_ext. reflexivity. }
  now rewrite (E l1), (E l2), H.
Qed.

Lemma frame_walls_grid_ok (mp mp' : maze_t) :
  frame_walls mp mp' -> grid_ok mp -> grid_ok mp'.
Proof.
  intros [E W] (Hr & Hc & Hn & Hl).
  assert (length (cells mp') = length (cells mp)).
  { rewrite <- (length_map walls (cells mp')), W. apply length_map. }
  rewrite E. unfold grid_ok, with_cells. cbn [n_rows n_cols cells].
  repeat split; auto. congruence.
Qed.

Lemma frame_walls_unmark (mp mp' : maze_t) :
  frame_walls mp mp' -> grid_ok mp ->
  maze_unmark mp' = Ret (with_cells mp (map unmarked (cells mp))).
Proof.
  intros F Hok. rewrite maze_unmark_spec by (eapply frame_walls_grid_ok; eauto).
  destruct F as [E W]. rewrite (map_unmarked_walls _ _ W).
  rewrite E at 1. reflexivity.
Qed.

Lemma maze_find_path_frame_walls (fuel : nat) (mp mp' : maze_t)
  (sr sc er ec : rowcol_t) :
  grid_ok mp -> maze_find_path fuel mp sr sc er ec = Ret mp' -> frame_walls mp mp'.
Proof.
  intros Hok H. unfold maze_find_path in H.
  rewrite maze_unmark_spec in H by auto. cbn [bind] in H.
  inv_bind H. inv_bind H. destruct a0 as [[mp2 r] c].
  assert (F0 : frame_walls mp (with_cells mp (map unmarked (cells mp)))).
  { split; [reflexivity|]. cbn [cells with_cells]. rewrite map_map. reflexivity. }
  eapply frame_walls_trans; [exact F0|].
  eapply frame_walls_trans; [eapply search_frame_walls; eauto|].
  eapply frame_walls_trans; [eapply mark_route_frame_walls; eauto|].
  eapply cell_update_frame_walls; [|eauto]. reflexivity.
Qed.

(** Whatever marks a grid carries, a solve on it is the search and the
    marking run on the cleared grid: the results on two grids with the
    same walls are the same. *)
Lemma maze_find_path_from_clean (fuel : nat) (mp mp2 : maze_t) (sr sc er ec : rowcol_t) :
  grid_ok mp -> frame_walls mp mp2 ->
  maze_find_path fuel mp2 sr sc er ec =
  (m1 <- search fuel (with_cells mp (map unmarked (cells mp))) sr sc er ec ;;
   ' (m2, r, c) <- mark_route fuel m1 sr sc er ec ;;
   cell_update m2 (OFFSET m2 r c) (fun n => set_visit n true)).
Proof.
  intros Hok F. unfold maze_find_path.
  rewrite (frame_walls_unmark mp mp2 F Hok). reflexivity.
Qed.

(** C5. [maze_find_path] begins by setting every marker to Up and every
    visited bit to off: on a well-formed grid it is the search and the
    marking run on the cleared grid.  So its outcome does not depend on
    the markers and visited bits the grid carried: on any grid with the
    same walls the outcome is the same, and no mark of an earlier solve
    survives.  A solve that returns leaves every wall bit as it was, so a
    solve run on the grid it left behind starts from the same cleared grid
    and has the same outcome as a solve run on the original grid. *)
Theorem find_path_keeps_walls_and_resets :
  forall mp : maze_t,
    grid_ok mp ->
    (forall (fuel : nat) (sr sc er ec : rowcol_t),
       maze_find_path fuel mp sr sc er ec =
       (m1 <- search fuel (with_cells mp (map unmarked (cells mp))) sr sc er ec ;;
        ' (m2, r, c) <- mark_route fuel m1 sr sc er ec ;;
        cell_update m2 (OFFSET m2 r c) (fun n => set_visit n true))) /\
    (forall (mp2 : maze_t) (fuel : nat) (sr sc er ec : rowcol_t),
       frame_walls mp mp2 ->
       maze_find_path fuel mp2 sr sc er ec = maze_find_path fuel mp sr sc er ec) /\
    (forall (fuel : nat) (mp1 : maze_t) (sr sc er ec : rowcol_t),
       maze_find_path fuel mp sr sc er ec = Ret mp1 ->
       n_rows mp1 = n_rows mp /\ n_cols mp1 = n_cols mp /\
       map walls (cells mp1) = map walls (cells mp) /\
       maze_unmark mp = Ret (with_cells mp (map unmarked (cells mp))) /\
       maze_unmark mp1 = Ret (with_cells mp (map unmarked (cells mp))) /\
       forall (fuel' : nat) (sr' sc' er' ec' : rowcol_t),
         maze_find_path fuel' mp1 sr' sc' er' ec' =
         maze_find_path fuel' mp sr' sc' er' ec').
Proof.
  intros mp Hok. split; [|split].
  - intros fuel sr sc er ec.
    apply maze_find_path_from_clean; [exact Hok | apply frame_walls_refl].
  - intros mp2 fuel sr sc er ec F.
    rewrite (maze_find_path_from_clean fuel mp mp2 sr sc er ec Hok F).
    rewrite (maze_find_path_from_clean fuel mp mp sr sc er ec Hok (frame_walls_refl mp)).
    reflexivity.
  - intros fuel mp1 sr sc er ec H.
    pose proof (maze_find_path_frame_walls _ _ _ _ _ _ _ Hok H) as F.
    pose proof (frame_walls_unmark _ _ F Hok) as U1.
    pose proof (maze_unmark_spec _ Hok) as U0.
    destruct F as [E W].
    split; [rewrite E; reflexivity|]. split; [rewrite E; reflexivity|].
    split; [exact W|]. split; [exact U0|]. split; [exact U1|].
    intros. unfold maze_find_path. now rewrite U0, U1.
Qed.

Lemma find_path_keeps_walls_and_resets_witness :
  exists mp1,
    maze_find_path 10 perfect_2x2 1 0 1 1 = Ret mp1 /\
    map walls (cells mp1) = map walls (cells perfect_2x2) /\
    maze_find_path 10 mp1 0 0 0 1 = maze_find_path 10 perfect_2x2 0 0 0 1 /\
    maze_find_path 10
      (with_cells perfect_2x2
         (map (fun n => set_visit (set_marker n DIR_L) true) (cells perfect_2x2)))
      0 0 0 1 = maze_find_path 10 perfect_2x2 0 0 0 1.
Proof.
  assert (Hok : grid_ok perfect_2x2) by (unfold grid_ok; cbn; lia).
  destruct (find_path_keeps_walls_and_resets perfect_2x2 Hok) as (_ & Hpin & Hret).
  destruct (maze_find_path 10 perfect_2x2 1 0 1 1) as [mp1| |] eqn:Hrun;
    [| vm_compute in Hrun; discriminate ..].
  exists mp1. split; [reflexivity|].
  destruct (Hret 10%nat mp1 1 0 1 1 Hrun) as (_ & _ & W & _ & _ & E).
  split; [exact W|]. split; [apply E|].
  apply Hpin. split; reflexivity.
Defined.

(** Two solves in a row on the perfect maze of 2 by 2 cells: the first,
    from (1, 0) to (1, 1), leaves all four cells visited; the second, from
    (0, 0) to (0, 1) on the grid the first left, leaves visited the two
    cells of its own path only. *)
Example find_path_twice_perfect_2x2 :
  exists mp1 mp2,
    maze_find_path 10 perfect_2x2 1 0 1 1 = Ret mp1 /\
    map visit (cells mp1) = [true; true; true; true] /\
    maze_find_path 10 mp1 0 0 0 1 = Ret mp2 /\
    map visit (cells mp2) = [true; true; false; false].
Proof.
  eexists. eexists. split; [vm_compute; reflexivity|].
  split; [reflexivity|]. split; [vm_compute; reflexivity | reflexivity].
Qed.

(** * The reshuffle of the working queue *)

(** The cast of [v * n] for [v] in [0, 1) is the floor of the product and
    is an index below [n]. *)
Lemma to_rowcol_unit (v : Q) (n : Z) :
  (0 <= v)%Q -> (v < 1)%Q -> 0 < n < wB ->
  to_rowcol (v * inject_Z n) = Qfloor (v * inject_Z n) /\
  0 <= to_rowcol (v * inject_Z n) < n.
Proof.
  intros H0 H1 Hn. destruct v as [a b].
  unfold Qle in H0. unfold Qlt in H1. cbn in H0, H1.
  unfold to_rowcol, Qfloor. cbn [Qmult inject_Z Qnum Qden].
  rewrite Pos.mul_1_r.
  assert (Ha : 0 <= a) by lia.
  assert (Hb : a < Z.pos b) by lia.
  rewrite Z.quot_div_nonneg by nia.
  assert (Hq : 0 <= a * n / Z.pos b < n).
  { split.
    - apply Z.div_pos; nia.
    - apply Z.div_lt_upper_bound; nia. }
  rewrite wrap_small by lia. auto.
Qed.

Lemma rd_nth (l : list rowcol_t) (i : Z) :
  0 <= i < Z.of_nat (length l) -> rd l i = Ret (nth (Z.to_nat i) l 0).
Proof.
  intros H. apply rd_ret. split; auto.
  apply nth_error_nth'. lia.
Qed.

Lemma length_swapped (l : list rowcol_t) (i j : nat) :
  length (swapped l i j) = length l.
Proof. unfold swapped. now rewrite !length_upd. Qed.

Lemma nth_error_swapped (l : list rowcol_t) (i j n : nat) :
  (i < length l)%nat -> (j < length l)%nat ->
  nth_error (swapped l i j) n =
  nth_error l (if Nat.eqb n j then i else if Nat.eqb n i then j else n).
Proof.
  intros Hi Hj. unfold swapped.
  rewrite nth_error_upd by (rewrite length_upd; auto).
  rewrite (Nat.eqb_sym n j).
  destruct (Nat.eqb_spec j n) as [<-|Hne].
  - symmetry. apply nth_error_nth'. auto.
  - rewrite nth_error_upd by auto. rewrite (Nat.eqb_sym n i).
    destruct (Nat.eqb_spec i n) as [<-|Hne'].
    + symmetry. apply nth_error_nth'. auto.
    + reflexivity.
Qed.

Lemma swapped_Permutation (l : list rowcol_t) (i j : nat) :
  (i < length l)%nat -> (j < length l)%nat -> Permutation l (swapped l i j).
Proof.
  intros Hi Hj. apply Permutation_nth_error. split.
  - now rewrite length_swapped.
  - exists (fun n => if Nat.eqb n j then i else if Nat.eqb n i then j else n). split.
    + intros x y.
      destruct (Nat.eqb_spec x j), (Nat.eqb_spec x i),
               (Nat.eqb_spec y j), (Nat.eqb_spec y i); intros; subst; congruence.
    + intros n. now apply nth_error_swapped.
Qed.

(** The reshuffle loop of the source returns, and its result is the pass
    of the specification taken with the floor as index function; the
    queue it returns is a permutation of the queue it was given. *)
Lemma reshuffle_spec (random : rand_f) :
  unit_source random ->
  forall (pos : nat) (q : list rowcol_t) (k : nat),
    (pos < length q)%nat -> Z.of_nat (length q) < wB ->
    exists q',
      reshuffle random pos (q, k) = Ret (q', (k + pos)%nat) /\
      shuffle_pass Qfloor random k pos q = Some q' /\
      Permutation q q'.
Proof.
  intros Hsrc. induction pos as [|pos IH]; intros q k Hpos Hlen.
  - exists q. cbn. rewrite Nat.add_0_r. auto.
  - cbn [reshuffle shuffle_pass].
    destruct (Hsrc k) as [H0 H1].
    assert (Hw : wrap (Z.of_nat (S pos) + 1) = Z.of_nat (S pos) + 1)
      by (apply wrap_small; lia).
    rewrite Hw.
    destruct (to_rowcol_unit (random k) (Z.of_nat (S pos) + 1) H0 H1) as [Hfl Hrange];
      [lia|].
    rewrite <- Hfl.
    set (exch := to_rowcol (random k * inject_Z (Z.of_nat (S pos) + 1))) in *.
    rewrite (rd_nth q (Z.of_nat (S pos))) by lia.
    rewrite (rd_nth q exch) by lia.
    cbn [bind]. rewrite wr_total by lia. cbn [bind].
    rewrite wr_total by (rewrite length_upd; lia). cbn [bind].
    replace ((0 <=? exch) && (exch <? Z.of_nat (length q))) with true
      by (symmetry; apply andb_true_intro; split; [apply Z.leb_le|apply Z.ltb_lt]; lia).
    rewrite Nat2Z.id.
    change (upd (upd q (S pos) (nth (Z.to_nat exch) q 0)) (Z.to_nat exch) (nth (S pos) q 0))
      with (swapped q (S pos) (Z.to_nat exch)).
    destruct (IH (swapped q (S pos) (Z.to_nat exch)) (S k)) as [q' (R1 & R2 & R3)].
    + rewrite length_swapped. lia.
    + now rewrite length_swapped.
    + exists q'. replace (k + S pos)%nat with (S k + pos)%nat by lia.
      repeat split; auto.
      eapply Permutation_trans; [|exact R3].
      apply swapped_Permutation; lia.
Qed.

(** C8 as stated fails: with the source constantly 0.4 and the queue
    [0; 1], the code swaps element 1 with element [floor 0.8 = 0], while
    rounding to the nearest integer gives index 1 and leaves the queue as
    it is.  It is so with the exact product at the rational 0.4, and with
    the rounded product at the double nearest to 0.4. *)
Lemma reshuffle_not_round_nearest :
  reshuffle (fun _ => 4 # 10)%Q 1 ([0; 1], O) = Ret ([1; 0], 1%nat) /\
  shuffle_pass round_nearest (fun _ => 4 # 10)%Q 0 1 [0; 1] = Some [0; 1] /\
  reshuffle_rounded (fun _ => double_0_4) 1 ([0; 1], O) = Ret ([1; 0], 1%nat) /\
  shuffle_pass round_nearest (fun _ => double_0_4) 0 1 [0; 1] = Some [0; 1].
Proof. repeat split; vm_compute; reflexivity. Qed.

(** Rounding can also leave the queue: with the source constantly 0.9 the
    rounded index for [i = 1] is 2, past the last element. *)
Lemma round_nearest_out_of_range :
  reshuffle (fun _ => 9 # 10)%Q 1 ([0; 1], O) = Ret ([0; 1], 1%nat) /\
  shuffle_pass round_nearest (fun _ => 9 # 10)%Q 0 1 [0; 1] = None.
Proof. split; vm_compute; reflexivity. Qed.

(** * The disjoint-set forest *)

Lemma root_of_fun (ss : list rowcol_t) (i r : rowcol_t) (d : nat) :
  root_of ss i r d -> forall r' d', root_of ss i r' d' -> r = r' /\ d = d'.
Proof.
  induction 1 as [i Hi | i p r d Hi Hne Hp IH]; intros r' d' H'.
  - inversion H' as [k Hk | k p' r0 d0 Hk Hne' Hp']; subst; auto. congruence.
  - inversion H' as [k Hk | k p' r0 d0 Hk Hne' Hp']; subst; [congruence|].
    assert (p' = p) by congruence. subst p'.
    destruct (IH _ _ Hp') as [-> ->]. auto.
Qed.

Lemma root_of_root (ss : list rowcol_t) (i r : rowcol_t) (d : nat) :
  root_of ss i r d -> rd ss r = Ret r.
Proof. induction 1; auto. Qed.

Lemma root_of_range (ss : list rowcol_t) (i r : rowcol_t) (d : nat) :
  root_of ss i r d ->
  0 <= i < Z.of_nat (length ss) /\ 0 <= r < Z.of_nat (length ss).
Proof.
  induction 1 as [i Hi | i p r d Hi Hne Hp IH].
  - apply rd_ret in Hi. tauto.
  - apply rd_ret in Hi. tauto.
Qed.

Lemma root_of_on_path (ss : list rowcol_t) (i r : rowcol_t) (d : nat) :
  root_of ss i r d -> on_path ss i r.
Proof.
  induction 1 as [i Hi | i p r d Hi Hne Hp IH].
  - apply on_here.
  - eapply on_next; eauto.
Qed.

(** A node on the path from [i] has the root of [i], at no greater depth. *)
Lemma on_path_root (ss : list rowcol_t) (i j : rowcol_t) :
  on_path ss i j ->
  forall r d, root_of ss i r d -> exists d', root_of ss j r d' /\ (d' <= d)%nat.
Proof.
  induction 1 as [i | i p j Hi Hne Hp IH]; intros r d Hr.
  - exists d. auto.
  - inversion Hr as [k Hk | k p' r0 d0 Hk Hne' Hp']; subst; [congruence|].
    assert (p' = p) by congruence. subst p'.
    destruct (IH _ _ Hp') as [d' [Hd' Hle]]. exists d'. split; auto.
Qed.

(** The depth of a node is below the number of nodes. *)
Lemma root_of_depth (ss : list rowcol_t) (i r : rowcol_t) (d : nat) :
  root_of ss i r d -> (d < length ss)%nat.
Proof.
  intros H.
  assert (Hl : exists l, length l = S d /\ NoDup l /\
                         forall x, In x l -> exists d', (d' <= d)%nat /\ root_of ss x r d').
  { induction H as [i Hi | i p r d Hi Hne Hp IH].
    - exists [i]. repeat split.
      + constructor; [intros []|constructor].
      + intros x [<-|[]]. exists O. split; auto. now constructor.
    - destruct IH as [l (Hlen & Hnd & Hin)].
      exists (i :: l). repeat split.
      + simpl. lia.
      + constructor; auto. intros Hi'.
        destruct (Hin _ Hi') as [d' [Hle Hr']].
        assert (Hr : root_of ss i r (S d)) by (eapply root_step; eauto).
        destruct (root_of_fun _ _ _ _ Hr _ _ Hr') as [_ E]. lia.
      + intros x [<-|Hx].
        * exists (S d). split; auto. eapply root_step; eauto.
        * destruct (Hin _ Hx) as [d' [Hle Hr']]. exists d'. split; auto. }
  destruct Hl as [l (Hlen & Hnd & Hin)].
  assert (Hincl : incl l (map Z.of_nat (seq 0 (length ss)))).
  { intros x Hx. destruct (Hin _ Hx) as [d' [_ Hr']].
    apply root_of_range in Hr'. destruct Hr' as [Hx0 _].
    apply in_map_iff. exists (Z.to_nat x). split; [lia|].
    apply in_seq. lia. }
  pose proof (NoDup_incl_length Hnd Hincl) as Hle.
  rewrite length_map, length_seq in Hle. lia.
Qed.

Lemma compressed_refl (ss : list rowcol_t) : compressed ss ss.
Proof. split; auto. Qed.

(** Compression keeps every root, and makes no node deeper. *)
Lemma compressed_root (ss ss' : list rowcol_t) :
  compressed ss ss' ->
  forall i r d, root_of ss i r d -> exists d', root_of ss' i r d' /\ (d' <= d)%nat.
Proof.
  intros [Hlen Hc] i r d H.
  induction H as [i Hi | i p r d Hi Hne Hp IH].
  - exists O. split; auto. constructor.
    destruct (Hc i) as [E | (r0 & d0 & Hr0 & E)]; [congruence|].
    assert (Hs : root_of ss i i 0) by now constructor.
    destruct (root_of_fun _ _ _ _ Hs _ _ Hr0) as [-> _]. auto.
  - destruct IH as [d' [Hp' Hle]].
    assert (Hr : root_of ss i r (S d)) by (eapply root_step; eauto).
    destruct (Hc i) as [E | (r0 & d0 & Hr0 & E)].
    + exists (S d'). split; [|lia]. eapply root_step; eauto. congruence.
    + destruct (root_of_fun _ _ _ _ Hr _ _ Hr0) as [<- _].
      assert (Hrr : rd ss r = Ret r) by (eapply root_of_root; eauto).
      assert (r <> i) by congruence.
      exists 1%nat. split; [|lia].
      eapply root_step; eauto. constructor.
      destruct (Hc r) as [E' | (r1 & d1 & Hr1 & E')]; [congruence|].
      assert (Hs : root_of ss r r 0) by now constructor.
      destruct (root_of_fun _ _ _ _ Hs _ _ Hr1) as [-> _]. auto.
Qed.

Lemma compressed_forest (ss ss' : list rowcol_t) :
  compressed ss ss' -> forest ss -> forest ss'.
Proof.
  intros Hc Hf i Hi. destruct Hc as [Hlen Hc'].
  destruct (Hf i) as (r & d & Hr); [lia|].
  destruct (compressed_root ss ss' (conj Hlen Hc') _ _ _ Hr) as [d' [Hr' _]].
  eauto.
Qed.

Lemma compressed_trans (s1 s2 s3 : list rowcol_t) :
  compressed s1 s2 -> compressed s2 s3 -> forest s1 -> compressed s1 s3.
Proof.
  intros C12 C23 Hf. pose proof C12 as [L12 H12]. pose proof C23 as [L23 H23].
  split; [congruence|]. intros i.
  destruct (H23 i) as [E | (r & d & Hr & E)].
  - destruct (H12 i) as [E' | (r & d & Hr & E')].
    + left. congruence.
    + right. exists r, d. split; auto. congruence.
  - right. apply root_of_range in Hr as Hrange. destruct Hrange as [Hi _].
    destruct (Hf i) as (r1 & d1 & Hr1); [lia|].
    destruct (compressed_root _ _ C12 _ _ _ Hr1) as [d2 [Hr2 _]].
    destruct (root_of_fun _ _ _ _ Hr _ _ Hr2) as [-> _].
    exists r1, d1. auto.
Qed.

(** Roots seen after a compression are the roots before it. *)
Lemma compressed_root_inv (ss ss' : list rowcol_t) :
  compressed ss ss' -> forest ss ->
  forall i r d, root_of ss' i r d -> exists d', root_of ss i r d'.
Proof.
  intros Hc Hf i r d Hr. pose proof Hc as [Hlen _].
  apply root_of_range in Hr as Hrange. destruct Hrange as [Hi _].
  destruct (Hf i) as (r1 & d1 & Hr1); [lia|].
  destruct (compressed_root _ _ Hc _ _ _ Hr1) as [d2 [Hr2 _]].
  destruct (root_of_fun _ _ _ _ Hr _ _ Hr2) as [-> _]. eauto.
Qed.

(** [s_findset] with fuel above the depth of [pos] returns the root of
    [pos]; it rewrites the parent of every node on the path to the root and
    nothing else. *)
Lemma s_findset_spec (fuel : nat) :
  forall (mp : maze_t) (pos r : rowcol_t) (d : nat),
    root_of (sets mp) pos r d -> (d < fuel)%nat ->
    exists ss',
      s_findset fuel mp pos = Ret (with_sets mp ss', r) /\
      length ss' = length (sets mp) /\
      (forall j, on_path (sets mp) pos j -> rd ss' j = Ret r) /\
      (forall j, ~ on_path (sets mp) pos j -> rd ss' j = rd (sets mp) j).
Proof.
  induction fuel as [|fuel IH]; intros mp pos r d Hr Hd; [lia|].
  cbn [s_findset]. inversion Hr as [i Hi | i p r0 d0 Hi Hne Hp]; subst.
  - rewrite Hi. cbn [bind]. rewrite Z.eqb_refl. cbn [negb].
    exists (sets mp). repeat split; auto.
    + now destruct mp.
    + intros j Hj. inversion Hj; subst; auto. congruence.
  - rewrite Hi. cbn [bind].
    replace (p =? pos) with false by (symmetry; apply Z.eqb_neq; auto). cbn [negb].
    destruct (IH mp p r d0 Hp) as (ss1 & Hrun & Hlen & Hon & Hoff); [lia|].
    rewrite Hrun. cbn [bind sets with_sets].
    apply rd_ret in Hi as Hpos. destruct Hpos as [Hpos _].
    rewrite wr_total by lia. cbn [bind].
    assert (Hback : rd (upd ss1 (Z.to_nat pos) r) pos = Ret r).
    { apply rd_ret. rewrite length_upd. split; [lia|].
      apply nth_error_upd_same. lia. }
    rewrite Hback. cbn [bind].
    exists (upd ss1 (Z.to_nat pos) r). repeat split.
    + now rewrite length_upd.
    + intros j Hj. destruct (Z.eq_dec j pos) as [->|Hjp]; auto.
      assert (Hj' : on_path (sets mp) p j).
      { inversion Hj; subst; [congruence|]. congruence. }
      specialize (Hon _ Hj'). apply rd_ret in Hon. destruct Hon as [Hjr Hjn].
      apply rd_ret. rewrite length_upd. split; auto.
      rewrite nth_error_upd_other by lia. auto.
    + intros j Hj.
      assert (Hjp : j <> pos) by (intros ->; apply Hj; constructor).
      assert (Hj' : ~ on_path (sets mp) p j).
      { intros Hc. apply Hj. eapply on_next; eauto. }
      rewrite <- (Hoff _ Hj').
      unfold rd. rewrite length_upd.
      destruct ((0 <=? j) && (j <? Z.of_nat (length ss1))) eqn:E; auto.
      apply andb_prop in E. destruct E as [E1 E2].
      apply Z.leb_le in E1. rewrite nth_error_upd_other by lia. auto.
Qed.

Lemma s_findset_compressed (fuel : nat) (mp : maze_t) (pos r : rowcol_t) (d : nat) :
  root_of (sets mp) pos r d -> (d < fuel)%nat ->
  exists ss',
    s_findset fuel mp pos = Ret (with_sets mp ss', r) /\ compressed (sets mp) ss'.
Proof.
  intros Hr Hd.
  destruct (s_findset_spec fuel mp pos r d Hr Hd) as (ss' & Hrun & Hlen & Hon & Hoff).
  exists ss'. split; auto. split; auto.
  intros i.
  assert (Hdec : on_path (sets mp) pos i \/ ~ on_path (sets mp) pos i).
  { clear - Hr. induction Hr as [k Hk | k p r d Hk Hne Hp IH].
    - destruct (Z.eq_dec i k) as [->|Hn]; [left; constructor|].
      right. intros Hc. inversion Hc; subst; congruence.
    - destruct (Z.eq_dec i k) as [->|Hn]; [left; constructor|].
      destruct IH as [IH|IH]; [left; eapply on_next; eauto|].
      right. intros Hc. inversion Hc; subst; [congruence|].
      assert (p0 = p) by congruence. subst. auto. }
  destruct Hdec as [Hy|Hn].
  - right. destruct (on_path_root _ _ _ Hy _ _ Hr) as [d' [Hr' _]].
    exists r, d'. auto.
  - left. auto.
Qed.

(** A successful [s_findset] found the root, whatever the fuel was. *)
Lemma s_findset_ret (fuel : nat) :
  forall (mp mp' : maze_t) (pos r : rowcol_t),
    s_findset fuel mp pos = Ret (mp', r) ->
    exists d, root_of (sets mp) pos r d /\ (d < fuel)%nat.
Proof.
  induction fuel as [|fuel IH]; intros mp mp' pos r H; cbn [s_findset] in H;
    [discriminate|].
  inv_bind H. destruct (Z.eqb_spec a pos) as [->|Hne]; cbn [negb] in H.
  - inversion H; subst. exists O. split; [now constructor|lia].
  - inv_bind H. destruct a0 as [mp1 real]. inv_bind H. inv_bind H.
    inversion H; subst; clear H.
    destruct (IH _ _ _ _ Ha0) as [d [Hd Hlt]].
    apply wr_ret in Ha1. destruct Ha1 as [Hr ->].
    apply rd_ret in Ha2. destruct Ha2 as [_ Hn].
    rewrite nth_error_upd_same in Hn by lia. inversion Hn; subst.
    exists (S d). split; [|lia]. eapply root_step; eauto.
Qed.

Lemma rd_upd_same {A : Type} (l : list A) (i : Z) (a : A) :
  0 <= i < Z.of_nat (length l) -> rd (upd l (Z.to_nat i) a) i = Ret a.
Proof.
  intros H. apply rd_ret. rewrite length_upd. split; auto.
  apply nth_error_upd_same. lia.
Qed.

Lemma rd_upd_other {A : Type} (l : list A) (i j : Z) (a : A) :
  0 <= i -> i <> j -> rd (upd l (Z.to_nat i) a) j = rd l j.
Proof.
  intros Hi Hne. unfold rd. rewrite length_upd.
  destruct ((0 <=? j) && (j <? Z.of_nat (length l))) eqn:E; auto.
  apply andb_prop in E. destruct E as [E1 E2]. apply Z.leb_le in E1.
  rewrite nth_error_upd_other by lia. reflexivity.
Qed.

Lemma rd_singletons (n : nat) (i : Z) :
  0 <= i < Z.of_nat n -> rd (singletons n) i = Ret i.
Proof.
  intros H. apply rd_ret. unfold singletons.
  rewrite length_map, length_seq. split; auto.
  rewrite nth_error_map, nth_error_seq.
  replace (Z.to_nat i <? n)%nat with true by (symmetry; apply Nat.ltb_lt; lia).
  cbn [option_map]. rewrite Nat.add_0_l, Z2Nat.id by lia. reflexivity.
Qed.

Lemma length_singletons (n : nat) : length (singletons n) = n.
Proof. unfold singletons. now rewrite length_map, length_seq. Qed.

Lemma forest_singletons (n : nat) : forest (singletons n).
Proof.
  intros i Hi. rewrite length_singletons in Hi.
  exists i, O. constructor. now apply rd_singletons.
Qed.

(** Making the root [r1] a child of the root [r2] moves the set of [r1]
    under [r2] and leaves every other set alone. *)
Lemma link_root (ss : list rowcol_t) (r1 r2 : rowcol_t) :
  rd ss r1 = Ret r1 -> rd ss r2 = Ret r2 ->
  forall i r d, root_of ss i r d ->
    exists d', root_of (upd ss (Z.to_nat r1) r2) i (if r =? r1 then r2 else r) d'.
Proof.
  intros H1 H2 i r d H.
  apply rd_ret in H1 as Hr1. destruct Hr1 as [Hr1 Hn1].
  destruct (Z.eq_dec r1 r2) as [<-|Hne12].
  - rewrite upd_same_value by auto.
    exists d. destruct (Z.eqb_spec r r1); subst; auto.
  - assert (Hroot2 : root_of (upd ss (Z.to_nat r1) r2) r2 r2 0).
    { constructor. rewrite rd_upd_other by lia. auto. }
    induction H as [i Hi | i p r d Hi Hne Hp IH].
    + destruct (Z.eqb_spec i r1) as [->|Hn].
      * exists 1%nat. eapply root_step; eauto. apply rd_upd_same. auto.
      * exists O. constructor. rewrite rd_upd_other by lia. auto.
    + destruct IH as [d' IH]. exists (S d').
      eapply root_step; eauto.
      rewrite rd_upd_other; auto; [lia|]. intros ->. congruence.
Qed.

Lemma link_forest (ss : list rowcol_t) (r1 r2 : rowcol_t) :
  forest ss -> rd ss r1 = Ret r1 -> rd ss r2 = Ret r2 ->
  forest (upd ss (Z.to_nat r1) r2).
Proof.
  intros Hf H1 H2 i Hi. rewrite length_upd in Hi.
  destruct (Hf i Hi) as (r & d & Hr).
  destruct (link_root ss r1 r2 H1 H2 _ _ _ Hr) as [d' Hd']. eauto.
Qed.

(** What a successful [s_union] did: two compressions, then the root of
    [pos1] was made a child of the root of [pos2]. *)
Lemma s_union_ret (fuel : nat) (mp mp' : maze_t) (pos1 pos2 : rowcol_t) :
  forest (sets mp) ->
  s_union fuel mp pos1 pos2 = Ret mp' ->
  exists r1 r2 d1 d2 ss2,
    root_of (sets mp) pos1 r1 d1 /\ root_of (sets mp) pos2 r2 d2 /\
    compressed (sets mp) ss2 /\
    mp' = with_sets mp (upd ss2 (Z.to_nat r1) r2).
Proof.
  intros Hf H. unfold s_union in H.
  inv_bind H. destruct a as [mp1 set1]. inv_bind H. destruct a as [mp2 set2].
  inv_bind H. inversion H; subst mp'; clear H.
  destruct (s_findset_ret _ _ _ _ _ Ha) as [d1 [Hr1 Hd1]].
  destruct (s_findset_compressed fuel mp pos1 set1 d1 Hr1 Hd1) as (ss1 & Hrun1 & C1).
  rewrite Hrun1 in Ha. inversion Ha; subst mp1; clear Ha.
  destruct (s_findset_ret _ _ _ _ _ Ha0) as [d2 [Hr2 Hd2]].
  destruct (s_findset_compressed fuel _ pos2 set2 d2 Hr2 Hd2) as (ss2 & Hrun2 & C2).
  rewrite Hrun2 in Ha0. inversion Ha0; subst mp2; clear Ha0.
  cbn [sets with_sets] in *.
  destruct (compressed_root_inv _ _ C1 Hf _ _ _ Hr2) as [d2' Hr2'].
  apply wr_ret in Ha1. destruct Ha1 as [Hrange ->].
  exists set1, set2, d1, d2', ss2.
  split; [exact Hr1|]. split; [exact Hr2'|]. split; [|reflexivity].
  apply compressed_trans with ss1; auto.
Qed.

(** [s_union] returns on a forest, given fuel for the deepest node. *)
Lemma s_union_total (fuel : nat) (mp : maze_t) (pos1 pos2 r1 r2 : rowcol_t)
  (d1 d2 : nat) :
  forest (sets mp) -> (length (sets mp) <= fuel)%nat ->
  root_of (sets mp) pos1 r1 d1 -> root_of (sets mp) pos2 r2 d2 ->
  exists ss2,
    compressed (sets mp) ss2 /\
    s_union fuel mp pos1 pos2 = Ret (with_sets mp (upd ss2 (Z.to_nat r1) r2)).
Proof.
  intros Hf Hfuel Hr1 Hr2. unfold s_union.
  pose proof (root_of_depth _ _ _ _ Hr1) as Hd1.
  destruct (s_findset_compressed fuel mp pos1 r1 d1 Hr1) as (ss1 & Hrun1 & C1); [lia|].
  rewrite Hrun1. cbn [bind].
  destruct (compressed_root _ _ C1 _ _ _ Hr2) as [d2' [Hr2' Hle]].
  pose proof (root_of_depth _ _ _ _ Hr2') as Hd2.
  destruct C1 as [L1 C1'].
  destruct (s_findset_compressed fuel (with_sets mp ss1) pos2 r2 d2' Hr2')
    as (ss2 & Hrun2 & C2); [cbn [sets with_sets] in *; lia|].
  rewrite Hrun2. cbn [bind sets with_sets] in *.
  destruct C2 as [L2 C2'].
  apply root_of_range in Hr1 as Hrange. destruct Hrange as [_ Hrange].
  rewrite wr_total by lia. cbn [bind].
  exists ss2. split; auto.
  apply compressed_trans with ss1; auto; split; auto.
Qed.

Lemma dsf_reach_forest (mp : maze_t) : dsf_reach mp -> forest (sets mp).
Proof.
  induction 1 as [mp Hinit | fuel mp mp' pos r Hreach IH Hrun
                  | fuel mp mp' pos1 pos2 Hreach IH Hrun].
  - rewrite Hinit. apply forest_singletons.
  - destruct (s_findset_ret _ _ _ _ _ Hrun) as [d [Hr Hd]].
    destruct (s_findset_compressed fuel mp pos r d Hr Hd) as (ss' & Hrun' & C).
    rewrite Hrun' in Hrun. inversion Hrun; subst mp'.
    cbn [sets with_sets]. eapply compressed_forest; eauto.
  - destruct (s_union_ret _ _ _ _ _ IH Hrun)
      as (r1 & r2 & d1 & d2 & ss2 & Hr1 & Hr2 & C & ->).
    cbn [sets with_sets].
    destruct (compressed_root _ _ C _ _ _ Hr1) as [d1' [Hr1' _]].
    destruct (compressed_root _ _ C _ _ _ Hr2) as [d2' [Hr2' _]].
    apply link_forest.
    + eapply compressed_forest; eauto.
    + eapply root_of_root; eauto.
    + eapply root_of_root; eauto.
Qed.

(** C9. In every state that calls of [s_findset] and [s_union] reach from
    the singletons, the parent links form a forest.  There [s_findset (pos)]
    returns for every index once the fuel exceeds the depth of [pos], which
    is below the number of cells; it returns the root of [pos], points the
    parent of every node it visited at that root, leaves every other parent
    as it was and keeps the root of every index.  [s_union (pos1, pos2)]
    returns as well, and afterwards the two positions, and all indices that
    shared a set before, have the same root. *)
Theorem dsf_forest_find_union :
  forall mp : maze_t,
    dsf_reach mp ->
    forest (sets mp) /\
    (forall pos, 0 <= pos < Z.of_nat (length (sets mp)) ->
       exists r d,
         root_of (sets mp) pos r d /\ (d < length (sets mp))%nat /\
         forall fuel, (d < fuel)%nat ->
           exists ss',
             s_findset fuel mp pos = Ret (with_sets mp ss', r) /\
             (forall j, on_path (sets mp) pos j -> rd ss' j = Ret r) /\
             (forall j, ~ on_path (sets mp) pos j -> rd ss' j = rd (sets mp) j) /\
             (forall i ri di, root_of (sets mp) i ri di ->
                              exists di', root_of ss' i ri di')) /\
    (forall pos1 pos2 fuel,
       0 <= pos1 < Z.of_nat (length (sets mp)) ->
       0 <= pos2 < Z.of_nat (length (sets mp)) ->
       (length (sets mp) <= fuel)%nat ->
       exists ss',
         s_union fuel mp pos1 pos2 = Ret (with_sets mp ss') /\
         forest ss' /\ same_set ss' pos1 pos2 /\
         forall i j, same_set (sets mp) i j -> same_set ss' i j).
Proof.
  intros mp Hreach. pose proof (dsf_reach_forest mp Hreach) as Hf.
  split; [exact Hf|]. split.
  - intros pos Hpos. destruct (Hf pos Hpos) as (r & d & Hr).
    exists r, d. split; auto. split; [eapply root_of_depth; eauto|].
    intros fuel Hd.
    destruct (s_findset_spec fuel mp pos r d Hr Hd) as (ss' & Hrun & Hlen & Hon & Hoff).
    destruct (s_findset_compressed fuel mp pos r d Hr Hd) as (ss'' & Hrun' & C).
    rewrite Hrun in Hrun'. inversion Hrun' as [E].
    assert (ss'' = ss') as -> by (destruct mp; cbn in E; congruence).
    exists ss'. repeat split; auto.
    intros i ri di Hi. destruct (compressed_root _ _ C _ _ _ Hi) as [d' [Hd' _]]. eauto.
  - intros pos1 pos2 fuel H1 H2 Hfuel.
    destruct (Hf pos1 H1) as (r1 & d1 & Hr1).
    destruct (Hf pos2 H2) as (r2 & d2 & Hr2).
    destruct (s_union_total fuel mp pos1 pos2 r1 r2 d1 d2 Hf Hfuel Hr1 Hr2)
      as (ss2 & C & Hrun).
    exists (upd ss2 (Z.to_nat r1) r2). split; auto.
    assert (Hroot : forall i r d, root_of (sets mp) i r d ->
                      exists d', root_of (upd ss2 (Z.to_nat r1) r2) i
                                   (if r =? r1 then r2 else r) d').
    { intros i r d Hi.
      destruct (compressed_root _ _ C _ _ _ Hi) as [d' [Hi' _]].
      destruct (compressed_root _ _ C _ _ _ Hr1) as [d1' [Hr1' _]].
      destruct (compressed_root _ _ C _ _ _ Hr2) as [d2' [Hr2' _]].
      eapply link_root; eauto; eapply root_of_root; eauto. }
    split; [|split].
    + destruct (compressed_root _ _ C _ _ _ Hr1) as [d1' [Hr1' _]].
      destruct (compressed_root _ _ C _ _ _ Hr2) as [d2' [Hr2' _]].
      apply link_forest.
      * eapply compressed_forest; eauto.
      * eapply root_of_root; eauto.
      * eapply root_of_root; eauto.
    + destruct (Hroot _ _ _ Hr1) as [e1 He1]. destruct (Hroot _ _ _ Hr2) as [e2 He2].
      rewrite Z.eqb_refl in He1.
      exists r2, e1, e2. split; auto.
      destruct (Z.eqb_spec r2 r1); subst; auto.
    + intros i j (r & di & dj & Hi & Hj).
      destruct (Hroot _ _ _ Hi) as [ei Hei]. destruct (Hroot _ _ _ Hj) as [ej Hej].
      exists (if r =? r1 then r2 else r), ei, ej. auto.
Qed.

Lemma dsf_forest_find_union_witness :
  dsf_reach dsf_linked /\ forest (sets dsf_linked).
Proof.
  assert (Hreach : dsf_reach dsf_linked).
  { apply (reach_union 3 dsf_example dsf_linked 0 1).
    - apply reach_init. reflexivity.
    - vm_compute. reflexivity. }
  split; [exact Hreach|].
  apply (dsf_forest_find_union dsf_linked Hreach).
Defined.

(** * The generator writes wall bits only, after the reset *)

Lemma s_findset_only_sets (fuel : nat) :
  forall (mp mp' : maze_t) (pos r : rowcol_t),
    s_findset fuel mp pos = Ret (mp', r) -> mp' = with_sets mp (sets mp').
Proof.
  induction fuel as [|fuel IH]; intros mp mp' pos r H; cbn [s_findset] in H;
    [discriminate|].
  inv_bind H. destruct (negb (a =? pos)).
  - inv_bind H. destruct a0 as [mp1 real]. inv_bind H. inv_bind H.
    inversion H; subst. rewrite (IH _ _ _ _ Ha0). reflexivity.
  - inversion H; subst. now destruct mp'.
Qed.

Lemma s_union_only_sets (fuel : nat) (mp mp' : maze_t) (pos1 pos2 : rowcol_t) :
  s_union fuel mp pos1 pos2 = Ret mp' -> mp' = with_sets mp (sets mp').
Proof.
  intros H. unfold s_union in H.
  inv_bind H. destruct a as [mp1 set1]. inv_bind H. destruct a as [mp2 set2].
  inv_bind H. inversion H; subst.
  rewrite (s_findset_only_sets _ _ _ _ _ Ha0), (s_findset_only_sets _ _ _ _ _ Ha).
  reflexivity.
Qed.

Lemma adj_probe_only_sets (fuel : nat) (guard : bool) (off set : rowcol_t) (dir : Z)
  (mp mp' : maze_t) (out out' : rowcol_t) :
  adj_probe fuel guard off set dir (mp, out) = Ret (mp', out') ->
  mp' = with_sets mp (sets mp').
Proof.
  unfold adj_probe. destruct guard.
  - intros H. inv_bind H. destruct a as [mp1 s].
    apply s_findset_only_sets in Ha.
    destruct (negb (s =? set)); inversion H; subst; auto.
  - intros H. inversion H; subst. now destruct mp'.
Qed.

Lemma s_adj_only_sets (fuel : nat) (mp mp' : maze_t) (pos adj : rowcol_t) :
  s_adj fuel mp pos = Ret (mp', adj) -> mp' = with_sets mp (sets mp').
Proof.
  intros H. unfold s_adj in H.
  inv_bind H. destruct a as [mp0 set]. inv_bind H.
  inv_bind H. destruct a0 as [m1 o1]. inv_bind H. destruct a0 as [m2 o2].
  inv_bind H. destruct a0 as [m3 o3].
  apply s_findset_only_sets in Ha.
  apply adj_probe_only_sets in Ha1, Ha2, Ha3, H.
  rewrite H, Ha3, Ha2, Ha1, Ha. reflexivity.
Qed.

Lemma frame_marks_refl (mp : maze_t) : frame_marks mp mp.
Proof. repeat split. Qed.

Lemma frame_marks_trans (m1 m2 m3 : maze_t) :
  frame_marks m1 m2 -> frame_marks m2 m3 -> frame_marks m1 m3.
Proof. intros (A & B & C) (D & E & F). repeat split; congruence. Qed.

Lemma only_sets_frame_marks (mp mp' : maze_t) :
  mp' = with_sets mp (sets mp') -> frame_marks mp mp'.
Proof. intros ->. repeat split. Qed.

Lemma cell_update_frame_marks (mp mp' : maze_t) (off : rowcol_t)
  (f : maze_node -> maze_node) :
  (forall n, marks (f n) = marks n) ->
  cell_update mp off f = Ret mp' -> frame_marks mp mp'.
Proof.
  intros Hf H. unfold cell_update in H.
  inv_bind H. inv_bind H. inversion H; subst mp'; clear H.
  apply rd_ret in Ha. destruct Ha as [Hr Hn].
  apply wr_ret in Ha0. destruct Ha0 as [_ ->].
  repeat split. cbn [cells with_cells].
  rewrite map_upd, Hf. apply upd_same_value.
  now rewrite nth_error_map, Hn.
Qed.

Lemma kick_down_frame_marks (mp mp' : maze_t) (wall r c r1 c1 : rowcol_t) :
  kick_down mp wall r c = Ret (mp', r1, c1) -> frame_marks mp mp'.
Proof.
  unfold kick_down. intros H.
  destruct (wall =? DIR_U); [|destruct (wall =? DIR_R);
    [|destruct (wall =? DIR_D); [|destruct (wall =? DIR_L); [|discriminate]]]];
    inv_bind H; inversion H; subst;
    (eapply cell_update_frame_marks; [|exact Ha]; reflexivity).
Qed.

Lemma scan_cell_frame_marks (fuel : nat) (random : rand_f) (pos : rowcol_t)
  (st st' : gen_state) :
  scan_cell fuel random pos st = Ret st' -> frame_marks (g_mp st) (g_mp st').
Proof.
  intros H. unfold scan_cell in H.
  inv_bind H as cur Hcur. inv_bind H as [mp1 adj] Hadj. inv_bind H as apop Hpop.
  apply s_adj_only_sets in Hadj. apply only_sets_frame_marks in Hadj.
  destruct (apop =? 0).
  - inversion H; subst. exact Hadj.
  - destruct (if 1 <? apop then _ else _) as [skip k].
    inv_bind H as u Hu. inv_bind H as [[mp2 r1] c1] Hkick. inv_bind H as mp3 Hun.
    inversion H; subst. cbn [g_mp].
    eapply frame_marks_trans; [exact Hadj|].
    eapply frame_marks_trans; [eapply kick_down_frame_marks; eauto|].
    apply only_sets_frame_marks. eapply s_union_only_sets; eauto.
Qed.

Lemma gen_rounds_frame_marks (rounds fuel : nat) (random : rand_f) (n_cells : rowcol_t) :
  forall st st' : gen_state,
    gen_rounds rounds fuel random n_cells st = Ret st' ->
    frame_marks (g_mp st) (g_mp st').
Proof.
  induction rounds as [|rounds IH]; intros st st' H; cbn [gen_rounds] in H;
    [discriminate|].
  destruct (g_count st <? n_cells).
  - inv_bind H as [q k] Hsh. inv_bind H as st1 Hscan.
    eapply frame_marks_trans; [|eapply IH; eauto].
    pose proof (for_up_inv (fun _ s => frame_marks (g_mp st) (g_mp s))
                  (scan_cell fuel random) (Z.to_nat n_cells) 0
                  {| g_mp := g_mp st; g_queue := q; g_count := g_count st; g_calls := k |}
                  st1) as Hinv.
    apply Hinv; auto.
    + intros i t t' _ Ht Hb. eapply frame_marks_trans; [exact Ht|].
      eapply scan_cell_frame_marks; eauto.
    + apply frame_marks_refl.
  - inversion H; subst. apply frame_marks_refl.
Qed.

Lemma gen_init_loop_only_sets (n : nat) (queue queue' : list rowcol_t) (mp mp' : maze_t) :
  for_up n 0 gen_init (queue, mp) = Ret (queue', mp') ->
  mp' = with_sets mp (sets mp').
Proof.
  intros H.
  pose proof (for_up_inv (fun _ s => snd s = with_sets mp (sets (snd s)))
                gen_init n 0 (queue, mp) (queue', mp')) as Hinv.
  apply Hinv in H; auto.
  - intros i [q m] [q' m'] _ Ht Hb. cbn [snd] in *.
    unfold gen_init in Hb. inv_bind Hb as q1 Hq1. inv_bind Hb as ss Hss.
    inversion Hb; subst. rewrite Ht. reflexivity.
  - cbn [snd]. now destruct mp.
Qed.

(** C6 as amended. [maze_generate] begins with [maze_reset], which sets
    every marker to Up and every visited bit to off; from there on it
    writes wall bits only.  So when it returns, on success or on
    allocation failure, every cell has marker Up and visited off, whatever
    these fields held before the call. *)
Theorem maze_generate_clears_marks :
  forall (fuel : nat) (heap_sets heap_queue : option (nat -> rowcol_t))
         (random : rand_f) (mp mp' : maze_t) (z : Z),
    grid_ok mp ->
    maze_generate fuel heap_sets heap_queue random mp = Ret (z, mp') ->
    map marks (cells mp') = repeat (DIR_U, false) (length (cells mp)) /\
    n_rows mp' = n_rows mp /\ n_cols mp' = n_cols mp.
Proof.
  intros fuel hs hq random mp mp' z Hok H. unfold maze_generate in H.
  rewrite maze_reset_spec in H by auto. cbn [bind] in H.
  assert (Hre : map marks (repeat def_node (length (cells mp))) =
                repeat (DIR_U, false) (length (cells mp))).
  { rewrite map_repeat. reflexivity. }
  destruct (malloc hs _) as [ss|]; [destruct (malloc hq _) as [q|]|].
  - inv_bind H as [queue1 mp1] Ha. inv_bind H as st Ha0. inversion H; subst; clear H.
    apply gen_init_loop_only_sets in Ha. apply only_sets_frame_marks in Ha.
    apply gen_rounds_frame_marks in Ha0. cbn [g_mp] in Ha0.
    destruct (frame_marks_trans _ _ _ Ha Ha0) as (A & B & C).
    cbn [with_sets with_cells cells n_rows n_cols] in *. rewrite C. auto.
  - inversion H; subst. cbn [with_sets with_cells cells n_rows n_cols]. auto.
  - inversion H; subst. cbn [with_sets with_cells cells n_rows n_cols]. auto.
Qed.

Lemma maze_generate_clears_marks_witness :
  map marks (cells (uniform_grid 1 1 def_node)) =
  repeat (DIR_U, false) (length (cells marked_1x1)).
Proof.
  apply (maze_generate_clears_marks 3 (Some (fun _ => 0)) (Some (fun _ => 0))
           (fun _ => 0%Q) marked_1x1 (uniform_grid 1 1 def_node) 1).
  - unfold grid_ok. cbn. lia.
  - vm_compute. reflexivity.
Defined.

(** C6 as stated fails: a cell left marked by a solve has its marker and
    its visited bit cleared by the next [maze_generate]. *)
Lemma maze_generate_changes_marks :
  maze_generate 3 (Some (fun _ => 0)) (Some (fun _ => 0)) (fun _ => 0%Q) marked_1x1
  = Ret (1, uniform_grid 1 1 def_node) /\
  map marks (cells (uniform_grid 1 1 def_node)) <> map marks (cells marked_1x1).
Proof. split; [vm_compute; reflexivity | vm_compute; discriminate]. Qed.

(** * The reshuffle with the product rounded to a double *)

(** ** Rounding to the nearest integer *)

Lemma rne_nonneg (num den : Z) : 0 <= num -> 0 < den -> 0 <= rne num den.
Proof.
  intros Hn Hd. unfold rne.
  assert (0 <= num / den) by (apply Z.div_pos; lia).
  destruct (2 * (num mod den) <? den); [lia|].
  destruct (den <? 2 * (num mod den)); [lia|].
  destruct (Z.even (num / den)); lia.
Qed.

Lemma rne_below (num den N : Z) :
  0 <= num -> 0 < den -> 2 * num < (2 * N - 1) * den -> rne num den <= N - 1.
Proof.
  intros Hn Hd Hlt. unfold rne.
  pose proof (Z.div_mod num den ltac:(lia)) as E.
  pose proof (Z.mod_pos_bound num den Hd) as Hr.
  set (f := num / den) in *. set (r := num mod den) in *.
  destruct (Z.ltb_spec (2 * r) den) as [H1 | H1]; [nia|].
  destruct (Z.ltb_spec den (2 * r)) as [H2 | H2]; [nia|].
  destruct (Z.even f); nia.
Qed.

Lemma rne_exact (k den : Z) : 0 < den -> rne (k * den) den = k.
Proof.
  intros Hd. unfold rne. rewrite Z.div_mul, Z.mod_mul by lia.
  replace (2 * 0 <? den) with true by (symmetry; apply Z.ltb_lt; lia).
  reflexivity.
Qed.

(** ** The leading bit *)

Lemma ilog2_spec (a b : Z) :
  0 < a -> 0 < b ->
  (0 <= ilog2 a b -> 2 ^ ilog2 a b * b <= a < 2 ^ (ilog2 a b + 1) * b) /\
  (ilog2 a b < 0 -> b <= a * 2 ^ (- ilog2 a b) /\ a * 2 ^ (- ilog2 a b - 1) < b).
Proof.
  intros Ha Hb. unfold ilog2.
  pose proof (Z.log2_spec a Ha) as [La Ua]. pose proof (Z.log2_spec b Hb) as [Lb Ub].
  pose proof (Z.log2_nonneg a) as Na. pose proof (Z.log2_nonneg b) as Nb.
  set (la := Z.log2 a) in *. set (lb := Z.log2 b) in *.
  rewrite Z.pow_succ_r in Ua, Ub by assumption.
  assert (Pa : 0 < 2 ^ la) by (apply Z.pow_pos_nonneg; lia).
  assert (Pb : 0 < 2 ^ lb) by (apply Z.pow_pos_nonneg; lia).
  destruct (Z.le_gt_cases lb la) as [Hle | Hgt].
  - (* e0 >= 0 *)
    assert (E : 2 ^ la = 2 ^ (la - lb) * 2 ^ lb)
      by (rewrite <- Z.pow_add_r by lia; f_equal; lia).
    assert (Pe : 0 < 2 ^ (la - lb)) by (apply Z.pow_pos_nonneg; lia).
    replace (Z.max 0 (- (la - lb))) with 0 by lia.
    replace (Z.max 0 (la - lb)) with (la - lb) by lia.
    rewrite Z.pow_0_r, Z.mul_1_r.
    destruct (Z.ltb_spec a (b * 2 ^ (la - lb))) as [Hlt | Hge].
    + destruct (Z.eq_dec la lb) as [Eq | Ne].
      * replace (la - lb) with 0 in * by lia. rewrite Z.pow_0_r in *.
        split; [lia|]. intros _. cbn [Z.opp]. 
        replace (- (0 - 1)) with 1 by lia. replace (1 - 1) with 0 by lia.
        rewrite Z.pow_1_r, Z.pow_0_r. nia.
      * assert (E2 : 2 ^ (la - lb) = 2 * 2 ^ (la - lb - 1))
          by (rewrite <- Z.pow_succ_r by lia; f_equal; lia).
        assert (Pe2 : 0 < 2 ^ (la - lb - 1)) by (apply Z.pow_pos_nonneg; lia).
        split; [|lia]. intros _.
        replace (la - lb - 1 + 1) with (la - lb) by lia. nia.
    + split; [|lia]. intros _.
      assert (E4 : 2 ^ (la - lb + 1) = 2 * 2 ^ (la - lb))
        by (rewrite <- Z.pow_succ_r by lia; f_equal; lia).
      rewrite E4. nia.
  - (* e0 < 0 *)
    assert (E : 2 ^ lb = 2 ^ (lb - la) * 2 ^ la)
      by (rewrite <- Z.pow_add_r by lia; f_equal; lia).
    assert (Pe : 0 < 2 ^ (lb - la)) by (apply Z.pow_pos_nonneg; lia).
    replace (Z.max 0 (- (la - lb))) with (lb - la) by lia.
    replace (Z.max 0 (la - lb)) with 0 by lia.
    rewrite Z.pow_0_r, Z.mul_1_r.
    assert (E2 : 2 ^ (lb - la + 1) = 2 * 2 ^ (lb - la))
      by (rewrite <- Z.pow_succ_r by lia; f_equal; lia).
    assert (E3 : 2 ^ (lb - la) = 2 * 2 ^ (lb - la - 1))
      by (rewrite <- Z.pow_succ_r by lia; f_equal; lia).
    assert (Pe3 : 0 < 2 ^ (lb - la - 1)) by (apply Z.pow_pos_nonneg; lia).
    destruct (Z.ltb_spec (a * 2 ^ (lb - la)) b) as [Hlt | Hge].
    + split; [lia|]. intros _.
      replace (- (la - lb - 1)) with (lb - la + 1) by lia.
      replace (lb - la + 1 - 1) with (lb - la) by lia.
      rewrite E2. nia.
    + split; [lia|]. intros _.
      replace (- (la - lb)) with (lb - la) by lia. nia.
Qed.

(** ** Values of the format *)

Lemma two_pow_neg (e : Z) : e < 0 -> two_pow e = 1 # Z.to_pos (2 ^ (- e)).
Proof. intros H. unfold two_pow. destruct (Z.leb_spec 0 e); [lia | reflexivity]. Qed.

Lemma two_pow_nonneg (e : Z) : 0 <= e -> two_pow e = inject_Z (2 ^ e).
Proof. intros H. unfold two_pow. destruct (Z.leb_spec 0 e); [reflexivity | lia]. Qed.

(** The cross-multiplied form of [a / b = m * 2^e]. *)
Lemma binary64_cross (a : Z) (b : positive) (m e : Z) :
  (a # b == inject_Z m * two_pow e)%Q ->
  (0 <= e -> a = m * 2 ^ e * Z.pos b) /\
  (e < 0 -> a * 2 ^ (- e) = m * Z.pos b).
Proof.
  intros H. split; intros He.
  - rewrite two_pow_nonneg in H by exact He.
    unfold Qeq, Qmult, inject_Z in H. cbn [Qnum Qden] in H.
    cbn [Pos.mul] in H. lia.
  - rewrite two_pow_neg in H by exact He.
    assert (P : 0 < 2 ^ (- e)) by (apply Z.pow_pos_nonneg; lia).
    unfold Qeq, Qmult, inject_Z in H. cbn [Qnum Qden] in H.
    rewrite Pos.mul_1_l, Z2Pos.id in H by exact P. lia.
Qed.

(** A value of the format that is below 1 is at most [1 - 2^-53]. *)
Lemma binary64_below_one (a : Z) (b : positive) :
  binary64 (a # b) -> 0 <= a -> a < Z.pos b ->
  a * 2 ^ 53 <= (2 ^ 53 - 1) * Z.pos b.
Proof.
  intros (m & e & Hm & He & Heq) Ha Hlt.
  destruct (binary64_cross a b m e Heq) as [Hpos Hneg].
  change (2 ^ 53) with 9007199254740992 in *.
  destruct (Z.le_gt_cases 0 e) as [H0 | H0].
  - specialize (Hpos H0).
    set (t := m * 2 ^ e) in *.
    assert (t < 1) by nia. assert (0 <= t) by nia.
    assert (a = 0) by nia. lia.
  - specialize (Hneg H0).
    assert (P : 0 < 2 ^ (- e)) by (apply Z.pow_pos_nonneg; lia).
    set (p := 2 ^ (- e)) in *.
    assert (Hm0 : 0 <= m) by nia.
    assert (Hmp : m < p) by nia.
    assert (Hk : m * 9007199254740992 <= (9007199254740992 - 1) * p)
      by (destruct (Z.le_gt_cases p 9007199254740992); nia).
    apply (Z.mul_le_mono_pos_r _ _ p); [exact P|]. nia.
Qed.

(** ** The index of the reshuffle

    For a double [v] in [0, 1) and a count [n] from 1 to [2^32], the
    rounded product [v * n] stays below [n], although it can be above
    the exact product: [v] is at most [1 - 2^-53], so the exact product
    is at least [n * 2^-53] below [n], which is more than half the
    distance between neighbouring doubles under [n]. *)
Lemma trunc_double_unit (v : Q) (n : Z) :
  binary64 v -> (0 <= v)%Q -> (v < 1)%Q -> 0 < n <= wB ->
  0 <= trunc_double (v * inject_Z n) < n.
Proof.
  intros Hb H0 H1 Hn. destruct v as [a b].
  unfold Qle in H0. unfold Qlt in H1. cbn [Qnum Qden] in H0, H1.
  assert (Ha : 0 <= a) by lia. assert (Hab : a < Z.pos b) by lia.
  pose proof (binary64_below_one a b Hb Ha Hab) as H53.
  change (2 ^ 53) with 9007199254740992 in H53.
  unfold trunc_double, fl64. cbn [Qmult inject_Z Qnum Qden]. rewrite Pos.mul_1_r.
  destruct (a * n) as [|p|p] eqn:Ean; [cbn; lia | | nia].
  rewrite <- Ean. assert (HA : 0 < a * n) by lia.
  assert (Ha1 : 0 < a) by nia.
  unfold fl64_pos.
  destruct (ilog2_spec (a * n) (Z.pos b) HA ltac:(lia)) as [Lpos Lneg].
  set (e := ilog2 (a * n) (Z.pos b)) in *.
  assert (He : e < 32).
  { destruct (Z.lt_ge_cases e 32) as [H | H]; auto.
    destruct (Lpos ltac:(lia)) as [L _].
    assert (2 ^ 32 <= 2 ^ e) by (apply Z.pow_le_mono_r; lia).
    rewrite wB_val in Hn. change (2 ^ 32) with 4294967296 in *. nia. }
  set (q := Z.max (e - 52) (-1074)).
  assert (Hq : q < 0) by (unfold q; lia).
  destruct (Z.ltb_spec q 0) as [_ | Hge]; [|lia].
  set (s := - q). assert (Hs : 0 < s) by (unfold s; lia).
  assert (Ps : 0 < 2 ^ s) by (apply Z.pow_pos_nonneg; lia).
  cbn [Qnum Qden]. rewrite Z2Pos.id by exact Ps.
  set (N := n * 2 ^ s).
  assert (HN : 4503599627370496 < N).
  { unfold N. destruct (Z.le_gt_cases 0 e) as [He0 | He0].
    - destruct (Lpos He0) as [L _].
      assert (Es : s = 52 - e) by (unfold s, q; lia).
      assert (Pe : 0 < 2 ^ e) by (apply Z.pow_pos_nonneg; lia).
      assert (E52 : 2 ^ e * 2 ^ s = 4503599627370496).
      { rewrite <- Z.pow_add_r by lia. rewrite Es.
        replace (e + (52 - e)) with 52 by lia. reflexivity. }
      assert (2 ^ e < n) by nia. nia.
    - assert (53 <= s) by (unfold s, q; lia).
      assert (2 ^ 53 <= 2 ^ s) by (apply Z.pow_le_mono_r; lia).
      change (2 ^ 53) with 9007199254740992 in *. nia. }
  set (m := rne (a * n * 2 ^ s) (Z.pos b)).
  assert (Hm0 : 0 <= m) by (apply rne_nonneg; nia).
  assert (Hm1 : m <= N - 1).
  { apply rne_below; [nia | lia |].
    replace (a * n * 2 ^ s) with (a * N) by (unfold N; ring).
    assert (F1 : a * N * 9007199254740992 <= (9007199254740992 - 1) * (N * Z.pos b)) by nia.
    assert (F2 : (4503599627370496 + 1) * Z.pos b <= N * Z.pos b) by nia.
    replace ((2 * N - 1) * Z.pos b) with (2 * (N * Z.pos b) - Z.pos b) by ring.
    lia. }
  rewrite Z.quot_div_nonneg by lia.
  split; [apply Z.div_pos; lia|].
  apply Z.div_lt_upper_bound; [lia|]. unfold N in Hm1. nia.
Qed.

Lemma exch_index_spec (v : Q) (n : Z) :
  binary64 v -> (0 <= v)%Q -> (v < 1)%Q -> 0 < n < wB ->
  exch_index v n = trunc_double (v * inject_Z n) /\ 0 <= exch_index v n < n.
Proof.
  intros Hb H0 H1 Hn.
  pose proof (trunc_double_unit v n Hb H0 H1 ltac:(lia)) as Hr.
  assert (E : exch_index v n = trunc_double (v * inject_Z n)).
  { unfold exch_index, to_rowcol. fold (trunc_double (v * inject_Z n)).
    apply wrap_small. lia. }
  rewrite E. auto.
Qed.

(** ** Rounding a value of the format gives the value *)

Lemma pow2_lt_exp (x y : Z) : 0 <= x -> 2 ^ x < 2 ^ y -> x < y.
Proof.
  intros Hx H. destruct (Z.lt_ge_cases x y) as [L | G]; auto.
  destruct (Z.lt_ge_cases y 0) as [Hy | Hy].
  - rewrite (Z.pow_neg_r 2 y Hy) in H.
    assert (0 < 2 ^ x) by (apply Z.pow_pos_nonneg; lia). lia.
  - assert (2 ^ y <= 2 ^ x) by (apply Z.pow_le_mono_r; lia). lia.
Qed.

Lemma fl64_exact (x : Q) : binary64 x -> (0 <= x)%Q -> (fl64 x == x)%Q.
Proof.
  intros Hb H0. destruct x as [a b].
  unfold Qle in H0. cbn [Qnum Qden] in H0.
  assert (Ha : 0 <= a) by lia.
  unfold fl64. cbn [Qnum Qden].
  destruct a as [|p|p] eqn:Ea; [reflexivity | | lia].
  rewrite <- Ea in *. assert (HA : 0 < a) by lia. clear Ea p.
  destruct Hb as (m & E & Hm & HE & Heq).
  destruct (binary64_cross a b m E Heq) as [Cpos Cneg].
  change (2 ^ 53) with 9007199254740992 in Hm.
  unfold fl64_pos.
  destruct (ilog2_spec a (Z.pos b) HA ltac:(lia)) as [Lpos Lneg].
  set (e := ilog2 a (Z.pos b)) in *.
  set (B := Z.pos b) in *. assert (HB : 0 < B) by (unfold B; lia).
  assert (Hm0 : 0 < m).
  { destruct (Z.le_gt_cases 0 E) as [H | H].
    - specialize (Cpos H). assert (0 < 2 ^ E) by (apply Z.pow_pos_nonneg; lia). nia.
    - specialize (Cneg H). assert (0 < 2 ^ (- E)) by (apply Z.pow_pos_nonneg; lia). nia. }
  assert (HmK : m < 9007199254740992) by lia.
  assert (HeE : e - 52 <= E).
  { destruct (Z.le_gt_cases 0 E) as [H | H].
    - specialize (Cpos H). destruct (Z.le_gt_cases 0 e) as [He | He]; [|lia].
      destruct (Lpos He) as [L _].
      assert (PE : 0 < 2 ^ E) by (apply Z.pow_pos_nonneg; lia).
      assert (X : 2 ^ e * B <= m * 2 ^ E * B) by lia.
      apply Z.mul_le_mono_pos_r in X; [|exact HB].
      assert (Y : m * 2 ^ E < 9007199254740992 * 2 ^ E)
        by (apply Z.mul_lt_mono_pos_r; lia).
      assert (2 ^ e < 2 ^ (53 + E)).
      { rewrite Z.pow_add_r by lia. change (2 ^ 53) with 9007199254740992. lia. }
      assert (e < 53 + E) by (apply pow2_lt_exp; auto). lia.
    - specialize (Cneg H). set (t := - E) in *.
      assert (Pt : 0 < 2 ^ t) by (apply Z.pow_pos_nonneg; lia).
      destruct (Z.le_gt_cases 0 e) as [He | He].
      + destruct (Lpos He) as [L _].
        assert (Pe : 0 < 2 ^ e) by (apply Z.pow_pos_nonneg; lia).
        assert (X : 2 ^ e * 2 ^ t * B <= m * B).
        { rewrite <- Cneg.
          replace (2 ^ e * 2 ^ t * B) with (2 ^ e * B * 2 ^ t) by ring.
          apply Z.mul_le_mono_pos_r; lia. }
        apply Z.mul_le_mono_pos_r in X; [|exact HB].
        assert (2 ^ (e + t) < 2 ^ 53).
        { rewrite Z.pow_add_r by lia. change (2 ^ 53) with 9007199254740992. lia. }
        assert (e + t < 53) by (apply pow2_lt_exp; auto; lia). lia.
      + destruct (Lneg He) as [L _].
        assert (Pe : 0 < 2 ^ (- e)) by (apply Z.pow_pos_nonneg; lia).
        assert (X : 2 ^ t * B <= m * 2 ^ (- e) * B).
        { replace (m * 2 ^ (- e) * B) with (m * B * 2 ^ (- e)) by ring.
          rewrite <- Cneg.
          replace (a * 2 ^ t * 2 ^ (- e)) with (2 ^ t * (a * 2 ^ (- e))) by ring.
          apply Z.mul_le_mono_nonneg_l; lia. }
        apply Z.mul_le_mono_pos_r in X; [|exact HB].
        assert (Y : m * 2 ^ (- e) < 9007199254740992 * 2 ^ (- e))
          by (apply Z.mul_lt_mono_pos_r; lia).
        assert (2 ^ t < 2 ^ (53 - e)).
        { replace (53 - e) with (53 + - e) by lia.
          rewrite Z.pow_add_r by lia. change (2 ^ 53) with 9007199254740992. lia. }
        assert (t < 53 - e) by (apply pow2_lt_exp; auto; lia). lia. }
  set (q := Z.max (e - 52) (-1074)).
  assert (HqE : q <= E) by (unfold q; lia).
  destruct (Z.ltb_spec q 0) as [Hq | Hq].
  - set (s := - q). assert (Hs : 0 < s) by (unfold s; lia).
    assert (Ps : 0 < 2 ^ s) by (apply Z.pow_pos_nonneg; lia).
    assert (Hk : exists k, a * 2 ^ s = k * B).
    { destruct (Z.le_gt_cases 0 E) as [H | H].
      - specialize (Cpos H). exists (m * 2 ^ E * 2 ^ s). rewrite Cpos. ring.
      - specialize (Cneg H). exists (m * 2 ^ (s - - E)).
        assert (E2 : 2 ^ s = 2 ^ (- E) * 2 ^ (s - - E))
          by (rewrite <- Z.pow_add_r by (unfold s; lia); f_equal; lia).
        rewrite E2. rewrite Z.mul_assoc, Cneg. ring. }
    destruct Hk as [k Hk]. rewrite Hk, rne_exact by exact HB.
    unfold Qeq. cbn [Qnum Qden]. rewrite Z2Pos.id by exact Ps.
    fold B. lia.
  - assert (H : 0 <= E) by lia. specialize (Cpos H).
    assert (Pq : 0 < 2 ^ q) by (apply Z.pow_pos_nonneg; lia).
    assert (E2 : 2 ^ E = 2 ^ (E - q) * 2 ^ q)
      by (rewrite <- Z.pow_add_r by lia; f_equal; lia).
    assert (Hk : a = m * 2 ^ (E - q) * (B * 2 ^ q)) by (rewrite Cpos, E2; ring).
    rewrite Hk at 1. rewrite rne_exact by nia.
    unfold Qeq, inject_Z. cbn [Qnum Qden]. fold B. rewrite Hk. ring.
Qed.

Lemma trunc_double_exact (x : Q) :
  binary64 x -> (0 <= x)%Q -> trunc_double x = Qfloor x.
Proof.
  intros Hb H0. pose proof (fl64_exact x Hb H0) as E.
  assert (F : (0 <= fl64 x)%Q) by (rewrite E; exact H0).
  unfold trunc_double. rewrite <- (Qfloor_comp _ _ E).
  destruct (fl64 x) as [c d]. unfold Qle in F. cbn [Qnum Qden] in F.
  unfold Qfloor. apply Z.quot_div_nonneg; lia.
Qed.

(** The rounded product may be above the exact one, but the index taken
    from it is the index the exact product gives at another value of the
    unit interval: the run of the code at a double is the run of the
    embedding with exact products at that value. *)
Lemma rounded_index_is_exact_index (v : Q) (n : Z) :
  binary64 v -> (0 <= v)%Q -> (v < 1)%Q -> 0 < n < wB ->
  exists v' : Q,
    (0 <= v')%Q /\ (v' < 1)%Q /\ to_rowcol (v' * inject_Z n) = exch_index v n.
Proof.
  intros Hb H0 H1 Hn.
  destruct (exch_index_spec v n Hb H0 H1 Hn) as [_ Hr].
  set (e := exch_index v n) in *.
  exists (e # Z.to_pos n). split; [|split].
  - unfold Qle. cbn [Qnum Qden]. lia.
  - unfold Qlt. cbn [Qnum Qden]. rewrite Z2Pos.id by lia. lia.
  - unfold to_rowcol. cbn [Qmult inject_Z Qnum Qden].
    rewrite Pos.mul_1_r, Z2Pos.id by lia.
    rewrite Z.quot_div_nonneg by nia. rewrite Z.div_mul by lia.
    apply wrap_small. lia.
Qed.

(** ** The reshuffle *)

Lemma double_source_unit (random : rand_f) : double_source random -> unit_source random.
Proof. intros H k. destruct (H k) as (_ & H0 & H1). auto. Qed.

(** The reshuffle loop with the rounded product returns; its result is the
    pass of the specification taken with [trunc_double] as index function,
    and a permutation of the queue. *)
Lemma reshuffle_rounded_spec (random : rand_f) :
  double_source random ->
  forall (pos : nat) (q : list rowcol_t) (k : nat),
    (pos < length q)%nat -> Z.of_nat (length q) < wB ->
    exists q',
      reshuffle_rounded random pos (q, k) = Ret (q', (k + pos)%nat) /\
      shuffle_pass trunc_double random k pos q = Some q' /\
      Permutation q q'.
Proof.
  intros Hsrc. induction pos as [|pos IH]; intros q k Hpos Hlen.
  - exists q. cbn. rewrite Nat.add_0_r. auto.
  - cbn [reshuffle_rounded shuffle_pass].
    destruct (Hsrc k) as (Hb & H0 & H1).
    assert (Hw : wrap (Z.of_nat (S pos) + 1) = Z.of_nat (S pos) + 1)
      by (apply wrap_small; lia).
    rewrite Hw.
    destruct (exch_index_spec (random k) (Z.of_nat (S pos) + 1) Hb H0 H1) as [Hfl Hrange];
      [lia|].
    rewrite <- Hfl.
    set (exch := exch_index (random k) (Z.of_nat (S pos) + 1)) in *.
    rewrite (rd_nth q (Z.of_nat (S pos))) by lia.
    rewrite (rd_nth q exch) by lia.
    cbn [bind]. rewrite wr_total by lia. cbn [bind].
    rewrite wr_total by (rewrite length_upd; lia). cbn [bind].
    replace ((0 <=? exch) && (exch <? Z.of_nat (length q))) with true
      by (symmetry; apply andb_true_intro; split; [apply Z.leb_le|apply Z.ltb_lt]; lia).
    rewrite Nat2Z.id.
    change (upd (upd q (S pos) (nth (Z.to_nat exch) q 0)) (Z.to_nat exch) (nth (S pos) q 0))
      with (swapped q (S pos) (Z.to_nat exch)).
    destruct (IH (swapped q (S pos) (Z.to_nat exch)) (S k)) as [q' (R1 & R2 & R3)].
    + rewrite length_swapped. lia.
    + now rewrite length_swapped.
    + exists q'. replace (k + S pos)%nat with (S k + pos)%nat by lia.
      repeat split; auto.
      eapply Permutation_trans; [|exact R3].
      apply swapped_Permutation; lia.
Qed.

(** Two index functions that agree on the products of a pass give the
    same pass. *)
Lemma shuffle_pass_ext (index1 index2 : Q -> Z) (random : rand_f) :
  forall (i k : nat) (l : list rowcol_t),
    (forall j, (j < i)%nat ->
       index1 (random (k + j)%nat * inject_Z (Z.of_nat (i - j) + 1))%Q =
       index2 (random (k + j)%nat * inject_Z (Z.of_nat (i - j) + 1))%Q) ->
    shuffle_pass index1 random k i l = shuffle_pass index2 random k i l.
Proof.
  induction i as [|i IH]; intros k l H; [reflexivity|].
  cbn [shuffle_pass].
  pose proof (H O ltac:(lia)) as H0.
  rewrite Nat.add_0_r, Nat.sub_0_r in H0. rewrite H0.
  destruct ((0 <=? _) && (_ <? _)); [|reflexivity].
  apply IH. intros j Hj. specialize (H (S j) ltac:(lia)).
  replace (k + S j)%nat with (S k + j)%nat in H by lia.
  replace (S i - S j)%nat with (i - j)%nat in H by lia. exact H.
Qed.

(** C8 as amended.  For a source of doubles in [0, 1), the reshuffle of a
    queue of [n >= 1] entries iterates [i] from [n - 1] down to 1 and
    swaps element [i] with the element at the index that the cast takes
    from the product [random () * (i + 1)]: the product as the
    multiplication of doubles delivers it, rounded to the nearest double,
    and then truncated toward zero, not rounded to the nearest integer.
    Where every product of the pass is a double as it stands, that index
    is the floor of the product. *)
Theorem reshuffle_truncates_rounded_product :
  forall (random : rand_f) (q : list rowcol_t) (k : nat),
    double_source random ->
    (1 <= length q)%nat -> Z.of_nat (length q) < wB ->
    exists q',
      reshuffle_rounded random (length q - 1) (q, k)
      = Ret (q', (k + (length q - 1))%nat) /\
      shuffle_pass trunc_double random k (length q - 1) q = Some q' /\
      ((forall j, (j < length q - 1)%nat ->
          binary64 (random (k + j)%nat * inject_Z (Z.of_nat (length q - 1 - j) + 1))) ->
       shuffle_pass Qfloor random k (length q - 1) q = Some q' /\
       reshuffle random (length q - 1) (q, k) = Ret (q', (k + (length q - 1))%nat)).
Proof.
  intros random q k Hsrc H1 Hlen.
  destruct (reshuffle_rounded_spec random Hsrc (length q - 1) q k) as [q' (R1 & R2 & _)];
    [lia | auto |].
  exists q'. split; [exact R1|]. split; [exact R2|].
  intros Hex.
  assert (E : shuffle_pass Qfloor random k (length q - 1) q = Some q').
  { rewrite <- R2. symmetry. apply shuffle_pass_ext. intros j Hj.
    apply trunc_double_exact; [apply Hex; exact Hj|].
    destruct (Hsrc (k + j)%nat) as (_ & H0 & _).
    apply Qmult_le_0_compat; [exact H0|].
    unfold Qle, inject_Z. cbn [Qnum Qden]. lia. }
  split; [exact E|].
  destruct (reshuffle_spec random (double_source_unit random Hsrc) (length q - 1) q k)
    as [q'' (S1 & S2 & _)]; [lia | auto |].
  rewrite S2 in E. inversion E; subst q''. exact S1.
Qed.

Lemma binary64_intro (m e : Z) (x : Q) :
  Z.abs m < 2 ^ 53 -> -1074 <= e <= 971 -> (x == inject_Z m * two_pow e)%Q -> binary64 x.
Proof. intros H1 H2 H3. exists m, e. auto. Qed.

Lemma reshuffle_truncates_rounded_product_witness :
  exists q',
    reshuffle_rounded (fun _ => double_third) (length [0; 1; 2] - 1) ([0; 1; 2], O)
    = Ret (q', (0 + (length [0; 1; 2] - 1))%nat) /\
    shuffle_pass trunc_double (fun _ => double_third) 0 (length [0; 1; 2] - 1) [0; 1; 2]
    = Some q' /\
    ((forall j, (j < length [0; 1; 2] - 1)%nat ->
        binary64 (double_third * inject_Z (Z.of_nat (length [0; 1; 2] - 1 - j) + 1))) ->
     shuffle_pass Qfloor (fun _ => double_third) 0 (length [0; 1; 2] - 1) [0; 1; 2]
     = Some q' /\
     reshuffle (fun _ => double_third) (length [0; 1; 2] - 1) ([0; 1; 2], O)
     = Ret (q', (0 + (length [0; 1; 2] - 1))%nat)).
Proof.
  apply (reshuffle_truncates_rounded_product (fun _ => double_third) [0; 1; 2] O).
  - intros k. split; [|split].
    + apply (binary64_intro 6004799503160661 (-54)); [vm_compute | lia |]; reflexivity.
    + unfold Qle. cbn. lia.
    + unfold Qlt. cbn. lia.
  - cbn. lia.
  - cbn. lia.
Defined.

(** The run at the double nearest to 1/3 on the queue [0; 1; 2].  The
    product with 3 is [1 - 2^-54], which lies halfway between two doubles
    and is rounded to 1.0: the index is 1, where the floor of the exact
    product is 0.  The pass ends with [2; 0; 1]; with exact products it
    would end with [1; 2; 0]. *)
Example reshuffle_rounded_third :
  exch_index double_third 3 = 1 /\
  Qfloor (double_third * inject_Z 3) = 0 /\
  reshuffle_rounded (fun _ => double_third) 2 ([0; 1; 2], O) = Ret ([2; 0; 1], 2%nat) /\
  reshuffle (fun _ => double_third) 2 ([0; 1; 2], O) = Ret ([1; 2; 0], 2%nat).
Proof. repeat split; vm_compute; reflexivity. Qed.

(** * Two rounds connect the grid

    The counter [count] of [maze_generate] is never reset, so the loop ends
    after the second round at the latest.  That two rounds suffice rests on
    this fact about the grid: a cell with a neighbour in another set is
    never settled when scanned, so it digs in both rounds, towards two
    different neighbours of its own set; no wall is dug twice.  The first
    cell outside the set of cell (0, 0) would then start a chain of cells
    along its row that each need their right neighbour, past the last
    column. *)

Section TwoRounds.

Variables nr nc : Z.
Variable same : cell -> cell -> Prop.
Variable dig : cell -> cell -> Prop.

Hypothesis same_refl : forall x, same x x.
Hypothesis same_sym : forall x y, same x y -> same y x.
Hypothesis same_trans : forall x y z, same x y -> same y z -> same x z.
Hypothesis same_dec : forall x y, same x y \/ ~ same x y.

Hypothesis dig_ok : forall x y, dig x y -> in_grid nr nc y /\ nb x y /\ same x y.
Hypothesis dig_once : forall x y, dig x y -> ~ dig y x.
Hypothesis busy :
  forall x, in_grid nr nc x ->
    (forall y, in_grid nr nc y -> nb x y -> same x y) \/
    (exists y1 y2, y1 <> y2 /\ dig x y1 /\ dig x y2).

(** A cell next to another set digs twice; when two of its four sides
    are barred, it digs through the other two. *)
Lemma busy_forced (r c : Z) (z : cell) :
  in_grid nr nc (r, c) -> in_grid nr nc z -> nb (r, c) z -> ~ same (r, c) z ->
  ~ dig (r, c) (r - 1, c) ->
  (~ dig (r, c) (r, c - 1) -> dig (r, c) (r, c + 1) /\ dig (r, c) (r + 1, c)) /\
  (~ dig (r, c) (r, c + 1) -> dig (r, c) (r, c - 1) /\ dig (r, c) (r + 1, c)).
Proof.
  intros Hx Hz Hnb Hns Hup.
  destruct (busy (r, c) Hx) as [Hall | (y1 & y2 & Hne & Hd1 & Hd2)].
  - exfalso. apply Hns. now apply Hall.
  - destruct (dig_ok _ _ Hd1) as (_ & N1 & _).
    destruct (dig_ok _ _ Hd2) as (_ & N2 & _).
    destruct y1 as [r1 c1], y2 as [r2 c2]. unfold nb in N1, N2. cbn [fst snd] in N1, N2.
    split; intros Hside;
      destruct N1 as [[-> [-> | ->]] | [-> [-> | ->]]];
      destruct N2 as [[-> [-> | ->]] | [-> [-> | ->]]];
      try (exfalso; apply Hne; reflexivity);
      try (exfalso; auto; fail);
      auto.
Qed.

(** The two cells of a wall in row 0 that separates two sets would push
    the separation down their two columns, past the last row. *)
Lemma top_row_joined (c : Z) :
  0 <= c -> c + 1 < nc -> 1 <= nr -> same (0, c) (0, c + 1).
Proof.
  intros Hc0 Hc1 Hnr.
  destruct (same_dec (0, c) (0, c + 1)) as [Hs | Hns]; auto. exfalso.
  assert (Hchain : forall k : nat,
             Z.of_nat k < nr /\
             ~ same (Z.of_nat k, c) (Z.of_nat k, c + 1) /\
             ~ dig (Z.of_nat k, c) (Z.of_nat k - 1, c) /\
             ~ dig (Z.of_nat k, c + 1) (Z.of_nat k - 1, c + 1)).
  { induction k as [|k IH].
    - cbn [Z.of_nat]. repeat split; auto; try lia;
        intros Hd; apply dig_ok in Hd; destruct Hd as [[Hr _] _]; cbn in Hr; lia.
    - destruct IH as (Hk & Hsep & Hu1 & Hu2).
      set (i := Z.of_nat k) in *.
      replace (Z.of_nat (S k)) with (i + 1) by lia.
      assert (G1 : in_grid nr nc (i, c)) by (unfold in_grid; cbn; lia).
      assert (G2 : in_grid nr nc (i, c + 1)) by (unfold in_grid; cbn; lia).
      assert (N12 : nb (i, c) (i, c + 1)) by (left; cbn; auto).
      assert (N21 : nb (i, c + 1) (i, c)) by (left; cbn; split; auto; right; lia).
      destruct (busy_forced i c (i, c + 1) G1 G2 N12 Hsep Hu1) as [_ F1].
      destruct F1 as [_ D1].
      { intros Hd. apply dig_ok in Hd. tauto. }
      assert (Hsep' : ~ same (i, c + 1) (i, c)) by (intros Hs; auto).
      destruct (busy_forced i (c + 1) (i, c) G2 G1 N21 Hsep' Hu2) as [F2 _].
      destruct F2 as [_ D2].
      { replace (c + 1 - 1) with c by lia. intros Hd. apply dig_ok in Hd. tauto. }
      destruct (dig_ok _ _ D1) as ([Hr1 _] & _ & S1).
      destruct (dig_ok _ _ D2) as (_ & _ & S2).
      cbn [fst] in Hr1.
      replace (i + 1 - 1) with i by lia.
      repeat split; try lia.
      + intros Hs. apply Hsep.
        apply same_trans with (i + 1, c); auto.
        apply same_trans with (i + 1, c + 1); auto.
      + now apply dig_once.
      + now apply dig_once. }
  destruct (Hchain (Z.to_nat nr)) as [Hlt _]. lia.
Qed.

Lemma top_row_same (c : Z) :
  1 <= nr -> 0 <= c < nc -> same (0, 0) (0, c).
Proof.
  intros Hnr Hc.
  assert (H : forall k : nat, Z.of_nat k < nc -> same (0, 0) (0, Z.of_nat k)).
  { induction k as [|k IH]; intros Hk.
    - apply same_refl.
    - apply same_trans with (0, Z.of_nat k); [apply IH; lia|].
      replace (Z.of_nat (S k)) with (Z.of_nat k + 1) by lia.
      apply top_row_joined; lia. }
  replace c with (Z.of_nat (Z.to_nat c)) by lia. apply H. lia.
Qed.

(** Below a row that lies in the set of (0, 0), the leftmost cell of
    another set would start a chain of cells along its row that each dig
    to the right, past the last column. *)
Lemma next_row_same (r : Z) :
  0 <= r -> r + 1 < nr ->
  (forall c, 0 <= c < nc -> same (0, 0) (r, c)) ->
  forall c, 0 <= c < nc -> same (0, 0) (r + 1, c).
Proof.
  intros Hr0 Hr1 Hrow.
  assert (H : forall k : nat,
             forall c, 0 <= c < Z.of_nat k -> c < nc -> same (0, 0) (r + 1, c)).
  { induction k as [|k IH]; intros c Hc Hcn; [lia|].
    destruct (Z.eq_dec c (Z.of_nat k)) as [->|Hne]; [|apply IH; lia].
    set (g := Z.of_nat k) in *.
    destruct (same_dec (0, 0) (r + 1, g)) as [Hs | Hns]; auto. exfalso.
    assert (Hchain : forall j : nat,
               g + Z.of_nat j < nc /\
               same (r + 1, g) (r + 1, g + Z.of_nat j) /\
               ~ dig (r + 1, g + Z.of_nat j) (r + 1, g + Z.of_nat j - 1)).
    { induction j as [|j IHj].
      - replace (g + Z.of_nat 0) with g by lia. repeat split; auto.
        intros Hd. apply dig_ok in Hd. destruct Hd as ([_ Hcol] & _ & Hsm).
        cbn [snd] in Hcol. apply Hns.
        apply same_trans with (r + 1, g - 1); [apply IH; lia|].
        now apply same_sym.
      - destruct IHj as (Hj & Hsm & Hleft).
        set (col := g + Z.of_nat j) in *.
        replace (g + Z.of_nat (S j)) with (col + 1) by lia.
        assert (G1 : in_grid nr nc (r + 1, col)) by (unfold in_grid; cbn; lia).
        assert (G2 : in_grid nr nc (r, col)) by (unfold in_grid; cbn; lia).
        assert (N : nb (r + 1, col) (r, col)) by (right; cbn; split; auto; right; lia).
        assert (Hfor : ~ same (r + 1, col) (r, col)).
        { intros Hs. apply Hns.
          apply same_trans with (r, col); [apply Hrow; lia|].
          apply same_trans with (r + 1, col); auto. }
        destruct (busy_forced (r + 1) col (r, col) G1 G2 N Hfor) as [F _].
        { replace (r + 1 - 1) with r by lia. intros Hd. apply dig_ok in Hd. tauto. }
        destruct (F Hleft) as [D _].
        destruct (dig_ok _ _ D) as ([_ Hcol] & _ & S1). cbn [snd] in Hcol.
        replace (col + 1 - 1) with col by lia.
        repeat split; try lia.
        + apply same_trans with (r + 1, col); auto.
        + now apply dig_once. }
    destruct (Hchain (Z.to_nat nc)) as [Hlt _]. lia. }
  intros c Hc. apply (H (Z.to_nat (c + 1))); lia.
Qed.

Theorem two_rounds_connect :
  1 <= nr -> 1 <= nc ->
  forall x y, in_grid nr nc x -> in_grid nr nc y -> same x y.
Proof.
  intros Hnr Hnc.
  assert (Hrows : forall k : nat, Z.of_nat k < nr ->
             forall c, 0 <= c < nc -> same (0, 0) (Z.of_nat k, c)).
  { induction k as [|k IH]; intros Hk.
    - intros c Hc. now apply top_row_same.
    - replace (Z.of_nat (S k)) with (Z.of_nat k + 1) by lia.
      apply next_row_same; try lia. apply IH. lia. }
  assert (Hall : forall x, in_grid nr nc x -> same (0, 0) x).
  { intros [r c] [Hr Hc]. cbn [fst snd] in *.
    replace r with (Z.of_nat (Z.to_nat r)) by lia. apply Hrows; lia. }
  intros x y Hx Hy.
  apply same_trans with (0, 0); [apply same_sym|]; auto.
Qed.

End TwoRounds.

(** * Path sets as classes of cells *)

Lemma same_set_refl (ss : list rowcol_t) (i : rowcol_t) :
  forest ss -> 0 <= i < Z.of_nat (length ss) -> same_set ss i i.
Proof. intros Hf Hi. destruct (Hf i Hi) as (r & d & Hr). exists r, d, d. auto. Qed.

Lemma same_set_sym (ss : list rowcol_t) (i j : rowcol_t) :
  same_set ss i j -> same_set ss j i.
Proof. intros (r & di & dj & Hi & Hj). exists r, dj, di. auto. Qed.

Lemma same_set_trans (ss : list rowcol_t) (i j k : rowcol_t) :
  same_set ss i j -> same_set ss j k -> same_set ss i k.
Proof.
  intros (r & di & dj & Hi & Hj) (r' & dj' & dk & Hj' & Hk).
  destruct (root_of_fun _ _ _ _ Hj _ _ Hj') as [-> _].
  exists r', di, dk. auto.
Qed.

Lemma same_set_range (ss : list rowcol_t) (i j : rowcol_t) :
  same_set ss i j ->
  0 <= i < Z.of_nat (length ss) /\ 0 <= j < Z.of_nat (length ss).
Proof.
  intros (r & di & dj & Hi & Hj).
  apply root_of_range in Hi, Hj. tauto.
Qed.

Lemma same_set_dec (ss : list rowcol_t) (i j : rowcol_t) :
  forest ss -> 0 <= i < Z.of_nat (length ss) -> 0 <= j < Z.of_nat (length ss) ->
  same_set ss i j \/ ~ same_set ss i j.
Proof.
  intros Hf Hi Hj.
  destruct (Hf i Hi) as (ri & di & Hri). destruct (Hf j Hj) as (rj & dj & Hrj).
  destruct (Z.eq_dec ri rj) as [->|Hne].
  - left. exists rj, di, dj. auto.
  - right. intros (r & di' & dj' & Hi' & Hj').
    destruct (root_of_fun _ _ _ _ Hri _ _ Hi') as [-> _].
    destruct (root_of_fun _ _ _ _ Hrj _ _ Hj') as [-> _]. auto.
Qed.

Lemma same_set_roots (ss : list rowcol_t) (i j ri rj : rowcol_t) (di dj : nat) :
  root_of ss i ri di -> root_of ss j rj dj -> (same_set ss i j <-> ri = rj).
Proof.
  intros Hi Hj. split.
  - intros (r & di' & dj' & Hi' & Hj').
    destruct (root_of_fun _ _ _ _ Hi _ _ Hi') as [-> _].
    destruct (root_of_fun _ _ _ _ Hj _ _ Hj') as [-> _]. auto.
  - intros ->. exists rj, di, dj. auto.
Qed.

Lemma compressed_same_set (ss ss' : list rowcol_t) (i j : rowcol_t) :
  compressed ss ss' -> forest ss -> (same_set ss' i j <-> same_set ss i j).
Proof.
  intros C Hf. split.
  - intros (r & di & dj & Hi & Hj).
    destruct (compressed_root_inv _ _ C Hf _ _ _ Hi) as [di' Hi'].
    destruct (compressed_root_inv _ _ C Hf _ _ _ Hj) as [dj' Hj'].
    exists r, di', dj'. auto.
  - intros (r & di & dj & Hi & Hj).
    destruct (compressed_root _ _ C _ _ _ Hi) as [di' [Hi' _]].
    destruct (compressed_root _ _ C _ _ _ Hj) as [dj' [Hj' _]].
    exists r, di', dj'. auto.
Qed.

(** The classes after the root of [y] has been linked under the root of
    [x]: the old classes, with those of [x] and [y] joined. *)
Lemma link_same_set (ss : list rowcol_t) (x y rx ry : rowcol_t) (dx dy : nat) :
  forest ss -> root_of ss x rx dx -> root_of ss y ry dy ->
  let ss' := upd ss (Z.to_nat ry) rx in
  same_set ss' y x /\
  (forall i j, same_set ss i j -> same_set ss' i j) /\
  (forall i j, same_set ss' i j ->
     same_set ss i j \/ (same_set ss i y /\ same_set ss j x) \/
     (same_set ss i x /\ same_set ss j y)).
Proof.
  intros Hf Hx Hy ss'.
  assert (Hrx : rd ss rx = Ret rx) by (eapply root_of_root; eauto).
  assert (Hry : rd ss ry = Ret ry) by (eapply root_of_root; eauto).
  pose proof (link_root ss ry rx Hry Hrx) as Hlink. fold ss' in Hlink.
  split; [|split].
  - destruct (Hlink _ _ _ Hy) as [e1 He1]. destruct (Hlink _ _ _ Hx) as [e2 He2].
    rewrite Z.eqb_refl in He1.
    exists rx, e1, e2. split; auto.
    destruct (Z.eqb_spec rx ry); subst; auto.
  - intros i j (r & di & dj & Hi & Hj).
    destruct (Hlink _ _ _ Hi) as [ei Hei]. destruct (Hlink _ _ _ Hj) as [ej Hej].
    exists (if r =? ry then rx else r), ei, ej. auto.
  - intros i j Hs. pose proof (same_set_range _ _ _ Hs) as [Hi Hj].
    unfold ss' in Hi, Hj. rewrite length_upd in Hi, Hj.
    destruct (Hf i Hi) as (ri & di & Hri). destruct (Hf j Hj) as (rj & dj & Hrj).
    destruct (Hlink _ _ _ Hri) as [ei Hei]. destruct (Hlink _ _ _ Hrj) as [ej Hej].
    apply (same_set_roots _ _ _ _ _ _ _ Hei Hej) in Hs.
    destruct (Z.eqb_spec ri ry) as [Ei|Hni]; destruct (Z.eqb_spec rj ry) as [Ej|Hnj].
    + left. exists ry, di, dj. split; congruence.
    + right. left. split.
      * exists ry, di, dy. split; congruence.
      * exists rx, dj, dx. split; congruence.
    + right. right. split.
      * exists rx, di, dx. split; congruence.
      * exists ry, dj, dy. split; congruence.
    + left. exists ri, di, dj. split; congruence.
Qed.

(** ** Counting roots *)

Lemma roots_from_upd (l : list rowcol_t) :
  forall (p : Z) (i : nat) (v : rowcol_t),
    (i < length l)%nat ->
    roots_from p (upd l i v) =
    roots_from p l - (if nth i l 0 =? p + Z.of_nat i then 1 else 0)
                   + (if v =? p + Z.of_nat i then 1 else 0).
Proof.
  induction l as [|h t IH]; intros p [|i] v Hi; cbn [length] in Hi; try lia.
  - cbn [upd roots_from nth]. replace (p + Z.of_nat 0) with p by lia. lia.
  - cbn [upd roots_from nth]. rewrite IH by lia.
    replace (p + 1 + Z.of_nat i) with (p + Z.of_nat (S i)) by lia. lia.
Qed.

Lemma roots_from_ext (l l' : list rowcol_t) :
  length l = length l' ->
  forall p,
    (forall i, (i < length l)%nat ->
               (nth i l 0 =? p + Z.of_nat i) = (nth i l' 0 =? p + Z.of_nat i)) ->
    roots_from p l = roots_from p l'.
Proof.
  revert l'. induction l as [|h t IH]; intros [|h' t'] Hlen p H; cbn in Hlen; try lia; auto.
  cbn [roots_from].
  pose proof (H O) as H0. cbn [nth length] in H0.
  replace (p + Z.of_nat 0) with p in H0 by lia. rewrite H0 by lia.
  f_equal. apply IH; [lia|].
  intros i Hi. specialize (H (S i)). cbn [nth length] in H.
  replace (p + 1 + Z.of_nat i) with (p + Z.of_nat (S i)) by lia. apply H. lia.
Qed.

Lemma roots_from_range (l : list rowcol_t) (p : Z) :
  0 <= roots_from p l <= Z.of_nat (length l).
Proof.
  revert p. induction l as [|h t IH]; intros p; cbn [roots_from length]; [lia|].
  specialize (IH (p + 1)). destruct (h =? p); lia.
Qed.

Lemma roots_from_singletons (n : nat) (p : nat) :
  roots_from (Z.of_nat p) (map Z.of_nat (seq p n)) = Z.of_nat n.
Proof.
  revert p. induction n as [|n IH]; intros p; cbn [seq map roots_from]; auto.
  rewrite Z.eqb_refl.
  replace (Z.of_nat p + 1) with (Z.of_nat (S p)) by lia. rewrite IH. lia.
Qed.

Lemma count_roots_singletons (n : nat) : count_roots (singletons n) = Z.of_nat n.
Proof. apply (roots_from_singletons n O). Qed.

Lemma rd_nth_eq (l : list rowcol_t) (i : Z) (v : rowcol_t) :
  0 <= i < Z.of_nat (length l) -> (rd l i = Ret v <-> nth (Z.to_nat i) l 0 = v).
Proof.
  intros Hi. rewrite rd_nth by auto. split; congruence.
Qed.

Lemma compressed_count_roots (ss ss' : list rowcol_t) :
  compressed ss ss' -> forest ss -> count_roots ss' = count_roots ss.
Proof.
  intros [Hlen Hc] Hf. unfold count_roots.
  apply roots_from_ext; auto.
  intros i Hi. rewrite Z.add_0_l.
  assert (Hr : 0 <= Z.of_nat i < Z.of_nat (length ss)) by lia.
  assert (Hr' : 0 <= Z.of_nat i < Z.of_nat (length ss')) by lia.
  pose proof (rd_nth_eq ss (Z.of_nat i) (Z.of_nat i) Hr) as E.
  pose proof (rd_nth_eq ss' (Z.of_nat i) (Z.of_nat i) Hr') as E'.
  rewrite Nat2Z.id in E, E'.
  destruct (Hc (Z.of_nat i)) as [Hsame | (r & d & Hroot & Hnew)].
  - rewrite (rd_nth ss') in Hsame by auto. rewrite (rd_nth ss) in Hsame by auto.
    rewrite Nat2Z.id in Hsame. inversion Hsame as [Hn]. now rewrite Hn.
  - destruct (Z.eqb_spec (nth i ss 0) (Z.of_nat i)) as [Hy|Hn].
    + apply E in Hy.
      assert (Hs : root_of ss (Z.of_nat i) (Z.of_nat i) 0) by now constructor.
      destruct (root_of_fun _ _ _ _ Hs _ _ Hroot) as [<- _].
      apply E' in Hnew. rewrite Hnew. apply Z.eqb_refl.
    + destruct (Z.eqb_spec (nth i ss' 0) (Z.of_nat i)) as [Hy'|Hn']; auto.
      exfalso. apply E' in Hy'. rewrite Hy' in Hnew. inversion Hnew; subst r.
      apply root_of_root in Hroot. apply E in Hroot. auto.
Qed.

Lemma link_count_roots (ss : list rowcol_t) (r1 r2 : rowcol_t) :
  rd ss r1 = Ret r1 -> r2 <> r1 ->
  count_roots (upd ss (Z.to_nat r1) r2) = count_roots ss - 1.
Proof.
  intros H1 Hne. apply rd_ret in H1 as Hr. destruct Hr as [Hr _].
  unfold count_roots. rewrite roots_from_upd by lia.
  rewrite Z.add_0_l, Z2Nat.id by lia.
  apply rd_nth_eq in H1; auto. rewrite H1, Z.eqb_refl.
  replace (r2 =? r1) with false by (symmetry; apply Z.eqb_neq; auto). lia.
Qed.

(** When all roots are one root, there is one root. *)
Lemma roots_from_unique (l : list rowcol_t) (r0 : rowcol_t) :
  forall p,
    (forall i, (i < length l)%nat -> nth i l 0 = p + Z.of_nat i -> p + Z.of_nat i = r0) ->
    roots_from p l =
    if (p <=? r0) && (r0 <? p + Z.of_nat (length l)) && (nth (Z.to_nat (r0 - p)) l 0 =? r0)
    then 1 else 0.
Proof.
  induction l as [|h t IH]; intros p H; cbn [roots_from length].
  - destruct (p <=? r0) eqn:E1, (r0 <? p + Z.of_nat 0) eqn:E2; cbn; auto.
    apply Z.leb_le in E1. apply Z.ltb_lt in E2. lia.
  - rewrite IH.
    + destruct (Z.eqb_spec h p) as [->|Hne].
      * assert (p = r0) by (specialize (H O); cbn in H; rewrite Z.add_0_r in H; apply H; lia).
        subst r0. replace (p - p) with 0 by lia. cbn [Z.to_nat nth].
        rewrite Z.leb_refl, Z.eqb_refl.
        replace (p <? p + Z.of_nat (S (length t))) with true
          by (symmetry; apply Z.ltb_lt; lia).
        replace (p + 1 <=? p) with false by (symmetry; apply Z.leb_gt; lia).
        reflexivity.
      * destruct (Z.eq_dec r0 p) as [->|Hrp].
        -- replace (p - p) with 0 by lia. cbn [Z.to_nat nth].
           replace (h =? p) with false by (symmetry; apply Z.eqb_neq; auto).
           replace (p + 1 <=? p) with false by (symmetry; apply Z.leb_gt; lia).
           rewrite !andb_false_r. reflexivity.
        -- destruct (p <=? r0) eqn:E1.
           ++ apply Z.leb_le in E1.
              replace (p + 1 <=? r0) with true by (symmetry; apply Z.leb_le; lia).
              replace (r0 <? p + 1 + Z.of_nat (length t))
                with (r0 <? p + Z.of_nat (S (length t)))
                by (f_equal; lia).
              replace (Z.to_nat (r0 - p)) with (S (Z.to_nat (r0 - (p + 1)))) by lia.
              cbn [nth]. lia.
           ++ apply Z.leb_gt in E1.
              replace (p + 1 <=? r0) with false by (symmetry; apply Z.leb_gt; lia).
              reflexivity.
    + intros i Hi Hn. specialize (H (S i)). cbn [nth length] in H.
      replace (p + Z.of_nat (S i)) with (p + 1 + Z.of_nat i) in H by lia.
      apply H; auto. lia.
Qed.

Lemma one_class_one_root (ss : list rowcol_t) :
  forest ss -> (0 < length ss)%nat ->
  (forall i j, 0 <= i < Z.of_nat (length ss) -> 0 <= j < Z.of_nat (length ss) ->
               same_set ss i j) ->
  count_roots ss = 1.
Proof.
  intros Hf Hpos Hall.
  destruct (Hf 0) as (r0 & d0 & Hr0); [lia|].
  pose proof (root_of_root _ _ _ _ Hr0) as Hroot.
  apply rd_ret in Hroot as Hrange. destruct Hrange as [Hrange _].
  unfold count_roots. rewrite (roots_from_unique ss r0).
  - rewrite Z.sub_0_r.
    apply rd_nth_eq in Hroot; auto. rewrite Hroot, Z.eqb_refl.
    replace (0 <=? r0) with true by (symmetry; apply Z.leb_le; lia).
    replace (r0 <? 0 + Z.of_nat (length ss)) with true by (symmetry; apply Z.ltb_lt; lia).
    reflexivity.
  - intros i Hi Hn. rewrite Z.add_0_l in *.
    assert (Hri : rd ss (Z.of_nat i) = Ret (Z.of_nat i)).
    { apply rd_nth_eq; [lia|]. now rewrite Nat2Z.id. }
    assert (Hs : root_of ss (Z.of_nat i) (Z.of_nat i) 0) by now constructor.
    assert (Hsame : same_set ss (Z.of_nat i) 0) by (apply Hall; lia).
    apply (same_set_roots _ _ _ _ _ _ _ Hs Hr0) in Hsame. auto.
Qed.

Lemma count_roots_pos (ss : list rowcol_t) :
  forest ss -> (0 < length ss)%nat -> 1 <= count_roots ss.
Proof.
  intros Hf Hpos.
  destruct (Hf 0) as (r0 & d0 & Hr0); [lia|].
  pose proof (root_of_root _ _ _ _ Hr0) as Hroot.
  apply rd_ret in Hroot as Hrange. destruct Hrange as [Hrange _].
  assert (Hup : count_roots (upd ss (Z.to_nat r0) (r0 + 1)) = count_roots ss - 1).
  { apply link_count_roots; auto. lia. }
  pose proof (roots_from_range (upd ss (Z.to_nat r0) (r0 + 1)) 0) as Hr.
  unfold count_roots in *. lia.
Qed.

(** * Cells, passages and the wall count *)

Lemma off_range (nr nc : Z) (x : cell) :
  in_grid nr nc x -> 0 <= off nc x < nr * nc.
Proof. destruct x as [r c]. unfold in_grid, off. cbn [fst snd]. intros [Hr Hc]. nia. Qed.

Lemma off_inj (nr nc : Z) (x y : cell) :
  in_grid nr nc x -> in_grid nr nc y -> off nc x = off nc y -> x = y.
Proof.
  destruct x as [r c], y as [r' c']. unfold in_grid, off. cbn [fst snd].
  intros [Hr Hc] [Hr' Hc'] E.
  assert (r = r') by nia. subst r'. f_equal. lia.
Qed.

Lemma off_div_mod (nc r c : Z) :
  0 <= c < nc -> (r * nc + c) / nc = r /\ (r * nc + c) mod nc = c.
Proof.
  intros Hc. split.
  - rewrite Z.add_comm, Z.div_add by lia. rewrite Z.div_small by lia. lia.
  - rewrite Z.add_comm, Z.mod_add by lia. apply Z.mod_small. lia.
Qed.

Lemma cell_of_index (nr nc p : Z) :
  1 <= nc -> 0 <= p < nr * nc ->
  in_grid nr nc (p / nc, p mod nc) /\ off nc (p / nc, p mod nc) = p.
Proof.
  intros Hnc Hp. unfold in_grid, off. cbn [fst snd].
  pose proof (Z.div_mod p nc ltac:(lia)) as E.
  pose proof (Z.mod_pos_bound p nc ltac:(lia)) as Hm.
  assert (0 <= p / nc) by (apply Z.div_pos; lia).
  assert (p / nc < nr) by (apply Z.div_lt_upper_bound; nia).
  repeat split; try lia.
Qed.

Lemma OFFSET_off (mp : maze_t) (x : cell) :
  grid_ok mp -> in_grid (n_rows mp) (n_cols mp) x ->
  OFFSET mp (fst x) (snd x) = off (n_cols mp) x.
Proof.
  intros Hok [Hr Hc]. now destruct (OFFSET_small mp (fst x) (snd x) Hok Hr Hc).
Qed.

Lemma cell_update_spec (mp : maze_t) (x : cell) (f : maze_node -> maze_node) :
  grid_ok mp -> in_grid (n_rows mp) (n_cols mp) x ->
  cell_update mp (off (n_cols mp) x) f =
  Ret (with_cells mp (upd (cells mp) (Z.to_nat (off (n_cols mp) x)) (f (cell_at mp x)))).
Proof.
  intros Hok Hx. pose proof Hok as (Hr & Hc & Hn & Hl).
  pose proof (off_range _ _ _ Hx) as Hrange.
  unfold cell_update. unfold cell_at.
  assert (Hrd : rd (cells mp) (off (n_cols mp) x) =
                Ret (nth (Z.to_nat (off (n_cols mp) x)) (cells mp) def_node)).
  { apply rd_ret. split; [lia|]. apply nth_error_nth'. lia. }
  rewrite Hrd. cbn [bind]. rewrite wr_total by lia. reflexivity.
Qed.

Lemma cell_at_upd (mp : maze_t) (x z : cell) (n : maze_node) :
  grid_ok mp -> in_grid (n_rows mp) (n_cols mp) x -> in_grid (n_rows mp) (n_cols mp) z ->
  cell_at (with_cells mp (upd (cells mp) (Z.to_nat (off (n_cols mp) x)) n)) z =
  if Z.eqb (off (n_cols mp) x) (off (n_cols mp) z) then n else cell_at mp z.
Proof.
  intros Hok Hx Hz. pose proof Hok as (Hr & Hc & Hn & Hl).
  pose proof (off_range _ _ _ Hx) as Hrx. pose proof (off_range _ _ _ Hz) as Hrz.
  unfold cell_at. cbn [cells with_cells n_cols].
  destruct (Z.eqb_spec (off (n_cols mp) x) (off (n_cols mp) z)) as [E|E].
  - rewrite <- E. apply nth_error_nth. apply nth_error_upd_same. lia.
  - assert (Hne : Z.to_nat (off (n_cols mp) x) <> Z.to_nat (off (n_cols mp) z)) by lia.
    pose proof (nth_error_upd_other (cells mp) _ _ n Hne) as Hu.
    assert (Hlt : (Z.to_nat (off (n_cols mp) z) < length (cells mp))%nat) by lia.
    rewrite (nth_error_nth' _ def_node Hlt) in Hu.
    now apply nth_error_nth.
Qed.

Lemma grid_ok_with_cells_upd (mp : maze_t) (i : nat) (n : maze_node) :
  grid_ok mp -> grid_ok (with_cells mp (upd (cells mp) i n)).
Proof.
  intros (Hr & Hc & Hn & Hl). unfold grid_ok. cbn [n_rows n_cols cells with_cells].
  rewrite length_upd. auto.
Qed.

(** ** Passages *)

Lemma passage_sym (mp : maze_t) (x y : cell) : passage mp x y -> passage mp y x.
Proof. intros H. destruct H; now constructor. Qed.

Lemma passage_in_grid (mp : maze_t) (x y : cell) :
  passage mp x y ->
  in_grid (n_rows mp) (n_cols mp) x /\ in_grid (n_rows mp) (n_cols mp) y /\ nb x y.
Proof.
  intros H. destruct H as [r c [Hr Hc] H1 Hw | r c [Hr Hc] H1 Hw
                          | r c [Hr Hc] H1 Hw | r c [Hr Hc] H1 Hw];
    unfold in_grid, nb in *; cbn [fst snd] in *; repeat split; lia.
Qed.

Lemma connected_trans (mp : maze_t) (x y z : cell) :
  connected mp x y -> connected mp y z -> connected mp x z.
Proof.
  induction 1 as [x | x y' z' Hp Hc IH]; intros H; auto.
  eapply conn_step; eauto.
Qed.

Lemma connected_sym (mp : maze_t) (x y : cell) :
  connected mp x y -> connected mp y x.
Proof.
  induction 1 as [x | x y z Hp Hc IH]; [constructor|].
  eapply connected_trans; [exact IH|].
  eapply conn_step; [apply passage_sym; exact Hp | constructor].
Qed.

Lemma connected_mono (mp mp' : maze_t) (x y : cell) :
  (forall u v, passage mp u v -> passage mp' u v) ->
  connected mp x y -> connected mp' x y.
Proof.
  intros Hm. induction 1 as [x | x y z Hp Hc IH]; [constructor|].
  eapply conn_step; eauto.
Qed.

Lemma connected_but_forget (mp : maze_t) (u v x y : cell) :
  connected_but mp u v x y -> connected mp x y.
Proof.
  induction 1 as [x | x y z Hp H1 H2 Hc IH]; [constructor|].
  eapply conn_step; eauto.
Qed.

Lemma connected_but_trans (mp : maze_t) (u v x y z : cell) :
  connected_but mp u v x y -> connected_but mp u v y z -> connected_but mp u v x z.
Proof.
  induction 1 as [x | x y' z' Hp H1 H2 Hc IH]; intros H; auto.
  eapply connb_step; eauto.
Qed.

(** A walk in the graph with one more wall removed, between [a] and [b],
    either avoids the new passage or leaves from and arrives at its ends. *)
Lemma connected_but_new_edge (mp mp' : maze_t) (a b u v : cell) :
  (forall s t, passage mp' s t ->
               passage mp s t \/ (s = a /\ t = b) \/ (s = b /\ t = a)) ->
  forall x y, connected_but mp' u v x y ->
    connected_but mp u v x y \/
    ((connected_but mp u v x a \/ connected_but mp u v x b) /\
     (connected_but mp u v a y \/ connected_but mp u v b y)).
Proof.
  intros Hnew x y H.
  induction H as [x | x x' y Hp H1 H2 Hc IH].
  - left. constructor.
  - destruct (Hnew _ _ Hp) as [Hold | [[-> ->] | [-> ->]]].
    + destruct IH as [IH | [[IH1 | IH1] IH2]].
      * left. eapply connb_step; eauto.
      * right. split; auto. left. eapply connb_step; eauto.
      * right. split; auto. right. eapply connb_step; eauto.
    + right. split; [left; constructor|].
      destruct IH as [IH | [_ IH2]]; auto.
    + right. split; [right; constructor|].
      destruct IH as [IH | [_ IH2]]; auto.
Qed.

(** A walk that avoids the new passage is a walk of the old graph. *)
Lemma connected_but_old (mp mp' : maze_t) (a b : cell) :
  (forall s t, passage mp' s t ->
               passage mp s t \/ (s = a /\ t = b) \/ (s = b /\ t = a)) ->
  forall x y, connected_but mp' a b x y -> connected mp x y.
Proof.
  intros Hnew x y H.
  induction H as [x | x x' y Hp H1 H2 Hc IH]; [constructor|].
  destruct (Hnew _ _ Hp) as [Hold | [E | E]]; try tauto.
  eapply conn_step; eauto.
Qed.

(** ** Kicking down a wall *)

Lemma cell_at_upd_cases (mp : maze_t) (x z : cell) (n : maze_node) :
  grid_ok mp -> in_grid (n_rows mp) (n_cols mp) x -> in_grid (n_rows mp) (n_cols mp) z ->
  let mp' := with_cells mp (upd (cells mp) (Z.to_nat (off (n_cols mp) x)) n) in
  (z = x /\ cell_at mp' z = n) \/ (z <> x /\ cell_at mp' z = cell_at mp z).
Proof.
  intros Hok Hx Hz mp'. unfold mp'. rewrite cell_at_upd by auto.
  destruct (Z.eqb_spec (off (n_cols mp) x) (off (n_cols mp) z)) as [E|E].
  - left. split; auto. symmetry. eapply off_inj; eauto.
  - right. split; auto. intros ->. auto.
Qed.

Lemma passage_clear_right (mp : maze_t) (r c : Z) :
  grid_ok mp -> in_grid (n_rows mp) (n_cols mp) (r, c) -> c + 1 < n_cols mp ->
  let mp' := with_cells mp (upd (cells mp) (Z.to_nat (off (n_cols mp) (r, c)))
                              (set_r_wall (cell_at mp (r, c)) false)) in
  forall s t, passage mp' s t <->
              passage mp s t \/ (s = (r, c) /\ t = (r, c + 1)) \/
              (s = (r, c + 1) /\ t = (r, c)).
Proof.
  intros Hok Hx Hc mp' s t.
  assert (Hcell : forall z, in_grid (n_rows mp) (n_cols mp) z ->
            (z = (r, c) /\ cell_at mp' z = set_r_wall (cell_at mp (r, c)) false) \/
            (z <> (r, c) /\ cell_at mp' z = cell_at mp z)).
  { intros z Hz. now apply cell_at_upd_cases. }
  split.
  - intros H. destruct H as [r0 c0 Hg H1 Hw | r0 c0 Hg H1 Hw
                            | r0 c0 Hg H1 Hw | r0 c0 Hg H1 Hw];
      cbn [n_rows n_cols with_cells mp'] in Hg, H1;
      destruct (Hcell _ Hg) as [[E Hn] | [E Hn]]; rewrite Hn in Hw;
      try (inversion E; subst; auto; fail);
      try (left; constructor; auto; fail).
    + left. inversion E; subst. now constructor.
    + left. inversion E; subst. now constructor.
  - intros [H | [[-> ->] | [-> ->]]].
    + destruct H as [r0 c0 Hg H1 Hw | r0 c0 Hg H1 Hw
                    | r0 c0 Hg H1 Hw | r0 c0 Hg H1 Hw];
        constructor; auto;
        destruct (Hcell _ Hg) as [[E Hn] | [E Hn]]; rewrite Hn; auto;
        inversion E; subst; auto.
    + constructor; auto.
      destruct (Hcell _ Hx) as [[E Hn] | [E Hn]]; [now rewrite Hn | congruence].
    + constructor; auto.
      destruct (Hcell _ Hx) as [[E Hn] | [E Hn]]; [now rewrite Hn | congruence].
Qed.

Lemma passage_clear_bottom (mp : maze_t) (r c : Z) :
  grid_ok mp -> in_grid (n_rows mp) (n_cols mp) (r, c) -> r + 1 < n_rows mp ->
  let mp' := with_cells mp (upd (cells mp) (Z.to_nat (off (n_cols mp) (r, c)))
                              (set_b_wall (cell_at mp (r, c)) false)) in
  forall s t, passage mp' s t <->
              passage mp s t \/ (s = (r, c) /\ t = (r + 1, c)) \/
              (s = (r + 1, c) /\ t = (r, c)).
Proof.
  intros Hok Hx Hc mp' s t.
  assert (Hcell : forall z, in_grid (n_rows mp) (n_cols mp) z ->
            (z = (r, c) /\ cell_at mp' z = set_b_wall (cell_at mp (r, c)) false) \/
            (z <> (r, c) /\ cell_at mp' z = cell_at mp z)).
  { intros z Hz. now apply cell_at_upd_cases. }
  split.
  - intros H. destruct H as [r0 c0 Hg H1 Hw | r0 c0 Hg H1 Hw
                            | r0 c0 Hg H1 Hw | r0 c0 Hg H1 Hw];
      cbn [n_rows n_cols with_cells mp'] in Hg, H1;
      destruct (Hcell _ Hg) as [[E Hn] | [E Hn]]; rewrite Hn in Hw;
      try (inversion E; subst; auto; fail);
      try (left; constructor; auto; fail).
    + left. inversion E; subst. now constructor.
    + left. inversion E; subst. now constructor.
  - intros [H | [[-> ->] | [-> ->]]].
    + destruct H as [r0 c0 Hg H1 Hw | r0 c0 Hg H1 Hw
                    | r0 c0 Hg H1 Hw | r0 c0 Hg H1 Hw];
        constructor; auto;
        destruct (Hcell _ Hg) as [[E Hn] | [E Hn]]; rewrite Hn; auto;
        inversion E; subst; auto.
    + constructor; auto.
      destruct (Hcell _ Hx) as [[E Hn] | [E Hn]]; [now rewrite Hn | congruence].
    + constructor; auto.
      destruct (Hcell _ Hx) as [[E Hn] | [E Hn]]; [now rewrite Hn | congruence].
Qed.

(** ** The wall count *)

Lemma score_from_upd (nr nc : Z) (l : list maze_node) :
  forall (p : Z) (i : nat) (v : maze_node),
    (i < length l)%nat ->
    score_from nr nc p (upd l i v) =
    score_from nr nc p l - wall_score nr nc (p + Z.of_nat i) (nth i l def_node)
                         + wall_score nr nc (p + Z.of_nat i) v.
Proof.
  induction l as [|h t IH]; intros p [|i] v Hi; cbn [length] in Hi; try lia.
  - cbn [upd score_from nth]. replace (p + Z.of_nat 0) with p by lia. lia.
  - cbn [upd score_from nth]. rewrite IH by lia.
    replace (p + 1 + Z.of_nat i) with (p + Z.of_nat (S i)) by lia. lia.
Qed.

Lemma score_from_repeat (nr nc : Z) (n : nat) (p : Z) :
  score_from nr nc p (repeat def_node n) = 0.
Proof.
  revert p. induction n as [|n IH]; intros p; cbn [repeat score_from]; auto.
  rewrite IH. unfold wall_score. cbn [r_wall b_wall def_node negb].
  now rewrite !andb_false_r.
Qed.

Lemma absent_walls_clear (mp : maze_t) (x : cell) (n' : maze_node) :
  grid_ok mp -> in_grid (n_rows mp) (n_cols mp) x ->
  absent_walls (with_cells mp (upd (cells mp) (Z.to_nat (off (n_cols mp) x)) n')) =
  absent_walls mp
  - wall_score (n_rows mp) (n_cols mp) (off (n_cols mp) x) (cell_at mp x)
  + wall_score (n_rows mp) (n_cols mp) (off (n_cols mp) x) n'.
Proof.
  intros Hok Hx. pose proof Hok as (Hr & Hc & Hn & Hl).
  pose proof (off_range _ _ _ Hx) as Hrange.
  unfold absent_walls. cbn [n_rows n_cols cells with_cells].
  rewrite score_from_upd by lia.
  rewrite Z.add_0_l, Z2Nat.id by lia. reflexivity.
Qed.

Lemma wall_score_right (nr nc : Z) (r c : Z) (n : maze_node) :
  0 <= c -> c + 1 < nc -> r_wall n = true ->
  wall_score nr nc (off nc (r, c)) (set_r_wall n false) =
  wall_score nr nc (off nc (r, c)) n + 1.
Proof.
  intros Hc0 Hc1 Hw. unfold wall_score, off. cbn [fst snd r_wall b_wall set_r_wall].
  destruct (off_div_mod nc r c) as [Hd Hm]; [lia|].
  rewrite Hm, Hw.
  replace (c <? nc - 1) with true by (symmetry; apply Z.ltb_lt; lia).
  cbn [andb negb]. lia.
Qed.

Lemma wall_score_bottom (nr nc : Z) (r c : Z) (n : maze_node) :
  0 <= c < nc -> r + 1 < nr -> b_wall n = true ->
  wall_score nr nc (off nc (r, c)) (set_b_wall n false) =
  wall_score nr nc (off nc (r, c)) n + 1.
Proof.
  intros Hc Hr Hw. unfold wall_score, off. cbn [fst snd r_wall b_wall set_b_wall].
  destruct (off_div_mod nc r c) as [Hd Hm]; [lia|].
  rewrite Hd, Hw.
  replace (r <? nr - 1) with true by (symmetry; apply Z.ltb_lt; lia).
  cbn [andb negb]. lia.
Qed.

Lemma kick_down_spec (mp : maze_t) (r c : Z) (wall : Z) :
  grid_ok mp -> in_grid (n_rows mp) (n_cols mp) (r, c) ->
  0 <= wall < 4 -> dir_open (n_rows mp) (n_cols mp) wall (r, c) = true ->
  ~ passage mp (r, c) (neighbour wall (r, c)) ->
  exists cs',
    kick_down mp wall r c =
    Ret (with_cells mp cs', fst (neighbour wall (r, c)), snd (neighbour wall (r, c))) /\
    length cs' = length (cells mp) /\
    in_grid (n_rows mp) (n_cols mp) (neighbour wall (r, c)) /\
    nb (r, c) (neighbour wall (r, c)) /\
    (forall s t, passage (with_cells mp cs') s t <->
                 passage mp s t \/ (s = (r, c) /\ t = neighbour wall (r, c)) \/
                 (s = neighbour wall (r, c) /\ t = (r, c))) /\
    absent_walls (with_cells mp cs') = absent_walls mp + 1.
Proof.
  intros Hok Hx Hwall Hopen Hnp. pose proof Hok as (Hr & Hc & Hn & Hl).
  pose proof Hx as [Hxr Hxc]. cbn [fst snd] in Hxr, Hxc.
  assert (HwB : n_rows mp < wB /\ n_cols mp < wB) by nia.
  assert (Hw : wall = 0 \/ wall = 1 \/ wall = 2 \/ wall = 3) by lia.
  unfold kick_down, neighbour, dir_open in *. cbn [fst snd] in *.
  destruct Hw as [-> | [-> | [-> | ->]]]; cbn [Z.eqb DIR_U DIR_R DIR_D DIR_L Pos.eqb] in *.
  - (* Up: the bottom wall of (r - 1, c) *)
    apply Z.ltb_lt in Hopen.
    assert (Hy : in_grid (n_rows mp) (n_cols mp) (r - 1, c)) by (unfold in_grid; cbn; lia).
    rewrite (wrap_small (r - 1)) by lia.
    change (OFFSET mp (r - 1) c) with (OFFSET mp (fst (r - 1, c)) (snd (r - 1, c))).
    rewrite OFFSET_off, cell_update_spec by auto. cbn [bind].
    assert (Hpresent : b_wall (cell_at mp (r - 1, c)) = true).
    { destruct (b_wall (cell_at mp (r - 1, c))) eqn:E; auto. exfalso. apply Hnp.
      replace r with (r - 1 + 1) at 1 by lia. constructor; auto. lia. }
    eexists. split; [reflexivity|]. split; [apply length_upd|].
    split; [exact Hy|]. split; [unfold nb; cbn; lia|]. split.
    + intros s t. rewrite passage_clear_bottom by (auto; lia).
      replace (r - 1 + 1) with r by lia. tauto.
    + rewrite absent_walls_clear by auto.
      rewrite wall_score_bottom by (auto; lia). lia.
  - (* Right: the right wall of (r, c) *)
    apply Z.ltb_lt in Hopen.
    assert (Hy : in_grid (n_rows mp) (n_cols mp) (r, c + 1)) by (unfold in_grid; cbn; lia).
    rewrite (wrap_small (c + 1)) by lia.
    change (OFFSET mp r c) with (OFFSET mp (fst (r, c)) (snd (r, c))).
    rewrite OFFSET_off, cell_update_spec by auto. cbn [bind].
    assert (Hpresent : r_wall (cell_at mp (r, c)) = true).
    { destruct (r_wall (cell_at mp (r, c))) eqn:E; auto. exfalso. apply Hnp.
      constructor; auto. lia. }
    eexists. split; [reflexivity|]. split; [apply length_upd|].
    split; [exact Hy|]. split; [unfold nb; cbn; lia|]. split.
    + intros s t. rewrite passage_clear_right by (auto; lia). tauto.
    + rewrite absent_walls_clear by auto.
      rewrite wall_score_right by (auto; lia). lia.
  - (* Down: the bottom wall of (r, c) *)
    apply Z.ltb_lt in Hopen.
    assert (Hy : in_grid (n_rows mp) (n_cols mp) (r + 1, c)) by (unfold in_grid; cbn; lia).
    rewrite (wrap_small (r + 1)) by lia.
    change (OFFSET mp r c) with (OFFSET mp (fst (r, c)) (snd (r, c))).
    rewrite OFFSET_off, cell_update_spec by auto. cbn [bind].
    assert (Hpresent : b_wall (cell_at mp (r, c)) = true).
    { destruct (b_wall (cell_at mp (r, c))) eqn:E; auto. exfalso. apply Hnp.
      constructor; auto. lia. }
    eexists. split; [reflexivity|]. split; [apply length_upd|].
    split; [exact Hy|]. split; [unfold nb; cbn; lia|]. split.
    + intros s t. rewrite passage_clear_bottom by (auto; lia). tauto.
    + rewrite absent_walls_clear by auto.
      rewrite wall_score_bottom by (auto; lia). lia.
  - (* Left: the right wall of (r, c - 1) *)
    apply Z.ltb_lt in Hopen.
    assert (Hy : in_grid (n_rows mp) (n_cols mp) (r, c - 1)) by (unfold in_grid; cbn; lia).
    rewrite (wrap_small (c - 1)) by lia.
    change (OFFSET mp r (c - 1)) with (OFFSET mp (fst (r, c - 1)) (snd (r, c - 1))).
    rewrite OFFSET_off, cell_update_spec by auto. cbn [bind].
    assert (Hpresent : r_wall (cell_at mp (r, c - 1)) = true).
    { destruct (r_wall (cell_at mp (r, c - 1))) eqn:E; auto. exfalso. apply Hnp.
      replace c with (c - 1 + 1) at 1 by lia. constructor; auto. lia. }
    eexists. split; [reflexivity|]. split; [apply length_upd|].
    split; [exact Hy|]. split; [unfold nb; cbn; lia|]. split.
    + intros s t. rewrite passage_clear_right by (auto; lia).
      replace (c - 1 + 1) with c by lia. tauto.
    + rewrite absent_walls_clear by auto.
      rewrite wall_score_right by (auto; lia). lia.
Qed.

(** ** The adjacency mask of s_adj *)

Lemma with_sets_id (mp : maze_t) : with_sets mp (sets mp) = mp.
Proof. now destruct mp. Qed.

Lemma adj_probe_spec (fuel : nat) (mp : maze_t) (ss : list rowcol_t) (guard : bool)
  (o cur set : rowcol_t) (d : nat) (dir : Z) (out : rowcol_t) :
  forest (sets mp) -> compressed (sets mp) ss -> (length (sets mp) <= fuel)%nat ->
  root_of (sets mp) cur set d ->
  (guard = true -> 0 <= o < Z.of_nat (length (sets mp))) ->
  exists (ss' : list rowcol_t) (b : bool),
    adj_probe fuel guard o set dir (with_sets mp ss, out) =
    Ret (with_sets mp ss', Z.lor out (if b then Z.shiftl 1 dir else 0)) /\
    compressed (sets mp) ss' /\
    (b = true <-> guard = true /\ ~ same_set (sets mp) o cur).
Proof.
  intros Hf C Hfuel Hset Hrange. unfold adj_probe. destruct guard.
  - specialize (Hrange eq_refl).
    destruct (Hf o Hrange) as (ro & dO & Hro).
    destruct (compressed_root _ _ C _ _ _ Hro) as [dO' [Hro' _]].
    pose proof (root_of_depth _ _ _ _ Hro') as Hdepth.
    pose proof C as [Hlen _].
    destruct (s_findset_compressed fuel (with_sets mp ss) o ro dO' Hro')
      as (ss' & Hrun & C'); [cbn [sets with_sets]; lia|].
    cbn [sets with_sets] in *. rewrite Hrun. cbn [bind].
    exists ss', (negb (ro =? set)). split; [|split].
    + destruct (negb (ro =? set)); [reflexivity|]. now rewrite Z.lor_0_r.
    + eapply compressed_trans; eauto.
    + rewrite (same_set_roots _ _ _ _ _ _ _ Hro Hset).
      destruct (Z.eqb_spec ro set); cbn [negb]; split; intros H; try tauto; try discriminate.
  - exists ss, false. split; [|split]; auto.
    + now rewrite Z.lor_0_r.
    + split; [discriminate|]. intros [H _]. discriminate.
Qed.

Lemma s_adj_spec (fuel : nat) (mp : maze_t) (r c : Z) :
  grid_ok mp -> forest (sets mp) ->
  Z.of_nat (length (sets mp)) = n_rows mp * n_cols mp ->
  (length (sets mp) <= fuel)%nat ->
  in_grid (n_rows mp) (n_cols mp) (r, c) ->
  exists ss' bU bD bL bR,
    s_adj fuel mp (off (n_cols mp) (r, c)) = Ret (with_sets mp ss', adj_mask bU bD bL bR) /\
    compressed (sets mp) ss' /\
    (forall dir b, (dir = DIR_U /\ b = bU) \/ (dir = DIR_R /\ b = bR) \/
                   (dir = DIR_D /\ b = bD) \/ (dir = DIR_L /\ b = bL) ->
       (b = true <->
        dir_open (n_rows mp) (n_cols mp) dir (r, c) = true /\
        ~ same_set (sets mp) (off (n_cols mp) (neighbour dir (r, c)))
                   (off (n_cols mp) (r, c)))).
Proof.
  intros Hok Hf Hlen Hfuel Hx. pose proof Hok as (Hr & Hc & Hn & Hl).
  pose proof Hx as [Hxr Hxc]. cbn [fst snd] in Hxr, Hxc.
  assert (HwB : n_rows mp < wB /\ n_cols mp < wB) by nia.
  pose proof (off_range _ _ _ Hx) as Hcur.
  destruct (Hf (off (n_cols mp) (r, c))) as (set & dset & Hset); [lia|].
  pose proof (root_of_depth _ _ _ _ Hset) as Hdepth.
  destruct (s_findset_compressed fuel mp (off (n_cols mp) (r, c)) set dset Hset)
    as (ss0 & Hrun0 & C0); [lia|].
  unfold s_adj. rewrite Hrun0. cbn [bind n_cols n_rows with_sets].
  replace (n_cols mp =? 0) with false by (symmetry; apply Z.eqb_neq; lia).
  cbn [negb assert bind].
  destruct (off_div_mod (n_cols mp) r c Hxc) as [Hdiv Hmod].
  assert (Ediv : off (n_cols mp) (r, c) / n_cols mp = r) by exact Hdiv.
  assert (Emod : off (n_cols mp) (r, c) mod n_cols mp = c) by exact Hmod.
  rewrite Ediv, Emod.
  rewrite (wrap_small (n_rows mp - 1)), (wrap_small (n_cols mp - 1)) by lia.
  assert (Hoff : forall y, in_grid (n_rows mp) (n_cols mp) y ->
                   OFFSET (with_sets mp ss0) (fst y) (snd y) = off (n_cols mp) y /\
                   0 <= off (n_cols mp) y < Z.of_nat (length (sets mp))).
  { intros y Hy. rewrite OFFSET_with_sets, OFFSET_off by auto.
    split; auto. pose proof (off_range _ _ _ Hy). lia. }
  (* the four offsets, under their guards *)
  assert (OU : (0 <? r) = true ->
               OFFSET (with_sets mp ss0) (wrap (r - 1)) c = off (n_cols mp) (r - 1, c) /\
               0 <= off (n_cols mp) (r - 1, c) < Z.of_nat (length (sets mp))).
  { intros Hg. apply Z.ltb_lt in Hg. rewrite wrap_small by lia.
    apply (Hoff (r - 1, c)). unfold in_grid; cbn; lia. }
  assert (OD : (r <? n_rows mp - 1) = true ->
               OFFSET (with_sets mp ss0) (wrap (r + 1)) c = off (n_cols mp) (r + 1, c) /\
               0 <= off (n_cols mp) (r + 1, c) < Z.of_nat (length (sets mp))).
  { intros Hg. apply Z.ltb_lt in Hg. rewrite wrap_small by lia.
    apply (Hoff (r + 1, c)). unfold in_grid; cbn; lia. }
  assert (OL : (0 <? c) = true ->
               OFFSET (with_sets mp ss0) r (wrap (c - 1)) = off (n_cols mp) (r, c - 1) /\
               0 <= off (n_cols mp) (r, c - 1) < Z.of_nat (length (sets mp))).
  { intros Hg. apply Z.ltb_lt in Hg. rewrite wrap_small by lia.
    apply (Hoff (r, c - 1)). unfold in_grid; cbn; lia. }
  assert (OR : (c <? n_cols mp - 1) = true ->
               OFFSET (with_sets mp ss0) r (wrap (c + 1)) = off (n_cols mp) (r, c + 1) /\
               0 <= off (n_cols mp) (r, c + 1) < Z.of_nat (length (sets mp))).
  { intros Hg. apply Z.ltb_lt in Hg. rewrite wrap_small by lia.
    apply (Hoff (r, c + 1)). unfold in_grid; cbn; lia. }
  destruct (adj_probe_spec fuel mp ss0 (0 <? r)
              (OFFSET (with_sets mp ss0) (wrap (r - 1)) c) (off (n_cols mp) (r, c)) set dset DIR_U 0
              Hf C0 Hfuel Hset) as (ss1 & bU & Hrun1 & C1 & HbU).
  { intros Hg. destruct (OU Hg) as [-> Hrange]. exact Hrange. }
  rewrite Hrun1. cbn [bind].
  destruct (adj_probe_spec fuel mp ss1 (r <? n_rows mp - 1)
              (OFFSET (with_sets mp ss0) (wrap (r + 1)) c) (off (n_cols mp) (r, c)) set dset DIR_D
              (Z.lor 0 (if bU then Z.shiftl 1 DIR_U else 0))
              Hf C1 Hfuel Hset) as (ss2 & bD & Hrun2 & C2 & HbD).
  { intros Hg. destruct (OD Hg) as [-> Hrange]. exact Hrange. }
  rewrite Hrun2. cbn [bind].
  destruct (adj_probe_spec fuel mp ss2 (0 <? c)
              (OFFSET (with_sets mp ss0) r (wrap (c - 1))) (off (n_cols mp) (r, c)) set dset DIR_L
              (Z.lor (Z.lor 0 (if bU then Z.shiftl 1 DIR_U else 0))
                     (if bD then Z.shiftl 1 DIR_D else 0))
              Hf C2 Hfuel Hset) as (ss3 & bL & Hrun3 & C3 & HbL).
  { intros Hg. destruct (OL Hg) as [-> Hrange]. exact Hrange. }
  rewrite Hrun3. cbn [bind].
  destruct (adj_probe_spec fuel mp ss3 (c <? n_cols mp - 1)
              (OFFSET (with_sets mp ss0) r (wrap (c + 1))) (off (n_cols mp) (r, c)) set dset DIR_R
              (Z.lor (Z.lor (Z.lor 0 (if bU then Z.shiftl 1 DIR_U else 0))
                            (if bD then Z.shiftl 1 DIR_D else 0))
                     (if bL then Z.shiftl 1 DIR_L else 0))
              Hf C3 Hfuel Hset) as (ss4 & bR & Hrun4 & C4 & HbR).
  { intros Hg. destruct (OR Hg) as [-> Hrange]. exact Hrange. }
  rewrite Hrun4.
  exists ss4, bU, bD, bL, bR. split; [reflexivity|]. split; [exact C4|].
  intros dir b [[-> ->] | [[-> ->] | [[-> ->] | [-> ->]]]];
    unfold dir_open, neighbour; cbn [fst snd Z.eqb DIR_U DIR_R DIR_D DIR_L Pos.eqb].
  - rewrite HbU. split; intros [Hg Hs]; split; auto.
    + destruct (OU Hg) as [E _]. now rewrite <- E.
    + destruct (OU Hg) as [E _]. now rewrite E.
  - rewrite HbR. split; intros [Hg Hs]; split; auto.
    + destruct (OR Hg) as [E _]. now rewrite <- E.
    + destruct (OR Hg) as [E _]. now rewrite E.
  - rewrite HbD. split; intros [Hg Hs]; split; auto.
    + destruct (OD Hg) as [E _]. now rewrite <- E.
    + destruct (OD Hg) as [E _]. now rewrite E.
  - rewrite HbL. split; intros [Hg Hs]; split; auto.
    + destruct (OL Hg) as [E _]. now rewrite <- E.
    + destruct (OL Hg) as [E _]. now rewrite E.
Qed.

(** The population count and the wall choice, for each of the sixteen
    masks. *)
Lemma adj_pop_mask (bU bD bL bR : bool) :
  rd adj_pop (adj_mask bU bD bL bR) =
  Ret (Z.b2z bU + Z.b2z bD + Z.b2z bL + Z.b2z bR).
Proof. destruct bU, bD, bL, bR; vm_compute; reflexivity. Qed.

Lemma wall_loop_mask (bU bD bL bR : bool) (skip : rowcol_t) :
  0 <= skip < Z.b2z bU + Z.b2z bD + Z.b2z bL + Z.b2z bR ->
  exists wall b,
    wall_loop 4 0 skip (adj_mask bU bD bL bR) = wall /\ 0 <= wall < 4 /\ b = true /\
    ((wall = DIR_U /\ b = bU) \/ (wall = DIR_R /\ b = bR) \/
     (wall = DIR_D /\ b = bD) \/ (wall = DIR_L /\ b = bL)).
Proof.
  intros Hskip.
  assert (Hs : skip = 0 \/ skip = 1 \/ skip = 2 \/ skip = 3)
    by (destruct bU, bD, bL, bR; cbn [Z.b2z] in Hskip; lia).
  destruct bU, bD, bL, bR; cbn [Z.b2z] in Hskip;
    destruct Hs as [-> | [-> | [-> | ->]]]; try lia;
    eexists; exists true;
    (split; [vm_compute; reflexivity|]);
    (split; [lia|]); (split; [reflexivity|]);
    unfold DIR_U, DIR_R, DIR_D, DIR_L;
    first [ left; split; reflexivity
          | right; left; split; reflexivity
          | right; right; left; split; reflexivity
          | right; right; right; split; reflexivity ].
Qed.

(** * The invariant is kept by a scan *)

Lemma passage_same_grid (mp mp' : maze_t) (x y : cell) :
  same_grid mp mp' -> passage mp x y -> passage mp' x y.
Proof.
  intros (E1 & E2 & E3) H.
  assert (Hc : forall z, cell_at mp' z = cell_at mp z)
    by (intros z; unfold cell_at; now rewrite E2, E3).
  destruct H; constructor; rewrite ?E1, ?E2, ?Hc; auto.
Qed.

Lemma same_grid_sym (mp mp' : maze_t) : same_grid mp mp' -> same_grid mp' mp.
Proof. intros (E1 & E2 & E3). repeat split; auto. Qed.

Lemma same_grid_with_sets (mp : maze_t) (ss : list rowcol_t) :
  same_grid mp (with_sets mp ss).
Proof. repeat split. Qed.

Lemma connected_same_grid (mp mp' : maze_t) (x y : cell) :
  same_grid mp mp' -> connected mp x y -> connected mp' x y.
Proof.
  intros Hg. apply connected_mono. intros u v. now apply passage_same_grid.
Qed.

Lemma connected_but_same_grid (mp mp' : maze_t) (u v x y : cell) :
  same_grid mp mp' -> connected_but mp u v x y -> connected_but mp' u v x y.
Proof.
  intros Hg. induction 1 as [x | x x' y Hp H1 H2 Hc IH]; [constructor|].
  eapply connb_step; eauto. eapply passage_same_grid; eauto.
Qed.

Lemma absent_walls_same_grid (mp mp' : maze_t) :
  same_grid mp mp' -> absent_walls mp' = absent_walls mp.
Proof. intros (E1 & E2 & E3). unfold absent_walls. now rewrite E1, E2, E3. Qed.

Lemma grid_ok_same_grid (mp mp' : maze_t) :
  same_grid mp mp' -> grid_ok mp -> grid_ok mp'.
Proof. intros (E1 & E2 & E3). unfold grid_ok. now rewrite E1, E2, E3. Qed.

(** The invariant reads the path sets through their classes only. *)
Lemma gen_inv_compress (mp : maze_t) (ss' : list rowcol_t)
  (digs : list (cell * cell)) (settled : list cell) :
  gen_inv mp digs settled -> compressed (sets mp) ss' ->
  gen_inv (with_sets mp ss') digs settled.
Proof.
  intros I C. destruct I. pose proof C as [Hlen _].
  pose proof (same_grid_with_sets mp ss') as Hg.
  assert (Hs : forall i j, same_set ss' i j <-> same_set (sets mp) i j)
    by (intros; now apply compressed_same_set).
  constructor; cbn [n_rows n_cols sets with_sets]; auto.
  - congruence.
  - eapply compressed_forest; eauto.
  - intros x y Hin. rewrite Hs. auto.
  - intros x y Hin Hx Hy Hn. rewrite Hs. eauto.
  - intros x y Hp. rewrite Hs. apply gi_pass_same0.
    eapply passage_same_grid; [|exact Hp]. now apply same_grid_sym.
  - intros x y Hx Hy Hsm. eapply connected_same_grid; [exact Hg|].
    apply gi_same_conn0; auto. now apply Hs.
  - intros x y Hp Hcb. apply (gi_bridge0 x y).
    + eapply passage_same_grid; [|exact Hp]. now apply same_grid_sym.
    + eapply connected_but_same_grid; [|exact Hcb]. now apply same_grid_sym.
  - rewrite (compressed_count_roots _ _ C); auto.
Qed.

Lemma gen_inv_settle (mp : maze_t) (digs : list (cell * cell)) (settled : list cell)
  (x : cell) :
  gen_inv mp digs settled ->
  (forall y, in_grid (n_rows mp) (n_cols mp) y -> nb x y ->
             same_set (sets mp) (off (n_cols mp) x) (off (n_cols mp) y)) ->
  gen_inv mp digs (x :: settled).
Proof.
  intros I Hall. destruct I. constructor; auto.
  intros z y [<- | Hin] Hz Hy Hn; eauto.
Qed.

Lemma connected_same_set (mp : maze_t) (digs : list (cell * cell)) (settled : list cell)
  (a b : cell) :
  gen_inv mp digs settled -> in_grid (n_rows mp) (n_cols mp) a ->
  connected mp a b ->
  same_set (sets mp) (off (n_cols mp) a) (off (n_cols mp) b).
Proof.
  intros I Ha H. induction H as [x | x y z Hp Hc IH].
  - apply same_set_refl; [apply I|].
    pose proof (off_range _ _ _ Ha). rewrite (gi_sets_len _ _ _ I). lia.
  - eapply same_set_trans; [eapply gi_pass_same; eauto|].
    apply IH. apply passage_in_grid in Hp. tauto.
Qed.

(** Kicking down the wall between [x] and a neighbour [y] of another set,
    and linking the root of [y] under the root of [x]. *)
Lemma gen_inv_dig (mp : maze_t) (digs : list (cell * cell)) (settled : list cell)
  (x y : cell) (cs' : list maze_node) (ss2 : list rowcol_t) (rx ry : rowcol_t)
  (dx dy : nat) :
  gen_inv mp digs settled ->
  in_grid (n_rows mp) (n_cols mp) x -> in_grid (n_rows mp) (n_cols mp) y -> nb x y ->
  ~ same_set (sets mp) (off (n_cols mp) y) (off (n_cols mp) x) ->
  length cs' = length (cells mp) ->
  (forall s t, passage (with_cells mp cs') s t <->
               passage mp s t \/ (s = x /\ t = y) \/ (s = y /\ t = x)) ->
  absent_walls (with_cells mp cs') = absent_walls mp + 1 ->
  compressed (sets mp) ss2 ->
  root_of (sets mp) (off (n_cols mp) x) rx dx ->
  root_of (sets mp) (off (n_cols mp) y) ry dy ->
  gen_inv (with_sets (with_cells mp cs') (upd ss2 (Z.to_nat ry) rx))
          ((x, y) :: digs) settled.
Proof.
  intros I Hx Hy Hn Hdiff Hlen Hpass Hwalls C Hrx Hry.
  set (mp1 := with_cells mp cs').
  set (ss3 := upd ss2 (Z.to_nat ry) rx).
  set (mp' := with_sets mp1 ss3).
  pose proof (gi_forest _ _ _ I) as Hf.
  assert (Hf2 : forest ss2) by (eapply compressed_forest; eauto).
  destruct (compressed_root _ _ C _ _ _ Hrx) as [dx' [Hrx' _]].
  destruct (compressed_root _ _ C _ _ _ Hry) as [dy' [Hry' _]].
  assert (Hs2 : forall i j, same_set ss2 i j <-> same_set (sets mp) i j)
    by (intros; now apply compressed_same_set).
  destruct (link_same_set ss2 _ _ rx ry dx' dy' Hf2 Hrx' Hry') as (Lyx & Lmono & Lsplit).
  fold ss3 in Lyx, Lmono, Lsplit.
  assert (Hmono : forall i j, same_set (sets mp) i j -> same_set ss3 i j)
    by (intros i j H; apply Lmono, Hs2, H).
  assert (Hne : rx <> ry).
  { intros ->. apply Hdiff. exists ry, dy, dx. auto. }
  assert (Hg : same_grid mp1 mp') by apply same_grid_with_sets.
  assert (Hp' : forall s t, passage mp' s t <->
                  passage mp s t \/ (s = x /\ t = y) \/ (s = y /\ t = x)).
  { intros s t. rewrite <- Hpass.
    split; apply passage_same_grid; auto; try (now apply same_grid_sym). }
  assert (Hpm : forall s t, passage mp s t -> passage mp' s t)
    by (intros s t H; apply Hp'; auto).
  assert (Hxy : passage mp' x y) by (apply Hp'; auto).
  assert (Hyx : passage mp' y x) by (apply Hp'; auto).
  assert (Hnxy : ~ same_set (sets mp) (off (n_cols mp) x) (off (n_cols mp) y))
    by (intros H; apply Hdiff; now apply same_set_sym).
  constructor; unfold mp', mp1; cbn [n_rows n_cols sets cells with_sets with_cells];
    fold mp1; fold mp'.
  - destruct (gi_grid _ _ _ I) as (A & B & D & E). unfold grid_ok, mp', mp1.
    cbn [n_rows n_cols cells with_sets with_cells]. rewrite Hlen. repeat split; auto.
  - unfold ss3. rewrite length_upd. destruct C as [-> _]. apply I.
  - unfold ss3. apply link_forest; auto; eapply root_of_root; eauto.
  - intros u v [E | Hin].
    + inversion E; subst u v.
      split; [exact Hx|]. split; [exact Hy|]. split; [exact Hn|]. now apply same_set_sym.
    + destruct (gi_digs _ _ _ I _ _ Hin) as (A & B & D & E). auto.
  - constructor; [| | apply I].
    + intros Hin. apply Hnxy. now destruct (gi_digs _ _ _ I _ _ Hin) as (_ & _ & _ & E).
    + intros Hin. apply Hdiff. now destruct (gi_digs _ _ _ I _ _ Hin) as (_ & _ & _ & E).
  - intros u v Hin Hu Hv Hnb. apply Hmono. eapply gi_settled; eauto.
  - intros u v Hp. apply Hp' in Hp. destruct Hp as [Hp | [[-> ->] | [-> ->]]].
    + apply Hmono. eapply gi_pass_same; eauto.
    + now apply same_set_sym.
    + exact Lyx.
  - intros u v Hu Hv Hs. apply Lsplit in Hs.
    destruct Hs as [Hs | [[Hs1 Hs2'] | [Hs1 Hs2']]].
    + apply (connected_mono mp); auto. apply (gi_same_conn _ _ _ I); auto. now apply Hs2.
    + apply connected_trans with y.
      * apply (connected_mono mp); auto. apply (gi_same_conn _ _ _ I); auto. now apply Hs2.
      * eapply conn_step; [exact Hyx|].
        apply connected_sym. apply (connected_mono mp); auto.
        apply (gi_same_conn _ _ _ I); auto. now apply Hs2.
    + apply connected_trans with x.
      * apply (connected_mono mp); auto. apply (gi_same_conn _ _ _ I); auto. now apply Hs2.
      * eapply conn_step; [exact Hxy|].
        apply connected_sym. apply (connected_mono mp); auto.
        apply (gi_same_conn _ _ _ I); auto. now apply Hs2.
  - intros u v Hp Hcb.
    assert (Hnew : forall s t, passage mp' s t ->
                     passage mp s t \/ (s = x /\ t = y) \/ (s = y /\ t = x))
      by (intros s t H; now apply Hp').
    assert (Hnew' : forall s t, passage mp' s t ->
                     passage mp s t \/ (s = y /\ t = x) \/ (s = x /\ t = y))
      by (intros s t H; apply Hp' in H; tauto).
    apply Hp' in Hp. destruct Hp as [Hp | [[-> ->] | [-> ->]]].
    + pose proof (passage_in_grid _ _ _ Hp) as (Hu & Hv & _).
      destruct (connected_but_new_edge mp mp' x y u v Hnew _ _ Hcb)
        as [H | [[H1 | H1] [H2 | H2]]].
      * exact (gi_bridge _ _ _ I _ _ Hp H).
      * apply (gi_bridge _ _ _ I _ _ Hp). eapply connected_but_trans; eauto.
      * apply Hnxy.
        apply (connected_same_set mp digs settled); auto.
        apply connected_trans with u; [apply connected_sym; eapply connected_but_forget; eauto|].
        eapply conn_step; [exact Hp|].
        apply connected_sym. eapply connected_but_forget; eauto.
      * apply Hdiff.
        apply (connected_same_set mp digs settled); auto.
        apply connected_trans with u; [apply connected_sym; eapply connected_but_forget; eauto|].
        eapply conn_step; [exact Hp|].
        apply connected_sym. eapply connected_but_forget; eauto.
      * apply (gi_bridge _ _ _ I _ _ Hp). eapply connected_but_trans; eauto.
    + apply Hnxy. apply (connected_same_set mp digs settled); auto.
      eapply connected_but_old; [exact Hnew | exact Hcb].
    + apply Hdiff. apply (connected_same_set mp digs settled); auto.
      eapply connected_but_old; [exact Hnew' | exact Hcb].
  - unfold ss3. rewrite link_count_roots; auto; [|eapply root_of_root; eauto].
    rewrite (compressed_count_roots _ _ C Hf).
    pose proof (gi_roots _ _ _ I). cbn [length]. lia.
  - change (absent_walls mp' = Z.of_nat (length ((x, y) :: digs))).
    rewrite (absent_walls_same_grid mp1 mp' Hg). unfold mp1. rewrite Hwalls.
    pose proof (gi_walls _ _ _ I). cbn [length]. lia.
Qed.

(** * One scan of a cell *)

Lemma nb_neighbour (nr nc : Z) (x y : cell) :
  in_grid nr nc x -> in_grid nr nc y -> nb x y ->
  exists dir, 0 <= dir < 4 /\ y = neighbour dir x /\ dir_open nr nc dir x = true.
Proof.
  destruct x as [r c], y as [r' c']. unfold in_grid, nb, neighbour, dir_open.
  cbn [fst snd]. intros [Hr Hc] [Hr' Hc'] [[-> [-> | ->]] | [-> [-> | ->]]].
  - exists DIR_R. split; [unfold DIR_R; lia|]. split; [reflexivity|].
    cbn. apply Z.ltb_lt. lia.
  - exists DIR_L. split; [unfold DIR_L; lia|]. split; [reflexivity|].
    cbn. apply Z.ltb_lt. lia.
  - exists DIR_D. split; [unfold DIR_D; lia|]. split; [reflexivity|].
    cbn. apply Z.ltb_lt. lia.
  - exists DIR_U. split; [unfold DIR_U; lia|]. split; [reflexivity|].
    cbn. apply Z.ltb_lt. lia.
Qed.

Lemma dir_cases (dir : Z) :
  0 <= dir < 4 -> dir = DIR_U \/ dir = DIR_R \/ dir = DIR_D \/ dir = DIR_L.
Proof. unfold DIR_U, DIR_R, DIR_D, DIR_L. lia. Qed.

(** A scan either finds the cell settled, and counts it, or kicks down
    the wall to a neighbour of another set and joins the two sets; either
    way the invariant is kept. *)
Lemma scan_cell_step (fuel : nat) (random : rand_f) (pos : rowcol_t) (st : gen_state)
  (digs : list (cell * cell)) (settled : list cell) (r c : Z) :
  gen_inv (g_mp st) digs settled -> unit_source random ->
  (length (sets (g_mp st)) <= fuel)%nat ->
  in_grid (n_rows (g_mp st)) (n_cols (g_mp st)) (r, c) ->
  rd (g_queue st) pos = Ret (off (n_cols (g_mp st)) (r, c)) ->
  exists st',
    scan_cell fuel random pos st = Ret st' /\
    g_queue st' = g_queue st /\
    n_rows (g_mp st') = n_rows (g_mp st) /\ n_cols (g_mp st') = n_cols (g_mp st) /\
    length (sets (g_mp st')) = length (sets (g_mp st)) /\
    ((gen_inv (g_mp st') digs ((r, c) :: settled) /\
      g_count st' = wrap (g_count st + 1)) \/
     (exists y, gen_inv (g_mp st') (((r, c), y) :: digs) settled /\
                g_count st' = g_count st)).
Proof.
  intros I Hsrc Hfuel Hx Hrd.
  set (mp := g_mp st) in *.
  pose proof (gi_grid _ _ _ I) as Hok. pose proof Hok as (Hr & Hc & Hn & Hl).
  pose proof Hx as [Hxr Hxc]. cbn [fst snd] in Hxr, Hxc.
  unfold scan_cell. rewrite Hrd. cbn [bind]. fold mp.
  destruct (s_adj_spec fuel mp r c Hok (gi_forest _ _ _ I) (gi_sets_len _ _ _ I) Hfuel Hx)
    as (ss1 & bU & bD & bL & bR & Hrun & C1 & Hbits).
  rewrite Hrun. cbn [bind]. rewrite adj_pop_mask. cbn [bind].
  pose proof (gen_inv_compress _ _ _ _ I C1) as I1.
  assert (Hs1 : forall i j, same_set ss1 i j <-> same_set (sets mp) i j)
    by (intros; apply compressed_same_set; auto; apply I).
  pose proof C1 as [Hlen1 _].
  set (pop := Z.b2z bU + Z.b2z bD + Z.b2z bL + Z.b2z bR).
  destruct (Z.eqb_spec pop 0) as [Hz | Hnz].
  - (* settled *)
    eexists. split; [reflexivity|]. cbn [g_queue g_mp g_count n_rows n_cols sets with_sets].
    repeat (split; [auto; fail|]). left. split; [|reflexivity].
    apply gen_inv_settle; auto. cbn [n_rows n_cols sets with_sets].
    intros y Hy Hnb. apply Hs1.
    destruct (nb_neighbour _ _ _ _ Hx Hy Hnb) as (dir & Hdir & -> & Hopen).
    apply same_set_sym.
    destruct (same_set_dec (sets mp) (off (n_cols mp) (neighbour dir (r, c)))
                (off (n_cols mp) (r, c))) as [Hs | Hns]; auto.
    + apply I.
    + pose proof (off_range _ _ _ Hy). rewrite (gi_sets_len _ _ _ I). lia.
    + pose proof (off_range _ _ _ Hx). rewrite (gi_sets_len _ _ _ I). lia.
    + exfalso.
      assert (Hall : bU = false /\ bD = false /\ bL = false /\ bR = false)
        by (unfold pop in Hz; destruct bU, bD, bL, bR; cbn [Z.b2z] in Hz; auto; lia).
      destruct Hall as (-> & -> & -> & ->).
      assert (Hb : false = true); [|discriminate].
      apply (Hbits dir false); [|split; auto].
      destruct (dir_cases dir Hdir) as [-> | [-> | [-> | ->]]]; auto.
  - (* a wall to kick down *)
    assert (Hpop : 1 <= pop <= 4)
      by (unfold pop; destruct bU, bD, bL, bR; cbn [Z.b2z] in *; lia).
    assert (Hskip : exists skip k,
               (if 1 <? pop
                then (to_rowcol (random (g_calls st) * inject_Z pop), S (g_calls st))
                else (0, g_calls st)) = (skip, k) /\ 0 <= skip < pop).
    { destruct (1 <? pop) eqn:E.
      - destruct (Hsrc (g_calls st)) as [H0 H1].
        destruct (to_rowcol_unit (random (g_calls st)) pop H0 H1) as [_ Hrange];
          [rewrite wB_val; lia|].
        eexists; eexists; split; [reflexivity|]. exact Hrange.
      - apply Z.ltb_ge in E. exists 0, (g_calls st). split; auto. lia. }
    destruct Hskip as (skip & k & Eskip & Hskip). rewrite Eskip.
    destruct (wall_loop_mask bU bD bL bR skip Hskip) as (wall & b & Hwall & Hw & Hb & Hdirb).
    rewrite Hwall. cbn [n_cols with_sets].
    replace (n_cols mp =? 0) with false by (symmetry; apply Z.eqb_neq; lia).
    cbn [negb assert bind].
    destruct (off_div_mod (n_cols mp) r c Hxc) as [Hdiv Hmod].
    assert (Ediv : off (n_cols mp) (r, c) / n_cols mp = r) by exact Hdiv.
    assert (Emod : off (n_cols mp) (r, c) mod n_cols mp = c) by exact Hmod.
    rewrite Ediv, Emod.
    assert (Hbit : dir_open (n_rows mp) (n_cols mp) wall (r, c) = true /\
                   ~ same_set (sets mp) (off (n_cols mp) (neighbour wall (r, c)))
                       (off (n_cols mp) (r, c))).
    { apply (Hbits wall b); auto; tauto. }
    destruct Hbit as [Hopen Hdiff].
    set (y := neighbour wall (r, c)) in *.
    assert (Hok1 : grid_ok (with_sets mp ss1)) by apply I1.
    destruct (kick_down_spec (with_sets mp ss1) r c wall Hok1 Hx Hw Hopen)
      as (cs' & Hkick & Hlen' & Hy & Hnb & Hpass & Hwalls).
    { intros Hp. apply Hdiff. apply Hs1.
      apply same_set_sym. apply (gi_pass_same _ _ _ I1 _ _ Hp). }
    rewrite Hkick. cbn [bind]. fold y. fold y in Hy, Hnb, Hpass.
    cbn [n_rows n_cols cells with_sets] in Hy, Hlen'.
    assert (Hok2 : grid_ok (with_cells (with_sets mp ss1) cs')).
    { unfold grid_ok. cbn [n_rows n_cols cells with_cells with_sets]. rewrite Hlen'. auto. }
    rewrite (OFFSET_off (with_cells (with_sets mp ss1) cs') y Hok2 Hy).
    cbn [n_cols with_cells with_sets].
    assert (Hf1 : forest ss1) by apply I1.
    pose proof (off_range _ _ _ Hx) as Hxrange.
    pose proof (off_range _ _ _ Hy) as Hyrange.
    pose proof (gi_sets_len _ _ _ I) as Hslen.
    destruct (Hf1 (off (n_cols mp) (r, c))) as (rx & dx & Hrx); [lia|].
    destruct (Hf1 (off (n_cols mp) y)) as (ry & dy & Hry); [lia|].
    destruct (s_union_total fuel (with_cells (with_sets mp ss1) cs')
                (off (n_cols mp) y) (off (n_cols mp) (r, c))
                ry rx dy dx Hf1) as (ss2 & C2 & Hun); auto.
    { cbn [sets with_cells with_sets]. lia. }
    rewrite Hun. cbn [bind].
    eexists. split; [reflexivity|].
    cbn [g_queue g_mp g_count n_rows n_cols sets with_sets with_cells].
    split; [reflexivity|]. split; [reflexivity|]. split; [reflexivity|].
    split.
    { rewrite length_upd. destruct C2 as [-> _]. exact Hlen1. }
    right. exists y. split; [|reflexivity].
    apply (gen_inv_dig (with_sets mp ss1) digs settled (r, c) y cs' ss2 rx ry dx dy); auto.
    intros Hs. apply Hdiff. now apply Hs1.
Qed.

(** * One round: a reshuffle and a scan of the whole queue *)

Lemma cell_eqb_eq (x y : cell) : cell_eqb x y = true <-> x = y.
Proof.
  destruct x as [a b], y as [a' b']. unfold cell_eqb. cbn [fst snd].
  rewrite andb_true_iff, !Z.eqb_eq. split; [intros [-> ->]; auto | intros E; inversion E; auto].
Qed.

Lemma digs_by_cons (x a b : cell) (l : list (cell * cell)) :
  digs_by x ((a, b) :: l) =
  if cell_eqb a x then S (digs_by x l) else digs_by x l.
Proof. unfold digs_by. cbn [filter fst]. now destruct (cell_eqb a x). Qed.

Lemma digs_by_one (x : cell) (l : list (cell * cell)) :
  (1 <= digs_by x l)%nat -> exists y, In (x, y) l.
Proof.
  induction l as [|[a b] l IH]; intros H; [cbn in H; lia|].
  rewrite digs_by_cons in H. destruct (cell_eqb a x) eqn:E.
  - apply cell_eqb_eq in E. subst a. exists b. now left.
  - destruct (IH H) as [y Hy]. exists y. now right.
Qed.

Lemma digs_by_two (x : cell) (l : list (cell * cell)) :
  fresh_edges l -> (2 <= digs_by x l)%nat ->
  exists y1 y2, y1 <> y2 /\ In (x, y1) l /\ In (x, y2) l.
Proof.
  induction 1 as [|a b l Hn1 Hn2 Hf IH]; intros H; [cbn in H; lia|].
  rewrite digs_by_cons in H. destruct (cell_eqb a x) eqn:E.
  - apply cell_eqb_eq in E. subst a.
    destruct (digs_by_one x l) as [y Hy]; [lia|].
    exists b, y. split; [|split]; [|now left|now right].
    intros ->. auto.
  - destruct (IH H) as (y1 & y2 & Hne & H1 & H2).
    exists y1, y2. split; [|split]; auto; now right.
Qed.

Lemma fresh_no_reverse (l : list (cell * cell)) (x y : cell) :
  fresh_edges l -> x <> y -> In (x, y) l -> In (y, x) l -> False.
Proof.
  induction 1 as [|a b l Hn1 Hn2 Hf IH]; intros Hne H1 H2; [destruct H1|].
  destruct H1 as [E1 | H1], H2 as [E2 | H2].
  - inversion E1; inversion E2; subst. auto.
  - inversion E1; subst. auto.
  - inversion E2; subst. auto.
  - auto.
Qed.

Lemma nb_irrefl (x y : cell) : nb x y -> x <> y.
Proof. unfold nb. intros H ->. lia. Qed.

Lemma in_singletons (n : nat) (p : Z) :
  In p (singletons n) <-> 0 <= p < Z.of_nat n.
Proof.
  unfold singletons. rewrite in_map_iff. split.
  - intros (k & <- & Hk). apply in_seq in Hk. lia.
  - intros Hp. exists (Z.to_nat p). split; [lia|]. apply in_seq. lia.
Qed.

Lemma round_prog_settle (nr nc : Z) (k : nat) (digs : list (cell * cell))
  (settled : list cell) (x : cell) :
  round_prog nr nc k digs settled -> round_prog nr nc k digs (x :: settled).
Proof. intros H z Hz. destruct (H z Hz); [left; now right | now right]. Qed.

Lemma round_prog_dig (nr nc : Z) (k : nat) (digs : list (cell * cell))
  (settled : list cell) (e : cell * cell) :
  round_prog nr nc k digs settled -> round_prog nr nc k (e :: digs) settled.
Proof.
  intros H z Hz. destruct (H z Hz); [now left | right].
  destruct e as [a b]. rewrite digs_by_cons. destruct (cell_eqb a z); lia.
Qed.

(** The scan loop of one round, over a queue that lists every cell. *)
Lemma scan_loop_spec (fuel : nat) (random : rand_f) (st : gen_state)
  (digs : list (cell * cell)) (settled : list cell) (k : nat) :
  let nr := n_rows (g_mp st) in
  let nc := n_cols (g_mp st) in
  gen_inv (g_mp st) digs settled -> unit_source random ->
  (length (sets (g_mp st)) <= fuel)%nat ->
  Permutation (g_queue st) (singletons (Z.to_nat (nr * nc))) ->
  round_prog nr nc k digs settled ->
  0 <= g_count st < wB ->
  exists st' digs' settled',
    for_up (Z.to_nat (nr * nc)) 0 (scan_cell fuel random) st = Ret st' /\
    gen_inv (g_mp st') digs' settled' /\
    g_queue st' = g_queue st /\
    n_rows (g_mp st') = nr /\ n_cols (g_mp st') = nc /\
    length (sets (g_mp st')) = length (sets (g_mp st)) /\
    round_prog nr nc (S k) digs' settled' /\
    (length digs <= length digs')%nat /\
    g_count st' = wrap (g_count st + nr * nc
                        - (Z.of_nat (length digs') - Z.of_nat (length digs))).
Proof.
  intros nr nc I Hsrc Hfuel Hperm Hprog Hcount.
  pose proof (gi_grid _ _ _ I) as (Hr & Hc & Hn & Hl). fold nr nc in Hr, Hc, Hn, Hl.
  set (q := g_queue st) in *.
  assert (Hqlen : length q = Z.to_nat (nr * nc)).
  { rewrite (Permutation_length Hperm). apply length_singletons. }
  set (Inv := fun (i : Z) (s : gen_state) =>
    exists digs' settled',
      gen_inv (g_mp s) digs' settled' /\
      g_queue s = q /\ n_rows (g_mp s) = nr /\ n_cols (g_mp s) = nc /\
      length (sets (g_mp s)) = length (sets (g_mp st)) /\
      round_prog nr nc k digs' settled' /\
      (forall j, (Z.of_nat j < i) ->
         exists x, in_grid nr nc x /\ off nc x = nth j q 0 /\
                   (In x settled' \/ (S k <= digs_by x digs')%nat)) /\
      (length digs <= length digs')%nat /\
      g_count s = wrap (g_count st + i
                        - (Z.of_nat (length digs') - Z.of_nat (length digs)))).
  destruct (for_up_total Inv (scan_cell fuel random) (Z.to_nat (nr * nc)) 0 st)
    as [st' [Hrun HInv]].
  - intros i s Hi (digs' & settled' & I' & Hq & Er & Ec & Els & Hp & Hdone & Hle & Hcnt).
    assert (Hiq : (Z.to_nat i < length q)%nat) by lia.
    assert (Hin : In (nth (Z.to_nat i) q 0) (singletons (Z.to_nat (nr * nc)))).
    { eapply Permutation_in; [exact Hperm|]. now apply nth_In. }
    apply in_singletons in Hin.
    destruct (cell_of_index nr nc (nth (Z.to_nat i) q 0)) as [Hx Hoff]; [lia|lia|].
    set (cur := nth (Z.to_nat i) q 0) in *.
    destruct (scan_cell_step fuel random i s digs' settled' (cur / nc) (cur mod nc))
      as (s' & Hrun & Hq' & Er' & Ec' & Els' & Hcase); auto.
    + lia.
    + now rewrite Er, Ec.
    + rewrite Hq, Ec, Hoff. apply rd_nth. lia.
    + exists s'. split; auto.
      assert (Hdone' : forall digs2 settled2,
                (forall z, In z settled' -> In z settled2) ->
                (forall z, (digs_by z digs' <= digs_by z digs2)%nat) ->
                (In (cur / nc, cur mod nc) settled2 \/
                 (S k <= digs_by (cur / nc, cur mod nc)%Z digs2)%nat) ->
                forall j, Z.of_nat j < i + 1 ->
                  exists x, in_grid nr nc x /\ off nc x = nth j q 0 /\
                            (In x settled2 \/ (S k <= digs_by x digs2)%nat)).
      { intros digs2 settled2 Hs2 Hd2 Hnew j Hj.
        destruct (Z.eq_dec (Z.of_nat j) i) as [E | E].
        - exists (cur / nc, cur mod nc). split; auto. split; auto.
          rewrite Hoff. unfold cur. f_equal. lia.
        - destruct (Hdone j) as (x & Hxg & Hxo & Hxs); [lia|].
          exists x. split; auto. split; auto.
          destruct Hxs as [Hxs | Hxs]; [left; auto | right].
          specialize (Hd2 x). lia. }
      destruct Hcase as [[I2 Hc2] | (y & I2 & Hc2)].
      * exists digs', ((cur / nc, cur mod nc) :: settled').
        split; [exact I2|]. split; [congruence|]. split; [congruence|].
        split; [congruence|]. split; [congruence|].
        split; [now apply round_prog_settle|].
        split; [|split; [exact Hle|]].
        -- apply Hdone'; auto; [intros z Hz; now right | left; now left].
        -- rewrite Hc2, Hcnt. unfold wrap. rewrite Zplus_mod_idemp_l. f_equal. lia.
      * exists (((cur / nc, cur mod nc), y) :: digs'), settled'.
        split; [exact I2|]. split; [congruence|]. split; [congruence|].
        split; [congruence|]. split; [congruence|].
        split; [now apply round_prog_dig|].
        split; [|split; [cbn [length]; lia|]].
        -- apply Hdone'; auto.
           ++ intros z. rewrite digs_by_cons. destruct (cell_eqb _ z); lia.
           ++ destruct (Hp _ Hx) as [Hs | Hd]; [now left | right].
              rewrite digs_by_cons.
              replace (cell_eqb (cur / nc, cur mod nc) (cur / nc, cur mod nc)) with true
                by (symmetry; now apply cell_eqb_eq).
              lia.
        -- rewrite Hc2, Hcnt. f_equal. cbn [length]. lia.
  - exists digs, settled.
    split; [exact I|]. split; [reflexivity|]. split; [reflexivity|].
    split; [reflexivity|]. split; [reflexivity|]. split; [exact Hprog|].
    split; [intros j Hj; lia|]. split; [lia|].
    rewrite Z.add_0_r, Z.sub_diag, Z.sub_0_r. symmetry. now apply wrap_small.
  - destruct HInv as (digs' & settled' & I' & Hq & Er & Ec & Els & Hp & Hdone & Hle & Hcnt).
    exists st', digs', settled'.
    split; [exact Hrun|]. split; [exact I'|]. split; [exact Hq|].
    split; [exact Er|]. split; [exact Ec|]. split; [exact Els|].
    split; [|split; [exact Hle|]].
    + intros x Hx.
      pose proof (off_range nr nc x Hx) as Hox.
      assert (Hin : In (off nc x) q).
      { eapply Permutation_in; [apply Permutation_sym; exact Hperm|].
        apply in_singletons. lia. }
      destruct (In_nth q (off nc x) 0 Hin) as (j & Hj & Hnth).
      destruct (Hdone j) as (x' & Hx' & Hoff' & Hres); [lia|].
      assert (x' = x) by (apply (off_inj nr nc); auto; congruence).
      subst x'. exact Hres.
    + rewrite Hcnt. f_equal. lia.
Qed.

(** One round of the while loop: the reshuffle, then the scan. *)
Lemma gen_round_spec (fuel : nat) (random : rand_f) (st : gen_state)
  (digs : list (cell * cell)) (settled : list cell) (k : nat) :
  let nr := n_rows (g_mp st) in
  let nc := n_cols (g_mp st) in
  gen_inv (g_mp st) digs settled -> unit_source random ->
  (length (sets (g_mp st)) <= fuel)%nat ->
  Permutation (g_queue st) (singletons (Z.to_nat (nr * nc))) ->
  round_prog nr nc k digs settled ->
  0 <= g_count st < wB ->
  exists st' digs' settled',
    (' (q, kk) <- reshuffle random (Z.to_nat (wrap (nr * nc - 1)))
                    (g_queue st, g_calls st) ;;
     for_up (Z.to_nat (nr * nc)) 0 (scan_cell fuel random)
       (mk_gen (g_mp st) q (g_count st) kk)) = Ret st' /\
    gen_inv (g_mp st') digs' settled' /\
    Permutation (g_queue st') (singletons (Z.to_nat (nr * nc))) /\
    n_rows (g_mp st') = nr /\ n_cols (g_mp st') = nc /\
    length (sets (g_mp st')) = length (sets (g_mp st)) /\
    round_prog nr nc (S k) digs' settled' /\
    (length digs <= length digs')%nat /\
    g_count st' = wrap (g_count st + nr * nc
                        - (Z.of_nat (length digs') - Z.of_nat (length digs))).
Proof.
  intros nr nc I Hsrc Hfuel Hperm Hprog Hcount.
  pose proof (gi_grid _ _ _ I) as (Hr & Hc & Hn & Hl). fold nr nc in Hr, Hc, Hn, Hl.
  assert (Hqlen : length (g_queue st) = Z.to_nat (nr * nc)).
  { rewrite (Permutation_length Hperm). apply length_singletons. }
  destruct (reshuffle_spec random Hsrc (Z.to_nat (wrap (nr * nc - 1)))
              (g_queue st) (g_calls st)) as (q' & Hsh & _ & Hpq).
  - rewrite wrap_small by nia. rewrite Hqlen. nia.
  - rewrite Hqlen. nia.
  - rewrite Hsh. cbn [bind].
    destruct (scan_loop_spec fuel random (mk_gen (g_mp st) q' (g_count st)
                (g_calls st + Z.to_nat (wrap (nr * nc - 1)))) digs settled k)
      as (st' & digs' & settled' & Hrun & I' & Hq & Er & Ec & Els & Hp & Hle & Hcnt);
      cbn [g_mp g_queue g_count]; auto.
    + fold nr nc. eapply Permutation_trans; [apply Permutation_sym; exact Hpq | exact Hperm].
    + cbn [g_mp g_queue g_count] in *. fold nr nc in Hrun.
      exists st', digs', settled'.
      split; [exact Hrun|]. split; [exact I'|].
      split; [rewrite Hq; eapply Permutation_trans;
              [apply Permutation_sym; exact Hpq | exact Hperm]|].
      split; [exact Er|]. split; [exact Ec|]. split; [exact Els|].
      split; [exact Hp|]. split; [exact Hle|]. exact Hcnt.
Qed.

(** * The generator builds a spanning tree *)

Lemma in_grid_dec (nr nc : Z) (x : cell) : in_grid nr nc x \/ ~ in_grid nr nc x.
Proof. unfold in_grid. lia. Qed.

(** Once every cell has been settled, or has dug twice, all cells are in
    one path set. *)
Lemma gen_inv_one_set (mp : maze_t) (digs : list (cell * cell)) (settled : list cell)
  (k : nat) :
  gen_inv mp digs settled ->
  round_prog (n_rows mp) (n_cols mp) k digs settled ->
  (2 <= k)%nat \/ ((1 <= k)%nat /\ digs = []) ->
  forall x y, in_grid (n_rows mp) (n_cols mp) x -> in_grid (n_rows mp) (n_cols mp) y ->
              same_set (sets mp) (off (n_cols mp) x) (off (n_cols mp) y).
Proof.
  intros I Hprog Hk x y Hx Hy.
  pose proof (gi_grid _ _ _ I) as (Hr & Hc & Hn & Hl).
  set (nr := n_rows mp) in *. set (nc := n_cols mp) in *.
  assert (Hlen : forall z, in_grid nr nc z ->
                   0 <= off nc z < Z.of_nat (length (sets mp))).
  { intros z Hz. rewrite (gi_sets_len _ _ _ I). now apply off_range. }
  assert (H : same_cell nr nc (sets mp) x y).
  { apply (two_rounds_connect nr nc (same_cell nr nc (sets mp))
             (fun a b => In (a, b) digs)); auto.
    - intros a. destruct (in_grid_dec nr nc a) as [Ha | Ha]; [left | right; auto].
      split; auto. split; auto. apply same_set_refl; auto. apply (gi_forest _ _ _ I).
    - intros a b [(Ha & Hb & Hs) | (Ha & Hb)]; [left | right; auto].
      split; auto. split; auto. now apply same_set_sym.
    - intros a b c [(Ha & Hb & Hs) | (Ha & Hb)] [(Hb' & Hc' & Hs') | (Hb' & Hc')];
        try contradiction; [left | right; auto].
      split; auto. split; auto. eapply same_set_trans; eauto.
    - intros a b.
      destruct (in_grid_dec nr nc a) as [Ha | Ha], (in_grid_dec nr nc b) as [Hb | Hb].
      + destruct (same_set_dec (sets mp) (off nc a) (off nc b)) as [Hs | Hs];
          auto; try apply (gi_forest _ _ _ I).
        * left. left. auto.
        * right. intros [(_ & _ & Hs') | (Ha' & _)]; auto.
      + right. intros [(_ & Hb' & _) | (Ha' & _)]; auto.
      + right. intros [(Ha' & _ & _) | (_ & Hb')]; auto.
      + left. right. auto.
    - intros a b Hab. destruct (gi_digs _ _ _ I a b Hab) as (Ha & Hb & Hnb & Hs).
      split; auto. split; auto. left. auto.
    - intros a b Hab Hba. destruct (gi_digs _ _ _ I a b Hab) as (Ha & Hb & Hnb & Hs).
      apply (fresh_no_reverse digs a b); auto.
      + apply (gi_fresh _ _ _ I).
      + now apply nb_irrefl.
    - intros a Ha. destruct (Hprog a Ha) as [Hs | Hd].
      + left. intros b Hb Hnb. left. split; auto. split; auto.
        apply (gi_settled _ _ _ I a b); auto.
      + destruct Hk as [Hk | [Hk Hnil]].
        * right. apply digs_by_two; [apply (gi_fresh _ _ _ I) | lia].
        * subst digs. cbn in Hd. lia. }
  destruct H as [(_ & _ & Hs) | (Hx' & _)]; [exact Hs | contradiction].
Qed.

(** With all cells in one path set, the invariant gives the three parts
    of a spanning tree. *)
Lemma gen_inv_spanning (mp : maze_t) (digs : list (cell * cell)) (settled : list cell) :
  gen_inv mp digs settled ->
  (forall x y, in_grid (n_rows mp) (n_cols mp) x -> in_grid (n_rows mp) (n_cols mp) y ->
               same_set (sets mp) (off (n_cols mp) x) (off (n_cols mp) y)) ->
  spanning_tree mp /\ Z.of_nat (length digs) = n_rows mp * n_cols mp - 1.
Proof.
  intros I Hall.
  pose proof (gi_grid _ _ _ I) as (Hr & Hc & Hn & Hl).
  assert (Hone : count_roots (sets mp) = 1).
  { apply one_class_one_root.
    - apply (gi_forest _ _ _ I).
    - pose proof (gi_sets_len _ _ _ I). nia.
    - intros i j Hi Hj. rewrite (gi_sets_len _ _ _ I) in Hi, Hj.
      destruct (cell_of_index (n_rows mp) (n_cols mp) i) as [Gi Ei]; auto.
      destruct (cell_of_index (n_rows mp) (n_cols mp) j) as [Gj Ej]; auto.
      rewrite <- Ei, <- Ej. now apply Hall. }
  pose proof (gi_roots _ _ _ I) as Hroots.
  assert (Hd : Z.of_nat (length digs) = n_rows mp * n_cols mp - 1) by lia.
  split; [|exact Hd]. split; [|split].
  - rewrite (gi_walls _ _ _ I). exact Hd.
  - intros x y Hx Hy. apply (gi_same_conn _ _ _ I); auto.
  - apply (gi_bridge _ _ _ I).
Qed.

Lemma spanning_tree_same_grid (mp mp' : maze_t) :
  same_grid mp mp' -> spanning_tree mp -> spanning_tree mp'.
Proof.
  intros Hg (Hw & Hconn & Hbr). pose proof Hg as (E1 & E2 & E3).
  split; [|split].
  - rewrite (absent_walls_same_grid mp mp' Hg), E1, E2. exact Hw.
  - intros x y Hx Hy. rewrite E1, E2 in Hx, Hy.
    apply (connected_same_grid mp mp'); auto.
  - intros x y Hp Hc.
    apply (Hbr x y).
    + apply (passage_same_grid mp' mp); auto. now apply same_grid_sym.
    + apply (connected_but_same_grid mp' mp); auto. now apply same_grid_sym.
Qed.

(** ** The initial state *)

Lemma singletons_char (n : nat) (l : list rowcol_t) :
  length l = n ->
  (forall j, (j < n)%nat -> nth_error l j = Some (Z.of_nat j)) ->
  l = singletons n.
Proof.
  intros Hlen H. apply nth_error_ext. intros j.
  unfold singletons. rewrite nth_error_map, nth_error_seq.
  destruct (Nat.ltb_spec j n) as [Hj | Hj]; cbn [option_map].
  - rewrite Nat.add_0_l. now apply H.
  - apply nth_error_None. lia.
Qed.

Lemma gen_init_loop (n : nat) (queue ss : list rowcol_t) (mp : maze_t) :
  length queue = n -> length ss = n ->
  for_up n 0 gen_init (queue, with_sets mp ss) =
  Ret (singletons n, with_sets mp (singletons n)).
Proof.
  intros Hq Hs.
  set (Inv := fun (i : Z) (s : list rowcol_t * maze_t) =>
    length (fst s) = n /\ length (sets (snd s)) = n /\
    snd s = with_sets mp (sets (snd s)) /\
    forall j, Z.of_nat j < i ->
      nth_error (fst s) j = Some (Z.of_nat j) /\
      nth_error (sets (snd s)) j = Some (Z.of_nat j)).
  destruct (for_up_total Inv gen_init n 0 (queue, with_sets mp ss))
    as [[q' m'] [Hrun (Hq' & Hs' & Hm' & Hall)]].
  - intros i [q m] Hi (Lq & Ls & Em & Hprev). cbn [fst snd] in *.
    unfold gen_init.
    rewrite (wr_total q i i) by lia. cbn [bind].
    rewrite (wr_total (sets m) i i) by lia. cbn [bind].
    eexists. split; [reflexivity|].
    unfold Inv. cbn [fst snd sets with_sets].
    rewrite !length_upd.
    split; auto. split; auto. split.
    + rewrite Em. reflexivity.
    + intros j Hj. destruct (Nat.eq_dec j (Z.to_nat i)) as [E | E].
      * subst j. rewrite !nth_error_upd_same by lia.
        rewrite Z2Nat.id by lia. auto.
      * rewrite !nth_error_upd_other by lia. apply Hprev. lia.
  - unfold Inv. cbn [fst snd sets with_sets]. repeat split; auto. lia. lia.
  - cbn [fst snd] in *. rewrite Hrun. f_equal.
    assert (Eq : q' = singletons n).
    { apply singletons_char; auto. intros j Hj. apply Hall. lia. }
    assert (Es : sets m' = singletons n).
    { apply singletons_char; auto. intros j Hj. apply Hall. lia. }
    rewrite Eq, Hm', Es. reflexivity.
Qed.

Lemma root_of_singletons (n : nat) (i r : rowcol_t) (d : nat) :
  root_of (singletons n) i r d -> r = i.
Proof.
  intros H. destruct H as [i Hi | i p r d Hi Hne Hr]; auto.
  apply rd_ret in Hi as Hrange. destruct Hrange as [Hrange _].
  rewrite length_singletons in Hrange.
  rewrite rd_singletons in Hi by lia. inversion Hi. congruence.
Qed.

Lemma cell_at_repeat (mp : maze_t) (n : nat) (x : cell) :
  cell_at (with_cells mp (repeat def_node n)) x = def_node.
Proof.
  unfold cell_at. cbn [cells with_cells].
  destruct (nth_in_or_default (Z.to_nat (off (n_cols (with_cells mp (repeat def_node n))) x))
              (repeat def_node n) def_node) as [Hin | E]; auto.
  now apply repeat_spec in Hin.
Qed.

Lemma no_passage_initially (mp : maze_t) (n : nat) (ss : list rowcol_t) (x y : cell) :
  ~ passage (with_sets (with_cells mp (repeat def_node n)) ss) x y.
Proof.
  intros H.
  assert (Hc : forall z, cell_at (with_sets (with_cells mp (repeat def_node n)) ss) z
                         = def_node).
  { intros z. apply (cell_at_repeat mp n z). }
  destruct H as [r c _ _ Hw | r c _ _ Hw | r c _ _ Hw | r c _ _ Hw];
    rewrite Hc in Hw; discriminate.
Qed.

Lemma gen_inv_init (mp : maze_t) :
  grid_ok mp ->
  gen_inv (with_sets (with_cells mp (repeat def_node (length (cells mp))))
             (singletons (Z.to_nat (n_rows mp * n_cols mp)))) [] [].
Proof.
  intros Hok. pose proof Hok as (Hr & Hc & Hn & Hl).
  constructor; cbn [n_rows n_cols sets cells with_sets with_cells].
  - unfold grid_ok. cbn [n_rows n_cols sets cells with_sets with_cells].
    rewrite repeat_length. auto.
  - rewrite length_singletons. nia.
  - apply forest_singletons.
  - intros x y [].
  - constructor.
  - intros x y [].
  - intros x y Hp. now apply no_passage_initially in Hp.
  - intros x y Hx Hy (r & di & dj & Hi & Hj).
    apply root_of_singletons in Hi, Hj.
    assert (x = y) by (apply (off_inj (n_rows mp) (n_cols mp)); auto; congruence).
    subst y. constructor.
  - intros x y Hp. now apply no_passage_initially in Hp.
  - rewrite count_roots_singletons. cbn [length]. nia.
  - unfold absent_walls. cbn [n_rows n_cols sets cells with_sets with_cells length].
    apply score_from_repeat.
Qed.

(** ** The while loop ends, with all cells in one path set

    [count] is never reset between rounds.  After the first round it is
    the number of cells that did not dig; the second round adds the same
    kind of number, and their sum is at least the number of cells, except
    where it wraps around, which costs one round more. *)

Lemma gen_rounds_exit (rounds fuel : nat) (random : rand_f) (n : rowcol_t)
  (st : gen_state) :
  n <= g_count st -> gen_rounds (S rounds) fuel random n st = Ret st.
Proof.
  intros H. cbn [gen_rounds].
  replace (g_count st <? n) with false by (symmetry; apply Z.ltb_ge; lia).
  reflexivity.
Qed.

Lemma gen_rounds_step (rounds fuel : nat) (random : rand_f) (n : rowcol_t)
  (st st1 : gen_state) :
  g_count st < n ->
  (' (q, k) <- reshuffle random (Z.to_nat (wrap (n - 1))) (g_queue st, g_calls st) ;;
   for_up (Z.to_nat n) 0 (scan_cell fuel random) (mk_gen (g_mp st) q (g_count st) k))
  = Ret st1 ->
  gen_rounds (S rounds) fuel random n st = gen_rounds rounds fuel random n st1.
Proof.
  intros H Hrun. cbn [gen_rounds].
  replace (g_count st <? n) with true by (symmetry; apply Z.ltb_lt; lia).
  destruct (reshuffle random _ _) as [[q k]| |]; cbn [bind] in Hrun |- *;
    try discriminate.
  rewrite Hrun. reflexivity.
Qed.

Lemma digs_bound (mp : maze_t) (digs : list (cell * cell)) (settled : list cell) :
  gen_inv mp digs settled ->
  Z.of_nat (length digs) <= n_rows mp * n_cols mp - 1.
Proof.
  intros I. pose proof (gi_roots _ _ _ I) as Hroots.
  pose proof (gi_grid _ _ _ I) as (Hr & Hc & Hn & Hl).
  assert (1 <= count_roots (sets mp)).
  { apply count_roots_pos; [apply (gi_forest _ _ _ I)|].
    pose proof (gi_sets_len _ _ _ I). nia. }
  lia.
Qed.

Lemma gen_rounds_total (rounds fuel : nat) (random : rand_f) (st : gen_state) :
  let nr := n_rows (g_mp st) in
  let nc := n_cols (g_mp st) in
  gen_inv (g_mp st) [] [] -> unit_source random ->
  (length (sets (g_mp st)) <= fuel)%nat ->
  Permutation (g_queue st) (singletons (Z.to_nat (nr * nc))) ->
  g_count st = 0 -> (4 <= rounds)%nat ->
  exists st' digs settled,
    gen_rounds rounds fuel random (nr * nc) st = Ret st' /\
    gen_inv (g_mp st') digs settled /\
    n_rows (g_mp st') = nr /\ n_cols (g_mp st') = nc /\
    (forall x y, in_grid nr nc x -> in_grid nr nc y ->
                 same_set (sets (g_mp st')) (off nc x) (off nc y)).
Proof.
  intros nr nc I Hsrc Hfuel Hperm Hcount Hrounds.
  pose proof (gi_grid _ _ _ I) as (Hr & Hc & Hn & Hl). fold nr nc in Hr, Hc, Hn, Hl.
  destruct rounds as [|[|[|[|rounds]]]]; try lia. clear Hrounds.
  (* first round *)
  destruct (gen_round_spec fuel random st [] [] 0)
    as (st1 & digs1 & settled1 & Hrun1 & I1 & Hperm1 & Er1 & Ec1 & Els1 & Hp1 & _ & Hc1);
    auto.
  { intros x Hx. right. lia. }
  { rewrite Hcount. vm_compute. split; [discriminate | reflexivity]. }
  fold nr nc in Hrun1, Hperm1, Er1, Ec1, Hp1, Hc1.
  rewrite (gen_rounds_step _ fuel random (nr * nc) st st1) by (auto; nia).
  pose proof (digs_bound _ _ _ I1) as Hb1. rewrite Er1, Ec1 in Hb1.
  cbn [length] in Hc1. rewrite Hcount in Hc1.
  rewrite wrap_small in Hc1 by lia.
  destruct (Z.eq_dec (Z.of_nat (length digs1)) 0) as [Hd1 | Hd1].
  { (* nobody dug: the grid has one cell *)
    rewrite gen_rounds_exit by lia.
    exists st1, digs1, settled1. split; auto. split; auto. split; auto. split; auto.
    intros x y Hx Hy.
    pose proof (gen_inv_one_set (g_mp st1) digs1 settled1 1 I1) as H.
    rewrite Er1, Ec1 in H. apply H; auto.
    right. split; auto. destruct digs1; auto. cbn [length] in Hd1. lia. }
  (* second round *)
  pose proof (gen_round_spec fuel random st1 digs1 settled1 1) as H2.
  cbv zeta in H2. rewrite Er1, Ec1 in H2.
  destruct H2
    as (st2 & digs2 & settled2 & Hrun2 & I2 & Hperm2 & Er2 & Ec2 & Els2 & Hp2 & Hle2 & Hc2);
    auto; [lia | lia |].
  rewrite (gen_rounds_step _ fuel random (nr * nc) st1 st2) by (auto; lia).
  assert (Hall2 : forall x y, in_grid nr nc x -> in_grid nr nc y ->
                    same_set (sets (g_mp st2)) (off nc x) (off nc y)).
  { pose proof (gen_inv_one_set (g_mp st2) digs2 settled2 2 I2) as H.
    rewrite Er2, Ec2 in H. apply H; auto. }
  assert (Hd2 : Z.of_nat (length digs2) = nr * nc - 1).
  { pose proof (gen_inv_spanning (g_mp st2) digs2 settled2 I2) as H.
    rewrite Er2, Ec2 in H. apply H. exact Hall2. }
  replace (g_count st1 + nr * nc - (Z.of_nat (length digs2) - Z.of_nat (length digs1)))
    with (nr * nc + 1) in Hc2 by lia.
  destruct (Z.eq_dec (nr * nc + 1) wB) as [Hw | Hw].
  2: { rewrite wrap_small in Hc2 by lia.
       rewrite gen_rounds_exit by lia.
       exists st2, digs2, settled2. auto. }
  (* the counter has wrapped: third round *)
  assert (Hz : g_count st2 = 0).
  { rewrite Hc2, Hw. reflexivity. }
  pose proof (gen_round_spec fuel random st2 digs2 settled2 2) as H3.
  cbv zeta in H3. rewrite Er2, Ec2 in H3.
  destruct H3
    as (st3 & digs3 & settled3 & Hrun3 & I3 & Hperm3 & Er3 & Ec3 & Els3 & Hp3 & Hle3 & Hc3);
    auto; [lia | rewrite Hz; lia |].
  rewrite (gen_rounds_step _ fuel random (nr * nc) st2 st3) by (auto; lia).
  pose proof (digs_bound _ _ _ I3) as Hb3. rewrite Er3, Ec3 in Hb3.
  replace (g_count st2 + nr * nc - (Z.of_nat (length digs3) - Z.of_nat (length digs2)))
    with (nr * nc) in Hc3 by lia.
  rewrite wrap_small in Hc3 by lia.
  rewrite gen_rounds_exit by lia.
  exists st3, digs3, settled3. split; auto. split; auto. split; auto. split; auto.
  pose proof (gen_inv_one_set (g_mp st3) digs3 settled3 3 I3) as H.
  rewrite Er3, Ec3 in H. intros x y Hx Hy. apply H; auto.
Qed.

(** With enough fuel [maze_generate] returns success and a spanning tree. *)
Lemma maze_generate_total (fuel : nat) (hs hq : nat -> rowcol_t) (random : rand_f)
  (mp : maze_t) :
  grid_ok mp -> unit_source random ->
  (4 <= fuel)%nat -> n_rows mp * n_cols mp <= Z.of_nat fuel ->
  exists mp',
    maze_generate fuel (Some hs) (Some hq) random mp = Ret (1, mp') /\
    n_rows mp' = n_rows mp /\ n_cols mp' = n_cols mp /\
    length (cells mp') = length (cells mp) /\ sets mp' = [] /\
    spanning_tree mp'.
Proof.
  intros Hok Hsrc Hfuel Hn. pose proof Hok as (Hr & Hc & Hlt & Hl).
  unfold maze_generate. rewrite maze_reset_spec by auto. cbn [bind malloc].
  rewrite (wrap_small (n_rows mp * n_cols mp)) by nia.
  rewrite gen_init_loop by (now rewrite length_map, length_seq).
  cbn [bind].
  pose proof (gen_inv_init mp Hok) as I.
  pose proof (gen_rounds_total fuel fuel random
                (mk_gen (with_sets (with_cells mp (repeat def_node (length (cells mp))))
                           (singletons (Z.to_nat (n_rows mp * n_cols mp))))
                        (singletons (Z.to_nat (n_rows mp * n_cols mp))) 0 0)) as H.
  cbv zeta in H.
  cbn [g_mp g_queue g_count n_rows n_cols sets with_sets with_cells] in H.
  destruct H as (st' & digs & settled & Hrun & I' & Er & Ec & Hall).
  - exact I.
  - exact Hsrc.
  - rewrite length_singletons. lia.
  - apply Permutation_refl.
  - reflexivity.
  - exact Hfuel.
  - rewrite Hrun. cbn [bind].
    exists (with_sets (g_mp st') []).
    split; [reflexivity|]. cbn [n_rows n_cols cells sets with_sets].
    split; [exact Er|]. split; [exact Ec|]. split.
    + pose proof (gi_grid _ _ _ I') as (_ & _ & _ & Hl'). rewrite Er, Ec in Hl'. lia.
    + split; [reflexivity|].
      apply (spanning_tree_same_grid (g_mp st')); [apply same_grid_with_sets|].
      apply (gen_inv_spanning (g_mp st') digs settled I').
      rewrite Er, Ec. exact Hall.
Qed.

(** * More fuel does not change a result *)

Lemma s_findset_mono (f f' : nat) (mp : maze_t) (pos : rowcol_t)
  (x : maze_t * rowcol_t) :
  s_findset f mp pos = Ret x -> (f <= f')%nat -> s_findset f' mp pos = Ret x.
Proof.
  revert f' mp pos x. induction f as [|f IH]; intros f' mp pos x H Hle;
    [discriminate|].
  destruct f' as [|f']; [lia|]. cbn [s_findset] in H |- *.
  destruct (rd (sets mp) pos) as [p| |]; cbn [bind] in H |- *; try discriminate.
  destruct (negb (p =? pos)); auto.
  destruct (s_findset f mp p) as [y| |] eqn:E; cbn [bind] in H; try discriminate.
  rewrite (IH f' mp p y E) by lia. exact H.
Qed.

Lemma s_union_mono (f f' : nat) (mp mp' : maze_t) (pos1 pos2 : rowcol_t) :
  s_union f mp pos1 pos2 = Ret mp' -> (f <= f')%nat ->
  s_union f' mp pos1 pos2 = Ret mp'.
Proof.
  unfold s_union. intros H Hle.
  destruct (s_findset f mp pos1) as [[m1 s1]| |] eqn:E1; cbn [bind] in H;
    try discriminate.
  rewrite (s_findset_mono f f' mp pos1 _ E1 Hle). cbn [bind].
  destruct (s_findset f m1 pos2) as [[m2 s2]| |] eqn:E2; cbn [bind] in H;
    try discriminate.
  rewrite (s_findset_mono f f' m1 pos2 _ E2 Hle). exact H.
Qed.

Lemma adj_probe_mono (f f' : nat) (guard : bool) (off set : rowcol_t) (dir : Z)
  (st x : maze_t * rowcol_t) :
  adj_probe f guard off set dir st = Ret x -> (f <= f')%nat ->
  adj_probe f' guard off set dir st = Ret x.
Proof.
  unfold adj_probe. destruct st as [mp out]. intros H Hle.
  destruct guard; auto.
  destruct (s_findset f mp off) as [[m1 s1]| |] eqn:E1; cbn [bind] in H;
    try discriminate.
  rewrite (s_findset_mono f f' mp off _ E1 Hle). exact H.
Qed.

Lemma s_adj_mono (f f' : nat) (mp : maze_t) (pos : rowcol_t) (x : maze_t * rowcol_t) :
  s_adj f mp pos = Ret x -> (f <= f')%nat -> s_adj f' mp pos = Ret x.
Proof.
  unfold s_adj. intros H Hle.
  destruct (s_findset f mp pos) as [[m0 set]| |] eqn:E0; cbn [bind] in H;
    try discriminate.
  rewrite (s_findset_mono f f' mp pos _ E0 Hle). cbn [bind].
  destruct (assert _) as [[]| |]; cbn [bind] in H |- *; try discriminate.
  destruct (adj_probe f _ _ set DIR_U _) as [st1| |] eqn:E1; cbn [bind] in H;
    try discriminate.
  rewrite (adj_probe_mono f f' _ _ _ _ _ _ E1 Hle). cbn [bind].
  destruct (adj_probe f _ _ set DIR_D _) as [st2| |] eqn:E2; cbn [bind] in H;
    try discriminate.
  rewrite (adj_probe_mono f f' _ _ _ _ _ _ E2 Hle). cbn [bind].
  destruct (adj_probe f _ _ set DIR_L _) as [st3| |] eqn:E3; cbn [bind] in H;
    try discriminate.
  rewrite (adj_probe_mono f f' _ _ _ _ _ _ E3 Hle). cbn [bind].
  now apply (adj_probe_mono f f').
Qed.

Lemma scan_cell_mono (f f' : nat) (random : rand_f) (pos : rowcol_t)
  (st st' : gen_state) :
  scan_cell f random pos st = Ret st' -> (f <= f')%nat ->
  scan_cell f' random pos st = Ret st'.
Proof.
  unfold scan_cell. intros H Hle.
  destruct (rd (g_queue st) pos) as [cur| |]; cbn [bind] in H |- *; try discriminate.
  destruct (s_adj f (g_mp st) cur) as [[mp1 adj]| |] eqn:E1; cbn [bind] in H;
    try discriminate.
  rewrite (s_adj_mono f f' _ _ _ E1 Hle). cbn [bind].
  destruct (rd adj_pop adj) as [apop| |]; cbn [bind] in H |- *; try discriminate.
  destruct (apop =? 0); auto.
  destruct (if 1 <? apop then _ else _) as [skip k].
  destruct (assert _) as [[]| |]; cbn [bind] in H |- *; try discriminate.
  destruct (kick_down _ _ _ _) as [[[mp2 r1] c1]| |]; cbn [bind] in H |- *;
    try discriminate.
  destruct (s_union f mp2 _ cur) as [mp3| |] eqn:E3; cbn [bind] in H;
    try discriminate.
  rewrite (s_union_mono f f' _ _ _ _ E3 Hle). exact H.
Qed.

Lemma for_up_mono {S : Type} (body body' : Z -> S -> outcome S) :
  (forall i s t, body i s = Ret t -> body' i s = Ret t) ->
  forall (n : nat) (lo : Z) (s t : S),
    for_up n lo body s = Ret t -> for_up n lo body' s = Ret t.
Proof.
  intros Hb. induction n as [|n IH]; intros lo s t H; cbn [for_up] in H |- *; auto.
  destruct (body lo s) as [s1| |] eqn:E; cbn [bind] in H; try discriminate.
  rewrite (Hb _ _ _ E). cbn [bind]. now apply IH.
Qed.

Lemma gen_rounds_mono (r r' f f' : nat) (random : rand_f) (n : rowcol_t)
  (st st' : gen_state) :
  gen_rounds r f random n st = Ret st' -> (r <= r')%nat -> (f <= f')%nat ->
  gen_rounds r' f' random n st = Ret st'.
Proof.
  revert r' st. induction r as [|r IH]; intros r' st H Hr Hf; [discriminate|].
  destruct r' as [|r']; [lia|]. cbn [gen_rounds] in H |- *.
  destruct (g_count st <? n); auto.
  destruct (reshuffle random _ _) as [[q k]| |]; cbn [bind] in H |- *;
    try discriminate.
  destruct (for_up _ 0 (scan_cell f random) _) as [st1| |] eqn:E; cbn [bind] in H;
    try discriminate.
  rewrite (for_up_mono (scan_cell f random) (scan_cell f' random)
             (fun i s t Hs => scan_cell_mono f f' random i s t Hs Hf) _ _ _ _ E).
  cbn [bind]. apply IH; auto. lia.
Qed.

Lemma maze_generate_mono (f f' : nat) (heap_sets heap_queue : option (nat -> rowcol_t))
  (random : rand_f) (mp : maze_t) (x : Z * maze_t) :
  maze_generate f heap_sets heap_queue random mp = Ret x -> (f <= f')%nat ->
  maze_generate f' heap_sets heap_queue random mp = Ret x.
Proof.
  unfold maze_generate. intros H Hle.
  destruct (maze_reset mp) as [mp0| |]; cbn [bind] in H |- *; try discriminate.
  destruct (malloc heap_sets _) as [ss|]; auto.
  destruct (malloc heap_queue _) as [queue|]; auto.
  destruct (for_up _ 0 gen_init _) as [[queue1 mp1]| |]; cbn [bind] in H |- *;
    try discriminate.
  destruct (gen_rounds f f random _ _) as [st| |] eqn:E; cbn [bind] in H;
    try discriminate.
  rewrite (gen_rounds_mono f f' f f' _ _ _ _ E Hle Hle). exact H.
Qed.

(** A call that reports success had both allocations succeed. *)
Lemma maze_generate_success_heaps (f : nat) (heap_sets heap_queue : option (nat -> rowcol_t))
  (random : rand_f) (mp mp' : maze_t) :
  maze_generate f heap_sets heap_queue random mp = Ret (1, mp') ->
  (exists hs, heap_sets = Some hs) /\ (exists hq, heap_queue = Some hq).
Proof.
  unfold maze_generate. intros H.
  destruct (maze_reset mp) as [mp0| |]; cbn [bind] in H; try discriminate.
  destruct heap_sets as [hs|]; cbn [malloc] in H; [|discriminate].
  destruct heap_queue as [hq|]; cbn [malloc] in H; [|discriminate].
  split; eexists; reflexivity.
Qed.

(** * Simple paths in a spanning tree *)

Lemma cell_eq_dec (x y : cell) : {x = y} + {x <> y}.
Proof. decide equality; apply Z.eq_dec. Qed.

Lemma connected_but_sym (mp : maze_t) (u v x y : cell) :
  connected_but mp u v x y -> connected_but mp u v y x.
Proof.
  induction 1 as [x | x y z Hp H1 H2 Hc IH]; [constructor|].
  eapply connected_but_trans; [exact IH|].
  eapply connb_step; [apply passage_sym; exact Hp | | | constructor]; tauto.
Qed.

Lemma walk_end (mp : maze_t) (x y : cell) (p : list cell) :
  walk mp x p y -> p = [] /\ x = y \/ In y p.
Proof.
  induction 1 as [x | x y z p Hp Hw IH]; [left; auto | right].
  destruct IH as [[-> ->] | IH]; [now left | now right].
Qed.

(** A walk can be cut at any cell it visits. *)
Lemma walk_from (mp : maze_t) (x y z : cell) (p : list cell) :
  walk mp x p y -> In z (x :: p) -> NoDup (x :: p) ->
  exists q, walk mp z q y /\ NoDup (z :: q).
Proof.
  induction 1 as [x | x x' y p Hp Hw IH]; intros Hin Hnd.
  - destruct Hin as [<- | []]. exists []. split; [constructor | exact Hnd].
  - destruct Hin as [<- | Hin].
    + exists (x' :: p). split; [econstructor; eauto | exact Hnd].
    + apply IH; auto. now inversion Hnd.
Qed.

Lemma connected_simple_walk (mp : maze_t) (x y : cell) :
  connected mp x y -> exists p, walk mp x p y /\ NoDup (x :: p).
Proof.
  induction 1 as [x | x x' y Hp Hc (p & Hw & Hnd)].
  - exists []. split; constructor; [intros [] | constructor].
  - destruct (in_dec cell_eq_dec x (x' :: p)) as [Hin | Hin].
    + apply (walk_from mp x' y x p); auto.
    + exists (x' :: p). split; [econstructor; eauto | now constructor].
Qed.

(** A walk that stays away from [x] crosses no wall of [x]. *)
Lemma walk_avoids (mp : maze_t) (x v a b : cell) (q : list cell) :
  walk mp a q b -> ~ In x (a :: q) -> connected_but mp x v a b.
Proof.
  induction 1 as [a | a a' b q Hp Hw IH]; intros Hx; [constructor|].
  eapply connb_step; [exact Hp | | | apply IH].
  - intros [-> _]. apply Hx. now left.
  - intros [_ ->]. apply Hx. right. now left.
  - intros H. apply Hx. now right.
Qed.

(** Where no passage lies on a cycle, two simple walks with the same ends
    are one walk. *)
Lemma simple_walk_unique (mp : maze_t) :
  (forall x y, passage mp x y -> ~ connected_but mp x y x y) ->
  forall x y p p', walk mp x p y -> walk mp x p' y ->
    NoDup (x :: p) -> NoDup (x :: p') -> p' = p.
Proof.
  intros Hbr x y p p' Hw. revert p'.
  induction Hw as [x | x x1 y p Hp Hw IH]; intros p' Hw' Hnd Hnd'.
  - destruct (walk_end _ _ _ _ Hw') as [[-> _] | Hin]; auto.
    inversion Hnd'; subst. contradiction.
  - inversion Hw' as [x0 | x0 x1' y0 q' Hp' Hq']; subst.
    + (* the other walk is empty: x = y, but y is on the first walk *)
      exfalso. inversion Hnd as [|? ? Hnx Hnd1]; subst.
      destruct (walk_end _ _ _ _ Hw) as [[-> ->] | Hin]; apply Hnx.
      * now left.
      * now right.
    + destruct (cell_eq_dec x1' x1) as [-> | Hne].
      * f_equal. apply IH; auto; [now inversion Hnd | now inversion Hnd'].
      * exfalso. apply (Hbr x x1 Hp).
        inversion Hnd as [|? ? Hnx Hnd1]; subst.
        inversion Hnd' as [|? ? Hnx' Hnd1']; subst.
        apply connected_but_trans with (y := y).
        -- eapply connb_step; [exact Hp' | | | ].
           ++ intros [_ E]. contradiction.
           ++ intros [E _]. apply Hnx. left. auto.
           ++ apply (walk_avoids mp x x1 x1' y q'); auto.
        -- apply connected_but_sym. apply (walk_avoids mp x x1 x1 y p); auto.
Qed.

Lemma spanning_tree_one_simple_path (mp : maze_t) :
  spanning_tree mp -> one_simple_path mp.
Proof.
  intros (_ & Hconn & Hbr) x y Hx Hy.
  destruct (connected_simple_walk mp x y (Hconn x y Hx Hy)) as (p & Hw & Hnd).
  exists p. split; auto. split; auto.
  intros p' Hw' Hnd'. apply (simple_walk_unique mp Hbr x y); auto.
Qed.

Lemma spanning_tree_no_cycle (mp : maze_t) : spanning_tree mp -> no_cycle mp.
Proof.
  intros (_ & _ & Hbr) x y p Hp Hw Hnd.
  destruct (passage_in_grid _ _ _ Hp) as (_ & _ & Hnb).
  apply (simple_walk_unique mp Hbr y x [x] p); auto.
  - econstructor; [apply passage_sym; exact Hp | constructor].
  - constructor; [|constructor; [intros [] | constructor]].
    intros [E | []]. apply nb_irrefl in Hnb. congruence.
Qed.

(** * The generator *)

(** C1. For every well-formed grid (at least one row and one column, the
    cell count within [unsigned int]) and every random source with values
    in the interval [0, 1):
    - [maze_generate] with both allocations succeeding returns, and
      reports success;
    - every call that reports success leaves the dimensions alone and
      leaves the grid a spanning tree of the rectangular grid graph:
      exactly [rows * cols - 1] internal walls are absent, every cell
      reaches every other through wall-free adjacencies, no passage lies
      on a cycle; hence there is exactly one simple path between any two
      cells, and no cycle.

    The counter [count] of the while loop is never reset, so the loop ends
    after two rounds (one on a single cell, three when [rows * cols + 1]
    wraps to zero); two rounds are enough because a cell that has a
    neighbour in another path set digs in both of them. *)
Theorem maze_generate_spanning_tree :
  forall (random : rand_f) (mp : maze_t),
    grid_ok mp -> unit_source random ->
    (forall (fuel : nat) (hs hq : nat -> rowcol_t),
       (4 <= fuel)%nat -> n_rows mp * n_cols mp <= Z.of_nat fuel ->
       exists mp', maze_generate fuel (Some hs) (Some hq) random mp = Ret (1, mp')) /\
    (forall (fuel : nat) (heap_sets heap_queue : option (nat -> rowcol_t))
            (mp' : maze_t),
       maze_generate fuel heap_sets heap_queue random mp = Ret (1, mp') ->
       n_rows mp' = n_rows mp /\ n_cols mp' = n_cols mp /\
       spanning_tree mp' /\ one_simple_path mp' /\ no_cycle mp').
Proof.
  intros random mp Hok Hsrc. split.
  - intros fuel hs hq Hfuel Hn.
    destruct (maze_generate_total fuel hs hq random mp Hok Hsrc Hfuel Hn)
      as (mp' & Hrun & _).
    exists mp'. exact Hrun.
  - intros fuel heap_sets heap_queue mp' Hrun.
    destruct (maze_generate_success_heaps _ _ _ _ _ _ Hrun) as [[hs ->] [hq ->]].
    set (big := Nat.max fuel (Nat.max 4 (Z.to_nat (n_rows mp * n_cols mp)))).
    assert (Hbig : maze_generate big (Some hs) (Some hq) random mp = Ret (1, mp')).
    { apply (maze_generate_mono fuel); auto. unfold big. lia. }
    destruct (maze_generate_total big hs hq random mp Hok Hsrc)
      as (mp'' & Hrun' & Er & Ec & _ & _ & Htree).
    + unfold big. lia.
    + unfold big. lia.
    + rewrite Hrun' in Hbig. inversion Hbig; subst mp''.
      split; [exact Er|]. split; [exact Ec|]. split; [exact Htree|].
      split; [now apply spanning_tree_one_simple_path
             | now apply spanning_tree_no_cycle].
Qed.

Lemma maze_generate_spanning_tree_witness :
  exists mp',
    maze_generate 4 (Some (fun _ => 0)) (Some (fun _ => 0)) (fun _ => 1 # 2)%Q
      (uniform_grid 2 2 def_node) = Ret (1, mp') /\
    spanning_tree mp' /\ one_simple_path mp' /\ no_cycle mp'.
Proof.
  assert (Hok : grid_ok (uniform_grid 2 2 def_node)) 
    by (unfold grid_ok; split; [|split; [|split]]; vm_compute; congruence).
  assert (Hsrc : unit_source (fun _ => 1 # 2)%Q).
  { intros k. split; [unfold Qle | unfold Qlt]; cbn; lia. }
  destruct (maze_generate_spanning_tree (fun _ => 1 # 2)%Q (uniform_grid 2 2 def_node)
              Hok Hsrc) as [Htot Hpart].
  destruct (Htot 4%nat (fun _ => 0) (fun _ => 0)) as [mp' Hrun]; [lia | vm_compute; discriminate |].
  exists mp'. split; [exact Hrun|].
  destruct (Hpart _ _ _ _ Hrun) as (_ & _ & H1 & H2 & H3). auto.
Defined.

(** A run on the grid of 3 by 3 cells with a source that cycles through
    tenths: the call returns after four rounds of fuel, with 8 of the 12
    internal walls kicked down. *)
Example maze_generate_3x3_run :
  exists mp',
    maze_generate 4 (Some (fun _ => 0)) (Some (fun _ => 0))
      (fun k => Z.of_nat ((k * 7 + 3) mod 10) # 10)%Q
      (uniform_grid 3 3 def_node) = Ret (1, mp') /\
    absent_walls mp' = 8.
Proof.
  eexists. split; [vm_compute; reflexivity|]. vm_compute. reflexivity.
Qed.

(** * Further properties of the grid primitives and of the generator *)

(** ** s_can_move and the passages of the grid *)

Lemma cell_at_rd (mp : maze_t) (x : cell) :
  grid_ok mp -> in_grid (n_rows mp) (n_cols mp) x ->
  rd (cells mp) (off (n_cols mp) x) = Ret (cell_at mp x).
Proof.
  intros Hok Hx. pose proof Hok as (Hr & Hc & Hn & Hl).
  pose proof (off_range _ _ _ Hx) as Hrange.
  apply rd_ret. split; [lia|]. unfold cell_at.
  apply nth_error_nth'. lia.
Qed.

Lemma OFFSET_cell (mp : maze_t) (r c : Z) :
  grid_ok mp -> in_grid (n_rows mp) (n_cols mp) (r, c) ->
  OFFSET mp r c = off (n_cols mp) (r, c).
Proof. intros Hok Hx. exact (OFFSET_off mp (r, c) Hok Hx). Qed.

Lemma passage_right_iff (mp : maze_t) (r c : Z) :
  passage mp (r, c) (r, c + 1) <->
  in_grid (n_rows mp) (n_cols mp) (r, c) /\ c + 1 < n_cols mp /\
  r_wall (cell_at mp (r, c)) = false.
Proof.
  split.
  - intros H. inversion H as [r0 c0 Hg Hc Hw | r0 c0 Hg Hc Hw
                             | r0 c0 Hg Hc Hw | r0 c0 Hg Hc Hw]; subst; try lia.
    auto.
  - intros (Hg & Hc & Hw). now constructor.
Qed.

Lemma passage_left_iff (mp : maze_t) (r c : Z) :
  passage mp (r, c + 1) (r, c) <->
  in_grid (n_rows mp) (n_cols mp) (r, c) /\ c + 1 < n_cols mp /\
  r_wall (cell_at mp (r, c)) = false.
Proof.
  split.
  - intros H. apply passage_sym in H. now apply passage_right_iff.
  - intros H. apply passage_sym. now apply passage_right_iff.
Qed.

Lemma passage_down_iff (mp : maze_t) (r c : Z) :
  passage mp (r, c) (r + 1, c) <->
  in_grid (n_rows mp) (n_cols mp) (r, c) /\ r + 1 < n_rows mp /\
  b_wall (cell_at mp (r, c)) = false.
Proof.
  split.
  - intros H. inversion H as [r0 c0 Hg Hc Hw | r0 c0 Hg Hc Hw
                             | r0 c0 Hg Hc Hw | r0 c0 Hg Hc Hw]; subst; try lia.
    auto.
  - intros (Hg & Hc & Hw). now constructor.
Qed.

Lemma passage_up_iff (mp : maze_t) (r c : Z) :
  passage mp (r + 1, c) (r, c) <->
  in_grid (n_rows mp) (n_cols mp) (r, c) /\ r + 1 < n_rows mp /\
  b_wall (cell_at mp (r, c)) = false.
Proof.
  split.
  - intros H. apply passage_sym in H. now apply passage_down_iff.
  - intros H. apply passage_sym. now apply passage_down_iff.
Qed.

(** What [s_can_move] answers for a cell of the grid, in each direction. *)
Lemma s_can_move_spec (mp : maze_t) (r c : Z) (dir : Z) :
  grid_ok mp -> in_grid (n_rows mp) (n_cols mp) (r, c) -> 0 <= dir < 4 ->
  exists b : bool,
    s_can_move mp r c dir = Ret b /\
    (b = true <->
     passage mp (r, c) (neighbour dir (r, c)) \/
     (dir = DIR_R /\ c = n_cols mp - 1 /\ r_wall (cell_at mp (r, c)) = false)).
Proof.
  intros Hok Hx Hdir. pose proof Hok as (Hr & Hc & Hn & Hl).
  pose proof Hx as [Hxr Hxc]. cbn [fst snd] in Hxr, Hxc.
  assert (HwB : n_rows mp < wB /\ n_cols mp < wB) by nia.
  unfold s_can_move.
  replace ((0 <=? dir) && (dir <? 4)) with true
    by (symmetry; apply andb_true_iff; split; [apply Z.leb_le | apply Z.ltb_lt]; lia).
  cbn [assert bind].
  destruct (dir_cases dir Hdir) as [-> | [-> | [-> | ->]]];
    unfold neighbour, DIR_U, DIR_R, DIR_D, DIR_L; cbn [Z.eqb Pos.eqb fst snd].
  - (* Up *)
    destruct (Z.ltb_spec 0 r) as [Hp | Hp].
    + assert (Hup : in_grid (n_rows mp) (n_cols mp) (r - 1, c))
        by (unfold in_grid; cbn [fst snd]; lia).
      rewrite wrap_small by lia.
      rewrite (OFFSET_cell mp (r - 1) c Hok Hup), (cell_at_rd mp _ Hok Hup).
      cbn [bind]. eexists. split; [reflexivity|].
      rewrite negb_true_iff.
      pose proof (passage_up_iff mp (r - 1) c) as P.
      replace (r - 1 + 1) with r in P by lia. rewrite P.
      split; [intros H; left; split; [assumption | split; [lia | exact H]]
            | intros [H | [H _]]; [tauto | discriminate H]].
    + exists false. split; [reflexivity|]. split; [discriminate|].
      intros [H | [H _]]; [|discriminate H].
      apply passage_in_grid in H. destruct H as (_ & [H _] & _). cbn [fst] in H. lia.
  - (* Right *)
    replace (c <? n_cols mp) with true by (symmetry; apply Z.ltb_lt; lia).
    rewrite (OFFSET_cell mp r c Hok Hx), (cell_at_rd mp _ Hok Hx).
    cbn [bind]. eexists. split; [reflexivity|].
    rewrite negb_true_iff, passage_right_iff.
    split.
    + intros H. destruct (Z.eq_dec c (n_cols mp - 1)); [right; auto | left].
      split; [assumption | split; [lia | exact H]].
    + intros [H | H]; tauto.
  - (* Down *)
    rewrite (wrap_small (n_rows mp - 1)) by lia.
    destruct (Z.ltb_spec r (n_rows mp - 1)) as [Hp | Hp].
    + change r with (fst (r, c)) at 1. change c with (snd (r, c)) at 2.
      rewrite (OFFSET_off mp (r, c) Hok Hx), (cell_at_rd mp _ Hok Hx).
      cbn [bind]. eexists. split; [reflexivity|].
      rewrite negb_true_iff, passage_down_iff.
      split; [intros H; left; split; [assumption | split; [lia | exact H]]
            | intros [H | [H _]]; [tauto | discriminate H]].
    + exists false. split; [reflexivity|]. split; [discriminate|].
      intros [H | [H _]]; [|discriminate H].
      apply passage_in_grid in H. destruct H as (_ & [H _] & _). cbn [fst] in H. lia.
  - (* Left *)
    destruct (Z.ltb_spec 0 c) as [Hp | Hp].
    + assert (Hleft : in_grid (n_rows mp) (n_cols mp) (r, c - 1))
        by (unfold in_grid; cbn [fst snd]; lia).
      rewrite wrap_small by lia.
      rewrite (OFFSET_cell mp r (c - 1) Hok Hleft), (cell_at_rd mp _ Hok Hleft).
      cbn [bind]. eexists. split; [reflexivity|].
      rewrite negb_true_iff.
      pose proof (passage_left_iff mp r (c - 1)) as P.
      replace (c - 1 + 1) with c in P by lia. rewrite P.
      split; [intros H; left; split; [assumption | split; [lia | exact H]]
            | intros [H | [H _]]; [tauto | discriminate H]].
    + exists false. split; [reflexivity|]. split; [discriminate|].
      intros [H | [H _]]; [|discriminate H].
      apply passage_in_grid in H. destruct H as (_ & [_ H] & _). cbn [snd] in H. lia.
Qed.

(** ** maze_reset and maze_init *)

Lemma connected_no_passage (mp : maze_t) (x y : cell) :
  (forall u v, ~ passage mp u v) -> connected mp x y -> x = y.
Proof.
  intros Hno H. destruct H as [x | x y z Hp _]; [reflexivity|].
  now apply Hno in Hp.
Qed.

(** A loop whose body fails at index [i0], after iterations that keep an
    invariant, fails. *)
Lemma for_up_crash_at {S : Type} (Inv : Z -> S -> Prop) (body : Z -> S -> outcome S) :
  forall (n : nat) (lo : Z) (s : S) (i0 : Z),
    lo <= i0 < lo + Z.of_nat n -> Inv lo s ->
    (forall i t, lo <= i < i0 -> Inv i t -> exists t', body i t = Ret t' /\ Inv (i + 1) t') ->
    (forall t, Inv i0 t -> body i0 t = Crash) ->
    for_up n lo body s = Crash.
Proof.
  induction n as [|n IH]; intros lo s i0 Hi H0 Hstep Hcrash; [lia|].
  cbn [for_up]. destruct (Z.eq_dec lo i0) as [-> | Hne].
  - now rewrite Hcrash.
  - destruct (Hstep lo s) as [t [Hb Ht]]; auto; [lia|].
    rewrite Hb. cbn [bind]. apply (IH (lo + 1) t i0); auto; [lia|].
    intros i u Hiu. apply Hstep. lia.
Qed.

(** [maze_reset] over a block that is shorter than [rows * cols] writes
    past its end. *)
Lemma maze_reset_short_block (mp : maze_t) :
  1 <= n_rows mp < wB -> 1 <= n_cols mp < wB ->
  Z.of_nat (length (cells mp)) < n_rows mp * n_cols mp ->
  Z.of_nat (length (cells mp)) < wB ->
  maze_reset mp = Crash.
Proof.
  intros Hr Hc Hshort HlenB. unfold maze_reset.
  set (len := Z.of_nat (length (cells mp))) in *.
  set (nc := n_cols mp) in *. set (nr := n_rows mp) in *.
  assert (Hlen0 : 0 <= len) by (unfold len; lia).
  pose proof (Z.div_mod len nc ltac:(lia)) as Edm.
  pose proof (Z.mod_pos_bound len nc ltac:(lia)) as Hmod.
  assert (Hdiv0 : 0 <= len / nc) by (apply Z.div_pos; lia).
  assert (Hdiv1 : len / nc < nr) by (apply Z.div_lt_upper_bound; nia).
  set (r0 := len / nc) in *. set (c0 := len mod nc) in *.
  set (Inv := fun (_ : Z) (cs : list maze_node) => Z.of_nat (length cs) = len).
  assert (Hwr : forall r c cs, 0 <= r -> 0 <= c < nc -> r * nc + c < len -> Inv 0 cs ->
                  exists cs', wr cs (OFFSET mp r c) def_node = Ret cs' /\ Inv 0 cs').
  { intros r c cs Hr0 Hc0 Hlt Hcs. unfold Inv in *.
    unfold OFFSET. fold nc. rewrite wrap_small by nia.
    rewrite wr_total by nia. eexists. split; [reflexivity|].
    now rewrite length_upd. }
  assert (Hfail : for_up (Z.to_nat nr) 0
            (fun r cs => for_up (Z.to_nat nc) 0
                           (fun c cs0 => wr cs0 (OFFSET mp r c) def_node) cs)
            (cells mp) = Crash).
  { apply (for_up_crash_at Inv _ (Z.to_nat nr) 0 (cells mp) r0).
    - lia.
    - reflexivity.
    - intros r cs Hrr Hcs.
      destruct (for_up_total Inv (fun c cs0 => wr cs0 (OFFSET mp r c) def_node)
                  (Z.to_nat nc) 0 cs) as [cs' [Hrun Hcs']]; auto.
      + intros c t Hcc Ht. apply Hwr; auto; [lia | lia | nia].
      + exists cs'. split; auto.
    - intros cs Hcs.
      apply (for_up_crash_at Inv _ (Z.to_nat nc) 0 cs c0); auto.
      + lia.
      + intros c t Hcc Ht. apply Hwr; auto; [lia | nia].
      + intros t Ht. unfold Inv in Ht. unfold OFFSET. fold nc.
        replace (r0 * nc + c0) with len by lia.
        rewrite wrap_small by lia. unfold wr.
        replace (len <? Z.of_nat (length t)) with false
          by (symmetry; apply Z.ltb_ge; lia).
        now rewrite andb_false_r. }
  rewrite Hfail. reflexivity.
Qed.

Lemma maze_init_overflow (EXIT : rowcol_t -> Z -> rowcol_t) (junk : nat -> maze_node)
  (mp : maze_t) (nr nc : rowcol_t) :
  0 <= nr < wB -> 0 <= nc < wB -> nr * nc = 0 \/ wB <= nr * nc ->
  maze_init EXIT (Some junk) mp nr nc = Crash.
Proof.
  intros Hr Hc Hbad. unfold maze_init.
  pose proof (wrap_range (nr * nc)) as Hw.
  destruct (Z.ltb_spec 0 (wrap (nr * nc))) as [Hpos | Hz]; cbn [assert bind];
    [|reflexivity].
  cbn [malloc].
  assert (Hprod : wB <= nr * nc).
  { destruct Hbad as [E | E]; auto. rewrite E in Hpos. vm_compute in Hpos. discriminate. }
  rewrite maze_reset_short_block; cbn [n_rows n_cols cells bind];
    rewrite ?length_map, ?length_seq; auto; try nia.
Qed.

(** ** The choice of the wall to kick down *)

Lemma wall_bit (adj w : Z) :
  0 <= w -> (Z.land (Z.shiftr adj w) 1 =? 0) = negb (Z.testbit adj w).
Proof.
  intros Hw.
  assert (E : Z.land (Z.shiftr adj w) 1 = Z.b2z (Z.testbit adj w)).
  { change 1 with (Z.ones 1). rewrite Z.land_ones by lia.
    rewrite <- Z.bit0_mod, Z.shiftr_spec by lia. reflexivity. }
  rewrite E. now destruct (Z.testbit adj w).
Qed.

Lemma bits_in_range (adj lo : Z) (n : nat) : 0 <= bits_in adj lo n <= Z.of_nat n.
Proof.
  revert lo. induction n as [|n IH]; intros lo; cbn [bits_in]; [lia|].
  specialize (IH (lo + 1)). destruct (Z.testbit adj lo); cbn [Z.b2z]; lia.
Qed.

Lemma wall_loop_spec (adj : Z) :
  forall (n : nat) (wall skip : Z),
    0 <= wall -> 0 <= skip < wB ->
    (skip < bits_in adj wall n ->
     wall <= wall_loop n wall skip adj < wall + Z.of_nat n /\
     Z.testbit adj (wall_loop n wall skip adj) = true /\
     bits_in adj wall (Z.to_nat (wall_loop n wall skip adj - wall)) = skip) /\
    (bits_in adj wall n <= skip -> wall_loop n wall skip adj = wall + Z.of_nat n).
Proof.
  induction n as [|n IH]; intros wall skip Hw Hs; cbn [wall_loop bits_in].
  - split; [lia|]. intros _. lia.
  - rewrite wall_bit by lia. rewrite negb_involutive.
    destruct (Z.testbit adj wall) eqn:Hbit; cbn [Z.b2z].
    + destruct (Z.eqb_spec skip 0) as [-> | Hnz].
      * split; [|pose proof (bits_in_range adj (wall + 1) n); lia].
        intros _. rewrite Z.sub_diag. cbn [Z.to_nat bits_in]. split; [lia|]. auto.
      * assert (Hs' : 0 <= skip - 1 < wB) by lia.
        rewrite (wrap_small (skip - 1)) by lia.
        destruct (IH (wall + 1) (skip - 1) ltac:(lia) Hs') as [IH1 IH2].
        split.
        -- intros Hlt. destruct IH1 as (Hr & Ht & Hc); [lia|].
           split; [lia|]. split; [exact Ht|].
           replace (Z.to_nat (wall_loop n (wall + 1) (skip - 1) adj - wall))
             with (S (Z.to_nat (wall_loop n (wall + 1) (skip - 1) adj - (wall + 1))))
             by lia.
           cbn [bits_in]. rewrite Hbit. cbn [Z.b2z]. lia.
        -- intros Hge. rewrite IH2 by lia. lia.
    + destruct (IH (wall + 1) skip ltac:(lia) Hs) as [IH1 IH2].
      split.
      * intros Hlt. destruct IH1 as (Hr & Ht & Hc); [lia|].
        split; [lia|]. split; [exact Ht|].
        replace (Z.to_nat (wall_loop n (wall + 1) skip adj - wall))
          with (S (Z.to_nat (wall_loop n (wall + 1) skip adj - (wall + 1))))
          by lia.
        cbn [bits_in]. rewrite Hbit. cbn [Z.b2z]. lia.
      * intros Hge. rewrite IH2 by lia. lia.
Qed.

Lemma adj_pop_counts (adj : Z) :
  0 <= adj < 16 -> rd adj_pop adj = Ret (bits_in adj 0 4).
Proof.
  intros H.
  assert (E : adj = 0 \/ adj = 1 \/ adj = 2 \/ adj = 3 \/ adj = 4 \/ adj = 5 \/
              adj = 6 \/ adj = 7 \/ adj = 8 \/ adj = 9 \/ adj = 10 \/ adj = 11 \/
              adj = 12 \/ adj = 13 \/ adj = 14 \/ adj = 15) by lia.
  repeat (destruct E as [-> | E]; [vm_compute; reflexivity|]).
  subst. vm_compute. reflexivity.
Qed.

Lemma kick_down_no_wall (mp : maze_t) (r c : rowcol_t) : kick_down mp 4 r c = Crash.
Proof. reflexivity. Qed.

(** ** The adjacency mask *)

Lemma testbit_adj_mask (bU bD bL bR : bool) :
  Z.testbit (adj_mask bU bD bL bR) DIR_U = bU /\
  Z.testbit (adj_mask bU bD bL bR) DIR_R = bR /\
  Z.testbit (adj_mask bU bD bL bR) DIR_D = bD /\
  Z.testbit (adj_mask bU bD bL bR) DIR_L = bL /\
  0 <= adj_mask bU bD bL bR < 16.
Proof. destruct bU, bD, bL, bR; vm_compute; repeat split; congruence. Qed.

Lemma dir_open_in_grid (nr nc : Z) (dir : Z) (x : cell) :
  in_grid nr nc x -> 0 <= dir < 4 ->
  (dir_open nr nc dir x = true <-> in_grid nr nc (neighbour dir x)).
Proof.
  intros [Hr Hc] Hdir. destruct x as [r c]. cbn [fst snd] in *.
  destruct (dir_cases dir Hdir) as [-> | [-> | [-> | ->]]];
    unfold dir_open, neighbour, in_grid, DIR_U, DIR_R, DIR_D, DIR_L;
    cbn [Z.eqb Pos.eqb fst snd]; rewrite Z.ltb_lt; lia.
Qed.

Lemma s_adj_flags (fuel : nat) (mp : maze_t) (r c : Z) :
  grid_ok mp -> forest (sets mp) ->
  Z.of_nat (length (sets mp)) = n_rows mp * n_cols mp ->
  (length (sets mp) <= fuel)%nat ->
  in_grid (n_rows mp) (n_cols mp) (r, c) ->
  exists ss' adj,
    s_adj fuel mp (off (n_cols mp) (r, c)) = Ret (with_sets mp ss', adj) /\
    0 <= adj < 16 /\
    (forall i j, same_set ss' i j <-> same_set (sets mp) i j) /\
    (forall dir, 0 <= dir < 4 ->
       (Z.testbit adj dir = true <->
        in_grid (n_rows mp) (n_cols mp) (neighbour dir (r, c)) /\
        ~ same_set (sets mp) (off (n_cols mp) (neighbour dir (r, c)))
                   (off (n_cols mp) (r, c)))).
Proof.
  intros Hok Hf Hlen Hfuel Hx.
  destruct (s_adj_spec fuel mp r c Hok Hf Hlen Hfuel Hx)
    as (ss' & bU & bD & bL & bR & Hrun & C & Hbits).
  destruct (testbit_adj_mask bU bD bL bR) as (TU & TR & TD & TL & Hrange).
  exists ss', (adj_mask bU bD bL bR).
  split; [exact Hrun|]. split; [exact Hrange|]. split.
  - intros i j. now apply compressed_same_set.
  - intros dir Hdir. rewrite <- (dir_open_in_grid _ _ dir (r, c) Hx Hdir).
    destruct (dir_cases dir Hdir) as [-> | [-> | [-> | ->]]].
    + rewrite TU. apply (Hbits DIR_U bU). auto.
    + rewrite TR. apply (Hbits DIR_R bR). auto.
    + rewrite TD. apply (Hbits DIR_D bD). auto 6.
    + rewrite TL. apply (Hbits DIR_L bL). auto 6.
Qed.

(** ** What [maze_generate] reads *)

Lemma maze_generate_fresh (fuel : nat) (hs hq : nat -> rowcol_t) (random : rand_f)
  (mp : maze_t) :
  grid_ok mp ->
  maze_generate fuel (Some hs) (Some hq) random mp =
  (st <- gen_rounds fuel fuel random (n_rows mp * n_cols mp)
           (mk_gen (with_sets (with_cells mp (repeat def_node (length (cells mp))))
                      (singletons (Z.to_nat (n_rows mp * n_cols mp))))
                   (singletons (Z.to_nat (n_rows mp * n_cols mp))) 0 0) ;;
   Ret (1, with_sets (g_mp st) [])).
Proof.
  intros Hok. pose proof Hok as (Hr & Hc & Hlt & Hl).
  unfold maze_generate. rewrite maze_reset_spec by auto. cbn [bind malloc].
  rewrite (wrap_small (n_rows mp * n_cols mp)) by nia.
  rewrite gen_init_loop by (now rewrite length_map, length_seq).
  reflexivity.
Qed.

(** * The generator leaves the outer boundary walled *)

Lemma boundary_closed_same_grid (mp mp' : maze_t) :
  same_grid mp mp' -> boundary_closed mp -> boundary_closed mp'.
Proof.
  intros (E1 & E2 & E3) H x Hx.
  assert (Hc : cell_at mp' x = cell_at mp x) by (unfold cell_at; now rewrite E2, E3).
  rewrite E1, E2 in *. rewrite Hc. now apply H.
Qed.

Lemma boundary_closed_initially (mp : maze_t) (n : nat) (ss : list rowcol_t) :
  boundary_closed (with_sets (with_cells mp (repeat def_node n)) ss).
Proof.
  intros x _.
  assert (Hc : cell_at (with_sets (with_cells mp (repeat def_node n)) ss) x = def_node)
    by apply (cell_at_repeat mp n x).
  rewrite Hc. split; reflexivity.
Qed.

(** Clearing a wall bit of a cell that is not on the side in question. *)
Lemma boundary_closed_clear (mp : maze_t) (z : cell) (f : maze_node -> maze_node)
  (mp' : maze_t) :
  grid_ok mp -> in_grid (n_rows mp) (n_cols mp) z ->
  cell_update mp (off (n_cols mp) z) f = Ret mp' ->
  (snd z = n_cols mp - 1 -> r_wall (f (cell_at mp z)) = r_wall (cell_at mp z)) ->
  (fst z = n_rows mp - 1 -> b_wall (f (cell_at mp z)) = b_wall (cell_at mp z)) ->
  boundary_closed mp -> boundary_closed mp'.
Proof.
  intros Hok Hz Hup Hrw Hbw Hclosed.
  rewrite (cell_update_spec mp z f Hok Hz) in Hup. inversion Hup; subst mp'; clear Hup.
  intros x Hx. cbn [n_rows n_cols with_cells] in Hx |- *.
  destruct (cell_at_upd_cases mp z x (f (cell_at mp z)) Hok Hz Hx) as [[-> E] | [Hne E]];
    cbv zeta in E; rewrite E.
  - destruct (Hclosed z Hz) as [H1 H2].
    split; intros Hs; [rewrite Hrw | rewrite Hbw]; auto.
  - now apply Hclosed.
Qed.

Lemma kick_down_closed (mp mp' : maze_t) (r c wall r1 c1 : Z) :
  grid_ok mp -> in_grid (n_rows mp) (n_cols mp) (r, c) ->
  0 <= wall < 4 -> dir_open (n_rows mp) (n_cols mp) wall (r, c) = true ->
  kick_down mp wall r c = Ret (mp', r1, c1) ->
  boundary_closed mp -> boundary_closed mp'.
Proof.
  intros Hok Hx Hwall Hopen Hk Hclosed. pose proof Hok as (Hr & Hc & Hn & Hl).
  pose proof Hx as [Hxr Hxc]. cbn [fst snd] in Hxr, Hxc.
  assert (HwB : n_rows mp < wB /\ n_cols mp < wB) by nia.
  unfold kick_down in Hk.
  destruct (dir_cases wall Hwall) as [-> | [-> | [-> | ->]]];
    unfold dir_open, DIR_U, DIR_R, DIR_D, DIR_L in Hopen, Hk;
    cbn [Z.eqb Pos.eqb fst snd] in Hopen, Hk; apply Z.ltb_lt in Hopen.
  - rewrite wrap_small in Hk by lia.
    assert (Hz : in_grid (n_rows mp) (n_cols mp) (r - 1, c))
      by (unfold in_grid; cbn [fst snd]; lia).
    rewrite (OFFSET_cell mp (r - 1) c Hok Hz) in Hk.
    inv_bind Hk as m Hm. inversion Hk; subst m.
    apply (boundary_closed_clear mp (r - 1, c) _ mp' Hok Hz Hm); auto.
    cbn [fst]. lia.
  - rewrite (OFFSET_cell mp r c Hok Hx) in Hk.
    inv_bind Hk as m Hm. inversion Hk; subst m.
    apply (boundary_closed_clear mp (r, c) _ mp' Hok Hx Hm); auto.
    cbn [snd]. lia.
  - rewrite (OFFSET_cell mp r c Hok Hx) in Hk.
    inv_bind Hk as m Hm. inversion Hk; subst m.
    apply (boundary_closed_clear mp (r, c) _ mp' Hok Hx Hm); auto.
    cbn [fst]. lia.
  - rewrite wrap_small in Hk by lia.
    assert (Hz : in_grid (n_rows mp) (n_cols mp) (r, c - 1))
      by (unfold in_grid; cbn [fst snd]; lia).
    rewrite (OFFSET_cell mp r (c - 1) Hok Hz) in Hk.
    inv_bind Hk as m Hm. inversion Hk; subst m.
    apply (boundary_closed_clear mp (r, c - 1) _ mp' Hok Hz Hm); auto.
    cbn [snd]. lia.
Qed.

Lemma scan_cell_closed (fuel : nat) (random : rand_f) (pos : rowcol_t)
  (st st' : gen_state) (digs : list (cell * cell)) (settled : list cell) (r c : Z) :
  gen_inv (g_mp st) digs settled -> unit_source random ->
  (length (sets (g_mp st)) <= fuel)%nat ->
  in_grid (n_rows (g_mp st)) (n_cols (g_mp st)) (r, c) ->
  rd (g_queue st) pos = Ret (off (n_cols (g_mp st)) (r, c)) ->
  scan_cell fuel random pos st = Ret st' ->
  boundary_closed (g_mp st) -> boundary_closed (g_mp st').
Proof.
  intros I Hsrc Hfuel Hx Hrd Hrun Hclosed.
  set (mp := g_mp st) in *.
  pose proof (gi_grid _ _ _ I) as Hok. pose proof Hok as (Hr & Hc & Hn & Hl).
  pose proof Hx as [Hxr Hxc]. cbn [fst snd] in Hxr, Hxc.
  unfold scan_cell in Hrun. rewrite Hrd in Hrun. cbn [bind] in Hrun. fold mp in Hrun.
  destruct (s_adj_spec fuel mp r c Hok (gi_forest _ _ _ I) (gi_sets_len _ _ _ I) Hfuel Hx)
    as (ss1 & bU & bD & bL & bR & Hadj & C1 & Hbits).
  rewrite Hadj in Hrun. cbn [bind] in Hrun. rewrite adj_pop_mask in Hrun.
  cbn [bind] in Hrun.
  assert (Hclosed1 : boundary_closed (with_sets mp ss1))
    by (apply (boundary_closed_same_grid mp); auto; apply same_grid_with_sets).
  set (pop := Z.b2z bU + Z.b2z bD + Z.b2z bL + Z.b2z bR) in *.
  destruct (Z.eqb_spec pop 0) as [Hz | Hnz].
  - inversion Hrun; subst st'. exact Hclosed1.
  - assert (Hpop : 1 <= pop <= 4)
      by (unfold pop; destruct bU, bD, bL, bR; cbn [Z.b2z] in *; lia).
    assert (Hskip : exists skip k,
               (if 1 <? pop
                then (to_rowcol (random (g_calls st) * inject_Z pop), S (g_calls st))
                else (0, g_calls st)) = (skip, k) /\ 0 <= skip < pop).
    { destruct (1 <? pop) eqn:E.
      - destruct (Hsrc (g_calls st)) as [H0 H1].
        destruct (to_rowcol_unit (random (g_calls st)) pop H0 H1) as [_ Hrange];
          [rewrite wB_val; lia|].
        eexists; eexists; split; [reflexivity|]. exact Hrange.
      - apply Z.ltb_ge in E. exists 0, (g_calls st). split; auto. lia. }
    destruct Hskip as (skip & k & Eskip & Hskip). rewrite Eskip in Hrun.
    destruct (wall_loop_mask bU bD bL bR skip Hskip) as (wall & b & Hwall & Hw & Hb & Hdirb).
    rewrite Hwall in Hrun. cbn [n_cols with_sets] in Hrun.
    replace (n_cols mp =? 0) with false in Hrun by (symmetry; apply Z.eqb_neq; lia).
    cbn [negb assert bind] in Hrun.
    destruct (off_div_mod (n_cols mp) r c Hxc) as [Hdiv Hmod].
    assert (Ediv : off (n_cols mp) (r, c) / n_cols mp = r) by exact Hdiv.
    assert (Emod : off (n_cols mp) (r, c) mod n_cols mp = c) by exact Hmod.
    rewrite Ediv, Emod in Hrun.
    assert (Hopen : dir_open (n_rows mp) (n_cols mp) wall (r, c) = true).
    { apply (Hbits wall b); auto; tauto. }
    inv_bind Hrun as [[mp2 r1] c1] Hkick. inv_bind Hrun as mp3 Hun.
    inversion Hrun; subst st'. cbn [g_mp].
    assert (Hok1 : grid_ok (with_sets mp ss1)) by exact Hok.
    pose proof (kick_down_closed (with_sets mp ss1) mp2 r c wall r1 c1 Hok1 Hx Hw Hopen
                  Hkick Hclosed1) as Hclosed2.
    apply s_union_only_sets in Hun. rewrite Hun.
    apply (boundary_closed_same_grid mp2); auto. apply same_grid_with_sets.
Qed.

Lemma scan_loop_closed (fuel : nat) (random : rand_f) (st st' : gen_state)
  (digs : list (cell * cell)) (settled : list cell) :
  let nr := n_rows (g_mp st) in
  let nc := n_cols (g_mp st) in
  gen_inv (g_mp st) digs settled -> unit_source random ->
  (length (sets (g_mp st)) <= fuel)%nat ->
  Permutation (g_queue st) (singletons (Z.to_nat (nr * nc))) ->
  for_up (Z.to_nat (nr * nc)) 0 (scan_cell fuel random) st = Ret st' ->
  boundary_closed (g_mp st) -> boundary_closed (g_mp st').
Proof.
  intros nr nc I Hsrc Hfuel Hperm Hrun Hclosed.
  pose proof (gi_grid _ _ _ I) as (Hr & Hc & Hn & Hl). fold nr nc in Hr, Hc, Hn, Hl.
  set (q := g_queue st) in *.
  assert (Hqlen : length q = Z.to_nat (nr * nc)).
  { rewrite (Permutation_length Hperm). apply length_singletons. }
  set (Inv := fun (_ : Z) (s : gen_state) =>
    (exists digs' settled', gen_inv (g_mp s) digs' settled') /\
    g_queue s = q /\ n_rows (g_mp s) = nr /\ n_cols (g_mp s) = nc /\
    length (sets (g_mp s)) = length (sets (g_mp st)) /\
    boundary_closed (g_mp s)).
  assert (H : Inv (0 + Z.of_nat (Z.to_nat (nr * nc))) st').
  { apply (for_up_inv Inv (scan_cell fuel random) (Z.to_nat (nr * nc)) 0 st st'); auto.
    - intros i s s' Hi ((digs' & settled' & I') & Hq & Er & Ec & Els & Hcl) Hbody.
      assert (Hiq : (Z.to_nat i < length q)%nat) by lia.
      assert (Hin : In (nth (Z.to_nat i) q 0) (singletons (Z.to_nat (nr * nc)))).
      { eapply Permutation_in; [exact Hperm|]. now apply nth_In. }
      apply in_singletons in Hin.
      destruct (cell_of_index nr nc (nth (Z.to_nat i) q 0)) as [Hx Hoff]; [lia|lia|].
      set (cur := nth (Z.to_nat i) q 0) in *.
      assert (Hx' : in_grid (n_rows (g_mp s)) (n_cols (g_mp s)) (cur / nc, cur mod nc))
        by now rewrite Er, Ec.
      assert (Hrd : rd (g_queue s) i = Ret (off (n_cols (g_mp s)) (cur / nc, cur mod nc))).
      { rewrite Hq, Ec, Hoff. apply rd_nth. lia. }
      assert (Hfuel' : (length (sets (g_mp s)) <= fuel)%nat) by lia.
      destruct (scan_cell_step fuel random i s digs' settled' (cur / nc) (cur mod nc)
                  I' Hsrc Hfuel' Hx' Hrd)
        as (s'' & Hrun' & Hq' & Er' & Ec' & Els' & Hcase).
      rewrite Hbody in Hrun'. inversion Hrun'; subst s''.
      split; [|split; [congruence|split; [congruence|split; [congruence|split;
               [congruence|]]]]].
      + destruct Hcase as [[I2 _] | (y & I2 & _)]; eauto.
      + apply (scan_cell_closed fuel random i s s' digs' settled'
                 (cur / nc) (cur mod nc)); auto.
    - unfold Inv. split; [eauto|]. auto. }
  apply H.
Qed.

Lemma gen_rounds_closed (fuel : nat) (random : rand_f) :
  unit_source random ->
  forall (rounds : nat) (st st' : gen_state) (digs : list (cell * cell))
         (settled : list cell) (k : nat),
    gen_inv (g_mp st) digs settled ->
    (length (sets (g_mp st)) <= fuel)%nat ->
    Permutation (g_queue st)
      (singletons (Z.to_nat (n_rows (g_mp st) * n_cols (g_mp st)))) ->
    round_prog (n_rows (g_mp st)) (n_cols (g_mp st)) k digs settled ->
    0 <= g_count st < wB ->
    gen_rounds rounds fuel random (n_rows (g_mp st) * n_cols (g_mp st)) st = Ret st' ->
    boundary_closed (g_mp st) -> boundary_closed (g_mp st').
Proof.
  intros Hsrc. induction rounds as [|rounds IH];
    intros st st' digs settled k I Hfuel Hperm Hprog Hcount Hrun Hclosed;
    cbn [gen_rounds] in Hrun; [discriminate|].
  destruct (g_count st <? n_rows (g_mp st) * n_cols (g_mp st)).
  - destruct (gen_round_spec fuel random st digs settled k I Hsrc Hfuel Hperm Hprog Hcount)
      as (st1 & digs1 & settled1 & Hround & I1 & Hperm1 & Er1 & Ec1 & Els1 & Hp1 & _ & Hc1).
    pose proof (gi_grid _ _ _ I) as (Hr & Hc & Hn & Hl).
    destruct (reshuffle random _ _) as [[q kk]| |] eqn:Hsh; cbn [bind] in Hrun, Hround;
      try discriminate.
    rewrite Hround in Hrun. cbn [bind] in Hrun.
    assert (Hcl1 : boundary_closed (g_mp st1)).
    { destruct (reshuffle_spec random Hsrc
                  (Z.to_nat (wrap (n_rows (g_mp st) * n_cols (g_mp st) - 1)))
                  (g_queue st) (g_calls st)) as (q' & Hsh' & _ & Hpq).
      - rewrite wrap_small by nia. rewrite (Permutation_length Hperm), length_singletons.
        nia.
      - rewrite (Permutation_length Hperm), length_singletons. nia.
      - rewrite Hsh' in Hsh. inversion Hsh; subst q' kk.
        apply (scan_loop_closed fuel random (mk_gen (g_mp st) q (g_count st)
                 (g_calls st + Z.to_nat (wrap (n_rows (g_mp st) * n_cols (g_mp st) - 1))))
                 st1 digs settled); cbn [g_mp g_queue]; auto.
        eapply Permutation_trans; [apply Permutation_sym; exact Hpq | exact Hperm]. }
    rewrite <- Er1, <- Ec1 in Hrun, Hperm1, Hp1.
    apply (IH st1 st' digs1 settled1 (S k)); auto.
    + lia.
    + rewrite Hc1. apply wrap_range.
  - inversion Hrun; subst st'. exact Hclosed.
Qed.

Lemma maze_generate_closed (fuel : nat) (heap_sets heap_queue : option (nat -> rowcol_t))
  (random : rand_f) (mp mp' : maze_t) :
  grid_ok mp -> unit_source random ->
  maze_generate fuel heap_sets heap_queue random mp = Ret (1, mp') ->
  boundary_closed mp'.
Proof.
  intros Hok Hsrc Hrun. pose proof Hok as (Hr & Hc & Hlt & Hl).
  destruct (maze_generate_success_heaps _ _ _ _ _ _ Hrun) as [[hs ->] [hq ->]].
  set (big := Nat.max fuel (Z.to_nat (n_rows mp * n_cols mp))).
  assert (Hbig : maze_generate big (Some hs) (Some hq) random mp = Ret (1, mp')).
  { apply (maze_generate_mono fuel); auto. unfold big. lia. }
  rewrite maze_generate_fresh in Hbig by auto.
  inv_bind Hbig as st Hst. inversion Hbig; subst mp'.
  apply (boundary_closed_same_grid (g_mp st)); [apply same_grid_with_sets|].
  pose proof (gen_inv_init mp Hok) as I.
  pose proof (gen_rounds_closed big random Hsrc big
                (mk_gen (with_sets (with_cells mp (repeat def_node (length (cells mp))))
                           (singletons (Z.to_nat (n_rows mp * n_cols mp))))
                        (singletons (Z.to_nat (n_rows mp * n_cols mp))) 0 0)
                st [] [] 0) as H.
  cbn [g_mp g_queue g_count n_rows n_cols sets with_sets with_cells] in H.
  apply H; auto.
  - rewrite length_singletons. unfold big. lia.
  - intros x Hx. right. cbn. lia.
  - vm_compute. split; [discriminate | reflexivity].
  - apply boundary_closed_initially.
Qed.

(** * The path solver on a spanning tree *)

(** ** Directions *)

Lemma neighbour_inj (d d' : Z) (x : cell) :
  0 <= d < 4 -> 0 <= d' < 4 -> neighbour d x = neighbour d' x -> d = d'.
Proof.
  intros Hd Hd'. destruct x as [r c].
  destruct (dir_cases d Hd) as [-> | [-> | [-> | ->]]];
    destruct (dir_cases d' Hd') as [-> | [-> | [-> | ->]]];
    unfold neighbour, DIR_U, DIR_R, DIR_D, DIR_L; cbn [Z.eqb Pos.eqb fst snd];
    intros E; inversion E; try reflexivity; lia.
Qed.

Lemma back_dir_range (d : Z) : 0 <= back_dir d < 4.
Proof.
  unfold back_dir, DIR_U, DIR_R, DIR_D, DIR_L.
  destruct (d =? 0); [lia|]. destruct (d =? 1); [lia|]. destruct (d =? 2); lia.
Qed.

Lemma neighbour_back (d : Z) (x : cell) :
  0 <= d < 4 -> neighbour (back_dir d) (neighbour d x) = x.
Proof.
  intros Hd. destruct x as [r c].
  destruct (dir_cases d Hd) as [-> | [-> | [-> | ->]]];
    unfold neighbour, back_dir, DIR_U, DIR_R, DIR_D, DIR_L; cbn [Z.eqb Pos.eqb fst snd];
    f_equal; lia.
Qed.

Lemma passage_dir (mp : maze_t) (x y : cell) :
  passage mp x y -> exists d, 0 <= d < 4 /\ y = neighbour d x.
Proof.
  intros H. destruct (passage_in_grid _ _ _ H) as (Hx & Hy & Hnb).
  destruct (nb_neighbour _ _ _ _ Hx Hy Hnb) as (d & Hd & E & _). eauto.
Qed.

Lemma step_dir_neighbour (d : Z) (r c : Z) (nr nc : Z) :
  0 <= d < 4 -> nr < wB -> nc < wB -> in_grid nr nc (neighbour d (r, c)) ->
  step_dir d r c = Ret (fst (neighbour d (r, c)), snd (neighbour d (r, c))).
Proof.
  intros Hd Hnr Hnc.
  destruct (dir_cases d Hd) as [-> | [-> | [-> | ->]]];
    unfold neighbour, step_dir, in_grid, DIR_U, DIR_R, DIR_D, DIR_L;
    cbn [Z.eqb Pos.eqb fst snd]; intros [Hr Hc]; rewrite wrap_small by lia; reflexivity.
Qed.

(** ** Mazes with the same walls *)

Lemma same_walls_refl (m : maze_t) : same_walls m m.
Proof. repeat split. Qed.

Lemma same_walls_grid_ok (m0 m : maze_t) : same_walls m0 m -> grid_ok m0 -> grid_ok m.
Proof.
  intros (E1 & E2 & E3 & _) (Hr & Hc & Hn & Hl). unfold grid_ok.
  rewrite E1, E2, E3. auto.
Qed.

Lemma passage_same_walls (m0 m : maze_t) (x y : cell) :
  same_walls m0 m -> (passage m x y <-> passage m0 x y).
Proof.
  intros (E1 & E2 & E3 & Hw).
  assert (Hrw : forall z, in_grid (n_rows m0) (n_cols m0) z ->
                  r_wall (cell_at m z) = r_wall (cell_at m0 z) /\
                  b_wall (cell_at m z) = b_wall (cell_at m0 z)).
  { intros z Hz. specialize (Hw z Hz). unfold walls in Hw. inversion Hw. auto. }
  split; intros H.
  - destruct H as [r c Hg Hc Hwl | r c Hg Hc Hwl | r c Hg Hc Hwl | r c Hg Hc Hwl];
      rewrite E1, E2 in *; constructor; auto;
      destruct (Hrw _ Hg) as [R B]; congruence.
  - destruct H as [r c Hg Hc Hwl | r c Hg Hc Hwl | r c Hg Hc Hwl | r c Hg Hc Hwl];
      constructor; rewrite ?E1, ?E2; auto;
      destruct (Hrw _ Hg) as [R B]; congruence.
Qed.

Lemma boundary_closed_same_walls (m0 m : maze_t) :
  same_walls m0 m -> boundary_closed m0 -> boundary_closed m.
Proof.
  intros (E1 & E2 & E3 & Hw) H x Hx. rewrite E1, E2 in *.
  specialize (Hw x Hx). unfold walls in Hw. inversion Hw as [[R B]].
  rewrite R, B. now apply H.
Qed.

(** ** Setting one marker *)

Lemma cell_update_set_marker (m : maze_t) (x : cell) (d : Z) :
  grid_ok m -> in_grid (n_rows m) (n_cols m) x ->
  cell_update m (off (n_cols m) x) (fun n => set_marker n d) = Ret (set_marker_at m x d).
Proof. intros Hok Hx. exact (cell_update_spec m x (fun n => set_marker n d) Hok Hx). Qed.

Lemma cell_at_set_marker_at (m : maze_t) (x z : cell) (d : Z) :
  grid_ok m -> in_grid (n_rows m) (n_cols m) x -> in_grid (n_rows m) (n_cols m) z ->
  cell_at (set_marker_at m x d) z =
  if cell_eq_dec z x then set_marker (cell_at m x) d else cell_at m z.
Proof.
  intros Hok Hx Hz.
  destruct (cell_at_upd_cases m x z (set_marker (cell_at m x) d) Hok Hx Hz)
    as [[E H] | [E H]]; cbv zeta in H; unfold set_marker_at; rewrite H;
    destruct (cell_eq_dec z x); congruence.
Qed.

Lemma set_marker_at_same_walls (m0 m : maze_t) (x : cell) (d : Z) :
  grid_ok m0 -> same_walls m0 m -> in_grid (n_rows m0) (n_cols m0) x ->
  same_walls m0 (set_marker_at m x d).
Proof.
  intros Hok0 Hsw Hx. pose proof (same_walls_grid_ok _ _ Hsw Hok0) as Hok.
  destruct Hsw as (E1 & E2 & E3 & Hw).
  unfold same_walls. cbn [set_marker_at n_rows n_cols cells with_cells].
  rewrite length_upd. split; auto. split; auto. split; auto.
  intros z Hz. rewrite cell_at_set_marker_at by (rewrite ?E1, ?E2; auto).
  destruct (cell_eq_dec z x) as [-> | Hne]; [|now apply Hw].
  rewrite <- (Hw x Hx). reflexivity.
Qed.

Lemma set_marker_at_inv (m0 m : maze_t) (x : cell) (d : Z) :
  grid_ok m0 -> solver_inv m0 m -> in_grid (n_rows m0) (n_cols m0) x -> 0 <= d < 4 ->
  solver_inv m0 (set_marker_at m x d).
Proof.
  intros Hok0 [Hsw Hm Hv] Hx Hd.
  pose proof (same_walls_grid_ok _ _ Hsw Hok0) as Hok.
  pose proof Hsw as (E1 & E2 & E3 & Hw).
  constructor.
  - now apply set_marker_at_same_walls.
  - intros z Hz. rewrite cell_at_set_marker_at by (rewrite ?E1, ?E2; auto).
    destruct (cell_eq_dec z x); [exact Hd | now apply Hm].
  - intros z Hz. rewrite cell_at_set_marker_at by (rewrite ?E1, ?E2; auto).
    destruct (cell_eq_dec z x) as [-> | Hne]; [|now apply Hv].
    cbn [set_marker visit]. now apply Hv.
Qed.

(** ** One turn of the search loop *)

(** With the boundary walled, [s_can_move] is the passage relation. *)
Lemma s_can_move_passage (m : maze_t) (r c : Z) (dir : Z) :
  grid_ok m -> boundary_closed m -> in_grid (n_rows m) (n_cols m) (r, c) ->
  0 <= dir < 4 ->
  exists b : bool,
    s_can_move m r c dir = Ret b /\
    (b = true <-> passage m (r, c) (neighbour dir (r, c))).
Proof.
  intros Hok Hcl Hx Hdir.
  destruct (s_can_move_spec m r c dir Hok Hx Hdir) as (b & Hrun & Hb).
  exists b. split; [exact Hrun|]. rewrite Hb. split; [|auto].
  intros [H | (_ & Hc & Hw)]; [exact H|].
  destruct (Hcl (r, c) Hx) as [Hr _]. cbn [snd] in Hr. rewrite (Hr Hc) in Hw.
  discriminate.
Qed.

Lemma passage_dec (m : maze_t) (x y : cell) :
  grid_ok m -> boundary_closed m -> passage m x y \/ ~ passage m x y.
Proof.
  intros Hok Hcl.
  destruct (in_grid_dec (n_rows m) (n_cols m) x) as [Hx | Hx].
  - assert (Hcases : (exists d, 0 <= d < 4 /\ y = neighbour d x) \/
                     ~ (exists d, 0 <= d < 4 /\ y = neighbour d x)).
    { destruct (cell_eq_dec y (neighbour 0 x)); [left; exists 0; split; [lia|auto]|].
      destruct (cell_eq_dec y (neighbour 1 x)); [left; exists 1; split; [lia|auto]|].
      destruct (cell_eq_dec y (neighbour 2 x)); [left; exists 2; split; [lia|auto]|].
      destruct (cell_eq_dec y (neighbour 3 x)); [left; exists 3; split; [lia|auto]|].
      right. intros (d & Hd & E).
      assert (d = 0 \/ d = 1 \/ d = 2 \/ d = 3) as [-> | [-> | [-> | ->]]] by lia;
        contradiction. }
    destruct Hcases as [(d & Hd & ->) | Hno].
    + destruct x as [r c].
      destruct (s_can_move_passage m r c d Hok Hcl Hx Hd) as (b & _ & Hb).
      destruct b; [left; now apply Hb | right].
      intros H. apply Hb in H. discriminate.
    + right. intros H. apply Hno. eapply passage_dir; eauto.
  - right. intros H. apply passage_in_grid in H. tauto.
Qed.

(** The probe takes the first open direction after the marker, in the
    rotation Up, Right, Down, Left. *)
Lemma probe_dirs_first (m : maze_t) (r c : Z) :
  grid_ok m -> boundary_closed m -> in_grid (n_rows m) (n_cols m) (r, c) ->
  forall (n : nat) (mk k : Z),
    0 <= mk < 4 -> 1 <= k <= Z.of_nat n ->
    passage m (r, c) (neighbour ((mk + k) mod 4) (r, c)) ->
    (forall j, 1 <= j < k -> ~ passage m (r, c) (neighbour ((mk + j) mod 4) (r, c))) ->
    probe_dirs n m r c mk =
    Ret (set_marker_at m (r, c) ((mk + k) mod 4), (mk + k) mod 4).
Proof.
  intros Hok Hcl Hx. induction n as [|n IH]; intros mk k Hmk Hk Hopen Hclosed; [lia|].
  cbn [probe_dirs]. rewrite (wrap_small (mk + 1)) by (rewrite wB_val; lia).
  assert (Hd1 : 0 <= (mk + 1) mod 4 < 4) by (apply Z.mod_pos_bound; lia).
  destruct (s_can_move_passage m r c ((mk + 1) mod 4) Hok Hcl Hx Hd1) as (b & Hrun & Hb).
  rewrite Hrun. cbn [bind].
  destruct (Z.eq_dec k 1) as [-> | Hk1].
  - assert (b = true) by now apply Hb. subst b.
    rewrite (OFFSET_cell m r c Hok Hx), (cell_update_set_marker m (r, c) _ Hok Hx).
    reflexivity.
  - assert (b = false).
    { destruct b; auto. exfalso. apply (Hclosed 1); [lia|]. now apply Hb. }
    subst b.
    replace ((mk + k) mod 4) with (((mk + 1) mod 4 + (k - 1)) mod 4)
      by (rewrite Zplus_mod_idemp_l; f_equal; lia).
    apply IH; auto; [lia | |].
    + rewrite Zplus_mod_idemp_l. replace (mk + 1 + (k - 1)) with (mk + k) by lia. auto.
    + intros j Hj. rewrite Zplus_mod_idemp_l.
      replace (mk + 1 + j) with (mk + (j + 1)) by lia. apply Hclosed. lia.
Qed.

Lemma search_body_spec (m : maze_t) (x : cell) (k : Z) :
  grid_ok m -> boundary_closed m -> in_grid (n_rows m) (n_cols m) x ->
  0 <= marker (cell_at m x) < 4 -> 1 <= k <= 4 ->
  let d := (marker (cell_at m x) + k) mod 4 in
  passage m x (neighbour d x) ->
  (forall j, 1 <= j < k ->
     ~ passage m x (neighbour ((marker (cell_at m x) + j) mod 4) x)) ->
  search_body m (fst x) (snd x) =
  Ret (set_marker_at (set_marker_at m x d) (neighbour d x) (back_dir d),
       fst (neighbour d x), snd (neighbour d x)).
Proof.
  intros Hok Hcl Hx Hmk Hk d Hopen Hclosed. destruct x as [r c]. cbn [fst snd].
  pose proof Hok as (Hr & Hc & Hn & Hl).
  assert (HwB : n_rows m < wB /\ n_cols m < wB) by nia.
  assert (Hd : 0 <= d < 4) by (apply Z.mod_pos_bound; lia).
  destruct (passage_in_grid _ _ _ Hopen) as (_ & Hy & _).
  unfold search_body.
  rewrite (OFFSET_cell m r c Hok Hx), (cell_at_rd m _ Hok Hx). cbn [bind].
  rewrite (probe_dirs_first m r c Hok Hcl Hx 4 (marker (cell_at m (r, c))) k)
    by (auto; lia).
  cbn [bind]. fold d.
  rewrite (step_dir_neighbour d r c (n_rows m) (n_cols m)) by (auto; lia).
  cbn [bind].
  assert (Hok1 : grid_ok (set_marker_at m (r, c) d)).
  { unfold grid_ok, set_marker_at. cbn [n_rows n_cols cells with_cells].
    rewrite length_upd. auto. }
  assert (Hy1 : in_grid (n_rows (set_marker_at m (r, c) d))
                  (n_cols (set_marker_at m (r, c) d)) (neighbour d (r, c))) by exact Hy.
  rewrite (OFFSET_off _ _ Hok1 Hy1).
  rewrite (cell_update_set_marker _ _ _ Hok1 Hy1). reflexivity.
Qed.

(** ** Runs of the search loop *)

Lemma search_unfold (fuel : nat) (mp : maze_t) (r c er ec : rowcol_t) :
  search (S fuel) mp r c er ec =
  if (r =? er) && (c =? ec) then Ret mp
  else ' (mp2, r', c') <- search_body mp r c ;; search fuel mp2 r' c' er ec.
Proof.
  cbn [search]. destruct ((r =? er) && (c =? ec)); [reflexivity|].
  unfold search_body.
  destruct (rd (cells mp) (OFFSET mp r c)) as [n| |]; cbn [bind]; try reflexivity.
  destruct (probe_dirs 4 mp r c (marker n)) as [[mp1 d]| |]; cbn [bind]; try reflexivity.
  destruct (step_dir d r c) as [[r' c']| |]; cbn [bind]; try reflexivity.
  destruct (cell_update mp1 (OFFSET mp1 r' c') _) as [mp2| |]; reflexivity.
Qed.

Lemma search_at_goal (fuel : nat) (mp : maze_t) (g : cell) :
  search (S fuel) mp (fst g) (snd g) (fst g) (snd g) = Ret mp.
Proof. rewrite search_unfold, !Z.eqb_refl. reflexivity. Qed.

Lemma search_after_steps (g : cell) (n : nat) (m m' : maze_t) (x x' : cell) :
  steps g n m x m' x' ->
  forall fuel, search (n + fuel) m (fst x) (snd x) (fst g) (snd g) =
               search fuel m' (fst x') (snd x') (fst g) (snd g).
Proof.
  induction 1 as [m x | n m m1 m2 x x1 x2 Hne Hbody Hsteps IH]; intros fuel;
    [reflexivity|].
  cbn [Nat.add]. rewrite search_unfold.
  replace ((fst x =? fst g) && (snd x =? snd g)) with false.
  - rewrite Hbody. cbn [bind]. apply IH.
  - symmetry. apply andb_false_iff.
    destruct (Z.eqb_spec (fst x) (fst g)) as [E1 | E1]; [|now left].
    destruct (Z.eqb_spec (snd x) (snd g)) as [E2 | E2]; [|now right].
    exfalso. apply Hne. destruct x, g. cbn [fst snd] in *. congruence.
Qed.

Lemma steps_trans (g : cell) (n1 n2 : nat) (m1 m2 m3 : maze_t) (x1 x2 x3 : cell) :
  steps g n1 m1 x1 m2 x2 -> steps g n2 m2 x2 m3 x3 -> steps g (n1 + n2) m1 x1 m3 x3.
Proof.
  induction 1 as [m x | n m ma mb x xa xb Hne Hbody Hsteps IH]; intros H; [exact H|].
  cbn [Nat.add]. econstructor; eauto.
Qed.

(** ** The search reaches the goal *)

Lemma first_such (P : Z -> Prop) :
  (forall k, P k \/ ~ P k) ->
  forall n : nat,
    (exists k, 1 <= k <= Z.of_nat n /\ P k) ->
    exists k, 1 <= k <= Z.of_nat n /\ P k /\ forall j, 1 <= j < k -> ~ P j.
Proof.
  intros Hdec. induction n as [|n IH]; intros (k & Hk & HP); [lia|].
  destruct (Z.eq_dec k (Z.of_nat (S n))) as [E | E].
  - destruct (Hdec 1) as [H1 | H1].
    + exists 1. split; [lia|]. split; auto. intros j Hj. lia.
    + assert (Hcase : (exists k', 1 <= k' <= Z.of_nat n /\ P k') \/
                      ~ (exists k', 1 <= k' <= Z.of_nat n /\ P k')).
      { clear IH k Hk HP E H1. induction n as [|n IHn].
        - right. intros (k' & Hk' & _). lia.
        - destruct IHn as [(k' & Hk' & HP') | Hno].
          + left. exists k'. split; auto. lia.
          + destruct (Hdec (Z.of_nat (S n))) as [HS | HS].
            * left. exists (Z.of_nat (S n)). split; auto. lia.
            * right. intros (k' & Hk' & HP').
              destruct (Z.eq_dec k' (Z.of_nat (S n))) as [-> | Hne]; auto.
              apply Hno. exists k'. split; auto. lia. }
      destruct Hcase as [Hex | Hno].
      * destruct (IH Hex) as (k' & Hk' & HP' & Hmin).
        exists k'. split; [lia|]. auto.
      * exists k. split; auto. split; auto.
        intros j Hj HPj. apply Hno. exists j. split; auto. lia.
  - assert (Hk0 : 1 <= k <= Z.of_nat n) by lia.
    destruct (IH (ex_intro _ k (conj Hk0 HP))) as (k' & Hk' & HP' & Hmin).
    exists k'. split; [lia|]. auto.
Qed.

(** One turn of the loop, read in the maze [m0] the search started from. *)
Lemma solver_step (m0 m : maze_t) (x : cell) (k : Z) :
  grid_ok m0 -> boundary_closed m0 -> solver_inv m0 m ->
  in_grid (n_rows m0) (n_cols m0) x -> 1 <= k <= 4 ->
  let d := (marker (cell_at m x) + k) mod 4 in
  let y := neighbour d x in
  let m' := set_marker_at (set_marker_at m x d) y (back_dir d) in
  passage m0 x y ->
  (forall j, 1 <= j < k ->
     ~ passage m0 x (neighbour ((marker (cell_at m x) + j) mod 4) x)) ->
  search_body m (fst x) (snd x) = Ret (m', fst y, snd y) /\
  solver_inv m0 m' /\
  marker (cell_at m' y) = back_dir d /\ marker (cell_at m' x) = d /\
  (forall z, in_grid (n_rows m0) (n_cols m0) z -> z <> x -> z <> y ->
             cell_at m' z = cell_at m z).
Proof.
  intros Hok0 Hcl0 I Hx Hk d y m' Hopen Hclosed.
  pose proof (si_walls _ _ I) as Hsw. pose proof Hsw as (E1 & E2 & E3 & Hw).
  pose proof (same_walls_grid_ok _ _ Hsw Hok0) as Hok.
  pose proof (boundary_closed_same_walls _ _ Hsw Hcl0) as Hcl.
  assert (Hd : 0 <= d < 4) by (apply Z.mod_pos_bound; lia).
  destruct (passage_in_grid _ _ _ Hopen) as (_ & Hy & Hnb).
  assert (Hxy : x <> y) by now apply nb_irrefl.
  assert (I1 : solver_inv m0 (set_marker_at m x d)) by now apply set_marker_at_inv.
  pose proof (si_walls _ _ I1) as Hsw1. pose proof Hsw1 as (F1 & F2 & F3 & _).
  pose proof (same_walls_grid_ok _ _ Hsw1 Hok0) as Hok1.
  split; [|split; [|split; [|split]]].
  - apply (search_body_spec m x k); auto.
    + rewrite E1, E2. exact Hx.
    + now apply (si_marks _ _ I).
    + now apply (passage_same_walls m0 m).
    + intros j Hj Hp. apply (Hclosed j Hj). now apply (passage_same_walls m0 m).
  - apply set_marker_at_inv; auto. apply back_dir_range.
  - unfold m'. rewrite cell_at_set_marker_at by (rewrite ?F1, ?F2; auto).
    destruct (cell_eq_dec y y); [reflexivity | contradiction].
  - unfold m'. rewrite cell_at_set_marker_at by (rewrite ?F1, ?F2; auto).
    destruct (cell_eq_dec x y); [contradiction|].
    rewrite cell_at_set_marker_at by (rewrite ?E1, ?E2; auto).
    destruct (cell_eq_dec x x); [reflexivity | contradiction].
  - intros z Hz Hzx Hzy. unfold m'.
    rewrite cell_at_set_marker_at by (rewrite ?F1, ?F2; auto).
    destruct (cell_eq_dec z y); [contradiction|].
    rewrite cell_at_set_marker_at by (rewrite ?E1, ?E2; auto).
    destruct (cell_eq_dec z x); [contradiction | reflexivity].
Qed.

(** The first open direction after the marker, no later in the rotation
    than a direction [e] known to be open. *)
Lemma first_open (m0 : maze_t) (x : cell) (mk e : Z) :
  grid_ok m0 -> boundary_closed m0 -> 0 <= mk < 4 -> 0 <= e < 4 ->
  passage m0 x (neighbour e x) ->
  exists k, 1 <= k <= (e - mk - 1) mod 4 + 1 /\
            passage m0 x (neighbour ((mk + k) mod 4) x) /\
            forall j, 1 <= j < k -> ~ passage m0 x (neighbour ((mk + j) mod 4) x).
Proof.
  intros Hok Hcl Hmk He Hopen.
  pose proof (Z.mod_pos_bound (e - mk - 1) 4 ltac:(lia)) as Hdist.
  destruct (first_such (fun k => passage m0 x (neighbour ((mk + k) mod 4) x))
              (fun k => passage_dec m0 x _ Hok Hcl)
              (Z.to_nat ((e - mk - 1) mod 4 + 1))) as (k & Hk & HP & Hmin).
  - exists ((e - mk - 1) mod 4 + 1). split; [lia|].
    replace ((mk + ((e - mk - 1) mod 4 + 1)) mod 4) with e; auto.
    assert (mk = 0 \/ mk = 1 \/ mk = 2 \/ mk = 3) as [-> | [-> | [-> | ->]]] by lia;
      assert (e = 0 \/ e = 1 \/ e = 2 \/ e = 3) as [-> | [-> | [-> | ->]]] by lia;
      reflexivity.
  - exists k. split; [lia|]. auto.
Qed.

Lemma rotation_progress (mk e k : Z) :
  0 <= mk < 4 -> 0 <= e < 4 -> 1 <= k <= (e - mk - 1) mod 4 + 1 ->
  ((mk + k) mod 4 = e /\ k = (e - mk - 1) mod 4 + 1) \/
  ((mk + k) mod 4 <> e /\
   (e - (mk + k) mod 4 - 1) mod 4 + 1 = (e - mk - 1) mod 4 + 1 - k).
Proof.
  intros Hmk He.
  assert (mk = 0 \/ mk = 1 \/ mk = 2 \/ mk = 3) as [-> | [-> | [-> | ->]]] by lia;
    assert (e = 0 \/ e = 1 \/ e = 2 \/ e = 3) as [-> | [-> | [-> | ->]]] by lia;
    intros Hk; cbn in Hk;
    (assert (k = 1 \/ k = 2 \/ k = 3 \/ k = 4) as [-> | [-> | [-> | ->]]] by lia);
    cbn in Hk; try lia;
    first [ left; split; reflexivity | right; split; [discriminate | reflexivity] ].
Qed.

(** From a cell [y] whose branches, but for the one through [t], are dead
    ends without the goal, the search comes to [t]. *)
Lemma excursion (m0 : maze_t) (g : cell) :
  grid_ok m0 -> boundary_closed m0 ->
  forall t y, dead m0 g t y -> passage m0 y t ->
    forall m, solver_inv m0 m ->
      exists n m', steps g n m y m' t /\ solver_inv m0 m' /\
                   neighbour (marker (cell_at m' t)) t = y.
Proof.
  intros Hok Hcl t y Hdead.
  induction Hdead as [t y Hyg Hbr IH]. intros Hpt.
  destruct (passage_dir _ _ _ Hpt) as (e & He & Et).
  destruct (passage_in_grid _ _ _ Hpt) as (Hy & Ht & _).
  assert (Hinner : forall (j : nat) (m : maze_t),
            solver_inv m0 m ->
            (marker (cell_at m y) - 0 <= 3) ->
            (e - marker (cell_at m y) - 1) mod 4 + 1 <= Z.of_nat j ->
            exists n m', steps g n m y m' t /\ solver_inv m0 m' /\
                         neighbour (marker (cell_at m' t)) t = y).
  { induction j as [|j IHj]; intros m I _ Hdist.
    - pose proof (Z.mod_pos_bound (e - marker (cell_at m y) - 1) 4 ltac:(lia)). lia.
    - pose proof (si_marks _ _ I y Hy) as Hmk.
      assert (Hpe : passage m0 y (neighbour e y)) by (rewrite <- Et; exact Hpt).
      destruct (first_open m0 y (marker (cell_at m y)) e Hok Hcl Hmk He Hpe)
        as (k & Hk & Hopen & Hmin).
      pose proof (Z.mod_pos_bound (e - marker (cell_at m y) - 1) 4 ltac:(lia)) as Hd4.
      destruct (solver_step m0 m y k Hok Hcl I Hy ltac:(lia) Hopen Hmin)
        as (Hbody & I1 & Mz & My & _).
      set (d := (marker (cell_at m y) + k) mod 4) in *.
      set (z := neighbour d y) in *.
      set (m1 := set_marker_at (set_marker_at m y d) z (back_dir d)) in *.
      assert (Hd : 0 <= d < 4) by (apply Z.mod_pos_bound; lia).
      destruct (rotation_progress (marker (cell_at m y)) e k Hmk He Hk)
        as [[Ed _] | [Ed Hless]]; fold d in Ed.
      + (* the exit *)
        exists 1%nat, m1. split; [|split; [exact I1|]].
        * apply (steps_S g 0 m m1 m1 y t t Hyg); [|constructor].
          rewrite Et, <- Ed. exact Hbody.
        * assert (Ezt : z = t) by (unfold z; rewrite Ed; auto).
          rewrite <- Ezt, Mz. unfold z. apply neighbour_back. exact Hd.
      + (* a dead end: in and back *)
        fold d in Hless.
        assert (Hzt : z <> t).
        { unfold z. rewrite Et. intros E. apply Ed.
          eapply neighbour_inj; eauto. }
        destruct (IH z Hopen Hzt (passage_sym _ _ _ Hopen) m1 I1)
          as (n2 & m2 & Hsteps2 & I2 & Mback).
        assert (Emk2 : marker (cell_at m2 y) = d).
        { apply (neighbour_inj _ _ y); auto. now apply (si_marks _ _ I2). }
        destruct (IHj m2 I2) as (n3 & m3 & Hsteps3 & I3 & Mt).
        * rewrite Emk2. lia.
        * rewrite Emk2. lia.
        * exists (S (n2 + n3)), m3. split; [|auto].
          apply (steps_S g (n2 + n3) m m1 m3 y z t Hyg Hbody).
          eapply steps_trans; eauto. }
  intros m I.
  apply (Hinner 4%nat m I).
  - pose proof (si_marks _ _ I y Hy). lia.
  - pose proof (Z.mod_pos_bound (e - marker (cell_at m y) - 1) 4 ltac:(lia)). lia.
Qed.

(** ** Branches of a tree *)

Lemma walk_in_grid (mp : maze_t) (x y : cell) (p : list cell) :
  walk mp x p y -> p <> [] ->
  Forall (in_grid (n_rows mp) (n_cols mp)) (x :: p).
Proof.
  induction 1 as [x | x x' y p Hp Hw IH]; intros Hne; [contradiction|].
  destruct (passage_in_grid _ _ _ Hp) as (Hx & Hx' & _).
  constructor; auto.
  destruct p as [|z p]; [constructor; auto | apply IH; discriminate].
Qed.

(** A walk cut at a cell it enters. *)
Lemma walk_cut (mp : maze_t) (x y z : cell) (p : list cell) :
  walk mp x p y -> In z p ->
  exists q r, p = q ++ r /\ walk mp x q z /\ q <> [].
Proof.
  induction 1 as [x | x x' y p Hp Hw IH]; intros Hin; [destruct Hin|].
  destruct (cell_eq_dec z x') as [-> | Hne].
  - exists [x'], p. split; [reflexivity|]. split; [|discriminate].
    econstructor; [exact Hp | constructor].
  - destruct Hin as [E | Hin]; [congruence|].
    destruct (IH Hin) as (q & r & -> & Hq & _).
    exists (x' :: q), r. split; [reflexivity|]. split; [|discriminate].
    econstructor; eauto.
Qed.

(** Distinct cells of the grid are no more than the grid has. *)
Lemma nodup_cells_bound (nr nc : Z) (l : list cell) :
  1 <= nr -> 1 <= nc -> NoDup l -> Forall (in_grid nr nc) l ->
  Z.of_nat (length l) <= nr * nc.
Proof.
  intros Hr Hc Hnd Hall.
  assert (Hmap : NoDup (map (fun x => Z.to_nat (off nc x)) l)).
  { clear Hr Hc. induction Hnd as [|a l Hnin Hnd IH]; [constructor|].
    inversion Hall as [|? ? Ha Hl]; subst. cbn [map]. constructor; [|now apply IH].
    intros Hin. apply in_map_iff in Hin. destruct Hin as (b & Eb & Hb).
    rewrite Forall_forall in Hl. pose proof (Hl b Hb) as Hbg.
    pose proof (off_range _ _ _ Ha). pose proof (off_range _ _ _ Hbg).
    assert (b = a) by (apply (off_inj nr nc); auto; lia). subst b. contradiction. }
  assert (Hincl : incl (map (fun x => Z.to_nat (off nc x)) l) (seq 0 (Z.to_nat (nr * nc)))).
  { intros i Hi. apply in_map_iff in Hi. destruct Hi as (b & <- & Hb).
    rewrite Forall_forall in Hall. pose proof (off_range _ _ _ (Hall b Hb)).
    apply in_seq. lia. }
  pose proof (NoDup_incl_length Hmap Hincl) as Hlen.
  rewrite length_map, length_seq in Hlen. lia.
Qed.

(** In a grid without cycles, the branch behind a cell, seen from its
    neighbour on the way to the goal, is a dead end. *)
Lemma dead_behind (mp : maze_t) (g : cell) :
  grid_ok mp -> no_cycle mp ->
  forall (k : nat) (y x : cell) (p : list cell),
    walk mp y (x :: p) g -> NoDup (y :: x :: p) ->
    n_rows mp * n_cols mp < Z.of_nat (length (y :: x :: p)) + Z.of_nat k ->
    dead mp g x y.
Proof.
  intros Hok Hnc. pose proof Hok as (Hr & Hc & _ & _).
  induction k as [|k IH]; intros y x p Hw Hnd Hlen.
  - exfalso.
    pose proof (walk_in_grid _ _ _ _ Hw ltac:(discriminate)) as Hall.
    pose proof (nodup_cells_bound _ _ _ Hr Hc Hnd Hall). lia.
  - constructor.
    + intros ->. destruct (walk_end _ _ _ _ Hw) as [[E _] | Hin]; [discriminate|].
      inversion Hnd; contradiction.
    + intros z Hpz Hzx. apply (IH z y (x :: p)).
      * econstructor; [apply passage_sym; exact Hpz | exact Hw].
      * constructor; [|exact Hnd].
        intros [E | [E | Hin]].
        -- apply passage_in_grid in Hpz. destruct Hpz as (_ & _ & Hnb).
           apply nb_irrefl in Hnb. congruence.
        -- congruence.
        -- assert (Hin' : In z (x :: p)) by now right.
           destruct (walk_cut _ _ _ _ _ Hw Hin') as (q & r & Eq & Hq & Hqne).
           assert (Hndq : NoDup (y :: q)).
           { apply (NoDup_app_remove_r (y :: q) r). cbn [app]. rewrite <- Eq. exact Hnd. }
           pose proof (Hnc z y q (passage_sym _ _ _ Hpz) Hq Hndq) as Eq1.
           subst q. cbn [app] in Eq. inversion Eq. congruence.
      * cbn [length] in *. lia.
Qed.

(** Along a simple walk to the goal, the search gets there. *)
Lemma search_travels (m0 : maze_t) (g : cell) :
  grid_ok m0 -> boundary_closed m0 -> no_cycle m0 ->
  forall (x : cell) (p : list cell),
    walk m0 x p g -> NoDup (x :: p) ->
    forall m, solver_inv m0 m ->
      exists n m', steps g n m x m' g /\ solver_inv m0 m'.
Proof.
  intros Hok Hcl Hnc x p Hw.
  induction Hw as [x | x y g p Hp Hw IH]; intros Hnd m I.
  - exists O, m. split; [constructor | exact I].
  - assert (Hdead : dead m0 g y x).
    { apply (dead_behind m0 g Hok Hnc (Z.to_nat (n_rows m0 * n_cols m0) + 1) x y p).
      - econstructor; eauto.
      - exact Hnd.
      - pose proof Hok as (Hr & Hc & _ & _). cbn [length]. nia. }
    destruct (excursion m0 g Hok Hcl y x Hdead Hp m I) as (n1 & m1 & Hs1 & I1 & _).
    destruct (IH ltac:(now inversion Hnd) m1 I1) as (n2 & m2 & Hs2 & I2).
    exists (n1 + n2)%nat, m2. split; [eapply steps_trans; eauto | exact I2].
Qed.

(** ** The markers record the way from the start *)

Lemma rwalk_ext (m0 m m' : maze_t) (s x : cell) (l : list cell) :
  rwalk m0 m s x l ->
  (forall b, In b l -> marker (cell_at m' b) = marker (cell_at m b)) ->
  rwalk m0 m' s x l.
Proof.
  induction 1 as [|x b l Hr IH Hp Hm]; intros Hsame; [constructor|].
  constructor; auto.
  - apply IH. intros b' Hb'. apply Hsame. now right.
  - rewrite Hsame by now left. exact Hm.
Qed.

Lemma rwalk_cut (m0 m : maze_t) (s x y : cell) (l : list cell) :
  rwalk m0 m s x l -> In y l ->
  exists q r, l = q ++ r /\ walk m0 x q y /\ q <> [].
Proof.
  induction 1 as [|x b l Hr IH Hp Hm]; intros Hin; [destruct Hin|].
  destruct (cell_eq_dec y b) as [-> | Hne].
  - exists [b], l. split; [reflexivity|]. split; [|discriminate].
    econstructor; [apply passage_sym; exact Hp | constructor].
  - destruct Hin as [E | Hin]; [congruence|].
    destruct (IH Hin) as (q & r & -> & Hq & _).
    exists (b :: q), r. split; [reflexivity|]. split; [|discriminate].
    econstructor; [apply passage_sym; exact Hp | exact Hq].
Qed.

Lemma rwalk_in_grid (m0 m : maze_t) (s x : cell) (l : list cell) :
  in_grid (n_rows m0) (n_cols m0) s -> rwalk m0 m s x l ->
  Forall (in_grid (n_rows m0) (n_cols m0)) (x :: l).
Proof.
  intros Hs. induction 1 as [|x b l Hr IH Hp Hm]; [constructor; auto|].
  constructor; auto. apply passage_in_grid in Hp. tauto.
Qed.

(** One turn of the loop keeps the record: the search either steps onto
    a new cell or back to the cell it came from. *)
Lemma trail_step (m0 m : maze_t) (s x : cell) (l : list cell) (k : Z) :
  grid_ok m0 -> boundary_closed m0 -> no_cycle m0 -> solver_inv m0 m ->
  in_grid (n_rows m0) (n_cols m0) s ->
  rwalk m0 m s x l -> NoDup (x :: l) -> 1 <= k <= 4 ->
  let d := (marker (cell_at m x) + k) mod 4 in
  let y := neighbour d x in
  let m' := set_marker_at (set_marker_at m x d) y (back_dir d) in
  passage m0 x y ->
  (forall j, 1 <= j < k ->
     ~ passage m0 x (neighbour ((marker (cell_at m x) + j) mod 4) x)) ->
  exists l', rwalk m0 m' s y l' /\ NoDup (y :: l').
Proof.
  intros Hok Hcl Hnc I Hs Hrw Hnd Hk d y m' Hopen Hmin.
  pose proof (rwalk_in_grid _ _ _ _ _ Hs Hrw) as Hall.
  rewrite Forall_forall in Hall.
  assert (Hx : in_grid (n_rows m0) (n_cols m0) x) by (apply Hall; now left).
  destruct (solver_step m0 m x k Hok Hcl I Hx Hk Hopen Hmin)
    as (_ & I' & My & Mx & Hframe).
  fold d y m' in I', My, Mx, Hframe.
  destruct (passage_in_grid _ _ _ Hopen) as (_ & Hy & Hnb).
  assert (Hxy : x <> y) by now apply nb_irrefl.
  destruct (in_dec cell_eq_dec y l) as [Hin | Hnin].
  - (* back to the cell the search came from *)
    destruct l as [|b l0]; [destruct Hin|].
    assert (Hr0 : rwalk m0 m s b l0) by (inversion Hrw; assumption).
    assert (y = b).
    { destruct (cell_eq_dec y b) as [E | Hne]; auto. exfalso.
      destruct (rwalk_cut _ _ _ _ _ _ Hrw Hin) as (q & r & Eq & Hq & Hqne).
      assert (Hndq : NoDup (x :: q)).
      { apply (NoDup_app_remove_r (x :: q) r). cbn [app]. rewrite <- Eq. exact Hnd. }
      pose proof (Hnc y x q (passage_sym _ _ _ Hopen) Hq Hndq) as Eq1.
      subst q. cbn [app] in Eq. inversion Eq. congruence. }
    subst b. exists l0. split.
    + apply (rwalk_ext m0 m m'); auto.
      intros b Hb. f_equal. apply Hframe.
      * apply Hall. right. now right.
      * intros ->. inversion Hnd as [|? ? Hn _]. apply Hn. right. exact Hb.
      * intros ->. inversion Hnd as [|? ? _ Hnd']. inversion Hnd'. contradiction.
    + now inversion Hnd.
  - (* onto a new cell *)
    exists (x :: l). split.
    + constructor; [|exact Hopen | rewrite Mx; reflexivity].
      apply (rwalk_ext m0 m m'); auto.
      intros b Hb. f_equal. apply Hframe.
      * apply Hall. now right.
      * intros ->. inversion Hnd. contradiction.
      * intros ->. contradiction.
    + constructor; [|exact Hnd]. intros [E | Hin]; [congruence | contradiction].
Qed.

Lemma steps_keep_trail (m0 : maze_t) (s g : cell) :
  grid_ok m0 -> boundary_closed m0 -> no_cycle m0 ->
  in_grid (n_rows m0) (n_cols m0) s ->
  (forall x, in_grid (n_rows m0) (n_cols m0) x -> connected m0 x g) ->
  forall (n : nat) (m m' : maze_t) (x x' : cell),
    steps g n m x m' x' ->
    forall l, solver_inv m0 m -> rwalk m0 m s x l -> NoDup (x :: l) ->
      solver_inv m0 m' /\ exists l', rwalk m0 m' s x' l' /\ NoDup (x' :: l').
Proof.
  intros Hok Hcl Hnc Hs Hconn n m m' x x' Hsteps.
  induction Hsteps as [m x | n m m1 m2 x x1 x2 Hne Hbody Hsteps IH]; intros l I Hrw Hnd.
  - split; [exact I|]. eauto.
  - pose proof (rwalk_in_grid _ _ _ _ _ Hs Hrw) as Hall.
    assert (Hx : in_grid (n_rows m0) (n_cols m0) x) by now inversion Hall.
    assert (Hex : exists z, passage m0 x z).
    { pose proof (Hconn x Hx) as Hc. inversion Hc; subst; [contradiction | eauto]. }
    destruct Hex as (z & Hpz).
    destruct (passage_dir _ _ _ Hpz) as (e & He & Ez). subst z.
    pose proof (si_marks _ _ I x Hx) as Hmk.
    destruct (first_open m0 x (marker (cell_at m x)) e Hok Hcl Hmk He Hpz)
      as (k & Hk & Hopen & Hmin).
    pose proof (Z.mod_pos_bound (e - marker (cell_at m x) - 1) 4 ltac:(lia)) as Hd4.
    assert (Hk4 : 1 <= k <= 4) by lia.
    destruct (solver_step m0 m x k Hok Hcl I Hx Hk4 Hopen Hmin)
      as (Hbody' & I1 & _).
    destruct (trail_step m0 m s x l k Hok Hcl Hnc I Hs Hrw Hnd Hk4 Hopen Hmin)
      as (l1 & Hrw1 & Hnd1).
    rewrite Hbody in Hbody'. inversion Hbody' as [[Em E1 E2]].
    assert (Ex1 : x1 = neighbour ((marker (cell_at m x) + k) mod 4) x).
    { destruct x1 as [a b], (neighbour ((marker (cell_at m x) + k) mod 4) x) as [a' b'].
      cbn [fst snd] in E1, E2. congruence. }
    rewrite <- Em in I1, Hrw1. rewrite <- Ex1 in Hrw1, Hnd1.
    apply (IH l1); auto.
Qed.

(** The record, read from the start. *)
Lemma walk_snoc (mp : maze_t) (s b x : cell) (p : list cell) :
  walk mp s p b -> passage mp b x -> walk mp s (p ++ [x]) x.
Proof.
  induction 1 as [s | s s' b p Hp Hw IH]; intros Hbx; cbn [app].
  - econstructor; [exact Hbx | constructor].
  - econstructor; [exact Hp | now apply IH].
Qed.

Lemma pointed_snoc (mp m : maze_t) (s b x : cell) (p : list cell) :
  walk mp s p b -> pointed m s p -> neighbour (marker (cell_at m b)) b = x ->
  pointed m s (p ++ [x]).
Proof.
  induction 1 as [s | s s' b p Hp Hw IH]; intros Hpt Hm; cbn [app pointed] in *.
  - auto.
  - destruct Hpt as [H1 H2]. split; auto.
Qed.

Lemma rwalk_forward (m0 m : maze_t) (s x : cell) (l : list cell) :
  rwalk m0 m s x l ->
  exists p, walk m0 s p x /\ pointed m s p /\ s :: p = rev (x :: l).
Proof.
  induction 1 as [|x b l Hr (p & Hw & Hpt & Erev) Hp Hm].
  - exists []. split; [constructor|]. split; [exact I | reflexivity].
  - exists (p ++ [x]). split; [eapply walk_snoc; eauto|].
    split; [eapply pointed_snoc; eauto|].
    change (rev (x :: b :: l)) with (rev (b :: l) ++ [x]). rewrite <- Erev. reflexivity.
Qed.

(** ** Marking the route *)

Lemma nth_upd {A : Type} (l : list A) (i j : nat) (a d : A) :
  nth i (upd l j a) d = if (i =? j)%nat && (j <? length l)%nat then a else nth i l d.
Proof.
  revert i j. induction l as [|h t IH]; intros i j; cbn [upd length].
  - destruct i, j; cbn; try reflexivity. now rewrite andb_false_r.
  - destruct j as [|j], i as [|i]; cbn [nth upd Nat.eqb andb]; try reflexivity.
    rewrite IH. reflexivity.
Qed.

Lemma cell_update_set_visit (m : maze_t) (x : cell) :
  grid_ok m -> in_grid (n_rows m) (n_cols m) x ->
  cell_update m (off (n_cols m) x) (fun n => set_visit n true) = Ret (set_visit_at m x).
Proof. intros Hok Hx. exact (cell_update_spec m x (fun n => set_visit n true) Hok Hx). Qed.

Lemma set_visit_at_marker (m : maze_t) (x z : cell) :
  marker (cell_at (set_visit_at m x) z) = marker (cell_at m z).
Proof.
  unfold cell_at, set_visit_at. cbn [cells n_cols with_cells]. rewrite nth_upd.
  destruct (Nat.eqb_spec (Z.to_nat (off (n_cols m) z)) (Z.to_nat (off (n_cols m) x)))
    as [E | E]; cbn [andb]; [|reflexivity].
  destruct (Z.to_nat (off (n_cols m) x) <? length (cells m))%nat; [|reflexivity].
  rewrite E. reflexivity.
Qed.

Lemma set_visit_at_walls (m : maze_t) (x z : cell) :
  walls (cell_at (set_visit_at m x) z) = walls (cell_at m z).
Proof.
  unfold cell_at, set_visit_at. cbn [cells n_cols with_cells]. rewrite nth_upd.
  destruct (Nat.eqb_spec (Z.to_nat (off (n_cols m) z)) (Z.to_nat (off (n_cols m) x)))
    as [E | E]; cbn [andb]; [|reflexivity].
  destruct (Z.to_nat (off (n_cols m) x) <? length (cells m))%nat; [|reflexivity].
  rewrite E. reflexivity.
Qed.

Lemma set_visit_at_visit (m : maze_t) (x z : cell) :
  grid_ok m -> in_grid (n_rows m) (n_cols m) x -> in_grid (n_rows m) (n_cols m) z ->
  visit (cell_at (set_visit_at m x) z) =
  if cell_eq_dec z x then true else visit (cell_at m z).
Proof.
  intros Hok Hx Hz.
  destruct (cell_at_upd_cases m x z (set_visit (cell_at m x) true) Hok Hx Hz)
    as [[E H] | [E H]]; cbv zeta in H; unfold set_visit_at; rewrite H;
    destruct (cell_eq_dec z x); try congruence. reflexivity.
Qed.

Lemma set_visit_at_same_walls (m0 m : maze_t) (x : cell) :
  same_walls m0 m -> same_walls m0 (set_visit_at m x).
Proof.
  intros (E1 & E2 & E3 & Hw). unfold same_walls.
  cbn [set_visit_at n_rows n_cols cells with_cells]. rewrite length_upd.
  split; auto. split; auto. split; auto.
  intros z Hz. change (with_cells m _) with (set_visit_at m x).
  rewrite set_visit_at_walls. now apply Hw.
Qed.

Lemma pointed_ext (m m' : maze_t) (s : cell) (p : list cell) :
  (forall z, marker (cell_at m' z) = marker (cell_at m z)) ->
  pointed m s p -> pointed m' s p.
Proof.
  intros Hsame. revert s. induction p as [|y p IH]; intros s; cbn [pointed]; auto.
  intros [H1 H2]. rewrite Hsame. auto.
Qed.

Lemma mark_route_spec (m0 : maze_t) (g : cell) :
  grid_ok m0 ->
  forall (s : cell) (p : list cell),
    walk m0 s p g -> p <> [] -> NoDup (s :: p) ->
    forall (m : maze_t) (fuel : nat),
      same_walls m0 m -> pointed m s p ->
      (forall x, in_grid (n_rows m0) (n_cols m0) x -> 0 <= marker (cell_at m x) < 4) ->
      (length p <= fuel)%nat ->
      exists m',
        mark_route fuel m (fst s) (snd s) (fst g) (snd g) = Ret (m', fst g, snd g) /\
        same_walls m0 m' /\
        (forall z, marker (cell_at m' z) = marker (cell_at m z)) /\
        forall z, in_grid (n_rows m0) (n_cols m0) z ->
          visit (cell_at m' z) =
          if in_dec cell_eq_dec z (removelast (s :: p)) then true
          else visit (cell_at m z).
Proof.
  intros Hok0 s p Hw.
  induction Hw as [s | s y g p Hp Hw IH]; intros Hne Hnd m fuel Hsw Hpt Hmk Hfuel;
    [contradiction|].
  destruct fuel as [|fuel]; [cbn [length] in Hfuel; lia|].
  pose proof (same_walls_grid_ok _ _ Hsw Hok0) as Hok.
  pose proof Hsw as (E1 & E2 & E3 & _).
  pose proof Hok0 as (Hr0 & Hc0 & Hn0 & _).
  destruct (passage_in_grid _ _ _ Hp) as (Hs & Hy & _).
  assert (Hs' : in_grid (n_rows m) (n_cols m) s) by (rewrite E1, E2; exact Hs).
  cbn [pointed] in Hpt. destruct Hpt as [Hd Hpt].
  pose proof (Hmk s Hs) as Hds.
  pose proof (set_visit_at_same_walls m0 m s Hsw) as Hsw1.
  pose proof (same_walls_grid_ok _ _ Hsw1 Hok0) as Hok1.
  cbn [mark_route].
  destruct s as [sr sc]. cbn [fst snd].
  rewrite (OFFSET_cell m sr sc Hok Hs'), (cell_update_set_visit m (sr, sc) Hok Hs').
  cbn [bind].
  assert (Hs1 : in_grid (n_rows (set_visit_at m (sr, sc))) (n_cols (set_visit_at m (sr, sc)))
                  (sr, sc)) by exact Hs'.
  rewrite (OFFSET_cell _ sr sc Hok1 Hs1), (cell_at_rd _ _ Hok1 Hs1). cbn [bind].
  rewrite set_visit_at_marker.
  rewrite (step_dir_neighbour _ sr sc (n_rows m0) (n_cols m0)) by (auto; try nia;
    rewrite Hd; auto).
  rewrite Hd. cbn [bind].
  destruct (cell_eq_dec y g) as [-> | Hyg].
  - (* the next cell is the goal *)
    assert (p = []).
    { destruct (walk_end _ _ _ _ Hw) as [[E _] | Hin]; auto.
      inversion Hnd as [|? ? _ Hnd']. inversion Hnd'. contradiction. }
    subst p. rewrite !Z.eqb_refl. cbn [negb orb].
    exists (set_visit_at m (sr, sc)). split; [reflexivity|]. split; [exact Hsw1|].
    split; [intros z; apply set_visit_at_marker|].
    intros z Hz. cbn [removelast].
    rewrite set_visit_at_visit by (rewrite ?E1, ?E2; auto).
    match goal with
    | |- context [in_dec ?a ?b ?c] => destruct (in_dec a b c) as [Hin | Hnin]
    end; destruct (cell_eq_dec z (sr, sc)) as [Ez | Hzs]; auto.
    + destruct Hin as [E | []]. congruence.
    + exfalso. apply Hnin. left. congruence.
  - assert (Hpne : p <> []).
    { intros ->. inversion Hw. contradiction. }
    replace (negb (fst y =? fst g) || negb (snd y =? snd g)) with true.
    2:{ symmetry. apply orb_true_iff.
        destruct (Z.eqb_spec (fst y) (fst g)) as [F1 | F1]; [|now left].
        destruct (Z.eqb_spec (snd y) (snd g)) as [F2 | F2]; [|now right].
        exfalso. apply Hyg. destruct y, g. cbn [fst snd] in *. congruence. }
    destruct (IH Hpne ltac:(now inversion Hnd) (set_visit_at m (sr, sc)) fuel Hsw1)
      as (m' & Hrun & Hsw' & Hmark' & Hvis).
    + apply (pointed_ext m); auto. intros z. apply set_visit_at_marker.
    + intros x Hx. rewrite set_visit_at_marker. now apply Hmk.
    + cbn [length] in Hfuel. lia.
    + exists m'. split; [exact Hrun|]. split; [exact Hsw'|].
      split; [intros z; rewrite Hmark'; apply set_visit_at_marker|].
      intros z Hz. rewrite (Hvis z Hz).
      rewrite set_visit_at_visit by (rewrite ?E1, ?E2; auto).
      change (removelast ((sr, sc) :: y :: p)) with ((sr, sc) :: removelast (y :: p)).
      destruct (in_dec cell_eq_dec z (removelast (y :: p))) as [H1 | H1];
        match goal with
        | |- context [in_dec ?a ?b ((sr, sc) :: ?c)] =>
            destruct (in_dec a b ((sr, sc) :: c)) as [H2 | H2]
        end; auto.
      * exfalso. apply H2. now right.
      * destruct H2 as [E | H2]; [|contradiction].
        destruct (cell_eq_dec z (sr, sc)); congruence.
      * destruct (cell_eq_dec z (sr, sc)) as [-> | Hzs]; auto.
        exfalso. apply H2. now left.
Qed.

(** ** maze_find_path between two distinct cells of a tree *)

Lemma cell_at_unmarked (mp : maze_t) (x : cell) :
  cell_at (with_cells mp (map unmarked (cells mp))) x = unmarked (cell_at mp x).
Proof.
  unfold cell_at. cbn [cells n_cols with_cells].
  change def_node with (unmarked def_node) at 1. apply map_nth.
Qed.

Lemma solver_inv_unmarked (mp : maze_t) :
  solver_inv mp (with_cells mp (map unmarked (cells mp))).
Proof.
  constructor.
  - unfold same_walls. cbn [n_rows n_cols cells with_cells]. rewrite length_map.
    repeat split; auto. intros x _.
    change (with_cells mp (map unmarked (cells mp)))
      with (with_cells mp (map unmarked (cells mp))).
    now rewrite cell_at_unmarked.
  - intros x _. rewrite cell_at_unmarked. cbn [unmarked marker]. unfold DIR_U. lia.
  - intros x _. rewrite cell_at_unmarked. reflexivity.
Qed.

Lemma walk_last (mp : maze_t) (s g : cell) (p : list cell) (d : cell) :
  walk mp s p g -> last (s :: p) d = g.
Proof.
  induction 1 as [s | s y g p Hp Hw IH]; [reflexivity|].
  change (last (s :: y :: p) d) with (last (y :: p) d). exact IH.
Qed.

Lemma find_path_on_tree (mp : maze_t) (s g : cell) :
  grid_ok mp -> spanning_tree mp -> boundary_closed mp ->
  in_grid (n_rows mp) (n_cols mp) s -> in_grid (n_rows mp) (n_cols mp) g -> s <> g ->
  exists (p : list cell) (N : nat),
    walk mp s p g /\ NoDup (s :: p) /\
    forall fuel, (N <= fuel)%nat ->
      exists mp',
        maze_find_path fuel mp (fst s) (snd s) (fst g) (snd g) = Ret mp' /\
        same_walls mp mp' /\ pointed mp' s p /\
        forall z, in_grid (n_rows mp) (n_cols mp) z ->
          (visit (cell_at mp' z) = true <-> In z (s :: p)).
Proof.
  intros Hok Htree Hcl Hs Hg Hsg.
  pose proof (spanning_tree_no_cycle mp Htree) as Hnc.
  destruct Htree as (_ & Hconn & Hbr).
  destruct (connected_simple_walk mp s g (Hconn s g Hs Hg)) as (p0 & Hw0 & Hnd0).
  set (m0 := with_cells mp (map unmarked (cells mp))).
  pose proof (solver_inv_unmarked mp) as I0. fold m0 in I0.
  destruct (search_travels mp g Hok Hcl Hnc s p0 Hw0 Hnd0 m0 I0) as (n & m1 & Hsteps & I1).
  destruct (steps_keep_trail mp s g Hok Hcl Hnc Hs (fun x Hx => Hconn x g Hx Hg)
              n m0 m1 s g Hsteps [] I0 (rwalk_start mp m0 s))
    as (_ & l & Hrw & Hndl).
  { constructor; [intros [] | constructor]. }
  destruct (rwalk_forward mp m1 s g l Hrw) as (p & Hw & Hpt & Erev).
  assert (Hnd : NoDup (s :: p)) by (rewrite Erev; now apply NoDup_rev).
  assert (Hpne : p <> []) by (intros ->; inversion Hw; contradiction).
  exists p, (Nat.max (S n) (length p)).
  split; [exact Hw|]. split; [exact Hnd|].
  intros fuel Hfuel.
  unfold maze_find_path. rewrite maze_unmark_spec by auto. cbn [bind]. fold m0.
  assert (Hsearch : search fuel m0 (fst s) (snd s) (fst g) (snd g) = Ret m1).
  { replace fuel with (n + S (fuel - S n))%nat by lia.
    rewrite (search_after_steps g n m0 m1 s g Hsteps). apply search_at_goal. }
  rewrite Hsearch. cbn [bind].
  destruct (mark_route_spec mp g Hok s p Hw Hpne Hnd m1 fuel (si_walls _ _ I1) Hpt
              (si_marks _ _ I1)) as (m2 & Hmark & Hsw2 & Hmk2 & Hvis); [lia|].
  rewrite Hmark. cbn [bind].
  pose proof (same_walls_grid_ok _ _ Hsw2 Hok) as Hok2.
  pose proof Hsw2 as (E1 & E2 & _).
  assert (Hg2 : in_grid (n_rows m2) (n_cols m2) g) by (rewrite E1, E2; exact Hg).
  rewrite (OFFSET_off m2 g Hok2 Hg2), (cell_update_set_visit m2 g Hok2 Hg2).
  exists (set_visit_at m2 g). split; [reflexivity|].
  split; [now apply set_visit_at_same_walls|]. split.
  - apply (pointed_ext m1); auto. intros z.
    rewrite set_visit_at_marker. apply Hmk2.
  - intros z Hz.
    rewrite set_visit_at_visit by (rewrite ?E1, ?E2; auto).
    rewrite (Hvis z Hz), (si_visit _ _ I1 z Hz).
    assert (Hsplit : s :: p = removelast (s :: p) ++ [g]).
    { pose proof (@app_removelast_last cell (s :: p) s ltac:(discriminate)) as E.
      now rewrite (walk_last mp s g p s Hw) in E. }
    destruct (cell_eq_dec z g) as [-> | Hzg].
    + split; auto. intros _. rewrite Hsplit. apply in_or_app. right. now left.
    + destruct (in_dec cell_eq_dec z (removelast (s :: p))) as [Hin | Hnin].
      * split; auto. intros _. rewrite Hsplit. apply in_or_app. now left.
      * split; [discriminate|]. intros H. rewrite Hsplit in H.
        apply in_app_or in H. destruct H as [H | [H | []]]; [contradiction | congruence].
Qed.

(** * The stored form of a maze *)

(** ** Numbers *)

Lemma digits_are_digits (fuel : nat) (n : Z) :
  0 <= n -> Forall (fun c => isdigit c = true) (digits fuel n).
Proof.
  revert n. induction fuel as [|fuel IH]; intros n Hn; cbn [digits]; [constructor|].
  apply Forall_app. split.
  - destruct (n <? 10); [constructor|]. apply IH. apply Z.div_pos; lia.
  - constructor; [|constructor].
    pose proof (Z.mod_pos_bound n 10 ltac:(lia)). unfold isdigit.
    apply andb_true_iff. split; [apply Z.leb_le | apply Z.leb_le]; lia.
Qed.

Lemma digits_nonempty (fuel : nat) (n : Z) : digits (S fuel) n <> [].
Proof. cbn [digits]. intros H. apply app_eq_nil in H. destruct H. discriminate. Qed.

Lemma scan_digits_stop (ifp : list Z) (acc : Z) :
  (forall c t, ifp = c :: t -> isdigit c = false) -> scan_digits ifp acc = (acc, ifp).
Proof.
  intros H. destruct ifp as [|c t]; [reflexivity|].
  cbn [scan_digits]. now rewrite (H c t eq_refl).
Qed.

Lemma scan_digits_app (fuel : nat) :
  forall (n acc : Z) (rest : list Z),
    0 <= n < 10 ^ Z.of_nat fuel ->
    fst (scan_digits (digits fuel n ++ rest) acc) =
    fst (scan_digits rest (acc * 10 ^ Z.of_nat (length (digits fuel n)) + n)) /\
    snd (scan_digits (digits fuel n ++ rest) acc) =
    snd (scan_digits rest (acc * 10 ^ Z.of_nat (length (digits fuel n)) + n)).
Proof.
  induction fuel as [|fuel IH]; intros n acc rest Hn.
  - cbn [digits app length]. change (10 ^ Z.of_nat 0) with 1 in *.
    replace n with 0 by lia. now rewrite Z.mul_1_r, Z.add_0_r.
  - cbn [digits].
    pose proof (Z.mod_pos_bound n 10 ltac:(lia)) as Hm.
    pose proof (Z.div_mod n 10 ltac:(lia)) as Edm.
    assert (Hd : isdigit (48 + n mod 10) = true).
    { unfold isdigit. apply andb_true_iff. split; apply Z.leb_le; lia. }
    destruct (Z.ltb_spec n 10) as [Hlt | Hge].
    + cbn [app length scan_digits]. rewrite Hd.
      change (10 ^ Z.of_nat 1) with 10.
      rewrite Z.mod_small by lia.
      replace (acc * 10 + (48 + n - 48)) with (acc * 10 + n) by lia. auto.
    + rewrite <- app_assoc.
      assert (Hq : 0 <= n / 10 < 10 ^ Z.of_nat fuel).
      { split; [apply Z.div_pos; lia|]. apply Z.div_lt_upper_bound; [lia|].
        rewrite Nat2Z.inj_succ, Z.pow_succ_r in Hn by lia. lia. }
      destruct (IH (n / 10) acc ([48 + n mod 10] ++ rest) Hq) as [E1 E2].
      rewrite E1, E2. cbn [app scan_digits]. rewrite Hd.
      rewrite length_app. cbn [length]. rewrite Nat.add_1_r, Nat2Z.inj_succ, Z.pow_succ_r by lia.
      set (L := 10 ^ Z.of_nat (length (digits fuel (n / 10)))).
      replace ((acc * L + n / 10) * 10 + (48 + n mod 10 - 48))
        with (acc * (10 * L) + n) by lia.
      auto.
Qed.

Lemma isdigit_not_space (c : Z) : isdigit c = true -> isspace c = false.
Proof.
  unfold isdigit, isspace. intros H. apply andb_true_iff in H.
  destruct H as [H1 H2]. apply Z.leb_le in H1, H2.
  apply orb_false_iff. split; [apply Z.eqb_neq; lia|].
  apply andb_false_iff. right. apply Z.leb_gt. lia.
Qed.

(** Reading back a printed number, when what follows is not a digit. *)
Lemma scan_u_print_u (n : Z) (rest : list Z) :
  0 <= n < wB -> (forall c t, rest = c :: t -> isdigit c = false) ->
  scan_u (print_u n ++ rest) = Ret (Some (n, rest)).
Proof.
  intros Hn Hrest. unfold scan_u, print_u.
  assert (Hn10 : 0 <= n < 10 ^ Z.of_nat 10) by (rewrite wB_val in Hn; cbn; lia).
  pose proof (digits_are_digits 10 n ltac:(lia)) as Hall.
  pose proof (digits_nonempty 9 n) as Hne.
  destruct (scan_digits_app 10 n 0 rest Hn10) as [E1 E2].
  rewrite (scan_digits_stop rest _ Hrest) in E1, E2. cbn [fst snd] in E1, E2.
  rewrite Z.mul_0_l, Z.add_0_l in E1.
  destruct (digits 10 n) as [|c t] eqn:Ed; [contradiction|].
  pose proof (Forall_inv Hall) as Hc. cbn beta in Hc.
  cbn [app skip_ws]. rewrite (isdigit_not_space c Hc).
  assert (Hc45 : (c =? 45) = false /\ (c =? 43) = false).
  { unfold isdigit in Hc. apply andb_true_iff in Hc. destruct Hc as [H1 H2].
    apply Z.leb_le in H1, H2. split; apply Z.eqb_neq; lia. }
  destruct Hc45 as [-> ->]. rewrite Hc.
  change (c :: t ++ rest) with ((c :: t) ++ rest).
  destruct (scan_digits ((c :: t) ++ rest) 0) as [v s3]. cbn [fst snd] in E1, E2.
  subst v s3.
  replace (n <? wB) with true by (symmetry; apply Z.ltb_lt; lia). reflexivity.
Qed.

Lemma scan_u_space (ifp : list Z) : scan_u (32 :: ifp) = scan_u ifp.
Proof. reflexivity. Qed.

Lemma scan_header_store_header (mp : maze_t) (rest : list Z) :
  0 <= n_rows mp < wB -> 0 <= n_cols mp < wB ->
  0 <= exit_1 mp < wB -> 0 <= exit_2 mp < wB ->
  scan_header (store_header mp ++ rest) =
  Ret (Some (n_rows mp, n_cols mp, exit_1 mp, exit_2 mp, skip_ws rest)).
Proof.
  intros Hr Hc H1 H2. unfold scan_header, store_header.
  assert (Hsp : forall l c t, 32 :: l = c :: t -> isdigit c = false)
    by (intros l c t E; inversion E; reflexivity).
  assert (Hnl : forall l c t, 10 :: l = c :: t -> isdigit c = false)
    by (intros l c t E; inversion E; reflexivity).
  repeat rewrite <- app_assoc. cbn [app].
  rewrite scan_u_print_u by (auto; apply Hsp). cbn [bind]. rewrite scan_u_space.
  rewrite scan_u_print_u by (auto; apply Hsp). cbn [bind]. rewrite scan_u_space.
  rewrite scan_u_print_u by (auto; apply Hsp). cbn [bind]. rewrite scan_u_space.
  rewrite scan_u_print_u by (auto; apply Hnl). cbn [bind].
  reflexivity.
Qed.

(** ** Cells *)

Lemma store_cell_range (n : maze_node) :
  0 <= marker n < 4 -> 65 <= store_cell n <= 112.
Proof.
  intros Hm. destruct n as [rw bw mk vis]. cbn [marker] in Hm.
  assert (mk = 0 \/ mk = 1 \/ mk = 2 \/ mk = 3) as [-> | [-> | [-> | ->]]] by lia;
    destruct rw, bw, vis; vm_compute; split; discriminate.
Qed.

Lemma load_store_cell (n : maze_node) :
  0 <= marker n < 4 -> load_cell (store_cell n mod 256) = n.
Proof.
  intros Hm. destruct n as [rw bw mk vis]. cbn [marker] in Hm.
  assert (mk = 0 \/ mk = 1 \/ mk = 2 \/ mk = 3) as [-> | [-> | [-> | ->]]] by lia;
    destruct rw, bw, vis; vm_compute; reflexivity.
Qed.

Lemma store_cell_char (n : maze_node) :
  0 <= marker n < 4 ->
  isspace (store_cell n mod 256) = false /\ (store_cell n mod 256 =? EOF) = false.
Proof.
  intros Hm. pose proof (store_cell_range n Hm) as Hr.
  rewrite Z.mod_small by lia. unfold isspace, EOF. split.
  - apply orb_false_iff. split; [apply Z.eqb_neq; lia|].
    apply andb_false_iff. right. apply Z.leb_gt. lia.
  - apply Z.eqb_neq. lia.
Qed.

(** ** maze_store *)

Lemma skipn_cons_nth {A : Type} (l : list A) (i : nat) (d : A) :
  (i < length l)%nat -> skipn i l = nth i l d :: skipn (S i) l.
Proof.
  revert i. induction l as [|h t IH]; intros i Hi; cbn [length] in Hi; [lia|].
  destruct i as [|i]; [reflexivity|]. cbn [skipn nth]. apply IH. lia.
Qed.

Lemma cell_at_rd_idx (cs : list maze_node) (idx : Z) :
  0 <= idx < Z.of_nat (length cs) -> rd cs idx = Ret (nth (Z.to_nat idx) cs def_node).
Proof. intros H. apply rd_ret. split; auto. apply nth_error_nth'. lia. Qed.

Lemma maze_store_spec (mp : maze_t) (ofp : list Z) :
  grid_ok mp ->
  maze_store mp ofp = Ret (ofp ++ store_header mp ++ store_body (cells mp) 0).
Proof.
  intros Hok. pose proof Hok as (Hr & Hc & Hn & Hl).
  set (nr := n_rows mp) in *. set (nc := n_cols mp) in *. set (cs := cells mp) in *.
  set (Inv := fun (idx : Z) (st : list Z * Z) =>
    snd st = idx mod LINE_WIDTH /\
    exists pre, fst st = ofp ++ store_header mp ++ pre /\
                pre ++ store_body (skipn (Z.to_nat idx) cs) (snd st) = store_body cs 0).
  assert (Hstep : forall r c st, 0 <= r < nr -> 0 <= c < nc -> Inv (r * nc + c) st ->
            exists st', store_col mp r c st = Ret st' /\ Inv (r * nc + c + 1) st').
  { intros r c [out pos] Hrr Hcc (Hpos & pre & Hout & Hpre). cbn [fst snd] in *.
    destruct (OFFSET_small mp r c Hok Hrr Hcc) as [Eoff Hrange]. fold nc nr in Eoff, Hrange.
    set (idx := r * nc + c) in *.
    unfold store_col. rewrite Eoff. fold cs.
    rewrite (cell_at_rd_idx cs idx) by lia. cbn [bind].
    pose proof (Z.mod_pos_bound idx LINE_WIDTH ltac:(reflexivity)) as Hp.
    rewrite (wrap_small (pos + 1)) by (rewrite wB_val, Hpos; unfold LINE_WIDTH in *; lia).
    assert (Epos1 : (pos + 1) mod LINE_WIDTH = (idx + 1) mod LINE_WIDTH).
    { rewrite Hpos. apply Zplus_mod_idemp_l. }
    rewrite (skipn_cons_nth cs (Z.to_nat idx) def_node) in Hpre by lia.
    cbn [store_body] in Hpre.
    replace (S (Z.to_nat idx)) with (Z.to_nat (idx + 1)) in Hpre by lia.
    unfold fputc.
    destruct ((pos + 1) mod LINE_WIDTH =? 0) eqn:Enl.
    - eexists. split; [reflexivity|]. split; [exact Epos1|]. cbn [fst snd].
      exists (pre ++ [store_cell (nth (Z.to_nat idx) cs def_node) mod 256] ++ [10]).
      split.
      + rewrite Hout. change (10 mod 256) with 10. now rewrite <- !app_assoc.
      + rewrite <- Hpre. now rewrite <- !app_assoc.
    - eexists. split; [reflexivity|]. split; [exact Epos1|]. cbn [fst snd].
      exists (pre ++ [store_cell (nth (Z.to_nat idx) cs def_node) mod 256]).
      split.
      + rewrite Hout. now rewrite <- !app_assoc.
      + rewrite <- Hpre. now rewrite <- !app_assoc. }
  unfold maze_store. fold nr nc.
  destruct (for_up_total (fun r st => Inv (r * nc) st)
              (fun r st => for_up (Z.to_nat nc) 0 (store_col mp r) st)
              (Z.to_nat nr) 0 (ofp ++ store_header mp, 0))
    as [[out pos] [Hrun (Hpos & pre & Hout & Hpre)]].
  - intros r st Hrr HI.
    destruct (for_up_total (fun c st => Inv (r * nc + c) st) (store_col mp r)
                (Z.to_nat nc) 0 st) as [st' [Hrun' HI']].
    + intros c t Hcc Ht.
      replace (r * nc + (c + 1)) with (r * nc + c + 1) by lia.
      apply Hstep; auto; lia.
    + now rewrite Z.add_0_r.
    + exists st'. split; auto.
      replace ((r + 1) * nc) with (r * nc + (0 + Z.of_nat (Z.to_nat nc))) by lia.
      exact HI'.
  - unfold Inv. cbn [fst snd]. split; [reflexivity|].
    exists []. split; [now rewrite app_nil_r | reflexivity].
  - rewrite Hrun. cbn [bind fst snd] in *.
    replace ((0 + Z.of_nat (Z.to_nat nr)) * nc) with (Z.of_nat (length cs)) in Hpre
      by (fold cs in Hl; lia).
    rewrite Nat2Z.id, skipn_all in Hpre. cbn [store_body] in Hpre.
    rewrite Hout. unfold fputc.
    destruct (pos =? 0); cbn [negb]; rewrite <- Hpre.
    + now rewrite app_nil_r.
    + change (10 mod 256) with 10. now rewrite <- !app_assoc.
Qed.

(** * Loading what maze_store wrote *)

Lemma for_up_ret_total {S R : Type} (Inv : Z -> S -> Prop)
  (body : Z -> S -> outcome (S + R)) :
  forall (n : nat) (lo : Z) (s : S),
    (forall i t, lo <= i < lo + Z.of_nat n -> Inv i t ->
                 exists t', body i t = Ret (inl t') /\ Inv (i + 1) t') ->
    Inv lo s ->
    exists s', for_up_ret n lo body s = Ret (inl s') /\ Inv (lo + Z.of_nat n) s'.
Proof.
  induction n as [|n IH]; intros lo s Hstep H0; cbn [for_up_ret].
  - exists s. split; auto. now replace (lo + Z.of_nat 0) with lo by lia.
  - destruct (Hstep lo s) as [t [Hb Ht]]; auto; [lia|].
    rewrite Hb. cbn [bind].
    replace (lo + Z.of_nat (Datatypes.S n)) with ((lo + 1) + Z.of_nat n) by lia.
    apply IH; auto. intros i u Hi. apply Hstep. lia.
Qed.

Lemma skip_space_nonspace (ifp : list Z) (ch : Z) :
  isspace ch = false -> skip_space ifp ch = (ch, ifp).
Proof. intros H. destruct ifp; cbn [skip_space]; now rewrite H. Qed.

Lemma skip_space_result (ifp : list Z) :
  forall ch ch' rest, skip_space ifp ch = (ch', rest) -> isspace ch' = false.
Proof.
  induction ifp as [|c t IH]; intros ch ch' rest H; cbn [skip_space] in H;
    destruct (isspace ch) eqn:E.
  - inversion H. reflexivity.
  - inversion H; subst. exact E.
  - eapply IH; eauto.
  - inversion H; subst. exact E.
Qed.

Lemma next_char_nonspace (ifp : list Z) (ch : Z) (rest : list Z) :
  next_char ifp = (ch, rest) -> isspace ch = false.
Proof.
  destruct ifp as [|c t]; cbn [next_char]; intros H.
  - inversion H. reflexivity.
  - eapply skip_space_result; eauto.
Qed.

Lemma next_char_space (c : Z) (ifp : list Z) :
  isspace c = true -> next_char (c :: ifp) = next_char ifp.
Proof. intros H. cbn [next_char]. destruct ifp; cbn [skip_space]; now rewrite H. Qed.

Lemma next_char_skip_ws (ifp : list Z) : next_char (skip_ws ifp) = next_char ifp.
Proof.
  induction ifp as [|c t IH]; [reflexivity|].
  cbn [skip_ws]. destruct (isspace c) eqn:E; [|reflexivity].
  now rewrite IH, next_char_space.
Qed.

Lemma fgetc_skip_space (ifp : list Z) :
  skip_space (snd (fgetc ifp)) (fst (fgetc ifp)) = next_char ifp.
Proof. destruct ifp; reflexivity. Qed.

Lemma next_char_store_body (n : maze_node) (t : list maze_node) (pos : Z) :
  0 <= marker n < 4 ->
  next_char (store_body (n :: t) pos) =
  (store_cell n mod 256,
   (if (pos + 1) mod LINE_WIDTH =? 0 then [10] else []) ++
   store_body t ((pos + 1) mod LINE_WIDTH)).
Proof.
  intros Hm. cbn [store_body app next_char].
  apply skip_space_nonspace. now apply store_cell_char.
Qed.

Lemma next_char_newline (nl : bool) (ifp : list Z) :
  next_char ((if nl then [10] else []) ++ ifp) = next_char ifp.
Proof. destruct nl; [apply next_char_space|]; reflexivity. Qed.

Lemma upd_app_mid {A : Type} (l1 l2 : list A) (a b : A) (i : nat) :
  i = length l1 -> upd (l1 ++ a :: l2) i b = l1 ++ b :: l2.
Proof.
  intros ->. induction l1 as [|h t IH]; cbn [app length upd]; [reflexivity | now rewrite IH].
Qed.

Lemma firstn_snoc_nth {A : Type} (l : list A) (i : nat) (d : A) :
  (i < length l)%nat -> firstn (S i) l = firstn i l ++ [nth i l d].
Proof.
  revert i. induction l as [|h t IH]; intros i Hi; cbn [length] in Hi; [lia|].
  destruct i as [|i]; [reflexivity|].
  cbn [firstn nth app]. f_equal. apply IH. lia.
Qed.

(** The loading loops on the body that [maze_store] writes for [cs]. *)
Lemma load_rows_store_body (m0 : maze_t) (cs : list maze_node) (ch : Z) (ifp : list Z) :
  grid_ok m0 -> length cs = length (cells m0) ->
  Forall (fun n => 0 <= marker n < 4) cs ->
  skip_space ifp ch = next_char (store_body cs 0) ->
  exists ch' ifp',
    for_up_ret (Z.to_nat (n_rows m0)) 0 (load_row (n_cols m0)) (m0, ch, ifp) =
    Ret (inl (with_cells m0 cs, ch', ifp')).
Proof.
  intros Hok Hlen Hmk Hstart. pose proof Hok as (Hr & Hc & Hn & Hl).
  set (nr := n_rows m0) in *. set (nc := n_cols m0) in *.
  set (cells_at := fun idx : Z =>
         firstn (Z.to_nat idx) cs ++ skipn (Z.to_nat idx) (cells m0)).
  set (rest_at := fun idx : Z =>
         next_char (store_body (skipn (Z.to_nat idx) cs) (idx mod LINE_WIDTH))).
  set (InvIn := fun (idx : Z) (st : maze_t * Z * list Z) =>
         fst (fst st) = with_cells m0 (cells_at idx) /\
         (snd (fst st), snd st) = rest_at idx).
  set (InvOut := fun (idx : Z) (st : maze_t * Z * list Z) =>
         fst (fst st) = with_cells m0 (cells_at idx) /\
         skip_space (snd st) (snd (fst st)) = rest_at idx).
  assert (Hcol : forall r c st, 0 <= r < nr -> 0 <= c < nc -> InvIn (r * nc + c) st ->
            exists st', load_col r c st = Ret (inl st') /\ InvIn (r * nc + c + 1) st').
  { intros r c [[m ch0] ifp0] Hrr Hcc [Hm Hrest]. cbn [fst snd] in Hm, Hrest.
    destruct (OFFSET_small m0 r c Hok Hrr Hcc) as [Eoff Hrange]. fold nc nr in Eoff, Hrange.
    set (idx := r * nc + c) in *.
    assert (Hidx : (Z.to_nat idx < length cs)%nat) by lia.
    unfold rest_at in Hrest.
    rewrite (skipn_cons_nth cs (Z.to_nat idx) def_node Hidx) in Hrest.
    assert (Hmk0 : 0 <= marker (nth (Z.to_nat idx) cs def_node) < 4).
    { rewrite Forall_forall in Hmk. apply Hmk. now apply nth_In. }
    rewrite (next_char_store_body _ _ _ Hmk0) in Hrest.
    inversion Hrest as [[Ech Eifp]]. clear Hrest.
    unfold load_col.
    destruct (store_cell_char _ Hmk0) as [_ Heof]. rewrite Heof.
    assert (Eoff' : OFFSET m r c = idx) by (subst m; exact Eoff).
    rewrite Eoff'.
    assert (Hlenm : length (cells m) = length (cells m0)).
    { subst m. cbn [cells with_cells]. unfold cells_at.
      rewrite length_app, length_firstn, length_skipn. lia. }
    rewrite wr_total by lia. cbn [bind].
    rewrite (load_store_cell _ Hmk0).
    pose proof (fgetc_skip_space
                  ((if (idx mod LINE_WIDTH + 1) mod LINE_WIDTH =? 0 then [10] else []) ++
                   store_body (skipn (S (Z.to_nat idx)) cs)
                     ((idx mod LINE_WIDTH + 1) mod LINE_WIDTH))) as Hnext.
    rewrite next_char_newline in Hnext.
    destruct (fgetc _) as [c1 ifp1]. cbn [fst snd] in Hnext.
    destruct (skip_space ifp1 c1) as [ch1 ifp2] eqn:Esk.
    eexists. split; [reflexivity|].
    split; cbn [fst snd].
    - subst m. cbn [cells with_cells]. unfold with_cells. cbn [n_rows n_cols sets exit_1 exit_2].
      f_equal. unfold cells_at.
      replace (Z.to_nat (idx + 1)) with (S (Z.to_nat idx)) by lia.
      rewrite (firstn_snoc_nth cs (Z.to_nat idx) def_node Hidx), <- app_assoc.
      cbn [app].
      rewrite (skipn_cons_nth (cells m0) (Z.to_nat idx) def_node) by lia.
      assert (Elen : length (firstn (Z.to_nat idx) cs) = Z.to_nat idx)
        by (rewrite length_firstn; lia).
      apply upd_app_mid. now rewrite Elen.
    - rewrite Hnext. unfold rest_at.
      replace (Z.to_nat (idx + 1)) with (S (Z.to_nat idx)) by lia.
      now rewrite Zplus_mod_idemp_l. }
  destruct (for_up_ret_total (fun r st => InvOut (r * nc) st) (load_row nc)
              (Z.to_nat nr) 0 (m0, ch, ifp)) as [[[m' ch'] ifp'] [Hrun [Hm' _]]].
  - intros r [[m ch0] ifp0] Hrr [Hm Hrest]. cbn [fst snd] in Hm, Hrest.
    unfold load_row.
    destruct (skip_space ifp0 ch0) as [ch1 ifp1] eqn:Esk.
    destruct (for_up_ret_total (fun c st => InvIn (r * nc + c) st) (load_col r)
                (Z.to_nat nc) 0 (m, ch1, ifp1)) as [[[m2 ch2] ifp2] [Hrun' [Hm2 Hrest2]]].
    + intros c t Hcc Ht.
      replace (r * nc + (c + 1)) with (r * nc + c + 1) by lia.
      apply Hcol; auto; lia.
    + rewrite Z.add_0_r. split; cbn [fst snd]; auto.
    + cbn [fst snd] in Hm2, Hrest2.
      exists (m2, ch2, ifp2). split; [exact Hrun'|].
      replace ((r + 1) * nc) with (r * nc + (0 + Z.of_nat (Z.to_nat nc))) by lia.
      split; cbn [fst snd]; auto.
      rewrite <- Hrest2. apply skip_space_nonspace.
      unfold rest_at in Hrest2. symmetry in Hrest2.
      eapply next_char_nonspace; eauto.
  - split; cbn [fst snd].
    + unfold cells_at. cbn [Z.to_nat firstn skipn app Z.mul]. now destruct m0.
    + unfold rest_at. cbn [Z.to_nat skipn Z.mul]. exact Hstart.
  - cbn [fst snd] in Hm'. exists ch', ifp'. rewrite Hrun. subst m'.
    repeat f_equal. unfold cells_at.
    replace (Z.to_nat ((0 + Z.of_nat (Z.to_nat nr)) * nc)) with (length cs) by lia.
    rewrite firstn_all, Hlen, skipn_all. apply app_nil_r.
Qed.

Lemma maze_load_stored (EXIT : rowcol_t -> Z -> rowcol_t) (junk : nat -> maze_node)
  (old mp : maze_t) :
  grid_ok mp -> Forall (fun n => 0 <= marker n < 4) (cells mp) ->
  0 <= exit_1 mp < wB -> 0 <= exit_2 mp < wB ->
  maze_load EXIT (Some junk) old (store_header mp ++ store_body (cells mp) 0) =
  Ret (1, mk_maze (n_rows mp) (n_cols mp) (cells mp) [] (exit_1 mp) (exit_2 mp)).
Proof.
  intros Hok Hmk He1 He2. pose proof Hok as (Hr & Hc & Hn & Hl).
  unfold maze_load.
  rewrite scan_header_store_header by (auto; nia). cbn [bind].
  rewrite maze_init_succeeds by auto. cbn [bind Z.eqb].
  set (m2 := with_exits _ (exit_1 mp) (exit_2 mp)).
  pose proof (fgetc_skip_space (skip_ws (store_body (cells mp) 0))) as Hstart.
  rewrite next_char_skip_ws in Hstart.
  destruct (fgetc (skip_ws (store_body (cells mp) 0))) as [ch ifp2].
  cbn [fst snd] in Hstart.
  assert (Hok2 : grid_ok m2).
  { unfold grid_ok, m2. cbn [with_exits n_rows n_cols cells].
    rewrite repeat_length. repeat split; auto. lia. }
  destruct (load_rows_store_body m2 (cells mp) ch ifp2 Hok2) as (ch' & ifp' & Hrun); auto.
  { unfold m2. cbn [with_exits cells]. rewrite repeat_length. lia. }
  change (n_rows m2) with (n_rows mp) in Hrun. change (n_cols m2) with (n_cols mp) in Hrun.
  rewrite Hrun. cbn [bind]. reflexivity.
Qed.

(** * The text rendering *)

(** ** Opening the exits *)

Lemma open_exit_rd_eq (mp : maze_t) (p dir : rowcol_t) :
  open_exit_rd mp p dir = open_exit mp p dir.
Proof.
  unfold open_exit_rd, open_exit.
  destruct (Z.eqb_spec dir DIR_R) as [-> | H1]; [reflexivity|].
  destruct (dir =? DIR_D); reflexivity.
Qed.

Lemma open_exit_other_side (mp : maze_t) (p dir : rowcol_t) :
  dir <> DIR_D -> dir <> DIR_R -> open_exit mp p dir = Ret mp.
Proof.
  intros H1 H2. unfold open_exit.
  destruct (Z.eqb_spec dir DIR_D); [contradiction|].
  destruct (Z.eqb_spec dir DIR_R); [contradiction | reflexivity].
Qed.

Lemma open_exit_spec (mp : maze_t) (p dir : rowcol_t) :
  grid_ok mp -> dir = DIR_D \/ dir = DIR_R -> exit_in_range mp p dir ->
  in_grid (n_rows mp) (n_cols mp) (exit_cell_of mp p dir) /\
  open_exit mp p dir =
  Ret (with_cells mp (upd (cells mp) (Z.to_nat (off (n_cols mp) (exit_cell_of mp p dir)))
                          (open_wall dir (cell_at mp (exit_cell_of mp p dir))))).
Proof.
  intros Hok Hdir [HD HR]. pose proof Hok as (Hr & Hc & Hn & Hl).
  assert (HwB : n_rows mp < wB /\ n_cols mp < wB) by nia.
  unfold open_exit, exit_cell_of, open_wall.
  destruct Hdir as [-> | ->]; cbn [Z.eqb DIR_D DIR_R Pos.eqb].
  - specialize (HD eq_refl).
    assert (Hx : in_grid (n_rows mp) (n_cols mp) (n_rows mp - 1, p))
      by (unfold in_grid; cbn [fst snd]; lia).
    split; [exact Hx|].
    rewrite wrap_small by lia. rewrite (OFFSET_cell mp _ _ Hok Hx).
    exact (cell_update_spec mp _ (fun n => set_b_wall n false) Hok Hx).
  - specialize (HR eq_refl).
    assert (Hx : in_grid (n_rows mp) (n_cols mp) (p, n_cols mp - 1))
      by (unfold in_grid; cbn [fst snd]; lia).
    split; [exact Hx|].
    rewrite wrap_small by lia. rewrite (OFFSET_cell mp _ _ Hok Hx).
    exact (cell_update_spec mp _ (fun n => set_r_wall n false) Hok Hx).
Qed.

Lemma open_exit_grid_ok (mp mp' : maze_t) (p dir : rowcol_t) :
  grid_ok mp -> exit_in_range mp p dir -> open_exit mp p dir = Ret mp' ->
  grid_ok mp' /\ n_rows mp' = n_rows mp /\ n_cols mp' = n_cols mp /\
  exit_1 mp' = exit_1 mp /\ exit_2 mp' = exit_2 mp.
Proof.
  intros Hok Hin Hrun.
  destruct (Z.eq_dec dir DIR_D) as [HD | HD]; [|destruct (Z.eq_dec dir DIR_R) as [HR | HR]].
  - destruct (open_exit_spec mp p dir Hok (or_introl HD) Hin) as [_ E].
    rewrite E in Hrun. inversion Hrun; subst mp'.
    split; [|repeat split]. unfold grid_ok. cbn [n_rows n_cols cells with_cells].
    rewrite length_upd. exact Hok.
  - destruct (open_exit_spec mp p dir Hok (or_intror HR) Hin) as [_ E].
    rewrite E in Hrun. inversion Hrun; subst mp'.
    split; [|repeat split]. unfold grid_ok. cbn [n_rows n_cols cells with_cells].
    rewrite length_upd. exact Hok.
  - rewrite open_exit_other_side in Hrun by auto. inversion Hrun; subst mp'.
    repeat split; auto; apply Hok.
Qed.


(** ** The lines drawn *)

Lemma for_up_append (f : Z -> list Z) (body : Z -> list Z -> outcome (list Z)) :
  forall (n : nat) (lo : Z) (out : list Z),
    (forall i o, lo <= i < lo + Z.of_nat n -> body i o = Ret (o ++ f i)) ->
    for_up n lo body out =
    Ret (out ++ concat (map (fun k => f (lo + Z.of_nat k)) (seq 0 n))).
Proof.
  induction n as [|n IH]; intros lo out Hb; cbn [for_up].
  - cbn. now rewrite app_nil_r.
  - rewrite Hb by lia. cbn [bind]. rewrite IH by (intros; apply Hb; lia).
    cbn [seq map concat]. rewrite <- seq_shift, map_map.
    rewrite <- app_assoc. replace (lo + Z.of_nat 0) with lo by lia.
    do 4 f_equal. apply map_ext. intros k. f_equal. lia.
Qed.

Lemma for_up_over_cols (f : Z -> list Z) (body : Z -> list Z -> outcome (list Z))
  (n : Z) (out : list Z) :
  (forall i o, 0 <= i < n -> body i o = Ret (o ++ f i)) ->
  for_up (Z.to_nat n) 0 body out = Ret (out ++ over_cols n f).
Proof.
  intros Hb. rewrite (for_up_append f) by (intros; apply Hb; lia).
  reflexivity.
Qed.

Lemma concat_uniform_length {A : Type} (g : nat -> list A) (w : nat) :
  forall n a, (forall k, (a <= k < a + n)%nat -> length (g k) = w) ->
  length (concat (map g (seq a n))) = (w * n)%nat.
Proof.
  induction n as [|n IH]; intros a Hlen; cbn [seq map concat]; [cbn; lia|].
  rewrite length_app, Hlen by lia. rewrite IH by (intros; apply Hlen; lia). lia.
Qed.

Lemma concat_uniform_nth {A : Type} (g : nat -> list A) (w : nat) (d : A) :
  forall n a i j, (forall k, (a <= k < a + n)%nat -> length (g k) = w) ->
  (i < n)%nat -> (j < w)%nat ->
  nth (w * i + j) (concat (map g (seq a n))) d = nth j (g (a + i)%nat) d.
Proof.
  induction n as [|n IH]; intros a i j Hlen Hi Hj; [lia|].
  cbn [seq map concat]. destruct i as [|i].
  - replace (w * 0 + j)%nat with j by lia.
    rewrite app_nth1 by (rewrite Hlen; lia).
    now replace (a + 0)%nat with a by lia.
  - rewrite app_nth2 by (rewrite Hlen by lia; nia). rewrite Hlen by lia.
    replace (w * S i + j - w)%nat with (w * i + j)%nat by nia.
    rewrite IH by (try lia; intros; apply Hlen; lia).
    now replace (S a + i)%nat with (a + S i)%nat by lia.
Qed.

Lemma concat_uniform_in {A : Type} (g : nat -> list A) (x : A) (l : list nat) :
  In x (concat (map g l)) -> exists k, In x (g k).
Proof.
  intros H. apply in_concat in H. destruct H as [y [Hy Hx]].
  apply in_map_iff in Hy. destruct Hy as [k [<- _]]. now exists k.
Qed.

Lemma over_cols_length (n : Z) (f : Z -> list Z) (w : nat) :
  0 <= n -> (forall c, length (f c) = w) ->
  Z.of_nat (length (over_cols n f)) = Z.of_nat w * n.
Proof.
  intros Hn Hlen. unfold over_cols.
  rewrite (concat_uniform_length (fun k => f (Z.of_nat k)) w) by (intros; apply Hlen).
  lia.
Qed.

Lemma over_cols_nth (n : Z) (f : Z -> list Z) (w : nat) (c j : Z) :
  (forall c, length (f c) = w) -> 0 <= c < n -> 0 <= j < Z.of_nat w ->
  nth (Z.to_nat (Z.of_nat w * c + j)) (over_cols n f) 0 = nth (Z.to_nat j) (f c) 0.
Proof.
  intros Hlen Hc Hj. unfold over_cols.
  replace (Z.to_nat (Z.of_nat w * c + j)) with (w * Z.to_nat c + Z.to_nat j)%nat by nia.
  rewrite (concat_uniform_nth (fun k => f (Z.of_nat k)) w 0)
    by (try lia; intros; apply Hlen).
  cbn [Nat.add]. now rewrite Z2Nat.id by lia.
Qed.

Lemma over_cols_no_newline (n : Z) (f : Z -> list Z) :
  (forall c, ~ In 10 (f c)) -> ~ In 10 (over_cols n f).
Proof.
  intros Hf H. unfold over_cols in H.
  apply (concat_uniform_in (fun k => f (Z.of_nat k))) in H.
  destruct H as [k Hk]. exact (Hf _ Hk).
Qed.

Lemma text_cell_spec (mp : maze_t) (r c : Z) (o : list Z) :
  grid_ok mp -> in_grid (n_rows mp) (n_cols mp) (r, c) ->
  text_cell mp r c o = Ret (o ++ cell_chars mp r c).
Proof.
  intros Hok Hx. unfold text_cell.
  rewrite (OFFSET_cell mp r c Hok Hx), (cell_at_rd mp (r, c) Hok Hx). cbn [bind].
  unfold cell_chars, fputc.
  destruct (visit (cell_at mp (r, c))), (r_wall (cell_at mp (r, c)));
    rewrite <- app_assoc; reflexivity.
Qed.

Lemma text_floor_spec (mp : maze_t) (r c : Z) (o : list Z) :
  grid_ok mp -> in_grid (n_rows mp) (n_cols mp) (r, c) ->
  text_floor mp r c o = Ret (o ++ floor_chars mp r c).
Proof.
  intros Hok Hx. unfold text_floor.
  rewrite (OFFSET_cell mp r c Hok Hx), (cell_at_rd mp (r, c) Hok Hx). cbn [bind].
  reflexivity.
Qed.

Lemma text_row_spec (mp : maze_t) (p1 dir1 p2 dir2 : rowcol_t) (r : Z) (o : list Z) :
  grid_ok mp -> 0 <= r < n_rows mp ->
  text_row mp p1 dir1 p2 dir2 r o =
  Ret (o ++ (cell_line mp p1 dir1 p2 dir2 r ++ [10]) ++ (floor_line mp r ++ [10])).
Proof.
  intros Hok Hr. unfold text_row.
  rewrite (for_up_over_cols (cell_chars mp r))
    by (intros i o' Hi; apply text_cell_spec; [assumption | unfold in_grid; cbn; lia]).
  cbn [bind].
  rewrite (for_up_over_cols (floor_chars mp r))
    by (intros i o' Hi; apply text_floor_spec; [assumption | unfold in_grid; cbn; lia]).
  cbn [bind]. unfold cell_line, floor_line, fputc.
  destruct (is_exit p1 dir1 p2 dir2 DIR_L r);
    repeat rewrite <- app_assoc; reflexivity.
Qed.

Lemma text_rows_spec (mp : maze_t) (p1 dir1 p2 dir2 : rowcol_t) (o : list Z) :
  grid_ok mp ->
  for_up (Z.to_nat (n_rows mp)) 0 (text_row mp p1 dir1 p2 dir2) o =
  Ret (o ++ over_cols (n_rows mp)
              (fun r => (cell_line mp p1 dir1 p2 dir2 r ++ [10]) ++ (floor_line mp r ++ [10]))).
Proof.
  intros Hok. apply for_up_over_cols. intros i o' Hi. now apply text_row_spec.
Qed.

Lemma concat_lines_pairs (f g : nat -> list Z) (l : list nat) :
  concat (map (fun x => x ++ [10]) (concat (map (fun k => [f k; g k]) l))) =
  concat (map (fun k => (f k ++ [10]) ++ (g k ++ [10])) l).
Proof.
  induction l as [|k l IH]; [reflexivity|].
  cbn [map concat app]. rewrite IH. repeat rewrite <- app_assoc. reflexivity.
Qed.

Lemma maze_text_spec (mp : maze_t) (p1 dir1 p2 dir2 : rowcol_t) (o : list Z) :
  grid_ok mp ->
  (o1 <- for_up (Z.to_nat (n_cols mp)) 0 (text_top p1 dir1 p2 dir2) o ;;
   for_up (Z.to_nat (n_rows mp)) 0 (text_row mp p1 dir1 p2 dir2) (fputc 10 (fputc 43 o1))) =
  Ret (o ++ concat (map (fun l => l ++ [10]) (text_lines mp p1 dir1 p2 dir2))).
Proof.
  intros Hok.
  rewrite (for_up_over_cols (top_chars p1 dir1 p2 dir2))
    by (intros i o' _; unfold text_top, top_chars;
        destruct (is_exit p1 dir1 p2 dir2 DIR_U i); reflexivity).
  cbn [bind]. rewrite text_rows_spec by assumption.
  unfold text_lines. cbn [map concat].
  rewrite (concat_lines_pairs (fun k => cell_line mp p1 dir1 p2 dir2 (Z.of_nat k))
                              (fun k => floor_line mp (Z.of_nat k))).
  unfold top_line, fputc, over_cols.
  repeat rewrite <- app_assoc. reflexivity.
Qed.

Lemma text_lines_length (mp : maze_t) (p1 dir1 p2 dir2 : rowcol_t) :
  0 <= n_rows mp ->
  Z.of_nat (length (text_lines mp p1 dir1 p2 dir2)) = 2 * n_rows mp + 1.
Proof.
  intros Hr. unfold text_lines. cbn [length].
  rewrite (concat_uniform_length _ 2) by reflexivity. lia.
Qed.

Lemma text_lines_cell_line (mp : maze_t) (p1 dir1 p2 dir2 : rowcol_t) (r : Z) :
  0 <= r < n_rows mp ->
  nth (Z.to_nat (2 * r + 1)) (text_lines mp p1 dir1 p2 dir2) [] =
  cell_line mp p1 dir1 p2 dir2 r.
Proof.
  intros Hr. unfold text_lines.
  replace (Z.to_nat (2 * r + 1)) with (S (2 * Z.to_nat r + 0)) by lia.
  cbn [nth]. rewrite (concat_uniform_nth _ 2 []) by (try lia; reflexivity).
  cbn [Nat.add nth]. now rewrite Z2Nat.id by lia.
Qed.

Lemma text_lines_floor_line (mp : maze_t) (p1 dir1 p2 dir2 : rowcol_t) (r : Z) :
  0 <= r < n_rows mp ->
  nth (Z.to_nat (2 * r + 2)) (text_lines mp p1 dir1 p2 dir2) [] = floor_line mp r.
Proof.
  intros Hr. unfold text_lines.
  replace (Z.to_nat (2 * r + 2)) with (S (2 * Z.to_nat r + 1)) by lia.
  cbn [nth]. rewrite (concat_uniform_nth _ 2 []) by (try lia; reflexivity).
  cbn [Nat.add nth]. now rewrite Z2Nat.id by lia.
Qed.

Lemma top_chars_length (p1 dir1 p2 dir2 : rowcol_t) (c : Z) :
  length (top_chars p1 dir1 p2 dir2 c) = 4%nat.
Proof. unfold top_chars. now destruct (is_exit p1 dir1 p2 dir2 DIR_U c). Qed.

Lemma cell_chars_length (mp : maze_t) (r c : Z) : length (cell_chars mp r c) = 4%nat.
Proof. unfold cell_chars. now destruct (visit (cell_at mp (r, c))). Qed.

Lemma floor_chars_length (mp : maze_t) (r c : Z) : length (floor_chars mp r c) = 4%nat.
Proof. unfold floor_chars. now destruct (b_wall (cell_at mp (r, c))). Qed.

Lemma top_chars_no_newline (p1 dir1 p2 dir2 : rowcol_t) (c : Z) :
  ~ In 10 (top_chars p1 dir1 p2 dir2 c).
Proof.
  unfold top_chars. destruct (is_exit p1 dir1 p2 dir2 DIR_U c); cbn; intuition discriminate.
Qed.

Lemma cell_chars_no_newline (mp : maze_t) (r c : Z) : ~ In 10 (cell_chars mp r c).
Proof.
  unfold cell_chars.
  destruct (visit (cell_at mp (r, c))), (r_wall (cell_at mp (r, c)));
    cbn; intuition discriminate.
Qed.

Lemma floor_chars_no_newline (mp : maze_t) (r c : Z) : ~ In 10 (floor_chars mp r c).
Proof.
  unfold floor_chars. destruct (b_wall (cell_at mp (r, c))); cbn; intuition discriminate.
Qed.

Lemma text_lines_in (mp : maze_t) (p1 dir1 p2 dir2 : rowcol_t) (l : list Z) :
  In l (text_lines mp p1 dir1 p2 dir2) ->
  l = top_line mp p1 dir1 p2 dir2 \/
  exists r, l = cell_line mp p1 dir1 p2 dir2 r \/ l = floor_line mp r.
Proof.
  unfold text_lines. intros [H | H]; [now left|]. right.
  apply in_concat in H. destruct H as [y [Hy Hl]].
  apply in_map_iff in Hy. destruct Hy as [k [<- _]].
  exists (Z.of_nat k). destruct Hl as [<- | [<- | []]]; auto.
Qed.

Lemma text_lines_width (mp : maze_t) (p1 dir1 p2 dir2 : rowcol_t) :
  0 <= n_cols mp ->
  Forall (fun l => Z.of_nat (length l) = 4 * n_cols mp + 1 /\ ~ In 10 l)
         (text_lines mp p1 dir1 p2 dir2).
Proof.
  intros Hc. apply Forall_forall. intros l Hl.
  apply text_lines_in in Hl. destruct Hl as [-> | [r [-> | ->]]].
  - unfold top_line. rewrite length_app. cbn [length]. split.
    + pose proof (over_cols_length (n_cols mp) (top_chars p1 dir1 p2 dir2) 4 Hc
                    (top_chars_length p1 dir1 p2 dir2)). lia.
    + intros H. apply in_app_or in H. destruct H as [H | H].
      * exact (over_cols_no_newline _ _ (top_chars_no_newline p1 dir1 p2 dir2) H).
      * cbn in H. intuition discriminate.
  - unfold cell_line. cbn [length]. split.
    + pose proof (over_cols_length (n_cols mp) (cell_chars mp r) 4 Hc
                    (cell_chars_length mp r)). lia.
    + intros [H | H].
      * destruct (is_exit p1 dir1 p2 dir2 DIR_L r); discriminate.
      * exact (over_cols_no_newline _ _ (cell_chars_no_newline mp r) H).
  - unfold floor_line. cbn [length]. split.
    + pose proof (over_cols_length (n_cols mp) (floor_chars mp r) 4 Hc
                    (floor_chars_length mp r)). lia.
    + intros [H | H]; [discriminate|].
      exact (over_cols_no_newline _ _ (floor_chars_no_newline mp r) H).
Qed.

Lemma nth_tail_cols (x : Z) (n : Z) (f : Z -> list Z) (c j : Z) :
  (forall c, length (f c) = 4%nat) -> 0 <= c < n -> 0 <= j < 4 ->
  nth (Z.to_nat (4 * c + (j + 1))) (x :: over_cols n f) 0 = nth (Z.to_nat j) (f c) 0.
Proof.
  intros Hlen Hc Hj.
  replace (Z.to_nat (4 * c + (j + 1))) with (S (Z.to_nat (Z.of_nat 4 * c + j))) by lia.
  cbn [nth]. apply over_cols_nth; auto.
Qed.

Lemma text_lines_chars (mp : maze_t) (p1 dir1 p2 dir2 : rowcol_t) (r c : Z) :
  in_grid (n_rows mp) (n_cols mp) (r, c) ->
  let lines := text_lines mp p1 dir1 p2 dir2 in
  (char_at lines (2 * r + 1) (4 * c + 2) = 64 <-> visit (cell_at mp (r, c)) = true) /\
  (char_at lines (2 * r + 1) (4 * c + 4) = 124 <-> r_wall (cell_at mp (r, c)) = true) /\
  (char_at lines (2 * r + 2) (4 * c + 2) = 45 <-> b_wall (cell_at mp (r, c)) = true) /\
  (char_at lines 0 (4 * c + 2) = 32 <-> is_exit p1 dir1 p2 dir2 DIR_U c = true) /\
  (char_at lines (2 * r + 1) 0 = 32 <-> is_exit p1 dir1 p2 dir2 DIR_L r = true).
Proof.
  intros Hx lines. unfold in_grid in Hx. cbn [fst snd] in Hx. unfold lines, char_at.
  rewrite text_lines_cell_line, text_lines_floor_line by lia.
  change (nth (Z.to_nat 0) (text_lines mp p1 dir1 p2 dir2) [])
    with (top_line mp p1 dir1 p2 dir2).
  repeat split.
  - unfold cell_line. replace (4 * c + 2) with (4 * c + (1 + 1)) by lia.
    rewrite nth_tail_cols by (try lia; apply cell_chars_length).
    unfold cell_chars. destruct (visit (cell_at mp (r, c))); cbv; intros; congruence.
  - unfold cell_line. replace (4 * c + 2) with (4 * c + (1 + 1)) by lia.
    rewrite nth_tail_cols by (try lia; apply cell_chars_length).
    unfold cell_chars. destruct (visit (cell_at mp (r, c))); cbv; intros; congruence.
  - unfold cell_line. replace (4 * c + 4) with (4 * c + (3 + 1)) by lia.
    rewrite nth_tail_cols by (try lia; apply cell_chars_length).
    unfold cell_chars.
    destruct (visit (cell_at mp (r, c))), (r_wall (cell_at mp (r, c)));
      cbv; intros; congruence.
  - unfold cell_line. replace (4 * c + 4) with (4 * c + (3 + 1)) by lia.
    rewrite nth_tail_cols by (try lia; apply cell_chars_length).
    unfold cell_chars.
    destruct (visit (cell_at mp (r, c))), (r_wall (cell_at mp (r, c)));
      cbv; intros; congruence.
  - unfold floor_line. replace (4 * c + 2) with (4 * c + (1 + 1)) by lia.
    rewrite nth_tail_cols by (try lia; apply floor_chars_length).
    unfold floor_chars. destruct (b_wall (cell_at mp (r, c))); cbv; intros; congruence.
  - unfold floor_line. replace (4 * c + 2) with (4 * c + (1 + 1)) by lia.
    rewrite nth_tail_cols by (try lia; apply floor_chars_length).
    unfold floor_chars. destruct (b_wall (cell_at mp (r, c))); cbv; intros; congruence.
  - unfold top_line.
    rewrite app_nth1
      by (pose proof (over_cols_length (n_cols mp) (top_chars p1 dir1 p2 dir2) 4
                        ltac:(lia) (top_chars_length p1 dir1 p2 dir2)); lia).
    replace (4 * c + 2) with (Z.of_nat 4 * c + 2) by lia.
    rewrite over_cols_nth by (try lia; apply top_chars_length).
    unfold top_chars. destruct (is_exit p1 dir1 p2 dir2 DIR_U c); cbv; intros; congruence.
  - unfold top_line.
    rewrite app_nth1
      by (pose proof (over_cols_length (n_cols mp) (top_chars p1 dir1 p2 dir2) 4
                        ltac:(lia) (top_chars_length p1 dir1 p2 dir2)); lia).
    replace (4 * c + 2) with (Z.of_nat 4 * c + 2) by lia.
    rewrite over_cols_nth by (try lia; apply top_chars_length).
    unfold top_chars. destruct (is_exit p1 dir1 p2 dir2 DIR_U c); cbv; intros; congruence.
  - unfold cell_line. cbn [Z.to_nat nth]. destruct (is_exit p1 dir1 p2 dir2 DIR_L r); congruence.
  - unfold cell_line. cbn [Z.to_nat nth]. destruct (is_exit p1 dir1 p2 dir2 DIR_L r); congruence.
Qed.

(** ** The maze after the exits are opened *)

Lemma open_exit_walls (mp : maze_t) (p dir : rowcol_t) :
  grid_ok mp -> exit_in_range mp p dir ->
  exists mp',
    open_exit mp p dir = Ret mp' /\ grid_ok mp' /\
    n_rows mp' = n_rows mp /\ n_cols mp' = n_cols mp /\
    exit_1 mp' = exit_1 mp /\ exit_2 mp' = exit_2 mp /\
    forall z, in_grid (n_rows mp) (n_cols mp) z ->
      visit (cell_at mp' z) = visit (cell_at mp z) /\
      marker (cell_at mp' z) = marker (cell_at mp z) /\
      (r_wall (cell_at mp' z) = true <->
       r_wall (cell_at mp z) = true /\ ~ (dir = DIR_R /\ z = (p, n_cols mp - 1))) /\
      (b_wall (cell_at mp' z) = true <->
       b_wall (cell_at mp z) = true /\ ~ (dir = DIR_D /\ z = (n_rows mp - 1, p))).
Proof.
  intros Hok Hin.
  assert (Hne : DIR_R <> DIR_D) by discriminate.
  destruct (Z.eq_dec dir DIR_D) as [HD | HD]; [|destruct (Z.eq_dec dir DIR_R) as [HR | HR]].
  - destruct (open_exit_spec mp p dir Hok (or_introl HD) Hin) as [Hx E].
    eexists. split; [exact E|].
    destruct (open_exit_grid_ok mp _ p dir Hok Hin E) as (Hok' & E1 & E2 & E3 & E4).
    repeat (split; [assumption|]). intros z Hz.
    pose proof (cell_at_upd_cases mp (exit_cell_of mp p dir) z
                  (open_wall dir (cell_at mp (exit_cell_of mp p dir))) Hok Hx Hz) as Hc.
    cbv zeta in Hc. unfold exit_cell_of, open_wall in *. subst dir.
    cbn [Z.eqb DIR_D Pos.eqb] in *.
    destruct Hc as [[-> ->] | [Hzx ->]].
    + destruct (cell_at mp (n_rows mp - 1, p)); cbn.
      repeat split; try tauto; try congruence; intros; intuition congruence.
    + repeat split; try tauto; intros; intuition congruence.
  - destruct (open_exit_spec mp p dir Hok (or_intror HR) Hin) as [Hx E].
    eexists. split; [exact E|].
    destruct (open_exit_grid_ok mp _ p dir Hok Hin E) as (Hok' & E1 & E2 & E3 & E4).
    repeat (split; [assumption|]). intros z Hz.
    pose proof (cell_at_upd_cases mp (exit_cell_of mp p dir) z
                  (open_wall dir (cell_at mp (exit_cell_of mp p dir))) Hok Hx Hz) as Hc.
    cbv zeta in Hc. unfold exit_cell_of, open_wall in *. subst dir.
    cbn [Z.eqb DIR_D DIR_R Pos.eqb] in *.
    destruct Hc as [[-> ->] | [Hzx ->]].
    + destruct (cell_at mp (p, n_cols mp - 1)); cbn.
      repeat split; try tauto; try congruence; intros; intuition congruence.
    + repeat split; try tauto; intros; intuition congruence.
  - exists mp. rewrite open_exit_other_side by assumption.
    split; [reflexivity|]. split; [assumption|].
    do 4 (split; [reflexivity|]). intros z Hz.
    repeat split; try tauto; intros; intuition congruence.
Qed.

Lemma maze_write_text_spec (EPOS EDIR : rowcol_t -> rowcol_t) (mp : maze_t) (ofp : list Z) :
  grid_ok mp ->
  exit_in_range mp (EPOS (exit_1 mp)) (EDIR (exit_1 mp)) ->
  exit_in_range mp (EPOS (exit_2 mp)) (EDIR (exit_2 mp)) ->
  exists mp1 mp2,
    open_exit mp (EPOS (exit_1 mp)) (EDIR (exit_1 mp)) = Ret mp1 /\
    open_exit mp1 (EPOS (exit_2 mp)) (EDIR (exit_2 mp)) = Ret mp2 /\
    grid_ok mp2 /\ n_rows mp2 = n_rows mp /\ n_cols mp2 = n_cols mp /\
    maze_write_text EPOS EDIR mp ofp =
    Ret (mp2, ofp ++ concat (map (fun l => l ++ [10])
                                 (text_lines mp2 (EPOS (exit_1 mp)) (EDIR (exit_1 mp))
                                             (EPOS (exit_2 mp)) (EDIR (exit_2 mp))))).
Proof.
  intros Hok H1 H2.
  destruct (open_exit_walls mp _ _ Hok H1) as (mp1 & E1 & Hok1 & Hr1 & Hc1 & Hx1 & Hx2 & _).
  assert (H2' : exit_in_range mp1 (EPOS (exit_2 mp)) (EDIR (exit_2 mp)))
    by (unfold exit_in_range in *; rewrite Hr1, Hc1; exact H2).
  destruct (open_exit_walls mp1 _ _ Hok1 H2') as (mp2 & E2 & Hok2 & Hr2 & Hc2 & _).
  exists mp1, mp2. repeat (split; [first [assumption | congruence]|]).
  unfold maze_write_text. rewrite E1. cbn [bind]. rewrite Hx2, E2. cbn [bind].
  pose proof (maze_text_spec mp2 (EPOS (exit_1 mp)) (EDIR (exit_1 mp))
                (EPOS (exit_2 mp)) (EDIR (exit_2 mp)) ofp Hok2) as Ht.
  destruct (for_up (Z.to_nat (n_cols mp2)) 0
              (text_top (EPOS (exit_1 mp)) (EDIR (exit_1 mp))
                        (EPOS (exit_2 mp)) (EDIR (exit_2 mp))) ofp) as [o1 | |];
    cbn [bind] in Ht |- *; try discriminate.
  rewrite Ht. reflexivity.
Qed.

Lemma is_exit_iff (p1 dir1 p2 dir2 : rowcol_t) (side : Z) (i : rowcol_t) :
  is_exit p1 dir1 p2 dir2 side i = true <->
  (dir1 = side /\ p1 = i) \/ (dir2 = side /\ p2 = i).
Proof.
  unfold is_exit. rewrite orb_true_iff, !andb_true_iff, !Z.eqb_eq. reflexivity.
Qed.

Lemma maze_write_text_walls (EPOS EDIR : rowcol_t -> rowcol_t) (mp : maze_t) (ofp : list Z) :
  grid_ok mp ->
  exit_in_range mp (EPOS (exit_1 mp)) (EDIR (exit_1 mp)) ->
  exit_in_range mp (EPOS (exit_2 mp)) (EDIR (exit_2 mp)) ->
  exists mp',
    maze_write_text EPOS EDIR mp ofp =
    Ret (mp', ofp ++ concat (map (fun l => l ++ [10])
                                 (text_lines mp' (EPOS (exit_1 mp)) (EDIR (exit_1 mp))
                                             (EPOS (exit_2 mp)) (EDIR (exit_2 mp))))) /\
    grid_ok mp' /\ n_rows mp' = n_rows mp /\ n_cols mp' = n_cols mp /\
    exit_1 mp' = exit_1 mp /\ exit_2 mp' = exit_2 mp /\
    forall z, in_grid (n_rows mp) (n_cols mp) z ->
      visit (cell_at mp' z) = visit (cell_at mp z) /\
      marker (cell_at mp' z) = marker (cell_at mp z) /\
      (r_wall (cell_at mp' z) = true <->
       r_wall (cell_at mp z) = true /\
       ~ (EDIR (exit_1 mp) = DIR_R /\ z = (EPOS (exit_1 mp), n_cols mp - 1)) /\
       ~ (EDIR (exit_2 mp) = DIR_R /\ z = (EPOS (exit_2 mp), n_cols mp - 1))) /\
      (b_wall (cell_at mp' z) = true <->
       b_wall (cell_at mp z) = true /\
       ~ (EDIR (exit_1 mp) = DIR_D /\ z = (n_rows mp - 1, EPOS (exit_1 mp))) /\
       ~ (EDIR (exit_2 mp) = DIR_D /\ z = (n_rows mp - 1, EPOS (exit_2 mp)))).
Proof.
  intros Hok H1 H2.
  destruct (maze_write_text_spec EPOS EDIR mp ofp Hok H1 H2)
    as (mp1 & mp2 & E1 & E2 & Hok2 & Er & Ec & Hrun).
  destruct (open_exit_walls mp _ _ Hok H1)
    as (mp1' & E1' & Hok1 & Hr1 & Hc1 & Hx1 & Hx2 & Hw1).
  rewrite E1 in E1'. inversion E1'; subst mp1'; clear E1'.
  assert (H2' : exit_in_range mp1 (EPOS (exit_2 mp)) (EDIR (exit_2 mp)))
    by (unfold exit_in_range in *; rewrite Hr1, Hc1; exact H2).
  destruct (open_exit_walls mp1 _ _ Hok1 H2')
    as (mp2' & E2' & _ & Hr2 & Hc2 & Hy1 & Hy2 & Hw2).
  rewrite E2 in E2'. inversion E2'; subst mp2'; clear E2'.
  exists mp2. split; [exact Hrun|]. split; [exact Hok2|].
  split; [exact Er|]. split; [exact Ec|].
  split; [congruence|]. split; [congruence|].
  intros z Hz.
  destruct (Hw1 z Hz) as (V1 & M1 & R1 & B1).
  assert (Hz1 : in_grid (n_rows mp1) (n_cols mp1) z) by (rewrite Hr1, Hc1; exact Hz).
  destruct (Hw2 z Hz1) as (V2 & M2 & R2 & B2).
  rewrite Hc1 in R2. rewrite Hr1 in B2.
  split; [congruence|]. split; [congruence|].
  split; [rewrite R2, R1 | rewrite B2, B1]; tauto.
Qed.

(** * The exits through the generation, and the making of the maze *)

Lemma same_exits_refl (mp : maze_t) : same_exits mp mp.
Proof. split; reflexivity. Qed.

Lemma same_exits_trans (m1 m2 m3 : maze_t) :
  same_exits m1 m2 -> same_exits m2 m3 -> same_exits m1 m3.
Proof. intros [A B] [C D]. split; congruence. Qed.

Lemma only_sets_same_exits (mp mp' : maze_t) :
  mp' = with_sets mp (sets mp') -> same_exits mp mp'.
Proof. intros ->. split; reflexivity. Qed.

Lemma cell_update_same_exits (mp mp' : maze_t) (off : rowcol_t)
  (f : maze_node -> maze_node) :
  cell_update mp off f = Ret mp' -> same_exits mp mp'.
Proof.
  intros H. unfold cell_update in H.
  inv_bind H. inv_bind H. inversion H; subst mp'. split; reflexivity.
Qed.

Lemma kick_down_same_exits (mp mp' : maze_t) (wall r c r1 c1 : rowcol_t) :
  kick_down mp wall r c = Ret (mp', r1, c1) -> same_exits mp mp'.
Proof.
  unfold kick_down. intros H.
  destruct (wall =? DIR_U); [|destruct (wall =? DIR_R);
    [|destruct (wall =? DIR_D); [|destruct (wall =? DIR_L); [|discriminate]]]];
    inv_bind H; inversion H; subst;
    (eapply cell_update_same_exits; exact Ha).
Qed.

Lemma scan_cell_same_exits (fuel : nat) (random : rand_f) (pos : rowcol_t)
  (st st' : gen_state) :
  scan_cell fuel random pos st = Ret st' -> same_exits (g_mp st) (g_mp st').
Proof.
  intros H. unfold scan_cell in H.
  inv_bind H as cur Hcur. inv_bind H as [mp1 adj] Hadj. inv_bind H as apop Hpop.
  apply s_adj_only_sets in Hadj. apply only_sets_same_exits in Hadj.
  destruct (apop =? 0).
  - inversion H; subst. exact Hadj.
  - destruct (if 1 <? apop then _ else _) as [skip k].
    inv_bind H as u Hu. inv_bind H as [[mp2 r1] c1] Hkick. inv_bind H as mp3 Hun.
    inversion H; subst. cbn [g_mp].
    eapply same_exits_trans; [exact Hadj|].
    eapply same_exits_trans; [eapply kick_down_same_exits; eauto|].
    apply only_sets_same_exits. eapply s_union_only_sets; eauto.
Qed.

Lemma gen_rounds_same_exits (rounds fuel : nat) (random : rand_f) (n_cells : rowcol_t) :
  forall st st' : gen_state,
    gen_rounds rounds fuel random n_cells st = Ret st' ->
    same_exits (g_mp st) (g_mp st').
Proof.
  induction rounds as [|rounds IH]; intros st st' H; cbn [gen_rounds] in H;
    [discriminate|].
  destruct (g_count st <? n_cells).
  - inv_bind H as [q k] Hsh. inv_bind H as st1 Hscan.
    eapply same_exits_trans; [|eapply IH; eauto].
    pose proof (for_up_inv (fun _ s => same_exits (g_mp st) (g_mp s))
                  (scan_cell fuel random) (Z.to_nat n_cells) 0
                  {| g_mp := g_mp st; g_queue := q; g_count := g_count st; g_calls := k |}
                  st1) as Hinv.
    apply Hinv; auto.
    + intros i t t' _ Ht Hb. eapply same_exits_trans; [exact Ht|].
      eapply scan_cell_same_exits; eauto.
    + apply same_exits_refl.
  - inversion H; subst. apply same_exits_refl.
Qed.

Lemma maze_generate_same_exits (fuel : nat) (heap_sets heap_queue : option (nat -> rowcol_t))
  (random : rand_f) (mp mp' : maze_t) (ok : Z) :
  maze_generate fuel heap_sets heap_queue random mp = Ret (ok, mp') -> same_exits mp mp'.
Proof.
  unfold maze_generate. intros H.
  inv_bind H as mp0 H0.
  assert (E0 : same_exits mp mp0).
  { unfold maze_reset in H0. inv_bind H0 as cs Hcs. inversion H0; subst mp0.
    split; reflexivity. }
  destruct (malloc heap_sets _) as [ss|];
    [|inversion H; subst; destruct E0; split; assumption].
  destruct (malloc heap_queue _) as [queue|];
    [|inversion H; subst; destruct E0; split; assumption].
  inv_bind H as [queue1 mp1] Hinit. inv_bind H as st Hst. inversion H; subst.
  apply gen_init_loop_only_sets in Hinit.
  apply gen_rounds_same_exits in Hst. cbn [g_mp] in Hst.
  destruct E0 as [A B], Hst as [C D]. rewrite Hinit in C, D.
  split; cbn [exit_1 exit_2 with_sets] in *; congruence.
Qed.

(** A successful generation leaves a spanning tree on the same grid. *)
Lemma maze_generate_tree (fuel : nat) (heap_sets heap_queue : option (nat -> rowcol_t))
  (random : rand_f) (mp mp' : maze_t) :
  grid_ok mp -> unit_source random ->
  maze_generate fuel heap_sets heap_queue random mp = Ret (1, mp') ->
  spanning_tree mp' /\ grid_ok mp' /\
  n_rows mp' = n_rows mp /\ n_cols mp' = n_cols mp.
Proof.
  intros Hok Hsrc Hrun. pose proof Hok as (Hr & Hc & Hlt & Hl).
  destruct (maze_generate_success_heaps _ _ _ _ _ _ Hrun) as [[hs ->] [hq ->]].
  set (big := Nat.max (Nat.max fuel 4) (Z.to_nat (n_rows mp * n_cols mp))).
  assert (Hbig : maze_generate big (Some hs) (Some hq) random mp = Ret (1, mp')).
  { apply (maze_generate_mono fuel); auto. unfold big. lia. }
  destruct (maze_generate_total big hs hq random mp Hok Hsrc) as
    (mp2 & Hrun2 & E1 & E2 & E3 & _ & Htree); [unfold big; lia | unfold big; lia |].
  rewrite Hrun2 in Hbig. inversion Hbig; subst mp2.
  split; [exact Htree|]. split; [|split; assumption].
  unfold grid_ok. rewrite E1, E2, E3. exact Hok.
Qed.

(** ** randomizer *)

Lemma randomizer_unit_source (INT_MAX : Z) (random : nat -> Z) :
  (forall k, 0 <= random k <= INT_MAX) -> unit_source (randomizer INT_MAX random).
Proof.
  intros H k. specialize (H k). unfold randomizer.
  assert (Hpos : (0 < inject_Z (INT_MAX + 1))%Q)
    by (unfold Qlt, inject_Z; cbn; lia).
  split.
  - apply Qle_shift_div_l; [exact Hpos|]. rewrite Qmult_0_l.
    unfold Qle, inject_Z; cbn; lia.
  - apply Qlt_shift_div_r; [exact Hpos|]. rewrite Qmult_1_l.
    unfold Qlt, inject_Z; cbn; lia.
Qed.

(** ** The making of the maze in [main] *)

Lemma main_make_spec (EXIT : rowcol_t -> Z -> rowcol_t)
  (hc : nat -> maze_node) (hs hq : nat -> rowcol_t)
  (INT_MAX : Z) (random : nat -> Z) (fuel : nat) (the_maze : maze_t)
  (cells_x cells_y : rowcol_t) (set_exit_1 set_exit_2 : bool) (e_in e_out : rowcol_t) :
  1 <= cells_x -> 1 <= cells_y -> cells_x * cells_y < wB ->
  (forall k, 0 <= random k <= INT_MAX) ->
  (4 <= fuel)%nat -> cells_x * cells_y <= Z.of_nat fuel ->
  exists mp',
    main_make EXIT (Some hc) (Some hs) (Some hq) INT_MAX random fuel the_maze
              cells_x cells_y set_exit_1 set_exit_2 e_in e_out = Ret (0, mp') /\
    n_rows mp' = cells_x /\ n_cols mp' = cells_y /\ grid_ok mp' /\
    spanning_tree mp' /\ boundary_closed mp' /\
    exit_1 mp' = (if set_exit_1 then e_in else EXIT 0 DIR_L) /\
    exit_2 mp' = (if set_exit_2 then e_out else EXIT (wrap (cells_x - 1)) DIR_R).
Proof.
  intros Hx Hy Hn Hrand Hfuel Hfn. unfold main_make.
  replace (cells_x =? 0) with false by (symmetry; apply Z.eqb_neq; lia).
  replace (cells_y =? 0) with false by (symmetry; apply Z.eqb_neq; lia).
  cbn [orb]. rewrite maze_init_succeeds by assumption. cbn [bind Z.eqb negb].
  set (m0 := mk_maze cells_x cells_y (repeat def_node (Z.to_nat (cells_x * cells_y))) []
                     (EXIT 0 DIR_L) (EXIT (wrap (cells_x - 1)) DIR_R)).
  set (m2 := if set_exit_2
             then with_exit_2 (if set_exit_1 then with_exit_1 m0 e_in else m0) e_out
             else (if set_exit_1 then with_exit_1 m0 e_in else m0)).
  assert (Hg : n_rows m2 = cells_x /\ n_cols m2 = cells_y /\
               cells m2 = repeat def_node (Z.to_nat (cells_x * cells_y)) /\
               exit_1 m2 = (if set_exit_1 then e_in else EXIT 0 DIR_L) /\
               exit_2 m2 = (if set_exit_2 then e_out else EXIT (wrap (cells_x - 1)) DIR_R))
    by (unfold m2, m0; destruct set_exit_1, set_exit_2; repeat split).
  destruct Hg as (Er & Ec & Ecs & Ee1 & Ee2).
  assert (Hok : grid_ok m2).
  { unfold grid_ok. rewrite Er, Ec, Ecs, repeat_length. repeat split; try lia. }
  pose proof (randomizer_unit_source INT_MAX random Hrand) as Hsrc.
  destruct (maze_generate_total fuel hs hq (randomizer INT_MAX random) m2 Hok Hsrc Hfuel)
    as (mp' & Hrun & E1 & E2 & E3 & _ & Htree); [rewrite Er, Ec; exact Hfn|].
  exists mp'. rewrite Hrun. cbn [bind Z.eqb].
  destruct (maze_generate_same_exits _ _ _ _ _ _ _ Hrun) as [X1 X2].
  split; [reflexivity|].
  split; [congruence|]. split; [congruence|].
  split; [unfold grid_ok; rewrite E1, E2, E3; exact Hok|].
  split; [exact Htree|].
  split; [exact (maze_generate_closed _ _ _ _ _ _ Hok Hsrc Hrun)|].
  split; congruence.
Qed.

Lemma main_make_no_memory (EXIT : rowcol_t -> Z -> rowcol_t)
  (heap_cells : option (nat -> maze_node)) (heap_sets heap_queue : option (nat -> rowcol_t))
  (INT_MAX : Z) (random : nat -> Z) (fuel : nat) (the_maze : maze_t)
  (cells_x cells_y : rowcol_t) (set_exit_1 set_exit_2 : bool) (e_in e_out : rowcol_t) :
  1 <= cells_x -> 1 <= cells_y -> cells_x * cells_y < wB ->
  heap_cells = None \/ heap_sets = None \/ heap_queue = None ->
  exists m,
    main_make EXIT heap_cells heap_sets heap_queue INT_MAX random fuel the_maze
              cells_x cells_y set_exit_1 set_exit_2 e_in e_out = Ret (1, m) /\
    cells m = [].
Proof.
  intros Hx Hy Hn Hnone. unfold main_make.
  replace (cells_x =? 0) with false by (symmetry; apply Z.eqb_neq; lia).
  replace (cells_y =? 0) with false by (symmetry; apply Z.eqb_neq; lia).
  cbn [orb].
  destruct heap_cells as [hc|].
  - rewrite maze_init_succeeds by assumption. cbn [bind Z.eqb negb].
    set (m0 := mk_maze cells_x cells_y (repeat def_node (Z.to_nat (cells_x * cells_y))) []
                       (EXIT 0 DIR_L) (EXIT (wrap (cells_x - 1)) DIR_R)).
    set (m2 := if set_exit_2
               then with_exit_2 (if set_exit_1 then with_exit_1 m0 e_in else m0) e_out
               else (if set_exit_1 then with_exit_1 m0 e_in else m0)).
    assert (Hg : n_rows m2 = cells_x /\ n_cols m2 = cells_y /\
                 cells m2 = repeat def_node (Z.to_nat (cells_x * cells_y)))
      by (unfold m2, m0; destruct set_exit_1, set_exit_2; repeat split).
    destruct Hg as (Er & Ec & Ecs).
    assert (Hok : grid_ok m2).
    { unfold grid_ok. rewrite Er, Ec, Ecs, repeat_length. repeat split; try lia. }
    unfold maze_generate. rewrite maze_reset_spec by exact Hok. cbn [bind].
    destruct heap_sets as [hs|]; cbn [malloc].
    + destruct heap_queue as [hq|]; cbn [malloc].
      * destruct Hnone as [H | [H | H]]; discriminate.
      * cbn [bind Z.eqb]. eexists. split; reflexivity.
    + cbn [bind Z.eqb]. eexists. split; reflexivity.
  - unfold maze_init. rewrite wrap_small by nia.
    replace (0 <? cells_x * cells_y) with true by (symmetry; apply Z.ltb_lt; nia).
    cbn [assert bind malloc Z.eqb negb].
    eexists. split; reflexivity.
Qed.

(** * Loading any input *)

Lemma for_up_ret_inv {S R : Type} (Inv : Z -> S -> Prop) (Q : R -> Prop)
  (body : Z -> S -> outcome (S + R)) :
  forall (n : nat) (lo : Z) (s : S),
    (forall i t, lo <= i < lo + Z.of_nat n -> Inv i t ->
                 exists x, body i t = Ret x /\
                           match x with inl t' => Inv (i + 1) t' | inr r => Q r end) ->
    Inv lo s ->
    exists x, for_up_ret n lo body s = Ret x /\
              match x with inl s' => Inv (lo + Z.of_nat n) s' | inr r => Q r end.
Proof.
  induction n as [|n IH]; intros lo s Hstep H0; cbn [for_up_ret].
  - exists (inl s). split; auto. now replace (lo + Z.of_nat 0) with lo by lia.
  - destruct (Hstep lo s) as [x [Hb Hx]]; auto; [lia|].
    rewrite Hb. cbn [bind]. destruct x as [t | r].
    + replace (lo + Z.of_nat (Datatypes.S n)) with ((lo + 1) + Z.of_nat n) by lia.
      apply IH; auto. intros i u Hi. apply Hstep. lia.
    + exists (inr r). split; auto.
Qed.

Lemma next_char_non_space (ifp : list Z) :
  bytes ifp ->
  match non_space ifp with
  | [] => next_char ifp = (EOF, [])
  | c :: t => exists rest, next_char ifp = (c, rest) /\ non_space rest = t /\
                           bytes rest /\ (c =? EOF) = false
  end.
Proof.
  induction ifp as [|c t IH]; intros Hb; [reflexivity|].
  pose proof (Forall_inv Hb) as Hc. pose proof (Forall_inv_tail Hb) as Ht.
  unfold non_space in *. cbn [filter].
  destruct (isspace c) eqn:E; cbn [negb].
  - rewrite next_char_space by exact E. apply IH. exact Ht.
  - exists t. cbn [next_char]. rewrite skip_space_nonspace by exact E.
    repeat split; auto. apply Z.eqb_neq. unfold EOF. lia.
Qed.

Lemma skipn_all_iff {A : Type} (l : list A) (i : nat) :
  skipn i l = [] -> (length l <= i)%nat.
Proof.
  revert i. induction l as [|h t IH]; intros i H; cbn [length]; [lia|].
  destruct i as [|i]; [discriminate|]. cbn [skipn] in H. apply IH in H. lia.
Qed.

(** The loading loops on any input: [chars] are the characters of the
    input that are not white space, in order. *)
Lemma load_rows_any (m0 : maze_t) (chars : list Z) (ch : Z) (ifp s : list Z) :
  grid_ok m0 -> bytes s -> non_space s = chars ->
  skip_space ifp ch = next_char s ->
  let n := length (cells m0) in
  exists x,
    for_up_ret (Z.to_nat (n_rows m0)) 0 (load_row (n_cols m0)) (m0, ch, ifp) = Ret x /\
    match x with
    | inl (m, _, _) =>
      (n <= length chars)%nat /\ m = with_cells m0 (map load_cell (firstn n chars))
    | inr res =>
      (length chars < n)%nat /\
      res = (0, with_cells m0 (map load_cell chars ++ skipn (length chars) (cells m0)))
    end.
Proof.
  intros Hok Hbytes Hchars Hstart n. pose proof Hok as (Hr & Hc & Hn & Hl).
  set (nr := n_rows m0) in *. set (nc := n_cols m0) in *.
  set (cells_at := fun idx : Z =>
         map load_cell (firstn (Z.to_nat idx) chars) ++ skipn (Z.to_nat idx) (cells m0)).
  set (left_at := fun (idx : Z) (t : list Z) =>
         (Z.to_nat idx <= length chars)%nat /\ bytes t /\
         non_space t = skipn (Z.to_nat idx) chars).
  set (InvIn := fun (idx : Z) (st : maze_t * Z * list Z) =>
         fst (fst st) = with_cells m0 (cells_at idx) /\
         exists t, left_at idx t /\ (snd (fst st), snd st) = next_char t).
  set (InvOut := fun (idx : Z) (st : maze_t * Z * list Z) =>
         fst (fst st) = with_cells m0 (cells_at idx) /\
         exists t, left_at idx t /\ skip_space (snd st) (snd (fst st)) = next_char t).
  set (Q := fun res : Z * maze_t =>
         (length chars < n)%nat /\
         res = (0, with_cells m0 (map load_cell chars ++ skipn (length chars) (cells m0)))).
  assert (Hcol : forall r c st, 0 <= r < nr -> 0 <= c < nc -> InvIn (r * nc + c) st ->
            exists x, load_col r c st = Ret x /\
              match x with inl st' => InvIn (r * nc + c + 1) st' | inr res => Q res end).
  { intros r c [[m ch0] ifp0] Hrr Hcc [Hm (t & (Hle & Hbt & Hns) & Hrest)].
    cbn [fst snd] in Hm, Hrest.
    destruct (OFFSET_small m0 r c Hok Hrr Hcc) as [Eoff Hrange]. fold nc nr in Eoff, Hrange.
    set (idx := r * nc + c) in *.
    pose proof (next_char_non_space t Hbt) as Hnext. rewrite Hns in Hnext.
    unfold load_col.
    destruct (skipn (Z.to_nat idx) chars) as [|c0 tl] eqn:Esk.
    - rewrite Hnext in Hrest. inversion Hrest; subst ch0 ifp0.
      cbn [Z.eqb EOF Pos.eqb]. eexists. split; [reflexivity|].
      apply skipn_all_iff in Esk.
      assert (Elen : Z.to_nat idx = length chars) by lia.
      unfold Q. split; [unfold n; lia|]. subst m. unfold cells_at.
      now rewrite Elen, firstn_all.
    - destruct Hnext as (rest & Hnc & Hrest_ns & Hrest_b & Hneof).
      rewrite Hnc in Hrest. inversion Hrest; subst ch0 ifp0. rewrite Hneof.
      assert (Hidx : (Z.to_nat idx < length chars)%nat).
      { destruct (Nat.lt_ge_cases (Z.to_nat idx) (length chars)) as [H | H]; auto.
        rewrite skipn_all2 in Esk by exact H. discriminate. }
      assert (Ec0 : c0 = nth (Z.to_nat idx) chars 0).
      { rewrite (skipn_cons_nth chars (Z.to_nat idx) 0 Hidx) in Esk. now inversion Esk. }
      assert (Etl : tl = skipn (S (Z.to_nat idx)) chars).
      { rewrite (skipn_cons_nth chars (Z.to_nat idx) 0 Hidx) in Esk. now inversion Esk. }
      assert (Eoff' : OFFSET m r c = idx) by (subst m; exact Eoff).
      rewrite Eoff'.
      assert (Hlenm : length (cells m) = length (cells m0)).
      { subst m. cbn [cells with_cells]. unfold cells_at.
        rewrite length_app, length_map, length_firstn, length_skipn. lia. }
      rewrite wr_total by lia. cbn [bind].
      pose proof (fgetc_skip_space rest) as Hfg.
      destruct (fgetc rest) as [c1 ifp1]. cbn [fst snd] in Hfg.
      destruct (skip_space ifp1 c1) as [ch1 ifp2] eqn:Esk2.
      eexists. split; [reflexivity|].
      split; cbn [fst snd].
      + subst m. cbn [cells with_cells]. unfold with_cells.
        cbn [n_rows n_cols sets exit_1 exit_2]. f_equal. unfold cells_at.
        replace (Z.to_nat (idx + 1)) with (S (Z.to_nat idx)) by lia.
        rewrite (firstn_snoc_nth chars (Z.to_nat idx) 0 Hidx), map_app, <- app_assoc.
        cbn [app map].
        rewrite (skipn_cons_nth (cells m0) (Z.to_nat idx) def_node) by lia.
        rewrite <- Ec0. apply upd_app_mid.
        rewrite length_map, length_firstn. lia.
      + exists rest. split; [|now rewrite Hfg].
        unfold left_at. replace (Z.to_nat (idx + 1)) with (S (Z.to_nat idx)) by lia.
        split; [lia|]. split; [exact Hrest_b|]. now rewrite Hrest_ns. }
  destruct (for_up_ret_inv (fun r st => InvOut (r * nc) st) Q (load_row nc)
              (Z.to_nat nr) 0 (m0, ch, ifp)) as [x [Hrun Hx]].
  - intros r [[m ch0] ifp0] Hrr [Hm (t & Hleft & Hrest)]. cbn [fst snd] in Hm, Hrest.
    unfold load_row.
    destruct (skip_space ifp0 ch0) as [ch1 ifp1] eqn:Esk.
    destruct (for_up_ret_inv (fun c st => InvIn (r * nc + c) st) Q (load_col r)
                (Z.to_nat nc) 0 (m, ch1, ifp1)) as [y [Hrun' Hy]].
    + intros c u Hcc Hu.
      replace (r * nc + (c + 1)) with (r * nc + c + 1) by lia.
      apply Hcol; auto; lia.
    + rewrite Z.add_0_r. split; cbn [fst snd]; auto. exists t. split; auto.
    + exists y. split; [exact Hrun'|].
      destruct y as [[[m2 ch2] ifp2] | res]; [|exact Hy].
      destruct Hy as [Hm2 (t2 & Hleft2 & Hrest2)]. cbn [fst snd] in Hm2, Hrest2.
      replace ((r + 1) * nc) with (r * nc + (0 + Z.of_nat (Z.to_nat nc))) by lia.
      split; cbn [fst snd]; auto.
      exists t2. split; auto.
      rewrite <- Hrest2. apply skip_space_nonspace.
      symmetry in Hrest2. eapply next_char_nonspace; eauto.
  - split; cbn [fst snd].
    + unfold cells_at. cbn [Z.to_nat firstn skipn app Z.mul map]. now destruct m0.
    + exists s. split; [|exact Hstart].
      unfold left_at. cbn [Z.mul Z.to_nat skipn]. repeat split; auto. lia.
  - exists x. split; [exact Hrun|].
    destruct x as [[[m ch'] ifp'] | res]; [|exact Hx].
    destruct Hx as [Hm (t & (Hle & _) & _)]. cbn [fst snd] in Hm.
    assert (En : Z.to_nat ((0 + Z.of_nat (Z.to_nat nr)) * nc) = n) by (unfold n; lia).
    rewrite En in Hle. split; [exact Hle|].
    subst m. f_equal. unfold cells_at. rewrite En. unfold n.
    rewrite skipn_all. apply app_nil_r.
Qed.

Lemma maze_load_any (EXIT : rowcol_t -> Z -> rowcol_t) (junk : nat -> maze_node)
  (old : maze_t) (rows cols e1 e2 : rowcol_t) (body : list Z) :
  1 <= rows -> 1 <= cols -> rows * cols < wB ->
  0 <= e1 < wB -> 0 <= e2 < wB -> bytes body ->
  let n := Z.to_nat (rows * cols) in
  let chars := non_space body in
  maze_load EXIT (Some junk) old (store_header (mk_maze rows cols [] [] e1 e2) ++ body) =
  if (n <=? length chars)%nat
  then Ret (1, mk_maze rows cols (map load_cell (firstn n chars)) [] e1 e2)
  else Ret (0, mk_maze rows cols
                  (map load_cell chars ++ repeat def_node (n - length chars)) [] e1 e2).
Proof.
  intros Hr Hc Hn He1 He2 Hb n chars.
  unfold maze_load.
  rewrite scan_header_store_header by (cbn [n_rows n_cols exit_1 exit_2]; auto; nia).
  cbn [bind n_rows n_cols exit_1 exit_2].
  rewrite maze_init_succeeds by auto. cbn [bind Z.eqb].
  set (m2 := with_exits _ e1 e2).
  pose proof (fgetc_skip_space (skip_ws body)) as Hstart.
  rewrite next_char_skip_ws in Hstart.
  destruct (fgetc (skip_ws body)) as [ch ifp2]. cbn [fst snd] in Hstart.
  assert (Hok2 : grid_ok m2).
  { unfold grid_ok, m2. cbn [with_exits n_rows n_cols cells].
    rewrite repeat_length. repeat split; auto. lia. }
  destruct (load_rows_any m2 chars ch ifp2 body Hok2 Hb eq_refl Hstart) as [x [Hrun Hx]].
  change (n_rows m2) with rows in Hrun. change (n_cols m2) with cols in Hrun.
  rewrite Hrun. cbn [bind].
  assert (Elen : length (cells m2) = n)
    by (unfold m2; cbn [with_exits cells]; now rewrite repeat_length).
  rewrite Elen in Hx.
  destruct x as [[[m ch'] ifp'] | res].
  - destruct Hx as [Hle ->].
    replace (n <=? length chars)%nat with true by (symmetry; apply Nat.leb_le; exact Hle).
    reflexivity.
  - destruct Hx as [Hlt ->].
    replace (n <=? length chars)%nat with false by (symmetry; apply Nat.leb_gt; exact Hlt).
    assert (Esk : skipn (length chars) (repeat def_node n) =
                  repeat def_node (n - length chars)).
    { replace (repeat def_node n)
        with (repeat def_node (length chars) ++ repeat def_node (n - length chars))
        by (rewrite <- repeat_app; f_equal; lia).
      rewrite skipn_app, repeat_length, Nat.sub_diag.
      rewrite skipn_all2 by (rewrite repeat_length; lia). reflexivity. }
    unfold m2, with_cells, with_exits. cbn [n_rows n_cols cells sets exit_1 exit_2].
    fold n. rewrite Esk. reflexivity.
Qed.

(** * maze_find_path with the start as the goal *)




(** * The solving step of [main] *)

Lemma main_solve_in_range (EPOS EDIR : rowcol_t -> Z) (fuel : nat) (mp : maze_t)
  (solution : Z) (src dst s g : cell) :
  solution <> SOLN_NONE ->
  (if solution =? SOLN_DEFAULT
   then exit_cell EPOS EDIR mp (exit_1 mp) src else src) = s ->
  (if solution =? SOLN_DEFAULT
   then exit_cell EPOS EDIR mp (exit_2 mp) dst else dst) = g ->
  in_grid (n_rows mp) (n_cols mp) s -> in_grid (n_rows mp) (n_cols mp) g ->
  main_solve EPOS EDIR fuel mp solution src dst =
  (m <- maze_find_path fuel mp (fst s) (snd s) (fst g) (snd g) ;; Ret (0, m)).
Proof.
  intros Hsol Es Eg [Hs1 Hs2] [Hg1 Hg2]. unfold main_solve. rewrite Es, Eg.
  replace (solution =? SOLN_NONE) with false by (symmetry; apply Z.eqb_neq; exact Hsol).
  cbn [negb].
  replace (n_rows mp <=? fst s) with false by (symmetry; apply Z.leb_gt; lia).
  replace (n_cols mp <=? snd s) with false by (symmetry; apply Z.leb_gt; lia).
  replace (n_rows mp <=? fst g) with false by (symmetry; apply Z.leb_gt; lia).
  replace (n_cols mp <=? snd g) with false by (symmetry; apply Z.leb_gt; lia).
  reflexivity.
Qed.

Lemma default_endpoints (EXIT : rowcol_t -> Z -> rowcol_t) (EPOS EDIR : rowcol_t -> Z)
  (mp : maze_t) (src dst : cell) :
  1 <= n_rows mp < wB -> 1 <= n_cols mp < wB ->
  exit_1 mp = EXIT 0 DIR_L -> exit_2 mp = EXIT (wrap (n_rows mp - 1)) DIR_R ->
  EPOS (EXIT 0 DIR_L) = 0 -> EDIR (EXIT 0 DIR_L) = DIR_L ->
  EPOS (EXIT (n_rows mp - 1) DIR_R) = n_rows mp - 1 ->
  EDIR (EXIT (n_rows mp - 1) DIR_R) = DIR_R ->
  exit_cell EPOS EDIR mp (exit_1 mp) src = (0, 0) /\
  exit_cell EPOS EDIR mp (exit_2 mp) dst = (n_rows mp - 1, n_cols mp - 1).
Proof.
  intros Hr Hc E1 E2 P1 D1 P2 D2. unfold exit_cell.
  rewrite E1, E2, (wrap_small (n_rows mp - 1)) by lia.
  rewrite P1, D1, P2, D2. cbn [Z.eqb DIR_U DIR_D DIR_L DIR_R Pos.eqb].
  now rewrite wrap_small by lia.
Qed.

(** * The source of mazegen as a source of doubles *)

(** The source of mazegen.

    [randomizer] returns [random () / 2^31], a double with at most 31
    significant bits; its product with a count of up to [2^22] has at
    most 53 and is a double as it stands. *)
Lemma randomizer_value (random : nat -> Z) (k : nat) :
  (randomizer 2147483647 random k == inject_Z (random k) * two_pow (-31))%Q.
Proof. unfold randomizer. reflexivity. Qed.

Lemma randomizer_double_source (random : nat -> Z) :
  (forall k, 0 <= random k <= 2147483647) ->
  double_source (randomizer 2147483647 random).
Proof.
  intros H k.
  destruct (randomizer_unit_source 2147483647 random H k) as [H0 H1].
  specialize (H k).
  split; [|split; assumption].
  apply (binary64_intro (random k) (-31)).
  - change (2 ^ 53) with 9007199254740992. lia.
  - lia.
  - apply randomizer_value.
Qed.

Lemma randomizer_products_exact (random : nat -> Z) (k : nat) (n : Z) :
  0 <= random k <= 2147483647 -> 0 <= n <= 2 ^ 22 ->
  binary64 (randomizer 2147483647 random k * inject_Z n).
Proof.
  intros Hr Hn. change (2 ^ 22) with 4194304 in Hn.
  apply (binary64_intro (random k * n) (-31)).
  - change (2 ^ 53) with 9007199254740992. nia.
  - lia.
  - rewrite randomizer_value. unfold Qeq, Qmult, inject_Z, two_pow. cbn. ring.
Qed.

(** So for the source of mazegen and a queue of up to [2^22] cells the
    index of every swap is the floor of the product. *)
Lemma reshuffle_randomizer_floor (random : nat -> Z) (q : list rowcol_t) (k : nat) :
  (forall c, 0 <= random c <= 2147483647) ->
  (1 <= length q)%nat -> Z.of_nat (length q) <= 2 ^ 22 ->
  exists q',
    reshuffle_rounded (randomizer 2147483647 random) (length q - 1) (q, k)
    = Ret (q', (k + (length q - 1))%nat) /\
    shuffle_pass Qfloor (randomizer 2147483647 random) k (length q - 1) q = Some q'.
Proof.
  intros Hr H1 Hlen. change (2 ^ 22) with 4194304 in Hlen.
  destruct (reshuffle_rounded_spec _ (randomizer_double_source random Hr)
              (length q - 1) q k) as [q' (R1 & R2 & _)];
    [lia | rewrite wB_val; lia |].
  exists q'. split; [exact R1|].
  rewrite <- R2. symmetry. apply shuffle_pass_ext. intros j Hj.
  apply trunc_double_exact.
  - apply randomizer_products_exact; [apply Hr|].
    change (2 ^ 22) with 4194304. lia.
  - destruct (randomizer_double_source random Hr (k + j)%nat) as (_ & H0 & _).
    apply Qmult_le_0_compat; [exact H0|].
    unfold Qle, inject_Z. cbn [Qnum Qden]. lia.
Qed.

(** * Further properties of the code *)

Lemma grid_ok_perfect_2x2 : grid_ok perfect_2x2.
Proof. unfold grid_ok; split; [|split; [|split]]; vm_compute; congruence. Qed.

Lemma grid_ok_uniform_2x2 : grid_ok (uniform_grid 2 2 def_node).
Proof. unfold grid_ok; split; [|split; [|split]]; vm_compute; congruence. Qed.

Lemma grid_ok_corridor_1x2 : grid_ok corridor_1x2.
Proof. unfold grid_ok; split; [|split; [|split]]; vm_compute; congruence. Qed.

Lemma unit_source_half : unit_source (fun _ => 1 # 2)%Q.
Proof. intros k. split; [unfold Qle | unfold Qlt]; cbn; lia. Qed.

Lemma unit_source_zero : unit_source (fun _ => 0 # 1)%Q.
Proof. intros k. split; [unfold Qle | unfold Qlt]; cbn; lia. Qed.

Lemma corridor_1x2_generated :
  maze_generate 4 (Some (fun _ => 0)) (Some (fun _ => 0)) (fun _ => 0 # 1)%Q
    (uniform_grid 1 2 def_node) = Ret (1, corridor_1x2).
Proof. vm_compute. reflexivity. Qed.

Lemma grid_ok_uniform_1x2 : grid_ok (uniform_grid 1 2 def_node).
Proof. unfold grid_ok; split; [|split; [|split]]; vm_compute; congruence. Qed.

Lemma spanning_tree_corridor_1x2 : spanning_tree corridor_1x2.
Proof.
  exact (proj1 (maze_generate_tree _ _ _ _ _ _ grid_ok_uniform_1x2 unit_source_zero
                  corridor_1x2_generated)).
Qed.

Lemma boundary_closed_corridor_1x2 : boundary_closed corridor_1x2.
Proof.
  exact (maze_generate_closed _ _ _ _ _ _ grid_ok_uniform_1x2 unit_source_zero
           corridor_1x2_generated).
Qed.

(** X1. For a cell of the grid and a direction, [s_can_move] returns, and
    it answers yes exactly when the wall between the cell and its
    neighbour in that direction is absent, with one exception: to the
    Right from the last column it answers yes when the right wall bit of
    the cell is clear, although there is no neighbour. *)
Theorem s_can_move_answers (mp : maze_t) (r c : Z) (dir : Z) :
  grid_ok mp -> in_grid (n_rows mp) (n_cols mp) (r, c) -> 0 <= dir < 4 ->
  exists b : bool,
    s_can_move mp r c dir = Ret b /\
    (b = true <->
     passage mp (r, c) (neighbour dir (r, c)) \/
     (dir = DIR_R /\ c = n_cols mp - 1 /\ r_wall (cell_at mp (r, c)) = false)).
Proof. exact (s_can_move_spec mp r c dir). Qed.

Lemma s_can_move_answers_witness :
  exists b : bool,
    s_can_move perfect_2x2 0 0 DIR_R = Ret b /\
    (b = true <->
     passage perfect_2x2 (0, 0) (neighbour DIR_R (0, 0)) \/
     (DIR_R = DIR_R /\ 0 = n_cols perfect_2x2 - 1 /\
      r_wall (cell_at perfect_2x2 (0, 0)) = false)).
Proof.
  apply (s_can_move_answers perfect_2x2 0 0 DIR_R).
  - exact grid_ok_perfect_2x2.
  - unfold in_grid. cbn. lia.
  - unfold DIR_R. lia.
Defined.



(** X3. On a well-formed grid [maze_reset] returns; afterwards every cell
    has both walls, marker Up and no visited flag, so no two cells are
    joined: a cell is connected to itself only, and the boundary is
    closed.  The dimensions, the path sets and the exits stay. *)
Theorem maze_reset_walls_every_cell (mp : maze_t) :
  grid_ok mp ->
  exists mp',
    maze_reset mp = Ret mp' /\
    n_rows mp' = n_rows mp /\ n_cols mp' = n_cols mp /\
    sets mp' = sets mp /\ exit_1 mp' = exit_1 mp /\ exit_2 mp' = exit_2 mp /\
    (forall x, cell_at mp' x = def_node) /\
    (forall x y, connected mp' x y -> x = y) /\
    boundary_closed mp'.
Proof.
  intros Hok. rewrite maze_reset_spec by exact Hok.
  eexists. split; [reflexivity|]. do 5 (split; [reflexivity|]).
  assert (Hc : forall x, cell_at (with_cells mp (repeat def_node (length (cells mp)))) x
                         = def_node) by (intros x; apply cell_at_repeat).
  split; [exact Hc|]. split.
  - intros x y. apply connected_no_passage. intros u v H.
    destruct H as [r c _ _ Hw | r c _ _ Hw | r c _ _ Hw | r c _ _ Hw];
      rewrite Hc in Hw; discriminate.
  - intros x _. rewrite Hc. split; reflexivity.
Qed.

Lemma maze_reset_walls_every_cell_witness :
  exists mp',
    maze_reset perfect_2x2 = Ret mp' /\
    n_rows mp' = n_rows perfect_2x2 /\ n_cols mp' = n_cols perfect_2x2 /\
    sets mp' = sets perfect_2x2 /\ exit_1 mp' = exit_1 perfect_2x2 /\
    exit_2 mp' = exit_2 perfect_2x2 /\
    (forall x, cell_at mp' x = def_node) /\
    (forall x y, connected mp' x y -> x = y) /\
    boundary_closed mp'.
Proof. apply (maze_reset_walls_every_cell perfect_2x2). exact grid_ok_perfect_2x2. Defined.

(** X4. The choice of the wall to kick down in [maze_generate]: for an
    adjacency mask [adj] of four bits, [adj_pop] holds the number of its
    set bits; for [skip] below that number the loop over [wall] stops at
    the set bit that has exactly [skip] set bits below it; for any other
    [skip] it runs to 4, where the switch fails its assertion. *)
Theorem wall_choice (adj skip : Z) :
  0 <= adj < 16 -> 0 <= skip < wB ->
  rd adj_pop adj = Ret (bits_in adj 0 4) /\
  (skip < bits_in adj 0 4 ->
   0 <= wall_loop 4 0 skip adj < 4 /\
   Z.testbit adj (wall_loop 4 0 skip adj) = true /\
   bits_in adj 0 (Z.to_nat (wall_loop 4 0 skip adj)) = skip) /\
  (bits_in adj 0 4 <= skip ->
   wall_loop 4 0 skip adj = 4 /\
   forall mp r c, kick_down mp (wall_loop 4 0 skip adj) r c = Crash).
Proof.
  intros Hadj Hskip. split; [exact (adj_pop_counts adj Hadj)|].
  destruct (wall_loop_spec adj 4 0 skip ltac:(lia) Hskip) as [Hin Hout].
  split.
  - intros Hlt. destruct (Hin Hlt) as (H1 & H2 & H3).
    rewrite Z.sub_0_r in H3. cbn [Z.of_nat Pos.of_succ_nat Pos.succ Z.add] in H1.
    repeat split; auto; lia.
  - intros Hge. rewrite (Hout Hge). split; [reflexivity|].
    intros mp r c. apply kick_down_no_wall.
Qed.

Lemma wall_choice_witness :
  rd adj_pop 10 = Ret (bits_in 10 0 4) /\
  (1 < bits_in 10 0 4 ->
   0 <= wall_loop 4 0 1 10 < 4 /\
   Z.testbit 10 (wall_loop 4 0 1 10) = true /\
   bits_in 10 0 (Z.to_nat (wall_loop 4 0 1 10)) = 1) /\
  (bits_in 10 0 4 <= 1 ->
   wall_loop 4 0 1 10 = 4 /\
   forall mp r c, kick_down mp (wall_loop 4 0 1 10) r c = Crash).
Proof. apply (wall_choice 10 1); rewrite ?wB_val; lia. Defined.

(** X5. [s_adj] on a cell of the grid, the path sets being a forest over
    the cells: it returns a mask below 16 whose bit for a direction is set
    exactly when the neighbour in that direction lies in the grid and
    belongs to another path set than the cell; the path compression it
    does on the way changes no path set, and nothing but the path sets. *)
Theorem s_adj_mask (fuel : nat) (mp : maze_t) (r c : Z) :
  grid_ok mp -> forest (sets mp) ->
  Z.of_nat (length (sets mp)) = n_rows mp * n_cols mp ->
  (length (sets mp) <= fuel)%nat ->
  in_grid (n_rows mp) (n_cols mp) (r, c) ->
  exists ss' adj,
    s_adj fuel mp (off (n_cols mp) (r, c)) = Ret (with_sets mp ss', adj) /\
    0 <= adj < 16 /\
    (forall i j, same_set ss' i j <-> same_set (sets mp) i j) /\
    (forall dir, 0 <= dir < 4 ->
       (Z.testbit adj dir = true <->
        in_grid (n_rows mp) (n_cols mp) (neighbour dir (r, c)) /\
        ~ same_set (sets mp) (off (n_cols mp) (neighbour dir (r, c)))
                   (off (n_cols mp) (r, c)))).
Proof. exact (s_adj_flags fuel mp r c). Qed.

Lemma s_adj_mask_witness :
  exists ss' adj,
    s_adj 4 (with_sets perfect_2x2 (singletons 4)) (off 2 (0, 0)) =
    Ret (with_sets (with_sets perfect_2x2 (singletons 4)) ss', adj) /\
    0 <= adj < 16 /\
    (forall i j, same_set ss' i j <-> same_set (singletons 4) i j) /\
    (forall dir, 0 <= dir < 4 ->
       (Z.testbit adj dir = true <->
        in_grid 2 2 (neighbour dir (0, 0)) /\
        ~ same_set (singletons 4) (off 2 (neighbour dir (0, 0))) (off 2 (0, 0)))).
Proof.
  apply (s_adj_mask 4 (with_sets perfect_2x2 (singletons 4)) 0 0).
  - exact grid_ok_perfect_2x2.
  - apply forest_singletons.
  - reflexivity.
  - cbn. lia.
  - unfold in_grid. cbn. lia.
Defined.

(** X6. For a source in [0, 1), the reshuffle of a queue of [n >= 1]
    entries returns a permutation of the queue and calls the source
    [n - 1] times: no cell is lost from the queue, none is doubled. *)
Theorem reshuffle_permutes (random : rand_f) (q : list rowcol_t) (k : nat) :
  unit_source random -> (1 <= length q)%nat -> Z.of_nat (length q) < wB ->
  exists q',
    reshuffle random (length q - 1) (q, k) = Ret (q', (k + (length q - 1))%nat) /\
    Permutation q q'.
Proof.
  intros Hsrc H1 Hlen.
  destruct (reshuffle_spec random Hsrc (length q - 1) q k) as [q' (R1 & _ & R3)];
    [lia | auto |].
  exists q'. auto.
Qed.

Lemma reshuffle_permutes_witness :
  exists q',
    reshuffle (fun _ => 1 # 2)%Q (length [0; 1; 2] - 1) ([0; 1; 2], O)
    = Ret (q', (0 + (length [0; 1; 2] - 1))%nat) /\
    Permutation [0; 1; 2] q'.
Proof.
  apply (reshuffle_permutes (fun _ => 1 # 2)%Q [0; 1; 2] O).
  - exact unit_source_half.
  - cbn. lia.
  - rewrite wB_val. cbn. lia.
Defined.

(** X7. [maze_generate] starts from scratch: with both allocations
    succeeding, its outcome depends on the dimensions, the exits and the
    random source only, not on the walls, markers, visited flags or path
    sets the maze held before, nor on what the allocated blocks held. *)
Theorem maze_generate_from_scratch (fuel : nat) (hs1 hq1 hs2 hq2 : nat -> rowcol_t)
  (random : rand_f) (mp1 mp2 : maze_t) :
  grid_ok mp1 -> grid_ok mp2 ->
  n_rows mp1 = n_rows mp2 -> n_cols mp1 = n_cols mp2 ->
  exit_1 mp1 = exit_1 mp2 -> exit_2 mp1 = exit_2 mp2 ->
  maze_generate fuel (Some hs1) (Some hq1) random mp1 =
  maze_generate fuel (Some hs2) (Some hq2) random mp2.
Proof.
  intros Hok1 Hok2 Er Ec E1 E2.
  rewrite (maze_generate_fresh fuel hs1 hq1 random mp1 Hok1).
  rewrite (maze_generate_fresh fuel hs2 hq2 random mp2 Hok2).
  assert (El : length (cells mp1) = length (cells mp2)).
  { destruct Hok1 as (_ & _ & _ & L1), Hok2 as (_ & _ & _ & L2).
    rewrite Er, Ec in L1. lia. }
  assert (E : forall cs ss, with_sets (with_cells mp1 cs) ss = with_sets (with_cells mp2 cs) ss).
  { intros cs ss. unfold with_sets, with_cells. cbn [n_rows n_cols cells sets exit_1 exit_2].
    now rewrite Er, Ec, E1, E2. }
  rewrite Er, Ec, El, E. reflexivity.
Qed.

Lemma maze_generate_from_scratch_witness :
  maze_generate 4 (Some (fun _ => 0)) (Some (fun _ => 0)) (fun _ => 1 # 2)%Q perfect_2x2 =
  maze_generate 4 (Some (fun _ => 7)) (Some (fun _ => 9)) (fun _ => 1 # 2)%Q
    (uniform_grid 2 2 def_node).
Proof.
  apply (maze_generate_from_scratch 4 (fun _ => 0) (fun _ => 0) (fun _ => 7) (fun _ => 9)
           (fun _ => 1 # 2)%Q perfect_2x2 (uniform_grid 2 2 def_node)).
  - exact grid_ok_perfect_2x2.
  - exact grid_ok_uniform_2x2.
  - reflexivity.
  - reflexivity.
  - reflexivity.
  - reflexivity.
Defined.

(** X8. A maze that [maze_generate] has made keeps its boundary closed:
    no cell of the last column has lost its right wall, no cell of the
    last row its bottom wall.  The generator kicks down walls between two
    cells of the grid only. *)
Theorem maze_generate_keeps_boundary (fuel : nat)
  (heap_sets heap_queue : option (nat -> rowcol_t)) (random : rand_f) (mp mp' : maze_t) :
  grid_ok mp -> unit_source random ->
  maze_generate fuel heap_sets heap_queue random mp = Ret (1, mp') ->
  boundary_closed mp'.
Proof. exact (maze_generate_closed fuel heap_sets heap_queue random mp mp'). Qed.

Lemma maze_generate_keeps_boundary_witness : boundary_closed corridor_1x2.
Proof.
  apply (maze_generate_keeps_boundary 4 (Some (fun _ => 0)) (Some (fun _ => 0))
           (fun _ => 0 # 1)%Q (uniform_grid 1 2 def_node) corridor_1x2).
  - exact grid_ok_uniform_1x2.
  - exact unit_source_zero.
  - vm_compute. reflexivity.
Defined.

(** X9. [maze_generate] never touches the exits: whenever it returns, on
    success or on allocation failure, both exit descriptors are those the
    maze had before the call. *)
Theorem maze_generate_keeps_exits (fuel : nat)
  (heap_sets heap_queue : option (nat -> rowcol_t)) (random : rand_f)
  (mp mp' : maze_t) (ok : Z) :
  maze_generate fuel heap_sets heap_queue random mp = Ret (ok, mp') ->
  exit_1 mp' = exit_1 mp /\ exit_2 mp' = exit_2 mp.
Proof. exact (maze_generate_same_exits fuel heap_sets heap_queue random mp mp' ok). Qed.

Lemma maze_generate_keeps_exits_witness :
  exit_1 (with_exits corridor_1x2 3 5) = exit_1 (with_exits (uniform_grid 1 2 def_node) 3 5) /\
  exit_2 (with_exits corridor_1x2 3 5) = exit_2 (with_exits (uniform_grid 1 2 def_node) 3 5).
Proof.
  apply (maze_generate_keeps_exits 4 (Some (fun _ => 0)) (Some (fun _ => 0))
           (fun _ => 0 # 1)%Q (with_exits (uniform_grid 1 2 def_node) 3 5)
           (with_exits corridor_1x2 3 5) 1).
  vm_compute. reflexivity.
Defined.

(** X10. On a maze that is a spanning tree of its grid and has its
    boundary closed, [maze_find_path] between two distinct cells returns
    (with enough fuel for its loops), leaves every wall as it was, and
    sets the visited flag on exactly the cells of a simple path from the
    start to the goal, the markers along that path pointing from each
    cell to the next.  In a tree that path is the only simple one. *)
Theorem find_path_marks_tree_path (mp : maze_t) (s g : cell) :
  grid_ok mp -> spanning_tree mp -> boundary_closed mp ->
  in_grid (n_rows mp) (n_cols mp) s -> in_grid (n_rows mp) (n_cols mp) g -> s <> g ->
  exists (p : list cell) (N : nat),
    walk mp s p g /\ NoDup (s :: p) /\
    (forall q, walk mp s q g -> NoDup (s :: q) -> q = p) /\
    forall fuel, (N <= fuel)%nat ->
      exists mp',
        maze_find_path fuel mp (fst s) (snd s) (fst g) (snd g) = Ret mp' /\
        same_walls mp mp' /\ pointed mp' s p /\
        forall z, in_grid (n_rows mp) (n_cols mp) z ->
          (visit (cell_at mp' z) = true <-> In z (s :: p)).
Proof.
  intros Hok Htree Hclosed Hs Hg Hne.
  destruct (find_path_on_tree mp s g Hok Htree Hclosed Hs Hg Hne)
    as (p & N & Hw & Hnd & Hrun).
  exists p, N. split; [exact Hw|]. split; [exact Hnd|]. split; [|exact Hrun].
  intros q Hq Hndq.
  destruct Htree as (_ & _ & Hbr).
  exact (simple_walk_unique mp Hbr s g p q Hw Hq Hnd Hndq).
Qed.

Lemma find_path_marks_tree_path_witness :
  exists (p : list cell) (N : nat),
    walk corridor_1x2 (0, 0) p (0, 1) /\ NoDup ((0, 0) :: p) /\
    (forall q, walk corridor_1x2 (0, 0) q (0, 1) -> NoDup ((0, 0) :: q) -> q = p) /\
    forall fuel, (N <= fuel)%nat ->
      exists mp',
        maze_find_path fuel corridor_1x2 (fst (0, 0)) (snd (0, 0)) (fst (0, 1)) (snd (0, 1))
        = Ret mp' /\
        same_walls corridor_1x2 mp' /\ pointed mp' (0, 0) p /\
        forall z, in_grid (n_rows corridor_1x2) (n_cols corridor_1x2) z ->
          (visit (cell_at mp' z) = true <-> In z ((0, 0) :: p)).
Proof.
  apply (find_path_marks_tree_path corridor_1x2 (0, 0) (0, 1)).
  - exact grid_ok_corridor_1x2.
  - exact spanning_tree_corridor_1x2.
  - exact boundary_closed_corridor_1x2.
  - unfold in_grid. cbn. lia.
  - unfold in_grid. cbn. lia.
  - discriminate.
Defined.



(** X12. Generation and solving compose: in any maze that
    [maze_generate] has made from a well-formed grid with a source in
    [0, 1), [maze_find_path] between any two distinct cells returns and
    marks exactly the cells of the one simple path between them.  In
    particular the search never leaves the grid there, the generator
    having kept the boundary closed. *)
Theorem generate_then_solve (fuel : nat)
  (heap_sets heap_queue : option (nat -> rowcol_t)) (random : rand_f)
  (mp mp' : maze_t) (s g : cell) :
  grid_ok mp -> unit_source random ->
  maze_generate fuel heap_sets heap_queue random mp = Ret (1, mp') ->
  in_grid (n_rows mp) (n_cols mp) s -> in_grid (n_rows mp) (n_cols mp) g -> s <> g ->
  exists (p : list cell) (N : nat),
    walk mp' s p g /\ NoDup (s :: p) /\
    (forall q, walk mp' s q g -> NoDup (s :: q) -> q = p) /\
    forall fuel', (N <= fuel')%nat ->
      exists m,
        maze_find_path fuel' mp' (fst s) (snd s) (fst g) (snd g) = Ret m /\
        same_walls mp' m /\
        forall z, in_grid (n_rows mp) (n_cols mp) z ->
          (visit (cell_at m z) = true <-> In z (s :: p)).
Proof.
  intros Hok Hsrc Hrun Hs Hg Hne.
  destruct (maze_generate_tree _ _ _ _ _ _ Hok Hsrc Hrun) as (Htree & Hok' & Er & Ec).
  pose proof (maze_generate_closed _ _ _ _ _ _ Hok Hsrc Hrun) as Hclosed.
  rewrite <- Er, <- Ec in Hs, Hg.
  destruct (find_path_on_tree mp' s g Hok' Htree Hclosed Hs Hg Hne)
    as (p & N & Hw & Hnd & Hsolve).
  exists p, N. split; [exact Hw|]. split; [exact Hnd|]. split.
  - intros q Hq Hndq. destruct Htree as (_ & _ & Hbr).
    exact (simple_walk_unique mp' Hbr s g p q Hw Hq Hnd Hndq).
  - intros fuel' Hf. destruct (Hsolve fuel' Hf) as (m & H1 & H2 & _ & H4).
    exists m. split; [exact H1|]. split; [exact H2|].
    intros z Hz. apply H4. rewrite Er, Ec. exact Hz.
Qed.

Lemma generate_then_solve_witness :
  exists (p : list cell) (N : nat),
    walk corridor_1x2 (0, 1) p (0, 0) /\ NoDup ((0, 1) :: p) /\
    (forall q, walk corridor_1x2 (0, 1) q (0, 0) -> NoDup ((0, 1) :: q) -> q = p) /\
    forall fuel', (N <= fuel')%nat ->
      exists m,
        maze_find_path fuel' corridor_1x2 (fst (0, 1)) (snd (0, 1)) (fst (0, 0)) (snd (0, 0))
        = Ret m /\
        same_walls corridor_1x2 m /\
        forall z, in_grid (n_rows (uniform_grid 1 2 def_node))
                          (n_cols (uniform_grid 1 2 def_node)) z ->
          (visit (cell_at m z) = true <-> In z ((0, 1) :: p)).
Proof.
  apply (generate_then_solve 4 (Some (fun _ => 0)) (Some (fun _ => 0)) (fun _ => 0 # 1)%Q
           (uniform_grid 1 2 def_node) corridor_1x2 (0, 1) (0, 0)).
  - exact grid_ok_uniform_1x2.
  - exact unit_source_zero.
  - vm_compute. reflexivity.
  - unfold in_grid. cbn. lia.
  - unfold in_grid. cbn. lia.
  - discriminate.
Defined.

(** X13. [maze_load] reads back what [maze_store] wrote: for a
    well-formed maze, [maze_store] returns, and [maze_load] on its output
    succeeds with the same dimensions, exits and cells (walls, markers
    and visited flags), whatever the maze loaded into held before. *)
Theorem store_then_load (EXIT : rowcol_t -> Z -> rowcol_t) (junk : nat -> maze_node)
  (old mp : maze_t) :
  grid_ok mp -> Forall (fun n => 0 <= marker n < 4) (cells mp) ->
  0 <= exit_1 mp < wB -> 0 <= exit_2 mp < wB ->
  exists out,
    maze_store mp [] = Ret out /\
    maze_load EXIT (Some junk) old out =
    Ret (1, mk_maze (n_rows mp) (n_cols mp) (cells mp) [] (exit_1 mp) (exit_2 mp)).
Proof.
  intros Hok Hmk He1 He2.
  exists (store_header mp ++ store_body (cells mp) 0). split.
  - rewrite maze_store_spec by exact Hok. reflexivity.
  - now apply maze_load_stored.
Qed.

Lemma store_then_load_witness :
  exists out,
    maze_store (with_exits perfect_2x2 3 5) [] = Ret out /\
    maze_load EXIT_bits (Some (fun _ => def_node)) marked_1x1 out =
    Ret (1, mk_maze (n_rows (with_exits perfect_2x2 3 5)) (n_cols (with_exits perfect_2x2 3 5))
              (cells (with_exits perfect_2x2 3 5)) []
              (exit_1 (with_exits perfect_2x2 3 5)) (exit_2 (with_exits perfect_2x2 3 5))).
Proof.
  apply (store_then_load EXIT_bits (fun _ => def_node) marked_1x1 (with_exits perfect_2x2 3 5)).
  - exact grid_ok_perfect_2x2.
  - unfold with_exits, perfect_2x2. cbn [cells].
    repeat (constructor; [cbn; unfold DIR_U; lia|]). constructor.
  - rewrite wB_val. cbn. lia.
  - rewrite wB_val. cbn. lia.
Defined.

(** X14. What [maze_load] makes of the text after a header for [rows] by
    [cols] cells: it skips white space and takes every other character
    as a cell, without checking it.  With at least [rows * cols] such
    characters it succeeds, the cells being decoded from the first
    [rows * cols] of them and the rest of the input ignored; with fewer
    it returns 0, leaving the maze allocated at the size of the header,
    the cells read so far filled in and the others all walls. *)
Theorem maze_load_reads_any_body (EXIT : rowcol_t -> Z -> rowcol_t)
  (junk : nat -> maze_node) (old : maze_t) (rows cols e1 e2 : rowcol_t) (body : list Z) :
  1 <= rows -> 1 <= cols -> rows * cols < wB ->
  0 <= e1 < wB -> 0 <= e2 < wB -> bytes body ->
  maze_load EXIT (Some junk) old (store_header (mk_maze rows cols [] [] e1 e2) ++ body) =
  if (Z.to_nat (rows * cols) <=? length (non_space body))%nat
  then Ret (1, mk_maze rows cols
                  (map load_cell (firstn (Z.to_nat (rows * cols)) (non_space body)))
                  [] e1 e2)
  else Ret (0, mk_maze rows cols
                  (map load_cell (non_space body) ++
                   repeat def_node (Z.to_nat (rows * cols) - length (non_space body)))
                  [] e1 e2).
Proof. exact (maze_load_any EXIT junk old rows cols e1 e2 body). Qed.

Lemma maze_load_reads_any_body_witness :
  maze_load EXIT_bits (Some (fun _ => def_node)) marked_1x1
    (store_header (mk_maze 1 2 [] [] 3 5) ++ [32; 126; 10]) =
  if (Z.to_nat (1 * 2) <=? length (non_space [32; 126; 10]%Z))%nat
  then Ret (1, mk_maze 1 2
                  (map load_cell (firstn (Z.to_nat (1 * 2)) (non_space [32; 126; 10]%Z)))
                  [] 3 5)
  else Ret (0, mk_maze 1 2
                  (map load_cell (non_space [32; 126; 10]%Z) ++
                   repeat def_node (Z.to_nat (1 * 2) - length (non_space [32; 126; 10]%Z)))
                  [] 3 5).
Proof.
  apply (maze_load_reads_any_body EXIT_bits (fun _ => def_node) marked_1x1 1 2 3 5
           [32; 126; 10]).
  - lia.
  - lia.
  - rewrite wB_val. lia.
  - rewrite wB_val. lia.
  - rewrite wB_val. lia.
  - unfold bytes. repeat (constructor; [lia|]). constructor.
Defined.

(** X15. [maze_load] does not check the dimensions it reads: a header
    whose row or column count is zero, or whose cell count does not fit
    [unsigned int], does not make it return 0; the call of [maze_init]
    fails its assertion or overruns the block. *)
Theorem maze_load_bad_header_size (EXIT : rowcol_t -> Z -> rowcol_t)
  (junk : nat -> maze_node) (old : maze_t) (rows cols e1 e2 : rowcol_t) (body : list Z) :
  0 <= rows < wB -> 0 <= cols < wB -> 0 <= e1 < wB -> 0 <= e2 < wB ->
  rows * cols = 0 \/ wB <= rows * cols ->
  maze_load EXIT (Some junk) old (store_header (mk_maze rows cols [] [] e1 e2) ++ body)
  = Crash.
Proof.
  intros Hr Hc He1 He2 Hbad. unfold maze_load.
  rewrite scan_header_store_header by (cbn [n_rows n_cols exit_1 exit_2]; auto).
  cbn [bind n_rows n_cols exit_1 exit_2].
  rewrite maze_init_overflow by auto. reflexivity.
Qed.

Lemma maze_load_bad_header_size_witness :
  maze_load EXIT_bits (Some (fun _ => def_node)) marked_1x1
    (store_header (mk_maze 0 3 [] [] 3 5) ++ [97; 97; 97]) = Crash.
Proof.
  apply (maze_load_bad_header_size EXIT_bits (fun _ => def_node) marked_1x1 0 3 3 5
           [97; 97; 97]); rewrite ?wB_val; lia.
Defined.

(** X16. The text that [maze_write_text] writes, for exits that lie on
    their sides: [2 * rows + 1] lines of [4 * cols + 1] characters, each
    ended by a newline.  Line [2 r + 1] shows row [r] of the maze as the
    function leaves it: an at-sign in the middle of a cell that is
    visited, a bar after a cell that has its right wall; line [2 r + 2]
    shows dashes under a cell that has its bottom wall.  The top border
    is open above the column of an Up exit, the left border beside the
    row of a Left exit. *)
Theorem maze_write_text_draws (EPOS EDIR : rowcol_t -> rowcol_t) (mp : maze_t)
  (ofp : list Z) :
  grid_ok mp ->
  exit_in_range mp (EPOS (exit_1 mp)) (EDIR (exit_1 mp)) ->
  exit_in_range mp (EPOS (exit_2 mp)) (EDIR (exit_2 mp)) ->
  exists (mp' : maze_t) (lines : list (list Z)),
    maze_write_text EPOS EDIR mp ofp =
    Ret (mp', ofp ++ concat (map (fun l => l ++ [10]) lines)) /\
    Z.of_nat (length lines) = 2 * n_rows mp + 1 /\
    Forall (fun l => Z.of_nat (length l) = 4 * n_cols mp + 1 /\ ~ In 10 l) lines /\
    forall r c, in_grid (n_rows mp) (n_cols mp) (r, c) ->
      (char_at lines (2 * r + 1) (4 * c + 2) = 64 <-> visit (cell_at mp (r, c)) = true) /\
      (char_at lines (2 * r + 1) (4 * c + 4) = 124 <-> r_wall (cell_at mp' (r, c)) = true) /\
      (char_at lines (2 * r + 2) (4 * c + 2) = 45 <-> b_wall (cell_at mp' (r, c)) = true) /\
      (char_at lines 0 (4 * c + 2) = 32 <->
       (EDIR (exit_1 mp) = DIR_U /\ EPOS (exit_1 mp) = c) \/
       (EDIR (exit_2 mp) = DIR_U /\ EPOS (exit_2 mp) = c)) /\
      (char_at lines (2 * r + 1) 0 = 32 <->
       (EDIR (exit_1 mp) = DIR_L /\ EPOS (exit_1 mp) = r) \/
       (EDIR (exit_2 mp) = DIR_L /\ EPOS (exit_2 mp) = r)).
Proof.
  intros Hok H1 H2.
  destruct (maze_write_text_walls EPOS EDIR mp ofp Hok H1 H2)
    as (mp' & Hrun & Hok' & Er & Ec & _ & _ & Hw).
  pose proof Hok as (Hr & Hc & _).
  exists mp', (text_lines mp' (EPOS (exit_1 mp)) (EDIR (exit_1 mp))
                          (EPOS (exit_2 mp)) (EDIR (exit_2 mp))).
  split; [exact Hrun|]. split; [|split].
  - rewrite text_lines_length by (rewrite Er; lia). now rewrite Er.
  - rewrite <- Ec. apply text_lines_width. rewrite Ec. lia.
  - intros r c Hx.
    assert (Hx' : in_grid (n_rows mp') (n_cols mp') (r, c)) by (rewrite Er, Ec; exact Hx).
    destruct (text_lines_chars mp' (EPOS (exit_1 mp)) (EDIR (exit_1 mp))
                (EPOS (exit_2 mp)) (EDIR (exit_2 mp)) r c Hx') as (C1 & C2 & C3 & C4 & C5).
    destruct (Hw (r, c) Hx) as (V & _).
    rewrite <- V. rewrite <- !is_exit_iff. auto.
Qed.

Lemma maze_write_text_draws_witness :
  exists (mp' : maze_t) (lines : list (list Z)),
    maze_write_text EPOS_bits EDIR_bits
      (with_exits perfect_2x2 (EXIT_bits 0 DIR_L) (EXIT_bits 1 DIR_R)) [] =
    Ret (mp', [] ++ concat (map (fun l => l ++ [10]) lines)) /\
    Z.of_nat (length lines) = 2 * 2 + 1 /\
    Forall (fun l => Z.of_nat (length l) = 4 * 2 + 1 /\ ~ In 10 l) lines /\
    forall r c, in_grid 2 2 (r, c) ->
      (char_at lines (2 * r + 1) (4 * c + 2) = 64 <->
       visit (cell_at perfect_2x2 (r, c)) = true) /\
      (char_at lines (2 * r + 1) (4 * c + 4) = 124 <-> r_wall (cell_at mp' (r, c)) = true) /\
      (char_at lines (2 * r + 2) (4 * c + 2) = 45 <-> b_wall (cell_at mp' (r, c)) = true) /\
      (char_at lines 0 (4 * c + 2) = 32 <->
       (EDIR_bits (EXIT_bits 0 DIR_L) = DIR_U /\ EPOS_bits (EXIT_bits 0 DIR_L) = c) \/
       (EDIR_bits (EXIT_bits 1 DIR_R) = DIR_U /\ EPOS_bits (EXIT_bits 1 DIR_R) = c)) /\
      (char_at lines (2 * r + 1) 0 = 32 <->
       (EDIR_bits (EXIT_bits 0 DIR_L) = DIR_L /\ EPOS_bits (EXIT_bits 0 DIR_L) = r) \/
       (EDIR_bits (EXIT_bits 1 DIR_R) = DIR_L /\ EPOS_bits (EXIT_bits 1 DIR_R) = r)).
Proof.
  apply (maze_write_text_draws EPOS_bits EDIR_bits
           (with_exits perfect_2x2 (EXIT_bits 0 DIR_L) (EXIT_bits 1 DIR_R)) []).
  - exact grid_ok_perfect_2x2.
  - split; intros H; vm_compute in H; discriminate.
  - split; intros H; [vm_compute in H; discriminate|].
    vm_compute. split; [discriminate | reflexivity].
Defined.

(** X17. [maze_write_text] changes the maze it draws: for exits that lie
    on their sides it returns, and the maze it leaves has the same
    dimensions, exits, markers and visited flags, and the same walls but
    for the boundary walls it has opened: the right wall of the last cell
    of the row of a Right exit, the bottom wall of the last cell of the
    column of a Down exit.  Exits on the Up and Left sides change
    nothing. *)
Theorem maze_write_text_opens_exits (EPOS EDIR : rowcol_t -> rowcol_t) (mp : maze_t)
  (ofp : list Z) :
  grid_ok mp ->
  exit_in_range mp (EPOS (exit_1 mp)) (EDIR (exit_1 mp)) ->
  exit_in_range mp (EPOS (exit_2 mp)) (EDIR (exit_2 mp)) ->
  exists (mp' : maze_t) (out : list Z),
    maze_write_text EPOS EDIR mp ofp = Ret (mp', out) /\
    n_rows mp' = n_rows mp /\ n_cols mp' = n_cols mp /\
    exit_1 mp' = exit_1 mp /\ exit_2 mp' = exit_2 mp /\
    forall z, in_grid (n_rows mp) (n_cols mp) z ->
      visit (cell_at mp' z) = visit (cell_at mp z) /\
      marker (cell_at mp' z) = marker (cell_at mp z) /\
      (r_wall (cell_at mp' z) = true <->
       r_wall (cell_at mp z) = true /\
       ~ (EDIR (exit_1 mp) = DIR_R /\ z = (EPOS (exit_1 mp), n_cols mp - 1)) /\
       ~ (EDIR (exit_2 mp) = DIR_R /\ z = (EPOS (exit_2 mp), n_cols mp - 1))) /\
      (b_wall (cell_at mp' z) = true <->
       b_wall (cell_at mp z) = true /\
       ~ (EDIR (exit_1 mp) = DIR_D /\ z = (n_rows mp - 1, EPOS (exit_1 mp))) /\
       ~ (EDIR (exit_2 mp) = DIR_D /\ z = (n_rows mp - 1, EPOS (exit_2 mp)))).
Proof.
  intros Hok H1 H2.
  destruct (maze_write_text_walls EPOS EDIR mp ofp Hok H1 H2)
    as (mp' & Hrun & _ & Er & Ec & E1 & E2 & Hw).
  exists mp'. eexists. split; [exact Hrun|].
  repeat (split; [assumption|]). exact Hw.
Qed.

Lemma maze_write_text_opens_exits_witness :
  exists (mp' : maze_t) (out : list Z),
    maze_write_text EPOS_bits EDIR_bits
      (with_exits perfect_2x2 (EXIT_bits 0 DIR_L) (EXIT_bits 1 DIR_R)) [] = Ret (mp', out) /\
    n_rows mp' = 2 /\ n_cols mp' = 2 /\
    exit_1 mp' = EXIT_bits 0 DIR_L /\ exit_2 mp' = EXIT_bits 1 DIR_R /\
    forall z, in_grid 2 2 z ->
      visit (cell_at mp' z) = visit (cell_at perfect_2x2 z) /\
      marker (cell_at mp' z) = marker (cell_at perfect_2x2 z) /\
      (r_wall (cell_at mp' z) = true <->
       r_wall (cell_at perfect_2x2 z) = true /\
       ~ (EDIR_bits (EXIT_bits 0 DIR_L) = DIR_R /\
          z = (EPOS_bits (EXIT_bits 0 DIR_L), 2 - 1)) /\
       ~ (EDIR_bits (EXIT_bits 1 DIR_R) = DIR_R /\
          z = (EPOS_bits (EXIT_bits 1 DIR_R), 2 - 1))) /\
      (b_wall (cell_at mp' z) = true <->
       b_wall (cell_at perfect_2x2 z) = true /\
       ~ (EDIR_bits (EXIT_bits 0 DIR_L) = DIR_D /\
          z = (2 - 1, EPOS_bits (EXIT_bits 0 DIR_L))) /\
       ~ (EDIR_bits (EXIT_bits 1 DIR_R) = DIR_D /\
          z = (2 - 1, EPOS_bits (EXIT_bits 1 DIR_R)))).
Proof.
  apply (maze_write_text_opens_exits EPOS_bits EDIR_bits
           (with_exits perfect_2x2 (EXIT_bits 0 DIR_L) (EXIT_bits 1 DIR_R)) []).
  - exact grid_ok_perfect_2x2.
  - split; intros H; vm_compute in H; discriminate.
  - split; intros H; [vm_compute in H; discriminate|].
    vm_compute. split; [discriminate | reflexivity].
Defined.

(** X18. No writer checks that an exit lies on its side.  When the first
    exit is a Right exit whose row is past the last row, or a Down exit
    whose column is past the last column (the cell index not wrapping
    around), the cell whose wall bit [maze_write_text] clears first has an
    index at or past the end of the cell block: the store is out of
    bounds.  [maze_write_png] and [maze_write_eps] begin with the same
    store.  What a run does after such a store is not defined; it may
    well go on and draw the maze. *)
Theorem writers_exit_past_side (EPOS EDIR : rowcol_t -> rowcol_t) (mp : maze_t) :
  grid_ok mp ->
  (EDIR (exit_1 mp) = DIR_R /\ n_rows mp <= EPOS (exit_1 mp) /\
   (EPOS (exit_1 mp) + 1) * n_cols mp <= wB) \/
  (EDIR (exit_1 mp) = DIR_D /\ n_cols mp <= EPOS (exit_1 mp) /\
   (n_rows mp - 1) * n_cols mp + EPOS (exit_1 mp) < wB) ->
  exists off : rowcol_t,
    exit_store mp (EPOS (exit_1 mp)) (EDIR (exit_1 mp)) = Some off /\
    Z.of_nat (length (cells mp)) <= off < wB /\
    open_exit mp (EPOS (exit_1 mp)) (EDIR (exit_1 mp)) =
    cell_update mp off (open_wall (EDIR (exit_1 mp))) /\
    open_exit_rd mp (EPOS (exit_1 mp)) (EDIR (exit_1 mp)) =
    cell_update mp off (open_wall (EDIR (exit_1 mp))).
Proof.
  intros Hok Hcase. pose proof Hok as (Hr & Hc & Hn & Hl).
  assert (HwB : n_rows mp < wB /\ n_cols mp < wB) by nia.
  rewrite open_exit_rd_eq. unfold exit_store, open_exit, open_wall.
  destruct Hcase as [(-> & Hp & Hw) | (-> & Hp & Hw)]; cbn [Z.eqb DIR_D DIR_R Pos.eqb];
    eexists; (split; [reflexivity|]); (split; [|split; reflexivity]);
    unfold OFFSET.
  - rewrite (wrap_small (n_cols mp - 1)) by lia. rewrite wrap_small by nia. nia.
  - rewrite (wrap_small (n_rows mp - 1)) by lia. rewrite wrap_small by nia. nia.
Qed.

Lemma writers_exit_past_side_witness :
  exists off : rowcol_t,
    exit_store (with_exits perfect_2x2 (EXIT_bits 7 DIR_R) (EXIT_bits 0 DIR_L))
      (EPOS_bits (EXIT_bits 7 DIR_R)) (EDIR_bits (EXIT_bits 7 DIR_R)) = Some off /\
    Z.of_nat (length (cells perfect_2x2)) <= off < wB /\
    open_exit (with_exits perfect_2x2 (EXIT_bits 7 DIR_R) (EXIT_bits 0 DIR_L))
      (EPOS_bits (EXIT_bits 7 DIR_R)) (EDIR_bits (EXIT_bits 7 DIR_R)) =
    cell_update (with_exits perfect_2x2 (EXIT_bits 7 DIR_R) (EXIT_bits 0 DIR_L)) off
      (open_wall (EDIR_bits (EXIT_bits 7 DIR_R))) /\
    open_exit_rd (with_exits perfect_2x2 (EXIT_bits 7 DIR_R) (EXIT_bits 0 DIR_L))
      (EPOS_bits (EXIT_bits 7 DIR_R)) (EDIR_bits (EXIT_bits 7 DIR_R)) =
    cell_update (with_exits perfect_2x2 (EXIT_bits 7 DIR_R) (EXIT_bits 0 DIR_L)) off
      (open_wall (EDIR_bits (EXIT_bits 7 DIR_R))).
Proof.
  apply (writers_exit_past_side EPOS_bits EDIR_bits
           (with_exits perfect_2x2 (EXIT_bits 7 DIR_R) (EXIT_bits 0 DIR_L))).
  - exact grid_ok_perfect_2x2.
  - left. vm_compute. repeat split; discriminate.
Defined.

(** On that input the index is 15, the block having 4 cells. *)
Example writers_exit_past_side_index :
  exit_store (with_exits perfect_2x2 (EXIT_bits 7 DIR_R) (EXIT_bits 0 DIR_L))
    (EPOS_bits (EXIT_bits 7 DIR_R)) (EDIR_bits (EXIT_bits 7 DIR_R)) = Some 15.
Proof. vm_compute. reflexivity. Qed.

(** X19. [randomizer] is a source in [0, 1): when [random ()] returns a
    value from 0 to [INT_MAX], as the library says, the quotient by
    [INT_MAX + 1] is at least 0 and less than 1. *)
Theorem randomizer_in_unit_interval (INT_MAX : Z) (random : nat -> Z) :
  (forall k, 0 <= random k <= INT_MAX) -> unit_source (randomizer INT_MAX random).
Proof. exact (randomizer_unit_source INT_MAX random). Qed.

Lemma randomizer_in_unit_interval_witness :
  unit_source (randomizer 2147483647 (fun k => 2147483647 - Z.of_nat k mod 2)).
Proof.
  apply (randomizer_in_unit_interval 2147483647 (fun k => 2147483647 - Z.of_nat k mod 2)).
  intros k. pose proof (Z.mod_pos_bound (Z.of_nat k) 2 ltac:(lia)). lia.
Defined.

(** X20. The making of a maze in [main]: for a row and a column count of
    at least 1 whose product fits [unsigned int], with memory available
    and [random ()] in its range, [main] goes on with a maze of these
    dimensions that is a spanning tree of its grid with closed boundary,
    and whose exits are those chosen on the command line, or else the
    defaults of [maze_init]. *)
Theorem main_makes_tree (EXIT : rowcol_t -> Z -> rowcol_t)
  (hc : nat -> maze_node) (hs hq : nat -> rowcol_t)
  (INT_MAX : Z) (random : nat -> Z) (fuel : nat) (the_maze : maze_t)
  (cells_x cells_y : rowcol_t) (set_exit_1 set_exit_2 : bool) (e_in e_out : rowcol_t) :
  1 <= cells_x -> 1 <= cells_y -> cells_x * cells_y < wB ->
  (forall k, 0 <= random k <= INT_MAX) ->
  (4 <= fuel)%nat -> cells_x * cells_y <= Z.of_nat fuel ->
  exists mp',
    main_make EXIT (Some hc) (Some hs) (Some hq) INT_MAX random fuel the_maze
              cells_x cells_y set_exit_1 set_exit_2 e_in e_out = Ret (0, mp') /\
    n_rows mp' = cells_x /\ n_cols mp' = cells_y /\ grid_ok mp' /\
    spanning_tree mp' /\ boundary_closed mp' /\
    exit_1 mp' = (if set_exit_1 then e_in else EXIT 0 DIR_L) /\
    exit_2 mp' = (if set_exit_2 then e_out else EXIT (wrap (cells_x - 1)) DIR_R).
Proof.
  exact (main_make_spec EXIT hc hs hq INT_MAX random fuel the_maze cells_x cells_y
           set_exit_1 set_exit_2 e_in e_out).
Qed.

Lemma main_makes_tree_witness :
  exists mp',
    main_make EXIT_bits (Some (fun _ => def_node)) (Some (fun _ => 0)) (Some (fun _ => 0))
              2147483647 (fun k => Z.of_nat k * 1000003 mod 2147483648) 6 marked_1x1
              2 3 true false (EXIT_bits 1 DIR_U) 0 = Ret (0, mp') /\
    n_rows mp' = 2 /\ n_cols mp' = 3 /\ grid_ok mp' /\
    spanning_tree mp' /\ boundary_closed mp' /\
    exit_1 mp' = (if true then EXIT_bits 1 DIR_U else EXIT_bits 0 DIR_L) /\
    exit_2 mp' = (if false then 0 else EXIT_bits (wrap (2 - 1)) DIR_R).
Proof.
  apply (main_makes_tree EXIT_bits (fun _ => def_node) (fun _ => 0) (fun _ => 0)
           2147483647 (fun k => Z.of_nat k * 1000003 mod 2147483648) 6 marked_1x1
           2 3 true false (EXIT_bits 1 DIR_U) 0).
  - lia.
  - lia.
  - rewrite wB_val. lia.
  - intros k. pose proof (Z.mod_pos_bound (Z.of_nat k * 1000003) 2147483648 ltac:(lia)). lia.
  - lia.
  - lia.
Defined.

(** X21. When one of the three allocations fails, [main] returns 1 and
    leaves the maze without a cell block: a block that [maze_init] got is
    given back by [maze_clear] when [maze_generate] reports failure. *)
Theorem main_make_out_of_memory (EXIT : rowcol_t -> Z -> rowcol_t)
  (heap_cells : option (nat -> maze_node)) (heap_sets heap_queue : option (nat -> rowcol_t))
  (INT_MAX : Z) (random : nat -> Z) (fuel : nat) (the_maze : maze_t)
  (cells_x cells_y : rowcol_t) (set_exit_1 set_exit_2 : bool) (e_in e_out : rowcol_t) :
  1 <= cells_x -> 1 <= cells_y -> cells_x * cells_y < wB ->
  heap_cells = None \/ heap_sets = None \/ heap_queue = None ->
  exists m,
    main_make EXIT heap_cells heap_sets heap_queue INT_MAX random fuel the_maze
              cells_x cells_y set_exit_1 set_exit_2 e_in e_out = Ret (1, m) /\
    cells m = [].
Proof.
  exact (main_make_no_memory EXIT heap_cells heap_sets heap_queue INT_MAX random fuel
           the_maze cells_x cells_y set_exit_1 set_exit_2 e_in e_out).
Qed.

Lemma main_make_out_of_memory_witness :
  exists m,
    main_make EXIT_bits (Some (fun _ => def_node)) (Some (fun _ => 0)) None
              2147483647 (fun _ => 0) 6 marked_1x1 2 3 false false 0 0 = Ret (1, m) /\
    cells m = [].
Proof.
  apply (main_make_out_of_memory EXIT_bits (Some (fun _ => def_node)) (Some (fun _ => 0)) None
           2147483647 (fun _ => 0) 6 marked_1x1 2 3 false false 0 0).
  - lia.
  - lia.
  - rewrite wB_val. lia.
  - right. right. reflexivity.
Defined.

(** X22. A run of [main] that makes a maze of at least two cells with the
    default exits and asks for the default solution: when the exit
    encoding of maze.h decodes the two default exits, [main] solves the
    maze it has made from the first cell of the first row to the last
    cell of the last row, and the visited flags it sets are exactly those
    of the one simple path between the two. *)
Theorem main_default_run (EXIT : rowcol_t -> Z -> rowcol_t) (EPOS EDIR : rowcol_t -> Z)
  (hc : nat -> maze_node) (hs hq : nat -> rowcol_t)
  (INT_MAX : Z) (random : nat -> Z) (fuel : nat) (the_maze : maze_t)
  (cells_x cells_y : rowcol_t) (e_in e_out : rowcol_t) (src dst : cell) :
  1 <= cells_x -> 1 <= cells_y -> cells_x * cells_y < wB -> 2 <= cells_x * cells_y ->
  (forall k, 0 <= random k <= INT_MAX) ->
  (4 <= fuel)%nat -> cells_x * cells_y <= Z.of_nat fuel ->
  EPOS (EXIT 0 DIR_L) = 0 -> EDIR (EXIT 0 DIR_L) = DIR_L ->
  EPOS (EXIT (cells_x - 1) DIR_R) = cells_x - 1 ->
  EDIR (EXIT (cells_x - 1) DIR_R) = DIR_R ->
  exists (mp' : maze_t) (p : list cell) (N : nat),
    main_make EXIT (Some hc) (Some hs) (Some hq) INT_MAX random fuel the_maze
              cells_x cells_y false false e_in e_out = Ret (0, mp') /\
    walk mp' (0, 0) p (cells_x - 1, cells_y - 1) /\ NoDup ((0, 0) :: p) /\
    (forall q, walk mp' (0, 0) q (cells_x - 1, cells_y - 1) -> NoDup ((0, 0) :: q) -> q = p) /\
    forall fuel', (N <= fuel')%nat ->
      exists m,
        main_solve EPOS EDIR fuel' mp' SOLN_DEFAULT src dst = Ret (0, m) /\
        same_walls mp' m /\
        forall z, in_grid cells_x cells_y z ->
          (visit (cell_at m z) = true <-> In z ((0, 0) :: p)).
Proof.
  intros Hx Hy Hn H2 Hrand Hfuel Hfn P1 D1 P2 D2.
  destruct (main_make_spec EXIT hc hs hq INT_MAX random fuel the_maze cells_x cells_y
              false false e_in e_out Hx Hy Hn Hrand Hfuel Hfn)
    as (mp' & Hrun & Er & Ec & Hok & Htree & Hclosed & E1 & E2).
  assert (HwB : cells_x < wB /\ cells_y < wB) by nia.
  destruct (default_endpoints EXIT EPOS EDIR mp' src dst) as [Es Eg];
    try (rewrite ?Er, ?Ec; auto; lia).
  assert (Hs : in_grid (n_rows mp') (n_cols mp') (0, 0))
    by (unfold in_grid; cbn [fst snd]; lia).
  assert (Hg : in_grid (n_rows mp') (n_cols mp') (cells_x - 1, cells_y - 1))
    by (unfold in_grid; cbn [fst snd]; lia).
  assert (Hne : (0, 0) <> (cells_x - 1, cells_y - 1))
    by (intros E; inversion E; nia).
  destruct (find_path_on_tree mp' _ _ Hok Htree Hclosed Hs Hg Hne)
    as (p & N & Hw & Hnd & Hsolve).
  exists mp', p, N. split; [exact Hrun|]. split; [exact Hw|]. split; [exact Hnd|]. split.
  - intros q Hq Hndq. destruct Htree as (_ & _ & Hbr).
    exact (simple_walk_unique mp' Hbr _ _ p q Hw Hq Hnd Hndq).
  - intros fuel' Hf. destruct (Hsolve fuel' Hf) as (m & R1 & R2 & _ & R4).
    exists m. split; [|split; [exact R2|]].
    + rewrite (main_solve_in_range EPOS EDIR fuel' mp' SOLN_DEFAULT src dst
                 (0, 0) (cells_x - 1, cells_y - 1)).
      * rewrite R1. reflexivity.
      * discriminate.
      * rewrite Z.eqb_refl, Es. reflexivity.
      * rewrite Z.eqb_refl, Eg, Er, Ec. reflexivity.
      * exact Hs.
      * exact Hg.
    + intros z Hz. apply R4. rewrite Er, Ec. exact Hz.
Qed.

Lemma main_default_run_witness :
  exists (mp' : maze_t) (p : list cell) (N : nat),
    main_make EXIT_bits (Some (fun _ => def_node)) (Some (fun _ => 0)) (Some (fun _ => 0))
              2147483647 (fun k => Z.of_nat k * 1000003 mod 2147483648) 6 marked_1x1
              2 3 false false 0 0 = Ret (0, mp') /\
    walk mp' (0, 0) p (2 - 1, 3 - 1) /\ NoDup ((0, 0) :: p) /\
    (forall q, walk mp' (0, 0) q (2 - 1, 3 - 1) -> NoDup ((0, 0) :: q) -> q = p) /\
    forall fuel', (N <= fuel')%nat ->
      exists m,
        main_solve EPOS_bits EDIR_bits fuel' mp' SOLN_DEFAULT (9, 9) (9, 9) = Ret (0, m) /\
        same_walls mp' m /\
        forall z, in_grid 2 3 z ->
          (visit (cell_at m z) = true <-> In z ((0, 0) :: p)).
Proof.
  apply (main_default_run EXIT_bits EPOS_bits EDIR_bits (fun _ => def_node) (fun _ => 0)
           (fun _ => 0) 2147483647 (fun k => Z.of_nat k * 1000003 mod 2147483648) 6
           marked_1x1 2 3 0 0 (9, 9) (9, 9)).
  - lia.
  - lia.
  - rewrite wB_val. lia.
  - lia.
  - intros k. pose proof (Z.mod_pos_bound (Z.of_nat k * 1000003) 2147483648 ltac:(lia)). lia.
  - lia.
  - lia.
  - reflexivity.
  - reflexivity.
  - reflexivity.
  - reflexivity.
Defined.
